(** * Transformer-TSP50: decoding policy, attention cache and tour length

    A shallow embedding of [my_model_packages.py].

    Modelling conventions.
    - A Python call that can raise returns a [result]; the constructor of
      [exn] names the exception class.
    - A tensor of shape (n, m, ...) is a list of n rows, each a list of m
      entries; where the code reads [shape] the model carries the shape next
      to the rows ([tensor2]).
    - Floating point scalars are idealised: coordinates and lengths are real
      numbers, probabilities are rationals.  The learned numeric maps of the
      network (linear layers, normalisation, attention read-out) are
      parameters of the development.
*)

From Stdlib Require Import List ZArith QArith Reals Lia Lra Bool Arith Permutation.
Import ListNotations.

#[local] Close Scope Q_scope.
#[local] Close Scope R_scope.
#[local] Open Scope nat_scope.

(* ================================================================== *)
(** * Python exceptions *)

Inductive exn : Type :=
| IndexError
| UnboundLocalError
| ZeroDivisionError
| AttributeError
| TypeError
| RuntimeError.

Inductive result (A : Type) : Type :=
| Ok (a : A)
| Raise (e : exn).

Arguments Ok {A} a.
Arguments Raise {A} e.

Definition bind {A B : Type} (r : result A) (k : A -> result B) : result B :=
  match r with
  | Ok a => k a
  | Raise e => Raise e
  end.

Notation "x <- c ;; k" := (bind c (fun x => k))
  (at level 61, c at next level, right associativity).
Notation "' pat <- c ;; k" := (bind c (fun x => match x with pat => k end))
  (at level 61, pat pattern, c at next level, right associativity).

(** [mapM f l] runs [f] on every element, left to right, and stops at the
    first exception. *)
Fixpoint mapM {A B : Type} (f : A -> result B) (l : list A) : result (list B) :=
  match l with
  | [] => Ok []
  | a :: l' => b <- f a ;; bs <- mapM f l' ;; Ok (b :: bs)
  end.

(** Row-wise combination of two batches with equal leading dimension. *)
Fixpoint map2 {A B C : Type} (f : A -> B -> C) (l : list A) (m : list B) : list C :=
  match l, m with
  | a :: l', b :: m' => f a b :: map2 f l' m'
  | _, _ => []
  end.

(* ================================================================== *)
(** * Tensors *)

Module Torch.

(** A tensor with two leading dimensions; an entry may itself be a vector
    (the trailing dimension). *)
Record tensor2 (A : Type) : Type := Tensor2 {
  shape0 : nat;
  shape1 : nat;
  rows : list (list A)
}.

Arguments Tensor2 {A} _ _ _.
Arguments shape0 {A} _.
Arguments shape1 {A} _.
Arguments rows {A} _.

Definition wf2 {A : Type} (t : tensor2 A) : Prop :=
  length (rows t) = shape0 t /\
  Forall (fun r => length r = shape1 t) (rows t).

(** [l[i]] for a Python integer [i]: negative indices count from the end. *)
Definition py_index {A : Type} (l : list A) (i : Z) : result A :=
  let n := Z.of_nat (length l) in
  let j := if (i <? 0)%Z then (n + i)%Z else i in
  if ((0 <=? j)%Z && (j <? n)%Z)%bool then
    match nth_error l (Z.to_nat j) with
    | Some a => Ok a
    | None => Raise IndexError
    end
  else Raise IndexError.

(** [t[:, i]] for a step counter [i]. *)
Definition column {A : Type} (t : tensor2 A) (i : nat) : result (list A) :=
  if i <? shape1 t then
    mapM (fun r => match nth_error r i with
                   | Some a => Ok a
                   | None => Raise IndexError
                   end) (rows t)
  else Raise IndexError.

(** [x[arange(bsz), idx, :]]: row [b] of the result is [x[b, idx[b], :]].
    The two index vectors must have the same length. *)
Fixpoint index_rows {A : Type} (xs : list (list A)) (idx : list Z) : result (list A) :=
  match xs, idx with
  | [], [] => Ok []
  | r :: xs', i :: idx' =>
      a <- py_index r i ;; rest <- index_rows xs' idx' ;; Ok (a :: rest)
  | _, _ => Raise IndexError
  end.

End Torch.
Import Torch.

(* ================================================================== *)
(** * compute_tour_length *)

Module TourLength.

(** A city: the trailing dimension of [x], two coordinates in the
    repository's data. *)
Abbreviation city := (list R) (only parsing).

Definition Rsum (l : list R) : R := fold_right Rplus 0%R l.

(** [(a - b).pow(2).sum(dim=1).sqrt()], one value per batch row. *)
Definition sub_pow2_sum_sqrt (a b : list city) : list R :=
  map2 (fun p q => sqrt (Rsum (map2 (fun u v => ((u - v) ^ 2)%R) p q))) a b.

(** [L += d] on vectors of length bsz.  The float32 accumulation is read
    as addition of reals: the theorems on [compute_tour_length] are about
    the exact length that the code rounds, and none compares the results
    of two orders of accumulation, which float addition can tell apart. *)
Definition vplus (L d : list R) : list R := map2 Rplus L d.

(** [x[arange_vec, tour[:, i], :]] *)
Definition cities_at (x : tensor2 city) (tour : tensor2 Z) (i : nat)
  : result (list city) :=
  col <- column tour i ;;
  index_rows (rows x) col.

(** The body of [for i in range(1, nb_nodes)], over the remaining values of
    [i].  [current_cities] is [None] until its first assignment. *)
Fixpoint tour_loop (x : tensor2 city) (tour : tensor2 Z) (steps : list nat)
  (L : list R) (previous_cities : list city) (current_cities : option (list city))
  : result (list R * list city * option (list city)) :=
  match steps with
  | [] => Ok (L, previous_cities, current_cities)
  | i :: steps' =>
      cur <- cities_at x tour i ;;
      tour_loop x tour steps' (vplus L (sub_pow2_sum_sqrt cur previous_cities))
                cur (Some cur)
  end.

Definition compute_tour_length (x : tensor2 city) (tour : tensor2 Z)
  : result (list R) :=
  let bsz := shape0 x in
  let nb_nodes := shape1 x in
  first_cities <- cities_at x tour 0 ;;
  let previous_cities := first_cities in
  let L := repeat 0%R bsz in
  '(L, _, current_cities) <-
     tour_loop x tour (seq 1 (nb_nodes - 1)) L previous_cities None ;;
  match current_cities with
  | None => Raise UnboundLocalError
  | Some cur => Ok (vplus L (sub_pow2_sum_sqrt cur first_cities))
  end.

(** ** The specification's wording: length of the closed cycle *)

Definition euclid (p q : city) : R :=
  sqrt (Rsum (map2 (fun u v => ((u - v) ^ 2)%R) p q)).

(** Sum of the distances between consecutive cities. *)
Fixpoint path_length (cs : list city) : R :=
  match cs with
  | a :: (b :: _) as tl => (euclid a b + path_length tl)%R
  | _ => 0%R
  end.

(** ... plus the distance from the last city back to the first. *)
Definition cycle_length (cs : list city) : R :=
  (path_length cs + euclid (last cs []) (hd [] cs))%R.

(** The cities of one batch row in visiting order (indices in range). *)
Definition visit (xrow : list city) (trow : list Z) : list city :=
  map (fun i => match py_index xrow i with Ok c => c | Raise _ => [] end) trow.

(** The unit square of the specification and its tour. *)
Definition square : tensor2 city :=
  Tensor2 1 4 [[ [0; 0]; [1; 0]; [1; 1]; [0; 1] ]]%R.
Definition square_tour : tensor2 Z := Tensor2 1 4 [[0; 1; 2; 3]]%Z.

(** A single city. *)
Definition one_city : tensor2 city := Tensor2 1 1 [[ [0; 0] ]]%R.
Definition one_city_tour : tensor2 Z := Tensor2 1 1 [[0%Z]].

End TourLength.

(* ================================================================== *)
(** * AutoRegressiveDecoderLayer: the self-attention cache *)

Module DecoderLayer.

(** [chunk n k l]: the first [n] consecutive blocks of [k] entries of [l]. *)
Fixpoint chunk {A : Type} (n k : nat) (l : list A) : list (list A) :=
  match n with
  | 0 => []
  | S n' => firstn k l :: chunk n' k (skipn k l)
  end.

(** [l[-s:]] with Python's slice rules: for [s > 0] the last [s] entries (all
    of them when [l] is shorter); [-0] is [0], so [s = 0] keeps the whole
    list; for [s < 0] the start index is [-s], counted from the front. *)
Definition slice_last {A : Type} (s : Z) (l : list A) : list A :=
  let len := Z.of_nat (length l) in
  let start := if (0 <? s)%Z then Z.max (len - s) 0 else Z.min (- s) len in
  skipn (Z.to_nat start) l.

Section Layer.

(** One embedding vector (the trailing [dim_emb] floats of a tensor). *)
Variable vec : Type.
(** One batch row of the cross-attention keys or values. *)
Variable att : Type.

(** A cache tensor of shape (n, L, dim_emb): [n] rows of [L] vectors. *)
Definition cache : Type := list (list vec).

(** The fields of the class the claims depend on.  The linear maps and
    the rest of the numeric read-out act on one batch row at a time:
    [Wk_selfatt], [Wv_selfatt] are the key and value projections, and
    [read_out h K V K_att V_att mask] is everything [forward] computes
    from the updated cache on (self-attention, cross-attention with the
    mask, MLP, the three normalisations). *)
Record layer : Type := Layer {
  segm_len : option Z;
  Wk_selfatt : vec -> vec;
  Wv_selfatt : vec -> vec;
  read_out : vec -> list vec -> list vec -> att -> att -> list bool -> vec;
  K_sa : option cache;
  V_sa : option cache
}.

Definition set_cache (ly : layer) (K V : option cache) : layer :=
  Layer (segm_len ly) (Wk_selfatt ly) (Wv_selfatt ly) (read_out ly) K V.

Definition reset_selfatt_keys_values (ly : layer) : layer :=
  set_cache ly None None.

(** [key_len] of [reorder_selfatt_keys_values]. *)
Definition key_len (ly : layer) (t : nat) : Z :=
  match segm_len ly with
  | Some s => Z.min s (Z.of_nat t + 1)
  | None => (Z.of_nat t + 1)%Z
  end.

(** [c.view(n, m, k, dim_emb)]: the same entries in row-major order, which
    needs [n * m * k] vectors. *)
Definition view4 (c : cache) (n m k : nat) : result (list (list (list vec))) :=
  let flat := concat c in
  if length flat =? n * m * k
  then Ok (chunk n m (chunk (n * m) k flat))
  else Raise RuntimeError.

(** [new[b, zero_to_B, :, :] = tmp[b, idx[b], :, :]] for one batch row. *)
Definition gather_beams {A : Type} (tmp : list A) (idx : list nat) : result (list A) :=
  mapM (fun i => match nth_error tmp i with
                 | Some a => Ok a
                 | None => Raise IndexError
                 end) idx.

(** The body of [reorder_selfatt_keys_values] for one of the two caches:
    view per original batch row, clone, gather into a zero tensor of shape
    (bsz, B, key_len, dim_emb), view back. *)
Definition reorder_cache (kl : Z) (idx_top_beams : tensor2 nat) (B2 : nat) (c : cache)
  : result cache :=
  let bsz := shape0 idx_top_beams in
  if (kl <? 0)%Z then Raise RuntimeError else
  tmp <- view4 c bsz B2 (Z.to_nat kl) ;;
  new <- mapM (fun p => gather_beams (fst p) (snd p))
              (combine tmp (rows idx_top_beams)) ;;
  Ok (concat new).

Definition reorder_selfatt_keys_values (t : nat) (idx_top_beams : tensor2 nat)
  (ly : layer) : result layer :=
  let kl := key_len ly t in
  let bsz := shape0 idx_top_beams in
  match K_sa ly with
  | None => Raise AttributeError
  | Some K =>
      if bsz =? 0 then Raise ZeroDivisionError else
      let B2 := length K / bsz in
      K' <- reorder_cache kl idx_top_beams B2 K ;;
      match V_sa ly with
      | None => Raise AttributeError
      | Some V =>
          V' <- reorder_cache kl idx_top_beams B2 V ;;
          Ok (set_cache ly (Some K') (Some V'))
      end
  end.

(** [torch.repeat_interleave(c, B, dim=0)] *)
Definition repeat_interleave {A : Type} (c : list A) (B : nat) : list A :=
  flat_map (fun r => repeat r B) c.

Definition repeat_selfatt_keys_values (B : nat) (ly : layer) : result layer :=
  match K_sa ly, V_sa ly with
  | Some K, Some V =>
      Ok (set_cache ly (Some (repeat_interleave K B)) (Some (repeat_interleave V B)))
  | _, _ => Raise TypeError
  end.

(** [torch.cat([c, new], dim=1)] *)
Definition cat1 (c : cache) (new : list vec) : result cache :=
  if length c =? length new
  then Ok (map2 (fun r v => r ++ [v]) c new)
  else Raise RuntimeError.

(** The cache update at the head of [forward]: the test is on [K_sa]
    alone. *)
Definition append_cache (K V : option cache) (k_sa v_sa : list vec)
  : result (cache * cache) :=
  match K with
  | None => Ok (map (fun v => [v]) k_sa, map (fun v => [v]) v_sa)
  | Some K0 =>
      K' <- cat1 K0 k_sa ;;
      match V with
      | None => Raise TypeError
      | Some V0 => V' <- cat1 V0 v_sa ;; Ok (K', V')
      end
  end.

(** [c[:, -segm_len:, :]] when a window is configured. *)
Definition truncate (ly : layer) (c : cache) : cache :=
  match segm_len ly with
  | Some s => map (slice_last s) c
  | None => c
  end.

(** Row-wise application of the numeric read-out; the batched products
    need the same number of rows in every operand. *)
Fixpoint read_rows (f : vec -> list vec -> list vec -> att -> att -> list bool -> vec)
  (h : list vec) (K V : cache) (K_att V_att : list att) (mask : list (list bool))
  : result (list vec) :=
  match h, K, V, K_att, V_att, mask with
  | [], [], [], [], [], [] => Ok []
  | h0 :: h', k0 :: K', v0 :: V', ka :: K_att', va :: V_att', m :: mask' =>
      rest <- read_rows f h' K' V' K_att' V_att' mask' ;;
      Ok (f h0 k0 v0 ka va m :: rest)
  | _, _, _, _, _, _ => Raise RuntimeError
  end.

Definition forward (ly : layer) (h_t : list vec) (K_att V_att : list att)
  (mask : list (list bool)) : result (list vec * layer) :=
  let k_sa := map (Wk_selfatt ly) h_t in
  let v_sa := map (Wv_selfatt ly) h_t in
  '(K, V) <- append_cache (K_sa ly) (V_sa ly) k_sa v_sa ;;
  let K := truncate ly K in
  let V := truncate ly V in
  h <- read_rows (read_out ly) h_t K V K_att V_att mask ;;
  Ok (h, set_cache ly (Some K) (Some V)).

(** [size(1)] of a cache tensor: every row has this many entries. *)
Definition cache_len (c : option cache) (L : nat) : Prop :=
  exists rows, c = Some rows /\ Forall (fun r => length r = L) rows.

(** The cache length the specification states after [n] calls of
    [forward]: [min(n, segm_len)] under a window, [n] otherwise. *)
Definition window (segm : option Z) (n : nat) : nat :=
  match segm with
  | Some s => Z.to_nat (Z.min (Z.of_nat n) s)
  | None => n
  end.

(** The calls a decode makes on one layer between two resets. *)
Inductive op : Type :=
| OpForward (h_t : list vec) (K_att V_att : list att) (mask : list (list bool))
| OpRepeat (B : nat)
| OpReorder (idx_top_beams : tensor2 nat).

Definition is_forward (o : op) : bool :=
  match o with OpForward _ _ _ _ => true | _ => false end.

(** Number of [forward] calls in a sequence. *)
Definition forwards (ops : list op) : nat := length (filter is_forward ops).

(** [run_ops ly n ops]: the layer after [ops], [n] being the number of
    [forward] calls already made.  As in [TSP_net.forward], a reorder that
    follows the (t+1)-th [forward] is called with step index [t]. *)
Fixpoint run_ops (ly : layer) (n : nat) (ops : list op) : result layer :=
  match ops with
  | [] => Ok ly
  | OpForward h_t K_att V_att mask :: ops' =>
      '(_, ly') <- forward ly h_t K_att V_att mask ;;
      run_ops ly' (S n) ops'
  | OpRepeat B :: ops' =>
      ly' <- repeat_selfatt_keys_values B ly ;;
      run_ops ly' n ops'
  | OpReorder idx :: ops' =>
      ly' <- reorder_selfatt_keys_values (n - 1) idx ly ;;
      run_ops ly' n ops'
  end.

End Layer.

Arguments Layer {vec att} _ _ _ _ _ _.
Arguments segm_len {vec att} _.
Arguments Wk_selfatt {vec att} _.
Arguments Wv_selfatt {vec att} _.
Arguments read_out {vec att} _.
Arguments K_sa {vec att} _.
Arguments V_sa {vec att} _.
Arguments set_cache {vec att} _ _ _.
Arguments reset_selfatt_keys_values {vec att} _.
Arguments key_len {vec att} _ _.
Arguments view4 {vec} _ _ _ _.
Arguments reorder_cache {vec} _ _ _ _.
Arguments cat1 {vec} _ _.
Arguments reorder_selfatt_keys_values {vec att} _ _ _.
Arguments repeat_selfatt_keys_values {vec att} _ _.
Arguments append_cache {vec} _ _ _ _.
Arguments truncate {vec att} _ _.
Arguments read_rows {vec att} _ _ _ _ _ _ _.
Arguments forward {vec att} _ _ _ _ _.
Arguments cache_len {vec} _ _.
Arguments OpForward {vec att} _ _ _ _.
Arguments OpRepeat {vec att} _.
Arguments OpReorder {vec att} _.
Arguments forwards {vec att} _.
Arguments run_ops {vec att} _ _ _.

(** A small layer on numbers, for running the definitions: keys are the
    queries, values the queries shifted by 100. *)
Definition toy_layer (segm : option Z) : layer nat unit :=
  Layer segm (fun v => v) (fun v => v + 100) (fun h _ _ _ _ _ => h) None None.

(** A decode on [toy_layer]: two steps on a batch of 2, widening to 2
    beams, a third step, a reorder that keeps beam 1 twice in row 0 and
    swaps the beams of row 1, and a fourth step. *)
Definition toy_ops : list (op nat unit) :=
  [ OpForward [1; 2] [tt; tt] [tt; tt] [[false]; [false]];
    OpForward [3; 4] [tt; tt] [tt; tt] [[false]; [false]];
    OpRepeat 2;
    OpForward [5; 6; 7; 8] [tt; tt; tt; tt] [tt; tt; tt; tt]
              [[false]; [false]; [false]; [false]];
    OpReorder (Tensor2 2 2 [[1; 1]; [1; 0]]);
    OpForward [9; 10; 11; 12] [tt; tt; tt; tt] [tt; tt; tt; tt]
              [[false]; [false]; [false]; [false]] ].

End DecoderLayer.

(* ================================================================== *)
(** * myMHA: the attention primitive *)

Module MHA.
Import DecoderLayer TourLength.

(** The fill value of [masked_fill], [float('-1e9')]. *)
Definition neg_1e9 : R := (-1000000000)%R.

Definition dot (u v : list R) : R := Rsum (map2 Rmult u v).

(** Largest entry of a row (0 on an empty row). *)
Definition row_max (l : list R) : R := fold_right Rmax (hd 0%R l) l.

(** [s.masked_fill(m, v)] on one row; the two rows have the same length. *)
Definition masked_fill (s : list R) (m : list bool) (v : R) : result (list R) :=
  if length s =? length m
  then Ok (map2 (fun x (b : bool) => if b then v else x) s m)
  else Raise RuntimeError.

(** Sum of rows of equal length [n], entry by entry. *)
Definition sum_rows (n : nat) (ws : list (list R)) : list R :=
  fold_right (map2 Rplus) (repeat 0%R n) ws.

Section Attention.

(** The two transcendental functions of the float library.  They are
    parameters, so that what the mask relies on -- [exp] rounds to exactly
    0 far enough below 0 -- can be stated. *)
Variable expf : R -> R.
Variable tanhf : R -> R.

(** [torch.softmax(l, dim=-1)], computed as the library does, relative to
    the largest entry. *)
Definition softmax (l : list R) : list R :=
  let m := row_max l in
  let e := map (fun x => expf (x - m)) l in
  map (fun y => (y / Rsum e)%R) e.

(** Lines 86-93 for one query row [q] against the keys [Ks] of the same
    row: scaled dot products (the batched product needs keys of the width
    of the query), then the optional [clip * tanh], then the optional
    mask. *)
Definition logits_row (clip_value : option R) (mrow : option (list bool))
  (q : list R) (Ks : list (list R)) : result (list R) :=
  if forallb (fun k => length k =? length q) Ks then
    let attn := map (fun k => (dot q k / sqrt (INR (length q)))%R) Ks in
    let attn := match clip_value with
                | Some c => map (fun x => (c * tanhf x)%R) attn
                | None => attn
                end in
    match mrow with
    | Some m => masked_fill attn m neg_1e9
    | None => Ok attn
    end
  else Raise RuntimeError.

(** One row of the batched computation (one head): attention weights and
    attended vector [sum_j w_j * V_j] of width [dh]. *)
Definition attend_row (clip_value : option R) (mrow : option (list bool))
  (dh : nat) (q : list R) (Ks Vs : list (list R)) : result (list R * list R) :=
  l <- logits_row clip_value mrow q Ks ;;
  let w := softmax l in
  if length w =? length Vs then
    Ok (fold_right (map2 Rplus) (repeat 0%R dh)
          (map2 (fun wj v => map (Rmult wj) v) w Vs), w)
  else Raise RuntimeError.

(** The heads of one vector: [view(bsz*nb_heads, emd_dim//nb_heads, .)]
    cuts it into [nb_heads] consecutive blocks. *)
Definition split_heads (nb_heads emd_dim : nat) (v : list R) : result (list (list R)) :=
  if (nb_heads * (emd_dim / nb_heads) =? emd_dim) && (length v =? emd_dim)
  then Ok (chunk nb_heads (emd_dim / nb_heads) v)
  else Raise RuntimeError.

(** [transpose] of a list of [n] rows of [nb_heads] blocks into [nb_heads]
    lists of [n] blocks. *)
Definition heads_of (nb_heads : nat) (rows_blocks : list (list (list R)))
  : list (list (list R)) :=
  map (fun h => map (fun blocks => nth h blocks []) rows_blocks) (seq 0 nb_heads).

(** [myMHA] for one batch row.  Row [b * nb_heads + h] of the code's
    reshaped tensors is head [h] of batch row [b]; the repeated mask gives
    every head of a row the mask of that row. *)
Definition myMHA_row (nb_heads emd_dim : nat) (clip_value : option R)
  (mrow : option (list bool)) (q : list R) (Ks Vs : list (list R))
  : result (list R * list R) :=
  if 1 <? nb_heads then
    qh <- split_heads nb_heads emd_dim q ;;
    Kb <- mapM (split_heads nb_heads emd_dim) Ks ;;
    Vb <- mapM (split_heads nb_heads emd_dim) Vs ;;
    let Kh := heads_of nb_heads Kb in
    let Vh := heads_of nb_heads Vb in
    per_head <- mapM (fun p => attend_row clip_value mrow (emd_dim / nb_heads)
                                 (fst (fst p)) (snd (fst p)) (snd p))
                     (combine (combine qh Kh) Vh) ;;
    let attn_output := concat (map fst per_head) in
    let attn_weights :=
      map (fun s => (s / INR nb_heads)%R)
          (sum_rows (length Ks) (map snd per_head)) in
    Ok (attn_output, attn_weights)
  else attend_row clip_value mrow emd_dim q Ks Vs.

(** The rows that enter [torch.softmax] (line 94) for one batch row, one
    per head: the scores of [myMHA_row] after the clip and the mask. *)
Definition head_logits (nb_heads emd_dim : nat) (clip_value : option R)
  (mrow : option (list bool)) (q : list R) (Ks : list (list R))
  : result (list (list R)) :=
  if 1 <? nb_heads then
    qh <- split_heads nb_heads emd_dim q ;;
    Kb <- mapM (split_heads nb_heads emd_dim) Ks ;;
    mapM (fun p => logits_row clip_value mrow (fst p) (snd p))
         (combine qh (heads_of nb_heads Kb))
  else
    l <- logits_row clip_value mrow q Ks ;;
    Ok [l].

(** [attn_weights] of one batch row of [n] keys from the softmax rows of
    its heads: their mean with several heads, the row itself with one. *)
Definition mean_of_heads (nb_heads n : nat) (ws : list (list R)) : list R :=
  if 1 <? nb_heads then map (fun s => (s / INR nb_heads)%R) (sum_rows n ws)
  else hd [] ws.

(** [zip] of the operands of one call, row by row. *)
Fixpoint mha_rows (nb_heads emd_dim : nat) (clip_value : option R)
  (Q : list (list R)) (K V : list (list (list R))) (mask : option (list (list bool)))
  : result (list (list R * list R)) :=
  match Q, K, V with
  | [], [], [] =>
      match mask with
      | Some (_ :: _) => Raise RuntimeError
      | _ => Ok []
      end
  | q :: Q', Ks :: K', Vs :: V' =>
      match mask with
      | None =>
          r <- myMHA_row nb_heads emd_dim clip_value None q Ks Vs ;;
          rest <- mha_rows nb_heads emd_dim clip_value Q' K' V' None ;;
          Ok (r :: rest)
      | Some (m :: mask') =>
          r <- myMHA_row nb_heads emd_dim clip_value (Some m) q Ks Vs ;;
          rest <- mha_rows nb_heads emd_dim clip_value Q' K' V' (Some mask') ;;
          Ok (r :: rest)
      | Some [] => Raise RuntimeError
      end
  | _, _, _ => Raise RuntimeError
  end.

(** [myMHA(Q, K, V, nb_heads, mask, clip_value)]; [emd_dim] is
    [K.size(2)].  Returns [(attn_output, attn_weights)]. *)
Definition myMHA (Q : list (list R)) (K V : list (list (list R)))
  (nb_heads emd_dim : nat) (mask : option (list (list bool)))
  (clip_value : option R) : result (list (list R) * list (list R)) :=
  rs <- mha_rows nb_heads emd_dim clip_value Q K V mask ;;
  Ok (map fst rs, map snd rs).

End Attention.

(** A float-like [exp]: the real exponential, rounded to 0 from 104 below
    0 on (single precision underflows there). *)
Definition exp_underflow (x : R) : R :=
  if Rle_dec x (-104) then 0%R else exp x.

End MHA.

(* ================================================================== *)
(** * Transformer_decoder_net *)

Module DecoderNet.
Import Torch.

Section Net.

Variable vec : Type.
Variable att : Type.
(** A probability (one float of [prob_next_node]). *)
Variable prob : Type.

(** [decoder_layers] are the [nb_layers_decoder - 1] intermediate layers.
    [slice_att l] is [K_att[:, :, l*dim_emb:(l+1)*dim_emb]] on one batch
    row, and [attn_final q K V m] the attention weights
    [myMHA(q, K, V, 1, m, 10)[1]] of the final layer on one batch row. *)
Record decoder_net : Type := Decoder {
  nb_layers_decoder : nat;
  decoder_layers : list (DecoderLayer.layer vec att);
  slice_att : nat -> att -> att;
  Wq_final : vec -> vec;
  attn_final : vec -> att -> att -> list bool -> list prob
}.

Definition set_layers (d : decoder_net) (ls : list (DecoderLayer.layer vec att))
  : decoder_net :=
  Decoder (nb_layers_decoder d) ls (slice_att d) (Wq_final d) (attn_final d).

(** [for l in range(n): f(decoder_layers[l])] *)
Fixpoint for_layers (f : DecoderLayer.layer vec att -> result (DecoderLayer.layer vec att))
  (n : nat) (ls : list (DecoderLayer.layer vec att))
  : result (list (DecoderLayer.layer vec att)) :=
  match n with
  | 0 => Ok ls
  | S n' =>
      match ls with
      | [] => Raise IndexError
      | ly :: ls' =>
          ly' <- f ly ;;
          rest <- for_layers f n' ls' ;;
          Ok (ly' :: rest)
      end
  end.

Definition reset_selfatt_keys_values (d : decoder_net) : result decoder_net :=
  ls <- for_layers (fun ly => Ok (DecoderLayer.reset_selfatt_keys_values ly))
                   (nb_layers_decoder d - 1) (decoder_layers d) ;;
  Ok (set_layers d ls).

Definition reorder_selfatt_keys_values (t : nat) (idx_top_beams : tensor2 nat)
  (d : decoder_net) : result decoder_net :=
  ls <- for_layers (DecoderLayer.reorder_selfatt_keys_values t idx_top_beams)
                   (nb_layers_decoder d - 1) (decoder_layers d) ;;
  Ok (set_layers d ls).

Definition repeat_selfatt_keys_values (B : nat) (d : decoder_net)
  : result decoder_net :=
  ls <- for_layers (DecoderLayer.repeat_selfatt_keys_values B)
                   (nb_layers_decoder d - 1) (decoder_layers d) ;;
  Ok (set_layers d ls).

(** The iterations [l < nb_layers_decoder - 1] of the loop of [forward]:
    [n] layers remain, the next one has index [l]. *)
Fixpoint forward_layers (d : decoder_net) (l n : nat)
  (ls : list (DecoderLayer.layer vec att)) (h_t : list vec)
  (K_att V_att : list att) (mask : list (list bool))
  : result (list vec * list (DecoderLayer.layer vec att)) :=
  match n with
  | 0 => Ok (h_t, ls)
  | S n' =>
      match ls with
      | [] => Raise IndexError
      | ly :: ls' =>
          '(h, ly') <- DecoderLayer.forward ly h_t (map (slice_att d l) K_att)
                         (map (slice_att d l) V_att) mask ;;
          '(h', rest) <- forward_layers d (S l) n' ls' h K_att V_att mask ;;
          Ok (h', ly' :: rest)
      end
  end.

(** The final layer, row by row; the batched product and the mask need the
    same number of rows in every operand. *)
Fixpoint final_rows (f : vec -> att -> att -> list bool -> list prob)
  (q : list vec) (K V : list att) (mask : list (list bool))
  : result (list (list prob)) :=
  match q, K, V, mask with
  | [], [], [], [] => Ok []
  | q0 :: q', k0 :: K', v0 :: V', m :: mask' =>
      rest <- final_rows f q' K' V' mask' ;;
      Ok (f q0 k0 v0 m :: rest)
  | _, _, _, _ => Raise RuntimeError
  end.

(** [forward]: returns [prob_next_node] and the decoder with the updated
    caches.  Without any layer [attn_weights] is never assigned. *)
Definition forward (d : decoder_net) (h_t : list vec) (K_att V_att : list att)
  (mask : list (list bool)) : result (list (list prob) * decoder_net) :=
  '(h_t, ls) <- forward_layers d 0 (nb_layers_decoder d - 1) (decoder_layers d)
                  h_t K_att V_att mask ;;
  match nb_layers_decoder d with
  | 0 => Raise UnboundLocalError
  | S l =>
      let q_final := map (Wq_final d) h_t in
      attn_weights <- final_rows (attn_final d) q_final
                        (map (slice_att d l) K_att) (map (slice_att d l) V_att) mask ;;
      Ok (attn_weights, set_layers d ls)
  end.

End Net.

Arguments Decoder {vec att prob} _ _ _ _ _.
Arguments nb_layers_decoder {vec att prob} _.
Arguments decoder_layers {vec att prob} _.
Arguments slice_att {vec att prob} _ _ _.
Arguments Wq_final {vec att prob} _ _.
Arguments attn_final {vec att prob} _ _ _ _ _.
Arguments set_layers {vec att prob} _ _.
Arguments for_layers {vec att} _ _ _.
Arguments reset_selfatt_keys_values {vec att prob} _.
Arguments reorder_selfatt_keys_values {vec att prob} _ _ _.
Arguments repeat_selfatt_keys_values {vec att prob} _ _.
Arguments forward_layers {vec att prob} _ _ _ _ _ _ _ _.
Arguments final_rows {vec att prob} _ _ _ _ _.
Arguments forward {vec att prob} _ _ _ _ _.

End DecoderNet.

(* ================================================================== *)
(** * TSP_net.forward: greedy and beam-search decoding *)

Module TSPNet.
Import Torch.

(** Strict [zip]-and-map: the two operands have the same number of rows. *)
Fixpoint mapM2 {A B C : Type} (f : A -> B -> result C) (l : list A) (m : list B)
  : result (list C) :=
  match l, m with
  | [], [] => Ok []
  | a :: l', b :: m' => c <- f a b ;; rest <- mapM2 f l' m' ;; Ok (c :: rest)
  | _, _ => Raise IndexError
  end.

(** [l[i] = a] *)
Definition set_nth {A : Type} (i : nat) (a : A) (l : list A) : result (list A) :=
  if i <? length l then Ok (firstn i l ++ a :: skipn (S i) l) else Raise IndexError.

(** [l[i]] for an index tensor entry [i >= 0]. *)
Definition get_nth {A : Type} (l : list A) (i : nat) : result A :=
  match nth_error l i with
  | Some a => Ok a
  | None => Raise IndexError
  end.

(** [t.view(n, m, k)] of a tensor given by its rows: the same entries in
    row-major order, which needs [n * m * k] of them. *)
Definition view3 {A : Type} (t : list (list A)) (n m k : nat)
  : result (list (list (list A))) :=
  let flat := concat t in
  if length flat =? n * m * k
  then Ok (DecoderLayer.chunk n m (DecoderLayer.chunk (n * m) k flat))
  else Raise RuntimeError.

(** [torch.stack(cols, dim=1)] of a Python list of vectors: row [b] collects
    entry [b] of every vector; an empty list is an error. *)
Fixpoint stack1 {A : Type} (cols : list (list A)) : result (list (list A)) :=
  match cols with
  | [] => Raise RuntimeError
  | [c] => Ok (map (fun a => [a]) c)
  | c :: cols' =>
      rest <- stack1 cols' ;;
      if length c =? length rest then Ok (map2 cons c rest) else Raise RuntimeError
  end.

(** The [for] loops of [forward]: [loop_trace body ts s] runs [body t] for
    the values [t] of [ts] and records the local variables after every
    iteration; the code continues with the last record. *)
Fixpoint loop_trace {S : Type} (body : nat -> S -> result S) (ts : list nat) (s : S)
  : result (list S) :=
  match ts with
  | [] => Ok []
  | t :: ts' =>
      s' <- body t s ;;
      rest <- loop_trace body ts' s' ;;
      Ok (s' :: rest)
  end.

(** Floats: a probability [prob] and a log-probability [score], with the
    float operations the decoding uses: [torch.log], addition, the constant
    0.0 and the two orders. *)
Class FloatOps (prob score : Type) : Type := {
  log : prob -> score;
  sadd : score -> score -> score;
  szero : score;
  pleb : prob -> prob -> bool;
  sleb : score -> score -> bool
}.

Section Policy.

(** One entry of the trailing dimension of [x]. *)
Context {coord : Type}.
Context {vec att : Type}.
Context {prob score : Type} {float_ops : FloatOps prob score}.
(** [Categorical(prob_next_node).sample()] at step [t]: the random draw is
    an oracle. *)
Variable sample : nat -> list (list prob) -> list nat.

(** [h_encoder_of x] is the encoder output [h_encoder] for the input [x]
    (input embedding, start placeholder, encoder), of shape
    (bsz, nb_nodes+1, dim_emb); [WK_att_decoder], [WV_att_decoder] act on
    one batch row; [PE] has [max_len_PE] rows. *)
Record tsp_net : Type := TSPNet {
  h_encoder_of : tensor2 coord -> list (list vec);
  WK_att_decoder : list vec -> att;
  WV_att_decoder : list vec -> att;
  PE : list vec;
  vadd : vec -> vec -> vec;
  decoder : DecoderNet.decoder_net vec att prob
}.

(** ** Selection primitives *)

(** [torch.argmax] on one row: the first index of the largest entry. *)
Fixpoint argmax_from (l : list prob) (i : nat) (best : prob) (bi : nat) : nat :=
  match l with
  | [] => bi
  | p :: l' =>
      if pleb p best then argmax_from l' (S i) best bi
      else argmax_from l' (S i) p i
  end.

Definition argmax (l : list prob) : result nat :=
  match l with
  | [] => Raise IndexError
  | p :: l' => Ok (argmax_from l' 1 p 0)
  end.

(** Insertion into a list sorted by decreasing score; among equal scores
    the entry inserted last comes first. *)
Fixpoint insert_desc (x : nat * score) (l : list (nat * score)) : list (nat * score) :=
  match l with
  | [] => [x]
  | y :: l' =>
      if sleb (snd y) (snd x) then x :: y :: l' else y :: insert_desc x l'
  end.

(** Indices and scores by decreasing score, equal scores by increasing
    index.  The library documents no order among equal entries: [is_topk]
    below states what holds of every such order, and the theorem on the
    tours the beam search returns under equal scores ranges over it. *)
Definition sort_desc (l : list score) : list (nat * score) :=
  fold_right insert_desc [] (combine (seq 0 (length l)) l).

(** [torch.topk(l, k)] on one row: pairs (index, value). *)
Definition topk (k : nat) (l : list score) : result (list (nat * score)) :=
  if k <=? length l then Ok (firstn k (sort_desc l)) else Raise RuntimeError.

(** No entry exceeds an earlier one. *)
Fixpoint best_first (l : list score) : Prop :=
  match l with
  | [] => True
  | a :: tl => Forall (fun b => sleb b a = true) tl /\ best_first tl
  end.

(** What [torch.topk] promises on one row, whatever the order it gives to
    equal entries: a request for at most [length l] entries returns, and
    what is returned are the first [k] (index, value) pairs of some
    arrangement of the whole row by decreasing value. *)
Definition is_topk (torch_topk : nat -> list score -> result (list (nat * score)))
  : Prop :=
  forall k l,
    (k <= length l -> exists r, torch_topk k l = Ok r) /\
    (forall r, torch_topk k l = Ok r ->
       length r = k /\
       exists rest,
         Permutation (r ++ rest) (combine (seq 0 (length l)) l) /\
         best_first (map snd (r ++ rest))).

(** ** Greedy decoding (lines 346-387) *)

Record greedy_state : Type := GreedyState {
  g_h_t : list vec;
  g_mask_visited_nodes : list (list bool);
  g_tours : list (list nat);
  g_sumLogProbOfActions : list (list score);
  g_decoder : DecoderNet.decoder_net vec att prob
}.

(** Initial query and mask: the start placeholder, index [nb_nodes]. *)
Definition start_query (net : tsp_net) (h_encoder : list (list vec)) (bsz nb_nodes : nat)
  : result (list vec * list (list bool)) :=
  let idx_start_placeholder := repeat nb_nodes bsz in
  h <- index_rows h_encoder (map Z.of_nat idx_start_placeholder) ;;
  pe0 <- py_index (PE net) 0 ;;
  let h_start := map (fun v => vadd net v pe0) h in
  let mask_visited_nodes := repeat (repeat false (nb_nodes + 1)) bsz in
  mask_visited_nodes <- mapM2 (fun m i => set_nth i true m)
                          mask_visited_nodes idx_start_placeholder ;;
  Ok (h_start, mask_visited_nodes).

(** One iteration of [for t in range(nb_nodes)]. *)
Definition greedy_body (net : tsp_net) (deterministic : bool)
  (h_encoder : list (list vec)) (K_att_decoder V_att_decoder : list att)
  (t : nat) (s : greedy_state) : result greedy_state :=
  '(prob_next_node, dec) <-
     DecoderNet.forward (g_decoder s) (g_h_t s) K_att_decoder V_att_decoder
                        (g_mask_visited_nodes s) ;;
  idx <- (if deterministic then mapM argmax prob_next_node
          else Ok (sample t prob_next_node)) ;;
  ProbOfChoices <- mapM2 get_nth prob_next_node idx ;;
  h_t <- index_rows h_encoder (map Z.of_nat idx) ;;
  pe <- py_index (PE net) (Z.of_nat t + 1) ;;
  let h_t := map (fun v => vadd net v pe) h_t in
  mask_visited_nodes <- mapM2 (fun m i => set_nth i true m)
                          (g_mask_visited_nodes s) idx ;;
  Ok (GreedyState h_t mask_visited_nodes (g_tours s ++ [idx])
        (g_sumLogProbOfActions s ++ [map log ProbOfChoices]) dec).

(** The states after every step of the greedy decode. *)
Definition greedy_trace (net : tsp_net) (deterministic : bool)
  (h_encoder : list (list vec)) (K_att_decoder V_att_decoder : list att)
  (bsz nb_nodes : nat) : result (greedy_state * list greedy_state) :=
  '(h_start, mask_visited_nodes) <- start_query net h_encoder bsz nb_nodes ;;
  dec <- DecoderNet.reset_selfatt_keys_values (decoder net) ;;
  let s0 := GreedyState h_start mask_visited_nodes [] [] dec in
  trace <- loop_trace (greedy_body net deterministic h_encoder
                         K_att_decoder V_att_decoder) (seq 0 nb_nodes) s0 ;;
  Ok (s0, trace).

Definition greedy_search (net : tsp_net) (deterministic : bool)
  (h_encoder : list (list vec)) (K_att_decoder V_att_decoder : list att)
  (bsz nb_nodes : nat)
  : result (list (list nat) * list score * DecoderNet.decoder_net vec att prob) :=
  '(s0, trace) <- greedy_trace net deterministic h_encoder
                    K_att_decoder V_att_decoder bsz nb_nodes ;;
  let s := last trace s0 in
  sumLogProbOfActions <- stack1 (g_sumLogProbOfActions s) ;;
  let sumLogProbOfActions := map (fun r => fold_left sadd r szero) sumLogProbOfActions in
  tours <- stack1 (g_tours s) ;;
  Ok (tours, sumLogProbOfActions, g_decoder s).

(** ** Beam search (lines 390-511) *)

(** The local variables that survive an iteration of the loop. *)
Record beam_state : Type := BeamState {
  b_h_t : list (list vec);
  b_mask_visited_nodes : list (list (list bool));
  b_tours : list (list (list nat));
  b_sum_scores : list (list score);
  b_idx_top_beams : list (list nat);
  b_K_att_decoder : list att;
  b_V_att_decoder : list att;
  b_decoder : DecoderNet.decoder_net vec att prob
}.

(** [new[b, zero_to_B, :] = tmp[b, idx[b], :]] for every batch row. *)
Definition gather_rows {A : Type} (tmp : list (list A)) (idx : list (list nat))
  : result (list (list A)) :=
  mapM2 DecoderLayer.gather_beams tmp idx.

(** [m[b, zero_to_B, idx[b]] = a] for every batch row. *)
Definition set_rows {A : Type} (a : A) (m : list (list (list A))) (idx : list (list nat))
  : result (list (list (list A))) :=
  mapM2 (mapM2 (fun r i => set_nth i a r)) m idx.

(** [tours[:, :, t] = idx] *)
Definition set_column (t : nat) (tours : list (list (list nat))) (idx : list (list nat))
  : result (list (list (list nat))) :=
  mapM2 (mapM2 (fun r i => set_nth t i r)) tours idx.

(** [torch.topk] is a parameter [torch_topk] of the steps below, so that
    a statement can range over the orders the library may give to equal
    scores; [beam_step0], [beam_step], ..., [forward] are the steps with
    [topk]. *)

(** The branch [t == 0]. *)
Definition beam_step0_with
  (torch_topk : nat -> list score -> result (list (nat * score)))
  (net : tsp_net) (h_encoder : list (list vec))
  (K_att_decoder_tmp V_att_decoder_tmp : list att) (bsz nb_nodes B : nat)
  (dec : DecoderNet.decoder_net vec att prob) : result beam_state :=
  let t := 0 in
  let B_t0 := Nat.min B nb_nodes in
  '(h_t, mask_visited_nodes) <- start_query net h_encoder bsz nb_nodes ;;
  '(prob_next_node, dec) <-
     DecoderNet.forward dec h_t K_att_decoder_tmp V_att_decoder_tmp mask_visited_nodes ;;
  let score_t := map (map log) prob_next_node in
  let sum_scores := score_t in
  top <- mapM (torch_topk B_t0) sum_scores ;;
  let top_val := map (map snd) top in
  let top_idx := map (map fst) top in
  let sum_scores := top_val in
  let mask_visited_nodes := map (fun m => repeat m B_t0) mask_visited_nodes in
  mask_visited_nodes <- set_rows true mask_visited_nodes top_idx ;;
  let tours := repeat (repeat (repeat 0 nb_nodes) B_t0) bsz in
  tours <- set_column t tours top_idx ;;
  h_t <- gather_rows h_encoder top_idx ;;
  pe <- py_index (PE net) (Z.of_nat t + 1) ;;
  let h_t := map (map (fun v => vadd net v pe)) h_t in
  dec <- DecoderNet.repeat_selfatt_keys_values B_t0 dec ;;
  let K_att_decoder := DecoderLayer.repeat_interleave K_att_decoder_tmp B_t0 in
  let V_att_decoder := DecoderLayer.repeat_interleave V_att_decoder_tmp B_t0 in
  Ok (BeamState h_t mask_visited_nodes tours sum_scores [] K_att_decoder
        V_att_decoder dec).

Definition beam_step0 := beam_step0_with topk.

(** The branches [t == 1] and [t >= 2].  They are the same code up to the
    number [B_prev] of beams that enter the step ([B_t0] at [t == 1], [B]
    later) and the cross-attention keys and values, which only [t == 1]
    repeats anew. *)
Definition beam_step_with
  (torch_topk : nat -> list score -> result (list (nat * score)))
  (net : tsp_net) (h_encoder : list (list vec))
  (K_att_decoder_tmp V_att_decoder_tmp : list att) (bsz nb_nodes B : nat)
  (t B_prev : nat) (s : beam_state) : result beam_state :=
  let h_t := concat (b_h_t s) in
  let mask_visited_nodes := concat (b_mask_visited_nodes s) in
  '(prob_next_node, dec) <-
     DecoderNet.forward (b_decoder s) h_t (b_K_att_decoder s) (b_V_att_decoder s)
                        mask_visited_nodes ;;
  prob_next_node <- view3 prob_next_node bsz B_prev (nb_nodes + 1) ;;
  let score_t := map (map (map log)) prob_next_node in
  let sum_scores :=
    map2 (map2 (fun sc s0 => map (fun x => sadd x s0) sc)) score_t (b_sum_scores s) in
  sum_scores_flatten <-
    (if bsz =? 0 then Raise RuntimeError else Ok (map (@concat score) sum_scores)) ;;
  top <- mapM (torch_topk B) sum_scores_flatten ;;
  let top_val := map (map snd) top in
  let top_idx := map (map fst) top in
  let idx_top_beams := map (map (fun i => i / (nb_nodes + 1))) top_idx in
  let idx_in_beams :=
    map (map (fun i => i - (i / (nb_nodes + 1)) * (nb_nodes + 1))) top_idx in
  let sum_scores := top_val in
  mask_visited_nodes <- gather_rows (b_mask_visited_nodes s) idx_top_beams ;;
  mask_visited_nodes <- set_rows true mask_visited_nodes idx_in_beams ;;
  tours <- gather_rows (b_tours s) idx_top_beams ;;
  tours <- set_column t tours idx_in_beams ;;
  h_t <- gather_rows h_encoder idx_in_beams ;;
  pe <- py_index (PE net) (Z.of_nat t + 1) ;;
  let h_t := map (map (fun v => vadd net v pe)) h_t in
  dec <- DecoderNet.reorder_selfatt_keys_values t
           (Tensor2 (length idx_top_beams) B idx_top_beams) dec ;;
  let K_att_decoder :=
    if t =? 1 then DecoderLayer.repeat_interleave K_att_decoder_tmp B
    else b_K_att_decoder s in
  let V_att_decoder :=
    if t =? 1 then DecoderLayer.repeat_interleave V_att_decoder_tmp B
    else b_V_att_decoder s in
  Ok (BeamState h_t mask_visited_nodes tours sum_scores idx_top_beams
        K_att_decoder V_att_decoder dec).

Definition beam_step := beam_step_with topk.

(** One iteration of [for t in range(nb_nodes)]; [s] is [None] while the
    locals of the loop are unassigned. *)
Definition beam_body_with
  (torch_topk : nat -> list score -> result (list (nat * score)))
  (net : tsp_net) (h_encoder : list (list vec))
  (K_att_decoder V_att_decoder : list att) (bsz nb_nodes B : nat)
  (dec : DecoderNet.decoder_net vec att prob)
  (t : nat) (s : option beam_state) : result (option beam_state) :=
  if t =? 0 then
    s' <- beam_step0_with torch_topk net h_encoder K_att_decoder V_att_decoder
            bsz nb_nodes B dec ;;
    Ok (Some s')
  else
    match s with
    | None => Raise UnboundLocalError
    | Some s =>
        let B_prev := if t =? 1 then Nat.min B nb_nodes else B in
        s' <- beam_step_with torch_topk net h_encoder K_att_decoder V_att_decoder
                bsz nb_nodes B t B_prev s ;;
        Ok (Some s')
    end.

Definition beam_body := beam_body_with topk.

(** The states after every step of the beam search. *)
Definition beam_trace_with
  (torch_topk : nat -> list score -> result (list (nat * score)))
  (net : tsp_net) (h_encoder : list (list vec))
  (K_att_decoder V_att_decoder : list att) (bsz nb_nodes B : nat)
  (dec : DecoderNet.decoder_net vec att prob)
  : result (list (option beam_state)) :=
  dec <- DecoderNet.reset_selfatt_keys_values dec ;;
  loop_trace (beam_body_with torch_topk net h_encoder K_att_decoder V_att_decoder
                bsz nb_nodes B dec)
             (seq 0 nb_nodes) None.

Definition beam_trace := beam_trace_with topk.

Definition beam_search_with
  (torch_topk : nat -> list score -> result (list (nat * score)))
  (net : tsp_net) (h_encoder : list (list vec))
  (K_att_decoder V_att_decoder : list att) (bsz nb_nodes B : nat)
  (dec : DecoderNet.decoder_net vec att prob)
  : result (list (list (list nat)) * list score) :=
  trace <- beam_trace_with torch_topk net h_encoder K_att_decoder V_att_decoder
             bsz nb_nodes B dec ;;
  match last trace None with
  | None => Raise UnboundLocalError
  | Some s =>
      sum_scores <- mapM (fun r => py_index r 0) (b_sum_scores s) ;;
      Ok (b_tours s, sum_scores)
  end.

Definition beam_search := beam_search_with topk.

(** ** forward *)

(** The tensors [forward] returns as tours: the float placeholder, or the
    long tensor of the greedy decode (bsz, nb_nodes), or that of the beam
    search (bsz, B, nb_nodes). *)
Inductive tours_tensor : Type :=
| FloatTensor (rows : list (list score))
| LongTensor2 (rows : list (list nat))
| LongTensor3 (rows : list (list (list nat))).

(** [torch.zeros(n, m)] and [torch.zeros(n)] *)
Definition zeros2 (n m : nat) : list (list score) := repeat (repeat szero m) n.
Definition zeros1 (n : nat) : list score := repeat szero n.

Definition forward_with
  (torch_topk : nat -> list score -> result (list (nat * score)))
  (net : tsp_net) (x : tensor2 coord) (B : nat)
  (greedy beamsearch : bool)
  : result (tours_tensor * tours_tensor * list score * list score) :=
  let bsz := shape0 x in
  let nb_nodes := shape1 x in
  let h_encoder := h_encoder_of net x in
  let K_att_decoder := map (WK_att_decoder net) h_encoder in
  let V_att_decoder := map (WV_att_decoder net) h_encoder in
  let tours_greedy := FloatTensor (zeros2 2 nb_nodes) in
  let tours_beamsearch := FloatTensor (zeros2 2 nb_nodes) in
  let scores_greedy := zeros1 2 in
  let scores_beamsearch := zeros1 2 in
  '(tours_greedy, scores_greedy, dec) <-
     (if greedy then
        let deterministic := true in
        '(tours, sumLogProbOfActions, dec) <-
           greedy_search net deterministic h_encoder K_att_decoder V_att_decoder
                         bsz nb_nodes ;;
        Ok (LongTensor2 tours, sumLogProbOfActions, dec)
      else Ok (tours_greedy, scores_greedy, decoder net)) ;;
  '(tours_beamsearch, scores_beamsearch) <-
     (if beamsearch then
        '(tours, sum_scores) <-
           beam_search_with torch_topk net h_encoder K_att_decoder V_att_decoder
                            bsz nb_nodes B dec ;;
        Ok (LongTensor3 tours, sum_scores)
      else Ok (tours_beamsearch, scores_beamsearch)) ;;
  Ok (tours_greedy, tours_beamsearch, scores_greedy, scores_beamsearch).

Definition forward := forward_with topk.

End Policy.

Arguments tsp_net : clear implicits.
Arguments greedy_state : clear implicits.
Arguments beam_state : clear implicits.
Arguments tours_tensor : clear implicits.

(** ** A small network on rationals, for running the definitions

    A log-probability is kept as the probability it is the logarithm of:
    [LogOf p] stands for [log p], so that [log 0] (minus infinity) and the
    order of the scores are exact.  Adding logarithms multiplies the
    probabilities, and 0.0 is [LogOf 1]. *)
Inductive logprob : Type := LogOf (p : Q).

Definition logprob_add (a b : logprob) : logprob :=
  match a, b with LogOf p, LogOf q => LogOf (p * q) end.

Definition logprob_leb (a b : logprob) : bool :=
  match a, b with LogOf p, LogOf q => Qle_bool p q end.

#[export] Instance rational_floats : FloatOps Q logprob := {
  log := LogOf;
  sadd := logprob_add;
  szero := LogOf 1;
  pleb := Qle_bool;
  sleb := logprob_leb
}.

(** The final attention of the small network: every node has a fixed
    positive weight (its key); the probability of a node is its weight
    over the total weight of the nodes that are not masked, and 0 for a
    masked node, as the softmax over logits filled with -1e9 yields. *)
Definition toy_attn (q : Q) (K V : list Q) (m : list bool) : list Q :=
  let w := map (fun p : nat * bool => if snd p then 0%Q else nth (fst p) K 0%Q)
               (combine (seq 0 (length m)) m) in
  let total := fold_right Qplus 0%Q w in
  map (fun y => (y / total)%Q) w.

(** One intermediate layer (with the window [segm]) and the final layer. *)
Definition toy_decoder (segm : option Z) : DecoderNet.decoder_net Q (list Q) Q :=
  DecoderNet.Decoder 2
    [DecoderLayer.Layer segm (fun v => v) (fun v => v) (fun h _ _ _ _ _ => h) None None]
    (fun _ a => a) (fun v => v) toy_attn.

(** A city is a list of coordinates; the small network embeds a city as
    its first coordinate, which is also its attention weight, and the
    start placeholder as 1.  The positional encoding is 0. *)
Definition toy_net (segm : option Z) (max_len_PE : nat) : tsp_net (list Q) Q (list Q) Q :=
  TSPNet (fun x => map (fun r => map (hd 0%Q) r ++ [1%Q]) (rows x))
         (fun r => r) (fun r => r)
         (repeat 0%Q max_len_PE) Qplus (toy_decoder segm).

(** The oracle that always draws node 0. *)
Definition draw_first (t : nat) (p : list (list Q)) : list nat := map (fun _ => 0) p.

(** The oracle that always draws the last entry of the row. *)
Definition draw_last (t : nat) (p : list (list Q)) : list nat :=
  map (fun r => length r - 1) p.

(** Inputs for the small network: one batch row of two, and of three
    cities, with weights 2, 1 and 8, 2, 1. *)
Definition two_cities : tensor2 (list Q) := Tensor2 1 2 [[ [2; 0]; [1; 0] ]]%Q.
Definition three_cities : tensor2 (list Q) :=
  Tensor2 1 3 [[ [8; 0]; [2; 0]; [1; 0] ]]%Q.

(** Three batch rows of three cities. *)
Definition three_batches : tensor2 (list Q) :=
  Tensor2 3 3 [ [ [8; 0]; [2; 0]; [1; 0] ];
                [ [1; 0]; [2; 0]; [3; 0] ];
                [ [1; 0]; [5; 0]; [3; 0] ] ]%Q.

(** The states of the beam search that [forward net x B _ true] runs when
    the greedy decode is off. *)
Definition forward_beam_trace {coord vec att prob score : Type}
  {float_ops : FloatOps prob score} (net : tsp_net coord vec att prob)
  (x : tensor2 coord) (B : nat) : result (list (option (beam_state vec att prob score))) :=
  let h_encoder := h_encoder_of net x in
  beam_trace net h_encoder (map (WK_att_decoder net) h_encoder)
             (map (WV_att_decoder net) h_encoder) (shape0 x) (shape1 x) B
             (decoder net).

(** The states of the greedy decode that [forward net x _ true _] runs. *)
Definition forward_greedy_trace {coord vec att prob score : Type}
  {float_ops : FloatOps prob score} (sample : nat -> list (list prob) -> list nat)
  (net : tsp_net coord vec att prob) (x : tensor2 coord)
  : result (greedy_state vec att prob score * list (greedy_state vec att prob score)) :=
  let h_encoder := h_encoder_of net x in
  greedy_trace sample net true h_encoder (map (WK_att_decoder net) h_encoder)
               (map (WV_att_decoder net) h_encoder) (shape0 x) (shape1 x).

(** [m[b, i, j]] is set / [m[b, j]] is set. *)
Definition mask3_true (m : list (list (list bool))) (b i j : nat) : Prop :=
  exists beams row,
    nth_error m b = Some beams /\ nth_error beams i = Some row /\
    nth_error row j = Some true.

Definition mask2_true (m : list (list bool)) (b j : nat) : Prop :=
  exists row, nth_error m b = Some row /\ nth_error row j = Some true.

(** [tours.size(1)] of the beam-search state: every batch row holds this
    many beams. *)
Definition nb_beams {vec att prob score : Type} (s : beam_state vec att prob score)
  (n : nat) : Prop :=
  Forall (fun beams => length beams = n) (b_tours s).

End TSPNet.

(* ================================================================== *)
(** * generate_positional_encoding *)

Module PositionalEncoding.

(** [torch.arange(0, d_model, 2)] *)
Definition arange2 (d_model : nat) : list nat :=
  map (fun k => 2 * k) (seq 0 ((d_model + 1) / 2)).

(** Number of columns of the slice [start::2] of [width] columns. *)
Definition slice2_len (start width : nat) : nat := (width - start + 1) / 2.

(** [row[start::2] = vals] on one row; a value of one column is
    broadcast. *)
Definition assign_slice2 (start : nat) (row vals : list R) : list R :=
  map (fun c => if (start <=? c) && Nat.even (c - start)
                then nth (if length vals =? 1 then 0 else (c - start) / 2) vals 0%R
                else nth c row 0%R)
      (seq 0 (length row)).

(** [pe[:, start::2] = vals] for a value of [valw] columns and as many
    rows as [pe]: the column counts must agree, up to broadcasting. *)
Definition set_slice2 (start width valw : nat) (pe vals : list (list R))
  : result (list (list R)) :=
  if (valw =? slice2_len start width) || (valw =? 1)
  then Ok (map2 (assign_slice2 start) pe vals)
  else Raise RuntimeError.

(** The frequency of the pair of columns that starts at column [i]. *)
Definition frequency (d_model i : nat) : R :=
  exp (INR i * (- ln 10000 / INR d_model)).

Definition generate_positional_encoding (d_model max_len : nat)
  : result (list (list R)) :=
  let pe := repeat (repeat 0%R d_model) max_len in
  let position := map INR (seq 0 max_len) in
  let div_term := map (frequency d_model) (arange2 d_model) in
  let angle := map (fun p => map (fun w => (p * w)%R) div_term) position in
  pe <- set_slice2 0 d_model (length div_term) pe (map (map sin) angle) ;;
  pe <- set_slice2 1 d_model (length div_term) pe (map (map cos) angle) ;;
  Ok pe.

End PositionalEncoding.

(* ================================================================== *)
(** * ConvEmbeddingXY: sorting the neighbours by a coordinate *)

Module ConvXY.
Import TSPNet.

Section Sort.

(** One float, and [torch.argsort] on one row of floats. *)
Variable float : Type.
Variable argsort : list float -> list nat.

(** [coord[:, :, c]] for one batch row. *)
Definition coordinate (c : nat) (row : list (list float)) : result (list float) :=
  mapM (fun point => get_nth point c) row.

(** [coord[toB.unsqueeze(1), indices]] for one batch row: entry [k] is
    point [indices[k]] of the row. *)
Definition gather_points (row : list (list float)) (indices : list nat)
  : result (list (list float)) :=
  mapM (get_nth row) indices.

Definition sort_by (c : nat) (coord : list (list (list float)))
  : result (list (list (list float))) :=
  keys <- mapM (coordinate c) coord ;;
  let indices := map argsort keys in
  mapM2 gather_points coord indices.

Definition _sort_by_xy := sort_by 0.
Definition _sort_by_yx := sort_by 1.

End Sort.

Arguments coordinate {float} _ _.
Arguments gather_points {float} _ _.
Arguments sort_by {float} _ _ _.
Arguments _sort_by_xy {float} _ _.
Arguments _sort_by_yx {float} _ _.

End ConvXY.

Import Torch.

(* ================================================================== *)
(** * Proofs: tensors *)

Lemma bind_Ok {A B : Type} (r : result A) (k : A -> result B) (b : B) :
  bind r k = Ok b -> exists a, r = Ok a /\ k a = Ok b.
Proof.
  destruct r as [a|e]; simpl; intros H; [eauto | discriminate].
Qed.

Lemma mapM_ok {A B : Type} (f : A -> result B) (g : A -> B) (l : list A) :
  Forall (fun a => f a = Ok (g a)) l -> mapM f l = Ok (map g l).
Proof.
  induction 1 as [|a l Ha _ IH]; simpl; [reflexivity|].
  rewrite Ha; simpl. rewrite IH; reflexivity.
Qed.

Lemma length_map2 {A B C : Type} (f : A -> B -> C) (l : list A) (m : list B) :
  length (map2 f l m) = Nat.min (length l) (length m).
Proof.
  revert m; induction l as [|a l IH]; intros [|b m]; simpl; auto.
Qed.

Section TourLengthFacts.
Import TourLength.

(** Index validity for [x[b, i, :]] in a row of [n] cities. *)
Definition valid_index (n : nat) (i : Z) : Prop :=
  (- Z.of_nat n <= i < Z.of_nat n)%Z.

(** Inputs with the shapes of the docstring: [x] is (bsz, nb_nodes, .),
    [tour] is (bsz, nb_nodes) and holds node indices. *)
Definition well_shaped (x : tensor2 city) (tour : tensor2 Z) : Prop :=
  wf2 x /\ wf2 tour /\
  shape0 tour = shape0 x /\ shape1 tour = shape1 x /\
  Forall (Forall (valid_index (shape1 x))) (rows tour).

Lemma py_index_ok {A : Type} (l : list A) (i : Z) :
  valid_index (length l) i -> exists a, py_index l i = Ok a.
Proof.
  unfold valid_index, py_index; intros H.
  set (n := Z.of_nat (length l)) in *.
  set (j := if (i <? 0)%Z then (n + i)%Z else i).
  assert (Hj : (0 <= j < n)%Z).
  { subst j; destruct (i <? 0)%Z eqn:E;
      [apply Z.ltb_lt in E | apply Z.ltb_ge in E]; lia. }
  replace ((0 <=? j)%Z && (j <? n)%Z) with true
    by (symmetry; apply andb_true_iff; split;
        [apply Z.leb_le | apply Z.ltb_lt]; lia).
  destruct (nth_error l (Z.to_nat j)) as [a|] eqn:E; [eauto|].
  apply nth_error_None in E. subst n. lia.
Qed.

Lemma column_ok {A : Type} (t : tensor2 A) (i : nat) :
  wf2 t -> i < shape1 t ->
  exists col, column t i = Ok col /\ length col = shape0 t /\
              forall c, In c col -> exists r, In r (rows t) /\ nth_error r i = Some c.
Proof.
  intros [Hlen Hrows] Hi. unfold column.
  apply Nat.ltb_lt in Hi as Hb. rewrite Hb. clear Hb.
  rewrite <- Hlen. clear Hlen.
  induction Hrows as [|r rs Hr _ IH]; simpl.
  - exists []. repeat split; auto. intros c [].
  - destruct (nth_error r i) as [a|] eqn:E.
    2:{ apply nth_error_None in E. lia. }
    destruct IH as (col & -> & Hl & Hin). simpl.
    exists (a :: col). repeat split; simpl; auto.
    intros c [<-|Hc]; [exists r; auto|].
    destruct (Hin c Hc) as (r' & ? & ?). exists r'; auto.
Qed.

Lemma index_rows_ok {A : Type} (xs : list (list A)) (idx : list Z) (n : nat) :
  length idx = length xs ->
  Forall (fun r => length r = n) xs ->
  Forall (valid_index n) idx ->
  exists cs, index_rows xs idx = Ok cs /\ length cs = length xs.
Proof.
  revert idx; induction xs as [|r xs IH]; intros [|i idx] Hl Hx Hi;
    simpl in *; try discriminate.
  - exists []; auto.
  - inversion Hx; inversion Hi; subst.
    destruct (py_index_ok r i) as (a & ->); [assumption|]. simpl.
    destruct (IH idx) as (cs & -> & Hc); auto. simpl.
    exists (a :: cs); simpl; auto.
Qed.

Lemma cities_at_ok (x : tensor2 city) (tour : tensor2 Z) (i : nat) :
  well_shaped x tour -> i < shape1 x ->
  exists cs, cities_at x tour i = Ok cs /\ length cs = shape0 x.
Proof.
  intros (Hx & Ht & H0 & H1 & Hv) Hi. unfold cities_at.
  destruct (column_ok tour i) as (col & -> & Hl & Hin); [assumption|lia|].
  simpl. destruct Hx as [Hxl Hxr].
  destruct (index_rows_ok (rows x) col (shape1 x)) as (cs & -> & Hc); auto.
  - lia.
  - apply Forall_forall. intros c Hc.
    destruct (Hin c Hc) as (r & Hr & Hn).
    rewrite Forall_forall in Hv. specialize (Hv r Hr).
    rewrite Forall_forall in Hv. apply Hv. eapply nth_error_In; eauto.
  - exists cs; split; auto. lia.
Qed.

Lemma length_vplus_dist (L : list R) (a b : list city) (n : nat) :
  length L = n -> length a = n -> length b = n ->
  length (vplus L (sub_pow2_sum_sqrt a b)) = n.
Proof.
  intros. unfold vplus, sub_pow2_sum_sqrt. rewrite !length_map2. lia.
Qed.

Lemma tour_loop_ok (x : tensor2 city) (tour : tensor2 Z) (steps : list nat) :
  well_shaped x tour ->
  Forall (fun i => i < shape1 x) steps ->
  forall L prev cur,
    length L = shape0 x -> length prev = shape0 x ->
    exists L' prev' cur',
      tour_loop x tour steps L prev cur = Ok (L', prev', cur') /\
      length L' = shape0 x /\
      match steps with
      | [] => cur' = cur
      | _ => exists c, cur' = Some c /\ length c = shape0 x
      end.
Proof.
  intros Hws Hsteps. induction Hsteps as [|i steps Hi Hs IH]; intros L prev cur HL Hp.
  - simpl. exists L, prev, cur; auto.
  - simpl. destruct (cities_at_ok x tour i Hws Hi) as (cs & -> & Hcs). simpl.
    destruct (IH (vplus L (sub_pow2_sum_sqrt cs prev)) cs (Some cs))
      as (L' & p' & c' & -> & HL' & Hc'); auto using length_vplus_dist.
    exists L', p', c'. repeat split; auto.
    destruct steps; [subst c'; eauto | assumption].
Qed.


(** ** Row-wise reading of the loop *)

Definition get (xr : list city) (i : Z) : city :=
  match py_index xr i with Ok c => c | Raise _ => [] end.

Lemma map2_map {A B C D : Type} (F : B -> C -> D) (f : A -> B) (g : A -> C) (l : list A) :
  map2 F (map f l) (map g l) = map (fun p => F (f p) (g p)) l.
Proof. induction l; simpl; congruence. Qed.

Lemma mapM_map_ok {A B : Type} (f : A -> result B) (g : A -> B) (l : list A) :
  (forall a, In a l -> f a = Ok (g a)) -> mapM f l = Ok (map g l).
Proof. intros H. apply mapM_ok, Forall_forall, H. Qed.

Lemma index_rows_combine (xs : list (list city)) (ts : list (list Z)) (i n : nat) :
  length ts = length xs ->
  Forall (fun r => length r = n) xs ->
  Forall (fun r => length r = n /\ Forall (valid_index n) r) ts ->
  i < n ->
  index_rows xs (map (fun r => nth i r 0%Z) ts)
  = Ok (map (fun p => get (fst p) (nth i (snd p) 0%Z)) (combine xs ts)).
Proof.
  revert ts; induction xs as [|xr xs IH]; intros [|tr ts] Hl Hx Ht Hi;
    simpl in *; try discriminate; [reflexivity|].
  apply Forall_cons_iff in Hx as [Hxr Hxs]. apply Forall_cons_iff in Ht as [[Htr Hv] Hts].
  unfold get at 1.
  destruct (py_index_ok xr (nth i tr 0%Z)) as (a & ->).
  { rewrite Forall_forall in Hv. rewrite Hxr. apply Hv, nth_In. lia. }
  simpl. rewrite IH; auto.
Qed.

Lemma column_nth (t : tensor2 Z) (i : nat) :
  wf2 t -> i < shape1 t ->
  column t i = Ok (map (fun r => nth i r 0%Z) (rows t)).
Proof.
  intros [_ Hr] Hi. unfold column.
  destruct (Nat.ltb_spec i (shape1 t)) as [_|]; [|lia].
  apply mapM_map_ok. intros r Hin. rewrite Forall_forall in Hr.
  specialize (Hr r Hin).
  destruct (nth_error r i) as [a|] eqn:E.
  - now rewrite (nth_error_nth _ _ _ E).
  - apply nth_error_None in E. lia.
Qed.

Lemma well_shaped_rows (x : tensor2 city) (tour : tensor2 Z) :
  well_shaped x tour ->
  length (rows tour) = length (rows x) /\
  Forall (fun r => length r = shape1 x) (rows x) /\
  Forall (fun r => length r = shape1 x /\ Forall (valid_index (shape1 x)) r) (rows tour).
Proof.
  intros ([Hxl Hxr] & [Htl Htr] & H0 & H1 & Hv). repeat split; auto; [lia|].
  rewrite Forall_forall in *. intros r Hr. split; [rewrite <- H1|]; auto.
Qed.

Lemma cities_at_rows (x : tensor2 city) (tour : tensor2 Z) (i : nat) :
  well_shaped x tour -> i < shape1 x ->
  cities_at x tour i
  = Ok (map (fun p => get (fst p) (nth i (snd p) 0%Z)) (combine (rows x) (rows tour))).
Proof.
  intros Hws Hi. destruct (well_shaped_rows _ _ Hws) as (Hl & Hx & Ht).
  destruct Hws as (_ & Htw & _ & H1 & _).
  unfold cities_at. rewrite column_nth; [|assumption|lia]. simpl.
  now apply index_rows_combine with (n := shape1 x).
Qed.

(** One batch row of [tour_loop]. *)
Fixpoint row_loop (xr : list city) (tr : list Z) (steps : list nat)
  (l : R) (prev : city) : R * city :=
  match steps with
  | [] => (l, prev)
  | i :: steps' =>
      let c := get xr (nth i tr 0%Z) in
      row_loop xr tr steps' (l + euclid c prev)%R c
  end.

Lemma tour_loop_rows (x : tensor2 city) (tour : tensor2 Z) (steps : list nat) :
  well_shaped x tour ->
  Forall (fun i => i < shape1 x) steps ->
  forall (lf : list city * list Z -> R) (pf : list city * list Z -> city) cur,
    let rt := combine (rows x) (rows tour) in
    exists cur',
    tour_loop x tour steps (map lf rt) (map pf rt) cur
    = Ok (map (fun p => fst (row_loop (fst p) (snd p) steps (lf p) (pf p))) rt,
          map (fun p => snd (row_loop (fst p) (snd p) steps (lf p) (pf p))) rt,
          cur') /\
    match steps with
    | [] => cur' = cur
    | _ => cur' = Some (map (fun p => snd (row_loop (fst p) (snd p) steps (lf p) (pf p))) rt)
    end.
Proof.
  intros Hws Hs. induction Hs as [|i steps Hi Hs IH]; intros lf pf cur rt.
  - simpl. exists cur. split; reflexivity.
  - simpl. rewrite cities_at_rows by assumption. simpl. fold rt.
    unfold vplus, sub_pow2_sum_sqrt. rewrite !map2_map.
    destruct (IH (fun p => (lf p + euclid (get (fst p) (nth i (snd p) 0%Z)) (pf p))%R)
                 (fun p => get (fst p) (nth i (snd p) 0%Z))
                 (Some (map (fun p => get (fst p) (nth i (snd p) 0%Z)) rt)))
      as (cur' & Heq & Hc).
    fold rt in Heq. unfold euclid in Heq at 1. rewrite Heq.
    exists cur'. split; [reflexivity|].
    destruct steps; [subst cur'; reflexivity | assumption].
Qed.

Lemma euclid_sym (p q : city) : euclid p q = euclid q p.
Proof.
  unfold euclid. f_equal. f_equal.
  revert q; induction p as [|u p IH]; intros [|v q]; simpl; auto.
  rewrite IH. f_equal. ring.
Qed.

Lemma last_cons {A : Type} (a : A) (l : list A) (d : A) :
  last (a :: l) d = last l a.
Proof.
  revert a d; induction l as [|b l IH]; intros a d; [reflexivity|].
  change (last (a :: b :: l) d) with (last (b :: l) d).
  rewrite IH. symmetry. apply IH.
Qed.

(** Distances along [prev :: cs]. *)
Lemma row_loop_path (xr : list city) (pre tl : list Z) (l : R) (prev : city) :
  row_loop xr (pre ++ tl) (seq (length pre) (length tl)) l prev
  = ((l + path_length (prev :: map (get xr) tl))%R,
     last (map (get xr) tl) prev).
Proof.
  revert pre l prev; induction tl as [|i tl IH]; intros pre l prev.
  - simpl. f_equal. ring.
  - cbn [length seq row_loop].
    rewrite app_nth2, Nat.sub_diag by lia. cbn [nth].
    replace (pre ++ i :: tl) with ((pre ++ [i]) ++ tl) by now rewrite <- app_assoc.
    replace (S (length pre)) with (length (pre ++ [i]))
      by (rewrite length_app; simpl; lia).
    rewrite IH. cbn [map]. f_equal.
    + change (path_length (prev :: get xr i :: map (get xr) tl))
        with (euclid prev (get xr i) + path_length (get xr i :: map (get xr) tl))%R.
      rewrite (euclid_sym prev). ring.
    + symmetry. apply last_cons.
Qed.

Lemma row_loop_cycle (xr : list city) (tr : list Z) :
  2 <= length tr ->
  let r := row_loop xr tr (seq 1 (length tr - 1)) 0 (get xr (nth 0 tr 0%Z)) in
  (fst r + euclid (snd r) (get xr (nth 0 tr 0%Z)))%R = cycle_length (visit xr tr).
Proof.
  destruct tr as [|i0 tl]; simpl length; [lia|]. intros Hl.
  replace (S (length tl) - 1) with (length tl) by lia.
  pose proof (row_loop_path xr [i0] tl 0%R (get xr i0)) as H.
  cbn [app length] in H. cbn zeta. cbn [nth]. rewrite H. cbn [fst snd].
  unfold cycle_length, visit. cbn [map hd].
  change (fun i => match py_index xr i with Ok c => c | Raise _ => [] end) with (get xr).
  change (match py_index xr i0 with Ok c => c | Raise _ => [] end) with (get xr i0).
  rewrite last_cons. ring.
Qed.


Lemma map_const_repeat {A B : Type} (c : B) (l : list A) :
  map (fun _ => c) l = repeat c (length l).
Proof. induction l; simpl; congruence. Qed.

(** For instances with at least two nodes the code computes, per batch
    row, the length of the closed cycle through the visited cities. *)
Lemma compute_tour_length_cycle (x : tensor2 city) (tour : tensor2 Z) :
  well_shaped x tour -> 2 <= shape1 x ->
  compute_tour_length x tour
  = Ok (map (fun p => cycle_length (visit (fst p) (snd p)))
            (combine (rows x) (rows tour))).
Proof.
  intros Hws HN. unfold compute_tour_length.
  rewrite cities_at_rows by (assumption || lia). cbn [bind].
  destruct (well_shaped_rows _ _ Hws) as (Hl & Hx & Ht).
  set (rt := combine (rows x) (rows tour)).
  assert (Hrt : length rt = shape0 x).
  { unfold rt. rewrite length_combine, Hl, Nat.min_id. apply Hws. }
  rewrite <- Hrt, <- (map_const_repeat 0%R rt).
  destruct (tour_loop_rows x tour (seq 1 (shape1 x - 1)) Hws) with
    (lf := fun _ : list city * list Z => 0%R)
    (pf := fun p : list city * list Z => get (fst p) (nth 0 (snd p) 0%Z))
    (cur := @None (list city)) as (cur' & Heq & Hc).
  { apply Forall_forall. intros i Hi. apply in_seq in Hi. lia. }
  fold rt in Heq, Hc. rewrite Heq. cbn [bind].
  destruct (seq 1 (shape1 x - 1)) eqn:Es.
  { apply (f_equal (@length nat)) in Es. rewrite length_seq in Es. simpl in Es. lia. }
  rewrite <- Es in *. subst cur'.
  unfold vplus, sub_pow2_sum_sqrt. rewrite !map2_map. f_equal.
  apply map_ext_in. intros [xr tr] Hin. cbn [fst snd].
  apply in_combine_r in Hin. rewrite Forall_forall in Ht.
  destruct (Ht tr Hin) as [Hlen _]. rewrite <- Hlen.
  apply (row_loop_cycle xr tr). lia.
Qed.

Lemma compute_tour_length_unbound (x : tensor2 city) (tour : tensor2 Z) :
  well_shaped x tour -> shape1 x = 1 ->
  compute_tour_length x tour = Raise UnboundLocalError.
Proof.
  intros Hws HN. unfold compute_tour_length.
  rewrite cities_at_rows by (assumption || lia). rewrite HN. reflexivity.
Qed.

End TourLengthFacts.

Import TourLength.

Ltac wf_tensor :=
  repeat match goal with
         | |- well_shaped _ _ => unfold well_shaped
         | |- wf2 _ => unfold wf2
         | |- valid_index _ _ => unfold valid_index; simpl; lia
         | |- _ /\ _ => split
         | |- Forall _ _ => constructor
         | |- _ = _ => reflexivity
         end.

Lemma euclid_unit (p q : city) :
  Rsum (map2 (fun u v => ((u - v) ^ 2)%R) p q) = 1%R -> euclid p q = 1%R.
Proof. intros H. unfold euclid. rewrite H. apply sqrt_1. Qed.

Lemma euclid_refl (p : city) : euclid p p = 0%R.
Proof.
  unfold euclid.
  assert (H : Rsum (map2 (fun u v => ((u - v) ^ 2)%R) p p) = 0%R).
  { induction p as [|u p IH]; [reflexivity|].
    change (((u - u) ^ 2 + Rsum (map2 (fun u v => (u - v) ^ 2) p p))%R = 0%R).
    rewrite IH. ring. }
  rewrite H. apply sqrt_0.
Qed.

(** The 4-city unit square with tour [0,1,2,3] has length exactly 4. *)
Lemma compute_tour_length_square :
  compute_tour_length square square_tour = Ok [4%R].
Proof.
  rewrite compute_tour_length_cycle; [|wf_tensor|simpl; lia].
  simpl. do 2 f_equal. unfold cycle_length. cbn [path_length last hd].
  rewrite !euclid_unit by (cbv [map2 Rsum fold_right]; ring). ring.
Qed.

(** C10: [compute_tour_length] returns one length per batch row on every
    well-shaped input with at least two nodes, and on an instance with a
    single node it raises [UnboundLocalError]: the loop body never runs and
    the closing edge reads [current_cities] before any assignment. *)
Theorem compute_tour_length_total_from_two_nodes (x : tensor2 city) (tour : tensor2 Z) :
  well_shaped x tour ->
  (2 <= shape1 x ->
   exists L, compute_tour_length x tour = Ok L /\ length L = shape0 x) /\
  (shape1 x = 1 -> compute_tour_length x tour = Raise UnboundLocalError).
Proof.
  intros Hws. split.
  - intros HN. rewrite compute_tour_length_cycle by assumption.
    eexists; split; [reflexivity|].
    destruct (well_shaped_rows _ _ Hws) as (Hl & _ & _).
    rewrite length_map, length_combine, Hl, Nat.min_id. apply Hws.
  - now apply compute_tour_length_unbound.
Qed.

Lemma compute_tour_length_total_from_two_nodes_witness :
  well_shaped square square_tour /\
  exists L, compute_tour_length square square_tour = Ok L /\ length L = 1.
Proof.
  assert (H : well_shaped square square_tour) by wf_tensor.
  split; [exact H|].
  apply (compute_tour_length_total_from_two_nodes square square_tour H).
  simpl; lia.
Defined.

(** C6 at a single city: the cycle through one city has length 0, the code
    raises instead of returning it. *)
Theorem compute_tour_length_one_city :
  compute_tour_length one_city one_city_tour = Raise UnboundLocalError /\
  cycle_length (visit [[0; 0]%R] [0%Z]) = 0%R.
Proof.
  split.
  - apply compute_tour_length_unbound; [wf_tensor | reflexivity].
  - unfold cycle_length. simpl. rewrite euclid_refl. ring.
Qed.

Import Torch DecoderLayer.


(* ================================================================== *)
(** * Proofs: the self-attention cache *)

Lemma mapM_Ok_inv {A B : Type} (f : A -> result B) (l : list A) (bs : list B) :
  mapM f l = Ok bs -> Forall2 (fun a b => f a = Ok b) l bs.
Proof.
  revert bs; induction l as [|a l IH]; simpl; intros bs H.
  - injection H as <-. constructor.
  - apply bind_Ok in H as (b & Hb & H).
    apply bind_Ok in H as (bs' & Hbs & H). injection H as <-.
    constructor; auto.
Qed.

Lemma length_chunk {A : Type} (n k : nat) (l : list A) :
  length (chunk n k l) = n.
Proof. revert l; induction n; simpl; auto. Qed.

Lemma chunk_Forall_length {A : Type} (n k : nat) (l : list A) :
  n * k <= length l -> Forall (fun r => length r = k) (chunk n k l).
Proof.
  revert l; induction n as [|n IH]; intros l H; simpl; constructor.
  - rewrite length_firstn. lia.
  - apply IH. rewrite length_skipn. lia.
Qed.

Lemma incl_firstn {A : Type} (k : nat) (l : list A) : incl (firstn k l) l.
Proof.
  intros x Hx. rewrite <- (firstn_skipn k l). apply in_or_app. now left.
Qed.

Lemma incl_skipn {A : Type} (k : nat) (l : list A) : incl (skipn k l) l.
Proof.
  intros x Hx. rewrite <- (firstn_skipn k l). apply in_or_app. now right.
Qed.

Lemma In_chunk {A : Type} (n k : nat) (l : list A) (r : list A) :
  In r (chunk n k l) -> incl r l.
Proof.
  revert l; induction n as [|n IH]; intros l; simpl; [tauto|].
  intros [<-|H] x Hx.
  - eapply incl_firstn; eauto.
  - apply IH in H. apply H in Hx. eapply incl_skipn; eauto.
Qed.

Lemma chunk_concat {A : Type} (k : nat) (ls : list (list A)) :
  Forall (fun r => length r = k) ls -> chunk (length ls) k (concat ls) = ls.
Proof.
  induction 1 as [|r ls Hr _ IH]; simpl; [reflexivity|].
  rewrite firstn_app, <- Hr, Nat.sub_diag, firstn_all, firstn_O, app_nil_r.
  rewrite skipn_app, Nat.sub_diag, skipn_all, skipn_O. simpl.
  rewrite Hr. now rewrite IH.
Qed.

Lemma nth_error_chunk {A : Type} (n k : nat) (l : list A) (b : nat) :
  b < n -> nth_error (chunk n k l) b = Some (firstn k (skipn (b * k) l)).
Proof.
  revert l b; induction n as [|n IH]; intros l b Hb; [lia|].
  destruct b as [|b]; simpl; [reflexivity|].
  rewrite IH by lia. now rewrite skipn_skipn, Nat.add_comm.
Qed.

Lemma nth_error_concat {A : Type} (k : nat) (ls : list (list A)) (b i : nat) :
  Forall (fun r => length r = k) ls -> i < k ->
  nth_error (concat ls) (b * k + i)
  = match nth_error ls b with
    | Some r => nth_error r i
    | None => None
    end.
Proof.
  intros H Hi. revert b; induction H as [|r ls Hr _ IH]; intros b.
  - simpl. destruct b; simpl; now rewrite ?nth_error_nil.
  - destruct b as [|b]; simpl.
    + rewrite nth_error_app1 by lia. reflexivity.
    + rewrite nth_error_app2 by lia.
      replace (k + b * k + i - length r) with (b * k + i) by lia. apply IH.
Qed.

Section CacheFacts.
Context {vec att : Type}.

(** A configured window holds at least one entry. *)
Definition window_ok (ly : layer vec att) : Prop :=
  match segm_len ly with
  | Some s => (1 <= s)%Z
  | None => True
  end.

Lemma slice_last_length {A : Type} (s : Z) (l : list A) :
  (1 <= s)%Z ->
  length (slice_last s l) = Z.to_nat (Z.min (Z.of_nat (length l)) s).
Proof.
  intros Hs. unfold slice_last.
  destruct (Z.ltb_spec 0 s); [|lia]. rewrite length_skipn. lia.
Qed.

Lemma truncate_len (ly : layer vec att) (c : cache vec) (L : nat) :
  window_ok ly ->
  Forall (fun r => length r = L) c ->
  Forall (fun r => length r = window (segm_len ly) L) (truncate ly c).
Proof.
  unfold window_ok, truncate, window. intros Hw Hc.
  destruct (segm_len ly) as [s|]; [|assumption].
  apply Forall_map. eapply Forall_impl; [|exact Hc].
  intros r Hr. cbv beta. rewrite slice_last_length by assumption. now rewrite Hr.
Qed.

Lemma window_step (segm : option Z) (n : nat) :
  match segm with Some s => (1 <= s)%Z | None => True end ->
  window segm (window segm n + 1) = window segm (n + 1).
Proof. unfold window. destruct segm; intros; lia. Qed.

Lemma cat1_len (c : cache vec) (new : list vec) (c' : cache vec) (L : nat) :
  cat1 c new = Ok c' ->
  Forall (fun r => length r = L) c ->
  Forall (fun r => length r = L + 1) c' /\ length c' = length new.
Proof.
  unfold cat1. destruct (Nat.eqb_spec (length c) (length new)) as [E|]; [|discriminate].
  intros H Hc. injection H as <-. split.
  - clear E. revert new; induction Hc as [|r c Hr _ IH]; intros [|v new]; simpl;
      constructor; auto. rewrite length_app. simpl. lia.
  - rewrite length_map2. lia.
Qed.

Lemma singletons_len (new : list vec) :
  Forall (fun r : list vec => length r = 1) (map (fun v => [v]) new).
Proof. apply Forall_map, Forall_forall. reflexivity. Qed.

(** The cache invariant between two resets, [n] being the number of
    [forward] calls made. *)
Definition cache_inv (ly : layer vec att) (n : nat) : Prop :=
  (n = 0 /\ K_sa ly = None) \/
  (1 <= n /\ cache_len (K_sa ly) (window (segm_len ly) n)
          /\ cache_len (V_sa ly) (window (segm_len ly) n)).

Lemma forward_inv (ly ly' : layer vec att) h_t K_att V_att mask h' n :
  window_ok ly -> cache_inv ly n ->
  forward ly h_t K_att V_att mask = Ok (h', ly') ->
  segm_len ly' = segm_len ly /\ cache_inv ly' (S n).
Proof.
  intros Hw Hinv H. unfold forward in H.
  apply bind_Ok in H as ([K V] & Happ & H).
  apply bind_Ok in H as (h & _ & H). injection H as _ <-.
  split; [reflexivity|]. right. split; [lia|]. cbn [segm_len K_sa V_sa set_cache].
  replace (S n) with (n + 1) by lia.
  unfold append_cache in Happ.
  destruct Hinv as [[-> HK] | (Hn & (K0 & HK & HKl) & (V0 & HV & HVl))].
  - rewrite HK in Happ. injection Happ as <- <-.
    replace (window (segm_len ly) (0 + 1)) with (window (segm_len ly) 1) by reflexivity.
    split; eexists; (split; [reflexivity|]);
      apply truncate_len; auto using singletons_len.
  - rewrite HK, HV in Happ.
    apply bind_Ok in Happ as (K' & HK' & Happ).
    apply bind_Ok in Happ as (V' & HV' & Happ). injection Happ as <- <-.
    rewrite <- window_step by exact Hw.
    split; eexists; (split; [reflexivity|]); apply truncate_len; auto.
    + eapply cat1_len; eauto.
    + eapply cat1_len; eauto.
Qed.

Lemma repeat_interleave_Forall {A : Type} (P : A -> Prop) (c : list A) (B : nat) :
  Forall P c -> Forall P (repeat_interleave c B).
Proof.
  intros H. unfold repeat_interleave. apply Forall_flat_map.
  eapply Forall_impl; [|exact H]. intros a Ha.
  apply Forall_forall. intros x Hx. apply repeat_spec in Hx. now subst.
Qed.

Lemma repeat_inv (ly ly' : layer vec att) B n :
  cache_inv ly n ->
  repeat_selfatt_keys_values B ly = Ok ly' ->
  segm_len ly' = segm_len ly /\ cache_inv ly' n.
Proof.
  intros Hinv H. unfold repeat_selfatt_keys_values in H.
  destruct (K_sa ly) as [K|] eqn:HK; [|discriminate].
  destruct (V_sa ly) as [V|] eqn:HV; [|discriminate].
  injection H as <-. split; [reflexivity|].
  destruct Hinv as [[_ ?] | (Hn & (K0 & HK0 & HKl) & (V0 & HV0 & HVl))]; [congruence|].
  assert (K0 = K) by congruence. assert (V0 = V) by congruence. subst K0 V0.
  right. split; [assumption|]. cbn [segm_len K_sa V_sa set_cache].
  split; eexists; (split; [reflexivity|]); now apply repeat_interleave_Forall.
Qed.

Lemma gather_beams_incl {A : Type} (tmp : list A) (idx : list nat) (r : list A) :
  gather_beams tmp idx = Ok r -> incl r tmp.
Proof.
  intros H. apply mapM_Ok_inv in H.
  induction H as [|i a idx r Hi _ IH]; intros x Hx; [destruct Hx|].
  destruct Hx as [<-|Hx]; [|now apply IH].
  destruct (nth_error tmp i) eqn:E; [|discriminate]. injection Hi as <-.
  eapply nth_error_In; eauto.
Qed.

Lemma reorder_cache_len (kl : Z) (idx : tensor2 nat) (B2 : nat) (c c' : cache vec) :
  reorder_cache kl idx B2 c = Ok c' ->
  Forall (fun r => length r = Z.to_nat kl) c'.
Proof.
  unfold reorder_cache. destruct (kl <? 0)%Z; [discriminate|]. intros H.
  apply bind_Ok in H as (tmp & Hv & H).
  apply bind_Ok in H as (new & Hnew & H). injection H as <-.
  unfold view4 in Hv.
  destruct (Nat.eqb_spec (length (concat c)) (shape0 idx * B2 * Z.to_nat kl)) as [E|];
    [|discriminate].
  injection Hv as <-.
  apply Forall_concat. apply mapM_Ok_inv in Hnew.
  assert (Hall : Forall (fun p : list (list vec) * list nat =>
                           Forall (fun r => length r = Z.to_nat kl) (fst p))
                        (combine (chunk (shape0 idx) B2
                                    (chunk (shape0 idx * B2) (Z.to_nat kl) (concat c)))
                                 (rows idx))).
  { apply Forall_forall. intros [tb ib] Hin. cbn [fst].
    apply in_combine_l in Hin. apply In_chunk in Hin.
    apply Forall_forall. intros r Hr. apply Hin in Hr.
    pose proof (chunk_Forall_length (shape0 idx * B2) (Z.to_nat kl) (concat c)) as Hc.
    rewrite Forall_forall in Hc. apply Hc; [lia|exact Hr]. }
  induction Hnew as [|p r ps new Hp _ IH]; constructor.
  - apply Forall_cons_iff in Hall as [Hp' _].
    apply gather_beams_incl in Hp. rewrite Forall_forall in *. auto.
  - apply IH. now apply Forall_cons_iff in Hall as [_ ?].
Qed.

Lemma key_len_window (ly : layer vec att) (n : nat) :
  window_ok ly -> 1 <= n ->
  Z.to_nat (key_len ly (n - 1)) = window (segm_len ly) n.
Proof.
  unfold window_ok, key_len, window. destruct (segm_len ly); intros; lia.
Qed.

Lemma reorder_inv (ly ly' : layer vec att) idx n :
  window_ok ly -> cache_inv ly n ->
  reorder_selfatt_keys_values (n - 1) idx ly = Ok ly' ->
  segm_len ly' = segm_len ly /\ cache_inv ly' n.
Proof.
  intros Hw Hinv H. unfold reorder_selfatt_keys_values in H.
  destruct Hinv as [[_ HK] | (Hn & _)]; [rewrite HK in H; discriminate|].
  destruct (K_sa ly) as [K|]; [|discriminate].
  destruct (shape0 idx =? 0); [discriminate|].
  apply bind_Ok in H as (K' & HK' & H).
  destruct (V_sa ly) as [V|]; [|discriminate].
  apply bind_Ok in H as (V' & HV' & H). injection H as <-.
  split; [reflexivity|]. right. split; [assumption|].
  cbn [segm_len K_sa V_sa set_cache].
  rewrite <- key_len_window by assumption.
  split; eexists; (split; [reflexivity|]); eapply reorder_cache_len; eauto.
Qed.

Lemma run_ops_inv (ops : list (op vec att)) :
  forall (ly ly' : layer vec att) (n : nat),
    window_ok ly -> cache_inv ly n ->
    run_ops ly n ops = Ok ly' ->
    cache_inv ly' (n + forwards ops) /\ segm_len ly' = segm_len ly.
Proof.
  induction ops as [|o ops IH]; intros ly ly' n Hw Hinv H.
  - simpl in H. injection H as <-. unfold forwards. simpl.
    rewrite Nat.add_0_r. auto.
  - destruct o as [h_t K_att V_att mask | B | idx]; cbn [run_ops] in H.
    + apply bind_Ok in H as ([h ly1] & Hf & H).
      destruct (forward_inv _ _ _ _ _ _ _ _ Hw Hinv Hf) as [Hs Hi].
      apply IH in H; [|unfold window_ok; now rewrite Hs|assumption].
      destruct H as [H1 H2]. split; [|congruence].
      unfold forwards in *. cbn [filter is_forward length].
      now rewrite Nat.add_succ_r.
    + apply bind_Ok in H as (ly1 & Hf & H).
      destruct (repeat_inv _ _ _ _ Hinv Hf) as [Hs Hi].
      apply IH in H; [|unfold window_ok; now rewrite Hs|assumption].
      destruct H as [H1 H2]. split; [exact H1|congruence].
    + apply bind_Ok in H as (ly1 & Hf & H).
      destruct (reorder_inv _ _ _ _ Hw Hinv Hf) as [Hs Hi].
      apply IH in H; [|unfold window_ok; now rewrite Hs|assumption].
      destruct H as [H1 H2]. split; [exact H1|congruence].
Qed.


(** ** Reordering *)

Lemma length_concat_uniform {A : Type} (k : nat) (ls : list (list A)) :
  Forall (fun r => length r = k) ls -> length (concat ls) = length ls * k.
Proof.
  induction 1 as [|r ls Hr _ IH]; simpl; [reflexivity|].
  rewrite length_app, IH, Hr. reflexivity.
Qed.

Lemma gather_beams_ok {A : Type} (d : A) (tmp : list A) (idx : list nat) :
  Forall (fun i => i < length tmp) idx ->
  gather_beams tmp idx = Ok (map (fun i => nth i tmp d) idx).
Proof.
  intros H. apply mapM_ok. eapply Forall_impl; [|exact H].
  intros i Hi. cbv beta. now rewrite (nth_error_nth' tmp d Hi).
Qed.

Lemma nth_chunk {A : Type} (n k : nat) (l : list A) (b : nat) :
  b < n -> nth b (chunk n k l) [] = firstn k (skipn (b * k) l).
Proof.
  intros Hb. apply nth_error_nth. now apply nth_error_chunk.
Qed.

(** One cache tensor: the call succeeds and position (b, i) of the result
    is position (b, idx[b][i]) of the operand. *)
Lemma reorder_cache_spec (kl : Z) (idx : tensor2 nat) (B2 : nat) (c : cache vec) :
  wf2 idx -> (0 <= kl)%Z ->
  length c = shape0 idx * B2 ->
  Forall (fun r => length r = Z.to_nat kl) c ->
  Forall (Forall (fun i => i < B2)) (rows idx) ->
  exists c',
    reorder_cache kl idx B2 c = Ok c' /\
    length c' = shape0 idx * shape1 idx /\
    forall b i, b < shape0 idx -> i < shape1 idx ->
      nth_error c' (b * shape1 idx + i)
      = nth_error c (b * B2 + nth i (nth b (rows idx) []) 0) /\
      b * B2 + nth i (nth b (rows idx) []) 0 < length c.
Proof.
  intros [Hil Hir] Hkl Hlen Hrows Hidx. unfold reorder_cache.
  destruct (Z.ltb_spec kl 0) as [|_]; [lia|].
  unfold view4. rewrite (length_concat_uniform _ _ Hrows), Hlen, Nat.eqb_refl.
  cbn [bind]. rewrite <- Hlen, (chunk_concat _ _ Hrows).
  set (tmp := chunk (shape0 idx) B2 c).
  set (new := map (fun p : list (list vec) * list nat =>
                     map (fun i => nth i (fst p) []) (snd p))
                  (combine tmp (rows idx))).
  assert (Htmp : forall b, b < shape0 idx ->
                 nth b tmp [] = firstn B2 (skipn (b * B2) c)).
  { intros b Hb. unfold tmp. now apply nth_chunk. }
  assert (Htl : Forall (fun r : list (list vec) => length r = B2) tmp).
  { unfold tmp. apply chunk_Forall_length. lia. }
  assert (Hm : mapM (fun p : list (list vec) * list nat => gather_beams (fst p) (snd p))
                    (combine tmp (rows idx)) = Ok new).
  { apply mapM_ok. apply Forall_forall. intros [tb ib] Hin. cbn [fst snd].
    apply gather_beams_ok.
    pose proof (in_combine_l _ _ _ _ Hin) as Ht.
    pose proof (in_combine_r _ _ _ _ Hin) as Hi.
    rewrite Forall_forall in Htl, Hidx. rewrite (Htl _ Ht). now apply Hidx. }
  rewrite Hm. cbn [bind]. exists (concat new).
  assert (Hnl : Forall (fun r : list (list vec) => length r = shape1 idx) new).
  { unfold new. apply Forall_map, Forall_forall. intros [tb ib] Hin. cbn [fst snd].
    rewrite length_map. rewrite Forall_forall in Hir.
    apply Hir. eapply in_combine_r; eauto. }
  assert (Hnn : length new = shape0 idx).
  { unfold new, tmp. rewrite length_map, length_combine, length_chunk. lia. }
  split; [reflexivity|]. split.
  { rewrite (length_concat_uniform _ _ Hnl). now rewrite Hnn. }
  intros b i Hb Hi.
  set (ib := nth b (rows idx) []).
  assert (Hib : length ib = shape1 idx /\ Forall (fun j => j < B2) ib).
  { rewrite Forall_forall in Hir, Hidx.
    assert (In ib (rows idx)) by (apply nth_In; lia). auto. }
  destruct Hib as [Hibl Hibv].
  assert (Hj : nth i ib 0 < B2).
  { rewrite Forall_forall in Hibv. apply Hibv, nth_In. lia. }
  assert (Hbound : b * B2 + nth i ib 0 < length c) by nia.
  split; [|exact Hbound].
  rewrite (nth_error_concat _ _ _ _ Hnl Hi).
  assert (Hnb : nth_error new b
                = Some (map (fun j => nth j (nth b tmp []) []) ib)).
  { unfold new. rewrite nth_error_map.
    rewrite (nth_error_nth' (combine tmp (rows idx)) ([], [])).
    2:{ rewrite length_combine. unfold tmp. rewrite length_chunk. lia. }
    rewrite combine_nth by (unfold tmp; rewrite length_chunk; lia).
    reflexivity. }
  rewrite Hnb, nth_error_map.
  rewrite (nth_error_nth' ib 0) by lia. cbn [option_map].
  rewrite (Htmp b Hb), nth_firstn.
  destruct (Nat.ltb_spec (nth i ib 0) B2) as [_|]; [|lia].
  rewrite nth_skipn. symmetry. now apply nth_error_nth'.
Qed.

(** ** A configured window of length 0

    [K_sa[:, -0:, :]] is [K_sa[:, 0:, :]]: nothing is dropped. *)

Lemma slice_last_zero {A : Type} (l : list A) : slice_last 0 l = l.
Proof.
  unfold slice_last. cbn [Z.ltb Z.compare Z.opp].
  replace (Z.to_nat (Z.min 0 (Z.of_nat (length l)))) with 0 by lia.
  reflexivity.
Qed.

Lemma truncate_zero (ly : layer vec att) (c : cache vec) :
  segm_len ly = Some 0%Z -> truncate ly c = c.
Proof.
  intros H. unfold truncate. rewrite H.
  induction c as [|r c IH]; cbn [map]; [reflexivity|].
  now rewrite slice_last_zero, IH.
Qed.

(** The caches between two resets when nothing is dropped: [n] entries
    per row after [n] calls of [forward]. *)
Definition full_cache_inv (ly : layer vec att) (n : nat) : Prop :=
  (n = 0 /\ K_sa ly = None) \/
  (1 <= n /\ cache_len (K_sa ly) n /\ cache_len (V_sa ly) n).

Lemma forward_full_inv (ly ly' : layer vec att) h_t K_att V_att mask h' n :
  segm_len ly = Some 0%Z -> full_cache_inv ly n ->
  forward ly h_t K_att V_att mask = Ok (h', ly') ->
  segm_len ly' = segm_len ly /\ full_cache_inv ly' (S n).
Proof.
  intros Hw Hinv H. unfold forward in H.
  apply bind_Ok in H as ([K V] & Happ & H).
  apply bind_Ok in H as (h & _ & H). injection H as _ <-.
  split; [reflexivity|]. right. split; [lia|]. cbn [segm_len K_sa V_sa set_cache].
  rewrite !truncate_zero by exact Hw.
  replace (S n) with (n + 1) by lia.
  unfold append_cache in Happ.
  destruct Hinv as [[-> HK] | (Hn & (K0 & HK & HKl) & (V0 & HV & HVl))].
  - rewrite HK in Happ. injection Happ as <- <-.
    split; eexists; (split; [reflexivity|]); apply singletons_len.
  - rewrite HK, HV in Happ.
    apply bind_Ok in Happ as (K' & HK' & Happ).
    apply bind_Ok in Happ as (V' & HV' & Happ). injection Happ as <- <-.
    split; eexists; (split; [reflexivity|]); eapply cat1_len; eauto.
Qed.

Lemma repeat_full_inv (ly ly' : layer vec att) B n :
  full_cache_inv ly n ->
  repeat_selfatt_keys_values B ly = Ok ly' ->
  segm_len ly' = segm_len ly /\ full_cache_inv ly' n.
Proof.
  intros Hinv H. unfold repeat_selfatt_keys_values in H.
  destruct (K_sa ly) as [K|] eqn:HK; [|discriminate].
  destruct (V_sa ly) as [V|] eqn:HV; [|discriminate].
  injection H as <-. split; [reflexivity|].
  destruct Hinv as [[_ ?] | (Hn & (K0 & HK0 & HKl) & (V0 & HV0 & HVl))]; [congruence|].
  assert (K0 = K) by congruence. assert (V0 = V) by congruence. subst K0 V0.
  right. split; [assumption|]. cbn [segm_len K_sa V_sa set_cache].
  split; eexists; (split; [reflexivity|]); now apply repeat_interleave_Forall.
Qed.

Lemma chunk_zero {A : Type} (n : nat) (l : list A) (r : list A) :
  In r (chunk n 0 l) -> r = [].
Proof.
  revert l; induction n as [|n IH]; intros l; cbn [chunk In]; [tauto|].
  intros [<-|H]; [reflexivity|]. eapply IH; eassumption.
Qed.

(** [c.view(bsz, B2, 0, dim_emb)] needs a tensor without entries: with
    rows of [n >= 1] vectors the call raises unless there is no row. *)
Lemma view4_zero (c : cache vec) (bsz B2 n : nat) :
  1 <= n -> Forall (fun r => length r = n) c ->
  (c = [] /\ view4 c bsz B2 0 = Ok (chunk bsz B2 (chunk (bsz * B2) 0 []))) \/
  (c <> [] /\ view4 c bsz B2 0 = Raise RuntimeError).
Proof.
  intros Hn Hc. unfold view4.
  rewrite (length_concat_uniform n c Hc), Nat.mul_0_r.
  destruct c as [|r c]; [left; split; reflexivity|].
  right. split; [discriminate|].
  destruct (Nat.eqb_spec (length (r :: c) * n) 0) as [E|]; [|reflexivity].
  cbn [length] in E. nia.
Qed.

(** With key length 0 and no source beam, the rebuilt cache is empty. *)
Lemma reorder_cache_zero (idx : tensor2 nat) (c' : cache vec) :
  reorder_cache 0 idx 0 [] = Ok c' -> c' = [].
Proof.
  unfold reorder_cache. cbn [Z.ltb Z.compare]. intros H.
  apply bind_Ok in H as (tmp & Hv & H).
  apply bind_Ok in H as (new & Hnew & H). injection H as <-.
  unfold view4 in Hv. cbn [concat] in Hv.
  destruct (length (@nil vec) =? shape0 idx * 0 * Z.to_nat 0); [|discriminate].
  injection Hv as <-.
  apply mapM_Ok_inv in Hnew.
  match type of Hnew with
  | Forall2 _ ?l _ =>
      assert (Hall : Forall (fun p : list (list vec) * list nat => fst p = []) l);
      [|remember l as pairs eqn:Eps; clear Eps; revert Hall]
  end.
  { apply Forall_forall. intros [tb ib] Hin. cbn [fst].
    apply in_combine_l in Hin. eapply chunk_zero; eassumption. }
  induction Hnew as [|p r ps new Hp _ IH]; intros Hall; [reflexivity|].
  apply Forall_cons_iff in Hall as [Hp0 Hall].
  apply gather_beams_incl in Hp. rewrite Hp0 in Hp.
  destruct r as [|x r]; [|destruct (Hp x (or_introl eq_refl))].
  cbn [concat app]. now apply IH.
Qed.

Lemma reorder_full_inv (ly ly' : layer vec att) idx n :
  segm_len ly = Some 0%Z -> full_cache_inv ly n ->
  reorder_selfatt_keys_values (n - 1) idx ly = Ok ly' ->
  segm_len ly' = segm_len ly /\ full_cache_inv ly' n.
Proof.
  intros Hw Hinv H. unfold reorder_selfatt_keys_values in H.
  destruct Hinv as [[_ HK] | (Hn & (K & HK & HKl) & (V & HV & HVl))];
    [rewrite HK in H; discriminate|].
  rewrite HK, HV in H.
  destruct (Nat.eqb_spec (shape0 idx) 0) as [|Hb]; [discriminate|].
  assert (Ekl : key_len ly (n - 1) = 0%Z) by (unfold key_len; rewrite Hw; lia).
  rewrite Ekl in H.
  apply bind_Ok in H as (K' & HK' & H).
  apply bind_Ok in H as (V' & HV' & H). injection H as <-.
  assert (EK : K = []).
  { destruct (view4_zero K (shape0 idx) (length K / shape0 idx) n Hn HKl)
      as [[E _]|[_ E]]; [exact E|].
    unfold reorder_cache in HK'. cbn [Z.ltb Z.compare Z.to_nat] in HK'.
    rewrite E in HK'. discriminate. }
  subst K. cbn [length] in HK', HV'.
  rewrite Nat.Div0.div_0_l in HK', HV'.
  assert (EV : V = []).
  { destruct (view4_zero V (shape0 idx) 0 n Hn HVl) as [[E _]|[_ E]]; [exact E|].
    unfold reorder_cache in HV'. cbn [Z.ltb Z.compare Z.to_nat] in HV'.
    rewrite E in HV'. discriminate. }
  subst V.
  apply reorder_cache_zero in HK'. apply reorder_cache_zero in HV'. subst K' V'.
  split; [reflexivity|]. right. split; [assumption|].
  cbn [K_sa V_sa set_cache]. split; eexists; (split; [reflexivity|]); constructor.
Qed.

Lemma run_ops_full_inv (ops : list (op vec att)) :
  forall (ly ly' : layer vec att) (n : nat),
    segm_len ly = Some 0%Z -> full_cache_inv ly n ->
    run_ops ly n ops = Ok ly' ->
    full_cache_inv ly' (n + forwards ops) /\ segm_len ly' = segm_len ly.
Proof.
  induction ops as [|o ops IH]; intros ly ly' n Hw Hinv H.
  - simpl in H. injection H as <-. unfold forwards. simpl.
    rewrite Nat.add_0_r. auto.
  - destruct o as [h_t K_att V_att mask | B | idx]; cbn [run_ops] in H.
    + apply bind_Ok in H as ([h ly1] & Hf & H).
      destruct (forward_full_inv _ _ _ _ _ _ _ _ Hw Hinv Hf) as [Hs Hi].
      apply IH in H; [|now rewrite Hs|assumption].
      destruct H as [H1 H2]. split; [|congruence].
      unfold forwards in *. cbn [filter is_forward length].
      now rewrite Nat.add_succ_r.
    + apply bind_Ok in H as (ly1 & Hf & H).
      destruct (repeat_full_inv _ _ _ _ Hinv Hf) as [Hs Hi].
      apply IH in H; [|now rewrite Hs|assumption].
      destruct H as [H1 H2]. split; [exact H1|congruence].
    + apply bind_Ok in H as (ly1 & Hf & H).
      destruct (reorder_full_inv _ _ _ _ Hw Hinv Hf) as [Hs Hi].
      apply IH in H; [|now rewrite Hs|assumption].
      destruct H as [H1 H2]. split; [exact H1|congruence].
Qed.

(** On a cache with a row, the reorder that follows [n >= 1] calls of
    [forward] asks for a view of key length [min(0, n) = 0] and raises. *)
Lemma reorder_window_zero_raises (ly : layer vec att) (K V : cache vec) idx n :
  segm_len ly = Some 0%Z -> 1 <= n ->
  K_sa ly = Some K -> Forall (fun r => length r = n) K -> K <> [] ->
  shape0 idx <> 0 ->
  reorder_selfatt_keys_values (n - 1) idx ly = Raise RuntimeError.
Proof.
  intros Hw Hn HK HKl Hne Hb. unfold reorder_selfatt_keys_values.
  rewrite HK. destruct (Nat.eqb_spec (shape0 idx) 0) as [|_]; [contradiction|].
  assert (Ekl : key_len ly (n - 1) = 0%Z) by (unfold key_len; rewrite Hw; lia).
  rewrite Ekl. unfold reorder_cache. cbn [Z.ltb Z.compare Z.to_nat].
  destruct (view4_zero K (shape0 idx) (length K / shape0 idx) n Hn HKl)
    as [[E _]|[_ E]]; [contradiction|].
  rewrite E. reflexivity.
Qed.

End CacheFacts.

Import DecoderLayer.

(** The cache length invariant for a layer without a window or with a
    window of at least one entry: between two resets, after the calls
    [ops] of a decode on a layer, of which [t+1] are calls of [forward],
    both cache tensors have [min(t+1, segm_len)] entries per row under a
    window [segm_len >= 1], and [t+1] entries without a window. *)
Theorem cache_length_after_forward_calls {vec att : Type}
  (ly ly' : layer vec att) (ops : list (op vec att)) :
  window_ok ly ->
  run_ops (reset_selfatt_keys_values ly) 0 ops = Ok ly' ->
  1 <= forwards ops ->
  cache_len (K_sa ly') (window (segm_len ly) (forwards ops)) /\
  cache_len (V_sa ly') (window (segm_len ly) (forwards ops)).
Proof.
  intros Hw Hrun Hn.
  destruct (run_ops_inv ops (reset_selfatt_keys_values ly) ly' 0) as [Hinv Hs];
    [exact Hw | left; split; reflexivity | exact Hrun |].
  cbn [Nat.add] in Hinv. cbn [segm_len reset_selfatt_keys_values set_cache] in Hs.
  destruct Hinv as [[H0 _] | (_ & HK & HV)]; [lia|].
  rewrite Hs in HK, HV. split; assumption.
Qed.

Lemma cache_length_after_forward_calls_witness :
  exists ly',
    run_ops (reset_selfatt_keys_values (toy_layer (Some 3%Z))) 0 toy_ops = Ok ly' /\
    cache_len (K_sa ly') 3 /\ cache_len (V_sa ly') 3.
Proof.
  eexists. split; [vm_compute; reflexivity|].
  apply (cache_length_after_forward_calls (toy_layer (Some 3%Z)) _ toy_ops).
  - unfold window_ok. simpl. lia.
  - vm_compute. reflexivity.
  - vm_compute. lia.
Defined.

(** The first call on a layer with a window of length 0: Python reads
    [K_sa[:, -0:, :]] as [K_sa[:, 0:, :]], so nothing is dropped and the
    cache of one row has 1 entry after the call, not [min(1, 0) = 0]. *)
Lemma cache_length_window_zero :
  exists ly',
    run_ops (reset_selfatt_keys_values (toy_layer (Some 0%Z))) 0
            [OpForward [7] [tt] [tt] [[false]]] = Ok ly' /\
    K_sa ly' = Some [[7]] /\
    window (Some 0%Z) 1 = 0 /\
    ~ cache_len (K_sa ly') (window (Some 0%Z) 1).
Proof.
  eexists. split; [vm_compute; reflexivity|].
  split; [reflexivity|]. split; [reflexivity|].
  intros (rows & Hr & Hl). cbn in Hr. injection Hr as <-.
  apply Forall_cons_iff in Hl as [Hl _]. discriminate Hl.
Qed.

(** C2, the window of length 0.  [segm_len = 0] is a configured window, for
    which C2 and [key_len = min(segm_len, t+1)] of
    [reorder_selfatt_keys_values] give a cache of length 0.  The slice
    [[:, -segm_len:, :]] of [forward] keeps everything instead: between
    two resets, after any calls [ops] of which [t+1 >= 1] are calls of
    [forward], every row of both caches has [t+1] entries.  On a cache
    with a row, the length C2 states is therefore wrong, and the reorder
    of step [t], which views the caches with key length 0, raises
    RuntimeError. *)
Theorem cache_window_zero_keeps_every_entry {vec att : Type}
  (ly ly' : layer vec att) (ops : list (op vec att)) :
  segm_len ly = Some 0%Z ->
  run_ops (reset_selfatt_keys_values ly) 0 ops = Ok ly' ->
  1 <= forwards ops ->
  window (segm_len ly) (forwards ops) = 0 /\
  exists K V,
    K_sa ly' = Some K /\ V_sa ly' = Some V /\
    Forall (fun r => length r = forwards ops) K /\
    Forall (fun r => length r = forwards ops) V /\
    (K <> [] ->
     ~ cache_len (K_sa ly') (window (segm_len ly) (forwards ops)) /\
     forall idx_top_beams, shape0 idx_top_beams <> 0 ->
       reorder_selfatt_keys_values (forwards ops - 1) idx_top_beams ly'
       = Raise RuntimeError).
Proof.
  intros Hw Hrun Hn.
  destruct (run_ops_full_inv ops (reset_selfatt_keys_values ly) ly' 0) as [Hinv Hs];
    [exact Hw | left; split; reflexivity | exact Hrun |].
  cbn [Nat.add] in Hinv. cbn [segm_len reset_selfatt_keys_values set_cache] in Hs.
  destruct Hinv as [[H0 _] | (_ & (K & HK & HKl) & (V & HV & HVl))]; [lia|].
  split; [rewrite Hw; unfold window; lia|].
  exists K, V. repeat (split; [assumption|]).
  intros Hne. split.
  - rewrite Hw. replace (window (Some 0%Z) (forwards ops)) with 0
      by (unfold window; lia).
    intros (rows & Hr & Hl). rewrite HK in Hr. injection Hr as <-.
    destruct K as [|r K]; [contradiction|].
    apply Forall_cons_iff in HKl as [HKl _]. apply Forall_cons_iff in Hl as [Hl _].
    lia.
  - intros idx Hb.
    eapply reorder_window_zero_raises; eauto. congruence.
Qed.

Lemma cache_window_zero_keeps_every_entry_witness :
  exists ly',
    run_ops (reset_selfatt_keys_values (toy_layer (Some 0%Z))) 0
            (firstn 4 toy_ops) = Ok ly' /\
    K_sa ly' = Some [[1; 3; 5]; [1; 3; 6]; [2; 4; 7]; [2; 4; 8]] /\
    ~ cache_len (K_sa ly') 0 /\
    reorder_selfatt_keys_values 2 (Tensor2 2 2 [[1; 1]; [1; 0]]) ly'
    = Raise RuntimeError.
Proof.
  eexists. split; [vm_compute; reflexivity|]. split; [reflexivity|].
  destruct (cache_window_zero_keeps_every_entry (toy_layer (Some 0%Z)) _
              (firstn 4 toy_ops) eq_refl eq_refl ltac:(vm_compute; lia))
    as (_ & K & V & HK & _ & _ & _ & H).
  cbn in HK. injection HK as <-.
  destruct H as [H1 H2]; [discriminate|]. split.
  - exact H1.
  - exact (H2 (Tensor2 2 2 [[1; 1]; [1; 0]]) ltac:(discriminate)).
Defined.

(** C3: on a layer whose caches hold [B2] sequences per batch row, each of
    the current key length, [reorder_selfatt_keys_values t idx_top_beams]
    succeeds, and in the rebuilt caches the sequence at beam position [i]
    of batch row [b] is the one that was at source beam
    [idx_top_beams[b][i]] of row [b]. *)
Theorem reorder_holds_source_beams {vec att : Type}
  (ly : layer vec att) (t : nat) (idx_top_beams : tensor2 nat)
  (K V : cache vec) (B2 : nat) :
  wf2 idx_top_beams -> 1 <= shape0 idx_top_beams ->
  K_sa ly = Some K -> V_sa ly = Some V ->
  length K = shape0 idx_top_beams * B2 ->
  length V = shape0 idx_top_beams * B2 ->
  (0 <= key_len ly t)%Z ->
  Forall (fun r => length r = Z.to_nat (key_len ly t)) K ->
  Forall (fun r => length r = Z.to_nat (key_len ly t)) V ->
  Forall (Forall (fun i => i < B2)) (rows idx_top_beams) ->
  exists K' V',
    reorder_selfatt_keys_values t idx_top_beams ly
    = Ok (set_cache ly (Some K') (Some V')) /\
    forall b i, b < shape0 idx_top_beams -> i < shape1 idx_top_beams ->
      let src := nth i (nth b (rows idx_top_beams) []) 0 in
      exists k v,
        nth_error K (b * B2 + src) = Some k /\
        nth_error V (b * B2 + src) = Some v /\
        nth_error K' (b * shape1 idx_top_beams + i) = Some k /\
        nth_error V' (b * shape1 idx_top_beams + i) = Some v.
Proof.
  intros Hwf Hb HK HV HKl HVl Hkl HKr HVr Hidx.
  destruct (reorder_cache_spec (key_len ly t) idx_top_beams B2 K)
    as (K' & HK' & _ & HKs); auto.
  destruct (reorder_cache_spec (key_len ly t) idx_top_beams B2 V)
    as (V' & HV' & _ & HVs); auto.
  exists K', V'. split.
  - unfold reorder_selfatt_keys_values. rewrite HK, HV.
    destruct (Nat.eqb_spec (shape0 idx_top_beams) 0) as [|_]; [lia|].
    rewrite HKl, Nat.mul_comm, Nat.div_mul by lia.
    rewrite HK'. cbn [bind]. rewrite HV'. reflexivity.
  - intros b i Hbb Hi src.
    destruct (HKs b i Hbb Hi) as [EK LK]. destruct (HVs b i Hbb Hi) as [EV LV].
    fold src in EK, LK, EV, LV.
    exists (nth (b * B2 + src) K []), (nth (b * B2 + src) V []).
    rewrite EK, EV. repeat split; now apply nth_error_nth'.
Qed.

Lemma reorder_holds_source_beams_witness :
  exists K' V',
    reorder_selfatt_keys_values 1 (Tensor2 2 3 [[1; 1; 0]; [0; 1; 1]])
      (set_cache (toy_layer None)
         (Some [[1; 2]; [3; 4]; [5; 6]; [7; 8]])
         (Some [[11; 12]; [13; 14]; [15; 16]; [17; 18]]))
    = Ok (set_cache (toy_layer None) (Some K') (Some V')) /\
    nth_error K' (1 * 3 + 0) = Some [5; 6] /\
    nth_error V' (0 * 3 + 2) = Some [11; 12].
Proof.
  destruct (reorder_holds_source_beams
              (set_cache (toy_layer None)
                 (Some [[1; 2]; [3; 4]; [5; 6]; [7; 8]])
                 (Some [[11; 12]; [13; 14]; [15; 16]; [17; 18]]))
              1 (Tensor2 2 3 [[1; 1; 0]; [0; 1; 1]])
              [[1; 2]; [3; 4]; [5; 6]; [7; 8]]
              [[11; 12]; [13; 14]; [15; 16]; [17; 18]] 2)
    as (K' & V' & Hr & Hs).
  - split; [reflexivity|]. repeat constructor.
  - simpl; lia.
  - reflexivity.
  - reflexivity.
  - reflexivity.
  - reflexivity.
  - vm_compute. discriminate.
  - repeat constructor.
  - repeat constructor.
  - repeat constructor.
  - exists K', V'. split; [exact Hr|].
    destruct (Hs 1 0) as (k & v & Hk & _ & Hk' & _); [simpl; lia|simpl; lia|].
    destruct (Hs 0 2) as (k2 & v2 & _ & Hv & _ & Hv'); [simpl; lia|simpl; lia|].
    simpl in Hk, Hv. injection Hk as <-. injection Hv as <-. auto.
Defined.

Import Torch DecoderLayer TourLength MHA.


(* ================================================================== *)
(** * Proofs: masking in the attention primitive *)

Lemma nth_error_map2 {A B C : Type} (f : A -> B -> C) (l : list A) (m : list B) (j : nat) :
  nth_error (map2 f l m) j
  = match nth_error l j, nth_error m j with
    | Some a, Some b => Some (f a b)
    | _, _ => None
    end.
Proof.
  revert m j; induction l as [|a l IH]; intros [|b m] [|j]; simpl; auto.
  - destruct (nth_error l j); reflexivity.
Qed.

Lemma row_max_ge (l : list R) (m : R) : In m l -> (m <= row_max l)%R.
Proof.
  unfold row_max. generalize (hd 0%R l) as d.
  induction l as [|a l IH]; intros d H; [destruct H|].
  simpl. destruct H as [->|H].
  - apply Rmax_l.
  - eapply Rle_trans; [apply (IH d H)|apply Rmax_r].
Qed.

Lemma masked_fill_nth (s : list R) (m : list bool) (v : R) (l : list R) :
  masked_fill s m v = Ok l ->
  length l = length m /\
  forall j,
    (nth_error m j = Some true -> nth_error l j = Some v) /\
    (nth_error m j = Some false -> nth_error l j = nth_error s j).
Proof.
  unfold masked_fill.
  destruct (Nat.eqb_spec (length s) (length m)) as [E|]; [|discriminate].
  intros H. injection H as <-. split.
  - rewrite length_map2. lia.
  - intros j. rewrite nth_error_map2. split; intros Hm; rewrite Hm.
    + destruct (nth_error s j) eqn:Es; [reflexivity|].
      apply nth_error_None in Es.
      assert (j < length m) by (apply nth_error_Some; congruence). lia.
    + destruct (nth_error s j); reflexivity.
Qed.

Section MaskedSoftmax.

Variable expf : R -> R.
Variable tanhf : R -> R.
(** Distance below the largest logit from which [exp] is exactly 0. *)
Variable theta : R.

Hypothesis tanhf_range : forall x, (-1 <= tanhf x <= 1)%R.
Hypothesis expf_underflow : forall x, (x <= - theta)%R -> expf x = 0%R.

(** A logit at least [theta] below another entry of its row gets weight
    exactly 0. *)
Lemma softmax_underflow (l : list R) (j : nat) (x m : R) :
  nth_error l j = Some x -> In m l -> (x + theta <= m)%R ->
  nth_error (softmax expf l) j = Some 0%R.
Proof.
  intros Hj Hm Hx. unfold softmax. rewrite !nth_error_map, Hj. cbn [option_map].
  pose proof (row_max_ge l m Hm) as HM.
  rewrite expf_underflow by lra. f_equal. unfold Rdiv. ring.
Qed.

(** The pre-softmax row: a masked position holds -1e9 whatever the clipped
    score was, an unmasked one holds the score after the optional
    clip * tanh. *)
Lemma logits_row_fill (clip_value : option R) (m : list bool)
  (q : list R) (Ks : list (list R)) (l : list R) :
  logits_row tanhf clip_value (Some m) q Ks = Ok l ->
  length l = length m /\ length Ks = length m /\
  forall j,
    (nth_error m j = Some true -> nth_error l j = Some neg_1e9) /\
    (nth_error m j = Some false ->
     nth_error l j
     = option_map (fun k =>
                     let s := (dot q k / sqrt (INR (length q)))%R in
                     match clip_value with
                     | Some c => (c * tanhf s)%R
                     | None => s
                     end) (nth_error Ks j)).
Proof.
  unfold logits_row. destruct (forallb _ Ks); [|discriminate]. intros H.
  assert (Hlen : length Ks = length m).
  { unfold masked_fill in H.
    destruct clip_value; rewrite ?length_map in H;
      destruct (Nat.eqb_spec (length Ks) (length m)); congruence. }
  apply masked_fill_nth in H as [Hl Hn]. repeat split; auto.
  - apply Hn.
  - intros Hm. destruct (Hn j) as [_ ->]; [|exact Hm].
    destruct clip_value; rewrite ?nth_error_map;
      destruct (nth_error Ks j); reflexivity.
Qed.

(** ** Zero weight from a bound on an unmasked logit *)

Lemma attend_row_softmax (clip_value : option R) (mrow : option (list bool))
  (dh : nat) (q : list R) (Ks Vs : list (list R)) (o w : list R) :
  attend_row expf tanhf clip_value mrow dh q Ks Vs = Ok (o, w) ->
  exists l, logits_row tanhf clip_value mrow q Ks = Ok l /\ w = softmax expf l.
Proof.
  unfold attend_row. intros H. apply bind_Ok in H as (l & Hl & H).
  destruct (length (softmax expf l) =? length Vs); [|discriminate].
  injection H as _ <-. exists l. split; [exact Hl|reflexivity].
Qed.

Lemma heads_attend_logits (clip_value : option R) (mrow : option (list bool)) (dh : nat) :
  forall (qK : list (list R * list (list R))) (Vh : list (list (list R)))
         (per_head : list (list R * list R)),
    length Vh = length qK ->
    mapM (fun p => attend_row expf tanhf clip_value mrow dh
                     (fst (fst p)) (snd (fst p)) (snd p))
         (combine qK Vh) = Ok per_head ->
    exists ls,
      mapM (fun p => logits_row tanhf clip_value mrow (fst p) (snd p)) qK = Ok ls /\
      map snd per_head = map (softmax expf) ls.
Proof.
  induction qK as [|[qh Kh] qK IH]; intros [|v Vh] per_head Hlen H;
    try discriminate Hlen.
  - cbn in H. injection H as <-. exists []. split; reflexivity.
  - cbn [combine mapM fst snd] in H.
    apply bind_Ok in H as ([o w] & Hr & H).
    apply bind_Ok in H as (rest & Hrest & H). injection H as <-.
    destruct (attend_row_softmax _ _ _ _ _ _ _ _ Hr) as (l & Hl & ->).
    destruct (IH Vh rest ltac:(simpl in Hlen; lia) Hrest) as (ls & Hls & E).
    exists (l :: ls). cbn [mapM fst snd]. rewrite Hl, Hls. cbn [bind].
    split; [reflexivity|]. cbn [map snd]. now rewrite E.
Qed.

Lemma split_heads_length (nb_heads emd_dim : nat) (v : list R) (b : list (list R)) :
  split_heads nb_heads emd_dim v = Ok b -> length b = nb_heads.
Proof.
  unfold split_heads. destruct (_ && _); [|discriminate].
  intros H. injection H as <-. apply length_chunk.
Qed.

(** The weights of a batch row are the mean over the heads of the softmax
    of [head_logits]. *)
Lemma myMHA_row_head_logits (nb_heads emd_dim : nat) (clip_value : option R)
  (mrow : option (list bool)) (q : list R) (Ks Vs : list (list R)) (o w : list R) :
  myMHA_row expf tanhf nb_heads emd_dim clip_value mrow q Ks Vs = Ok (o, w) ->
  exists ls,
    head_logits tanhf nb_heads emd_dim clip_value mrow q Ks = Ok ls /\
    w = mean_of_heads nb_heads (length Ks) (map (softmax expf) ls).
Proof.
  unfold myMHA_row, head_logits, mean_of_heads. intros H.
  destruct (1 <? nb_heads).
  - apply bind_Ok in H as (qh & Hqh & H).
    apply bind_Ok in H as (Kb & HKb & H).
    apply bind_Ok in H as (Vb & _ & H).
    apply bind_Ok in H as (per_head & Hph & H). injection H as _ <-.
    rewrite Hqh, HKb. cbn [bind].
    destruct (heads_attend_logits clip_value mrow (emd_dim / nb_heads)
                (combine qh (heads_of nb_heads Kb)) (heads_of nb_heads Vb) per_head)
      as (ls & Hls & E); [|exact Hph|].
    { rewrite length_combine, (split_heads_length _ _ _ _ Hqh). unfold heads_of.
      rewrite !length_map, !length_seq. lia. }
    exists ls. split; [exact Hls|]. now rewrite E.
  - destruct (attend_row_softmax _ _ _ _ _ _ _ _ H) as (l & Hl & ->).
    exists [l]. rewrite Hl. split; reflexivity.
Qed.

(** Every row of [head_logits] under a mask row [m] has the length of [m],
    which is the number of keys, and holds -1e9 at the masked positions. *)
Lemma head_logits_fill (nb_heads emd_dim : nat) (clip_value : option R)
  (m : list bool) (q : list R) (Ks : list (list R)) (ls : list (list R)) :
  head_logits tanhf nb_heads emd_dim clip_value (Some m) q Ks = Ok ls ->
  ls <> [] /\ length Ks = length m /\
  Forall (fun l => forall j, nth_error m j = Some true ->
                             nth_error l j = Some neg_1e9) ls.
Proof.
  unfold head_logits. intros H. destruct (Nat.ltb_spec 1 nb_heads) as [HH|_].
  - apply bind_Ok in H as (qh & Hqh & H).
    apply bind_Ok in H as (Kb & HKb & H).
    assert (HKl : length Kb = length Ks).
    { apply mapM_Ok_inv in HKb. symmetry. eapply Forall2_length; eauto. }
    pose proof (split_heads_length _ _ _ _ Hqh) as Hql.
    apply mapM_Ok_inv in H.
    assert (Hin : forall p, In p (combine qh (heads_of nb_heads Kb)) ->
                            length (snd p) = length Ks).
    { intros [qq kk] Hp. cbn [snd]. apply in_combine_r in Hp. unfold heads_of in Hp.
      apply in_map_iff in Hp as (h & <- & _). now rewrite length_map. }
    assert (Hne : combine qh (heads_of nb_heads Kb) <> []).
    { intros E. apply (f_equal (@length _)) in E.
      rewrite length_combine in E. unfold heads_of in E.
      rewrite length_map, length_seq in E. simpl in E. lia. }
    remember (combine qh (heads_of nb_heads Kb)) as qK eqn:EqK. clear EqK.
    destruct H as [|p l qK' ls' Hp Hrest]; [congruence|].
    split; [discriminate|].
    destruct (logits_row_fill _ _ _ _ _ Hp) as (_ & HK & Hn).
    split; [rewrite <- (Hin p (or_introl eq_refl)); exact HK|].
    constructor; [intros j Hj; now apply Hn|].
    clear Hp Hn HK Hne Hin. induction Hrest as [|p' l' qK'' ls'' Hp' _ IH];
      constructor; [|exact IH].
    destruct (logits_row_fill _ _ _ _ _ Hp') as (_ & _ & Hn').
    intros j Hj. now apply Hn'.
  - apply bind_Ok in H as (l & Hl & H). injection H as <-.
    destruct (logits_row_fill _ _ _ _ _ Hl) as (_ & HK & Hn).
    split; [discriminate|]. split; [exact HK|].
    constructor; [|constructor]. intros j Hj. now apply Hn.
Qed.

Section Clipped.

Variable c : R.
Hypothesis c_nonneg : (0 <= c)%R.
Hypothesis c_small : (c + theta <= 1000000000)%R.

Lemma attend_row_masked_zero (m : list bool) (dh : nat) (q : list R)
  (Ks Vs : list (list R)) (o w : list R) (j j0 : nat) :
  attend_row expf tanhf (Some c) (Some m) dh q Ks Vs = Ok (o, w) ->
  nth_error m j = Some true -> nth_error m j0 = Some false ->
  nth_error w j = Some 0%R /\ length w = length Ks.
Proof.
  unfold attend_row. intros H Hj Hj0.
  apply bind_Ok in H as (l & Hl & H).
  destruct (Nat.eqb_spec (length (softmax expf l)) (length Vs)); [|discriminate].
  injection H as _ <-.
  destruct (logits_row_fill _ _ _ _ _ Hl) as (Hlen & HK & Hn).
  split; [|unfold softmax; rewrite !length_map; lia].
  destruct (Hn j) as [Hfill _]. destruct (Hn j0) as [_ Hclip].
  specialize (Hfill Hj). specialize (Hclip Hj0).
  destruct (nth_error Ks j0) as [k|] eqn:Ek.
  2:{ apply nth_error_None in Ek.
      assert (j0 < length m) by (apply nth_error_Some; congruence). lia. }
  cbn [option_map] in Hclip.
  eapply softmax_underflow; [exact Hfill | eapply nth_error_In; exact Hclip |].
  pose proof (tanhf_range (dot q k / sqrt (INR (length q)))) as Ht.
  unfold neg_1e9. nra.
Qed.

Lemma sum_rows_zero (n j : nat) (ws : list (list R)) :
  j < n -> Forall (fun w => nth_error w j = Some 0%R) ws ->
  nth_error (sum_rows n ws) j = Some 0%R.
Proof.
  intros Hj H. unfold sum_rows. induction H as [|w ws Hw _ IH]; simpl.
  - rewrite (nth_error_nth' _ 0%R) by (rewrite repeat_length; lia).
    now rewrite nth_repeat.
  - rewrite nth_error_map2, Hw, IH. f_equal. ring.
Qed.

Lemma myMHA_row_masked_zero (nb_heads emd_dim : nat) (m : list bool) (q : list R)
  (Ks Vs : list (list R)) (o w : list R) (j j0 : nat) :
  myMHA_row expf tanhf nb_heads emd_dim (Some c) (Some m) q Ks Vs = Ok (o, w) ->
  nth_error m j = Some true -> nth_error m j0 = Some false ->
  nth_error w j = Some 0%R.
Proof.
  unfold myMHA_row. intros H Hj Hj0.
  destruct (Nat.ltb_spec 1 nb_heads) as [HH|_].
  2:{ eapply attend_row_masked_zero; eauto. }
  apply bind_Ok in H as (qh & Hqh & H).
  apply bind_Ok in H as (Kb & HKb & H).
  apply bind_Ok in H as (Vb & _ & H).
  apply bind_Ok in H as (per_head & Hph & H). injection H as _ <-.
  rewrite nth_error_map.
  assert (HKl : length Kb = length Ks).
  { apply mapM_Ok_inv in HKb. symmetry. eapply Forall2_length; eauto. }
  assert (Hqhl : length qh = nb_heads).
  { unfold split_heads in Hqh. destruct (_ && _); [|discriminate].
    injection Hqh as <-. apply length_chunk. }
  apply mapM_Ok_inv in Hph.
  assert (Hpl : length per_head = nb_heads).
  { rewrite <- (Forall2_length Hph), !length_combine. unfold heads_of.
    rewrite !length_map, !length_seq. lia. }
  assert (Hall : Forall (fun r : list R * list R =>
                           nth_error (snd r) j = Some 0%R /\ length (snd r) = length Ks)
                        per_head).
  { assert (Hin : forall p, In p (combine (combine qh (heads_of nb_heads Kb))
                                          (heads_of nb_heads Vb)) ->
                            length (snd (fst p)) = length Ks).
    { intros [[qq kk] vv] Hp. cbn [fst snd].
      apply in_combine_l, in_combine_r in Hp. unfold heads_of in Hp.
      apply in_map_iff in Hp as (h & <- & _). now rewrite length_map. }
    clear Hpl. induction Hph as [|p r ps rs Hp _ IH]; constructor.
    - destruct r as [o' w']. cbn [snd].
      rewrite <- (Hin p (or_introl eq_refl)).
      eapply attend_row_masked_zero; eauto.
    - apply IH. intros p' Hp'. apply Hin. now right. }
  assert (Hjn : j < length Ks).
  { destruct per_head as [|[o' w'] rs]; [simpl in Hpl; lia|].
    apply Forall_cons_iff in Hall as [[Hw Hl] _]. cbn [snd] in Hw, Hl.
    rewrite <- Hl. apply nth_error_Some. congruence. }
  rewrite sum_rows_zero; [cbn [option_map]; f_equal; unfold Rdiv; ring | exact Hjn |].
  apply Forall_map. eapply Forall_impl; [|exact Hall]. intros r [Hr _]. exact Hr.
Qed.


Lemma mha_rows_masked_zero (nb_heads emd_dim : nat) (Q : list (list R))
  (K V : list (list (list R))) (mask : list (list bool))
  (rs : list (list R * list R)) :
  mha_rows expf tanhf nb_heads emd_dim (Some c) Q K V (Some mask) = Ok rs ->
  forall b mrow wrow j j0,
    nth_error mask b = Some mrow -> nth_error (map snd rs) b = Some wrow ->
    nth_error mrow j = Some true -> nth_error mrow j0 = Some false ->
    nth_error wrow j = Some 0%R.
Proof.
  revert K V mask rs. induction Q as [|q Q IH]; intros K V mask rs H b mrow wrow j j0.
  - destruct K, V; try discriminate. destruct mask; [|discriminate].
    injection H as <-. destruct b; discriminate.
  - destruct K as [|Ks K], V as [|Vs V]; try discriminate.
    destruct mask as [|m mask]; [discriminate|]. cbn [mha_rows] in H.
    apply bind_Ok in H as ([o w] & Hr & H).
    apply bind_Ok in H as (rest & Hrest & H). injection H as <-.
    destruct b as [|b]; cbn [nth_error map snd].
    + intros Hm Hw. injection Hm as <-. injection Hw as <-.
      eapply myMHA_row_masked_zero; eauto.
    + eapply IH; eauto.
Qed.

End Clipped.

(** A masked position gets weight 0 in a batch row when every head of the
    row has an unmasked position whose logit is at least [theta] above
    -1e9, with or without clip. *)
Lemma mean_of_heads_masked_zero (nb_heads : nat) (m : list bool) (Ks : list (list R))
  (ls : list (list R)) (j : nat) :
  ls <> [] -> length Ks = length m ->
  Forall (fun l => forall j, nth_error m j = Some true ->
                             nth_error l j = Some neg_1e9) ls ->
  nth_error m j = Some true ->
  Forall (fun l => exists j0 x, nth_error m j0 = Some false /\
                                nth_error l j0 = Some x /\
                                (neg_1e9 + theta <= x)%R) ls ->
  nth_error (mean_of_heads nb_heads (length Ks) (map (softmax expf) ls)) j
  = Some 0%R.
Proof.
  intros Hne HK Hfill Hj Hb.
  assert (Hz : Forall (fun w => nth_error w j = Some 0%R) (map (softmax expf) ls)).
  { apply Forall_map. rewrite Forall_forall in *. intros l Hl.
    destruct (Hb l Hl) as (j0 & x & _ & Hx & Hbound).
    eapply softmax_underflow; [apply (Hfill l Hl j Hj) | eapply nth_error_In; exact Hx |].
    exact Hbound. }
  unfold mean_of_heads. destruct (1 <? nb_heads).
  - rewrite nth_error_map, sum_rows_zero; [cbn [option_map]; f_equal; unfold Rdiv; ring | | exact Hz].
    rewrite HK. apply nth_error_Some. congruence.
  - destruct ls as [|l ls]; [congruence|]. cbn [map hd].
    apply Forall_cons_iff in Hz as [Hz _]. exact Hz.
Qed.

(** Row [b] of the result of [mha_rows] is [myMHA_row] on row [b] of the
    operands. *)
Lemma mha_rows_row (nb_heads emd_dim : nat) (clip_value : option R)
  (Q : list (list R)) (K V : list (list (list R))) (mask : list (list bool))
  (rs : list (list R * list R)) :
  mha_rows expf tanhf nb_heads emd_dim clip_value Q K V (Some mask) = Ok rs ->
  forall b q Ks mrow wrow,
    nth_error Q b = Some q -> nth_error K b = Some Ks ->
    nth_error mask b = Some mrow -> nth_error (map snd rs) b = Some wrow ->
    exists o Vs,
      myMHA_row expf tanhf nb_heads emd_dim clip_value (Some mrow) q Ks Vs
      = Ok (o, wrow).
Proof.
  revert K V mask rs. induction Q as [|q0 Q IH]; intros K V mask rs H b q Ks mrow wrow.
  - destruct b; discriminate.
  - destruct K as [|Ks0 K], V as [|Vs0 V]; try discriminate.
    destruct mask as [|m mask]; [discriminate|]. cbn [mha_rows] in H.
    apply bind_Ok in H as ([o w] & Hr & H).
    apply bind_Ok in H as (rest & Hrest & H). injection H as <-.
    destruct b as [|b]; cbn [nth_error map snd].
    + intros Hq HKs Hm Hw. injection Hq as <-. injection HKs as <-.
      injection Hm as <-. injection Hw as <-. exists o, Vs0. exact Hr.
    + eapply IH; eauto.
Qed.
End MaskedSoftmax.

Lemma tanh_range (x : R) : (-1 <= tanh x <= 1)%R.
Proof.
  pose proof (exp_pos x) as Ha. pose proof (exp_pos (- x)) as Hb.
  assert (H : (tanh x * (exp x + exp (- x)) = exp x - exp (- x))%R).
  { unfold tanh, sinh, cosh. field. lra. }
  split; nra.
Qed.

Lemma exp_underflow_zero (x : R) : (x <= - 104)%R -> exp_underflow x = 0%R.
Proof. intros H. unfold exp_underflow. destruct (Rle_dec x (-104)); [reflexivity|lra]. Qed.

Lemma exp_underflow_0 : exp_underflow 0 = 1%R.
Proof. unfold exp_underflow. destruct (Rle_dec 0 (-104)); [lra|apply exp_0]. Qed.

(** C5 (amended).  (a) Before the softmax, every masked position of a row
    holds -1e9 and every unmasked one the score after the optional
    clip * tanh.  (b) With or without clip: the weights of a batch row are
    the mean over the heads of the softmax of [head_logits], and a masked
    position gets attention weight exactly 0 whenever every head of the row
    has an unmasked position whose logit is at least -1e9 + [theta].
    (c) In particular, with logits clipped to [-c, c], [c + theta <= 1e9],
    every masked position gets weight 0 in every row that has an unmasked
    position.  The hypothesis on [expf] is the underflow of the float
    exponential: it returns 0 from [theta] below 0 on. *)
Theorem myMHA_masked_positions (expf tanhf : R -> R) (theta : R) :
  (forall x, (-1 <= tanhf x <= 1)%R) ->
  (forall x, (x <= - theta)%R -> expf x = 0%R) ->
  (forall clip_value m q Ks l j,
      logits_row tanhf clip_value (Some m) q Ks = Ok l ->
      (nth_error m j = Some true -> nth_error l j = Some neg_1e9) /\
      (nth_error m j = Some false ->
       nth_error l j
       = option_map (fun k =>
                       let s := (dot q k / sqrt (INR (length q)))%R in
                       match clip_value with
                       | Some c' => (c' * tanhf s)%R
                       | None => s
                       end) (nth_error Ks j))) /\
  (forall clip_value Q K V nb_heads emd_dim mask attn_output attn_weights,
      myMHA expf tanhf Q K V nb_heads emd_dim (Some mask) clip_value
      = Ok (attn_output, attn_weights) ->
      forall b q Ks mrow wrow,
        nth_error Q b = Some q -> nth_error K b = Some Ks ->
        nth_error mask b = Some mrow -> nth_error attn_weights b = Some wrow ->
        exists ls,
          head_logits tanhf nb_heads emd_dim clip_value (Some mrow) q Ks = Ok ls /\
          wrow = mean_of_heads nb_heads (length Ks) (map (softmax expf) ls) /\
          forall j, nth_error mrow j = Some true ->
            Forall (fun l => exists j0 x,
                        nth_error mrow j0 = Some false /\
                        nth_error l j0 = Some x /\
                        (neg_1e9 + theta <= x)%R) ls ->
            nth_error wrow j = Some 0%R) /\
  (forall c, (0 <= c)%R -> (c + theta <= 1000000000)%R ->
    forall Q K V nb_heads emd_dim mask attn_output attn_weights,
      myMHA expf tanhf Q K V nb_heads emd_dim (Some mask) (Some c)
      = Ok (attn_output, attn_weights) ->
      forall b mrow wrow j j0,
        nth_error mask b = Some mrow -> nth_error attn_weights b = Some wrow ->
        nth_error mrow j = Some true -> nth_error mrow j0 = Some false ->
        nth_error wrow j = Some 0%R).
Proof.
  intros Ht He. split; [|split].
  - intros clip_value m q Ks l j H.
    destruct (logits_row_fill tanhf clip_value m q Ks l H) as (_ & _ & Hn). apply Hn.
  - intros clip_value Q K V nb_heads emd_dim mask o w H b q Ks mrow wrow Hq HKs Hm Hw.
    unfold myMHA in H. apply bind_Ok in H as (rs & Hrs & H). injection H as _ <-.
    destruct (mha_rows_row expf tanhf _ _ _ _ _ _ _ _ Hrs b q Ks mrow wrow Hq HKs Hm Hw)
      as (o' & Vs & Hrow).
    destruct (myMHA_row_head_logits expf tanhf _ _ _ _ _ _ _ _ _ Hrow) as (ls & Hls & E).
    exists ls. split; [exact Hls|]. split; [exact E|].
    intros j Hj Hb. rewrite E.
    destruct (head_logits_fill tanhf _ _ _ _ _ _ _ Hls) as (Hne & HK & Hfill).
    eapply mean_of_heads_masked_zero; eauto.
  - intros c Hc Hs Q K V nb_heads emd_dim mask o w H.
    unfold myMHA in H. apply bind_Ok in H as (rs & Hrs & H). injection H as _ <-.
    eapply mha_rows_masked_zero; eauto.
Qed.

Lemma myMHA_masked_positions_witness :
  (exists attn_output w0 w1,
      myMHA exp_underflow tanh [[1; 0]%R] [[[1; 0]; [0; 1]]%R] [[[1; 0]; [0; 1]]%R]
            1 2 (Some [[true; false]]) (Some 10%R)
      = Ok (attn_output, [[w0; w1]]) /\ w0 = 0%R) /\
  (exists attn_output w0 w1,
      myMHA exp_underflow tanh [[1; 0]%R] [[[1; 0]; [0; 1]]%R] [[[1; 0]; [0; 1]]%R]
            1 2 (Some [[true; false]]) None
      = Ok (attn_output, [[w0; w1]]) /\ w0 = 0%R).
Proof.
  pose proof (myMHA_masked_positions exp_underflow tanh 104
                tanh_range exp_underflow_zero) as (_ & Hb & Hc).
  split.
  - assert (E : exists o w0 w1,
               myMHA exp_underflow tanh [[1; 0]%R] [[[1; 0]; [0; 1]]%R]
                     [[[1; 0]; [0; 1]]%R] 1 2 (Some [[true; false]]) (Some 10%R)
               = Ok (o, [[w0; w1]])).
    { do 3 eexists.
      cbv - [Rplus Rmult Rminus Rdiv Ropp Rinv sqrt INR IZR exp tanh exp_underflow
             Rmax neg_1e9]. reflexivity. }
    destruct E as (o & w0 & w1 & E). exists o, w0, w1. split; [exact E|].
    assert (Hc10 : (0 <= 10)%R) by lra.
    assert (Hs10 : (10 + 104 <= 1000000000)%R) by lra.
    assert (Hz := Hc 10%R Hc10 Hs10 _ _ _ _ _ _ _ _ E 0 [true; false] _ 0 1
                     eq_refl eq_refl eq_refl eq_refl).
    cbn in Hz. injection Hz as Hz. exact Hz.
  - assert (E : exists o w0 w1,
               myMHA exp_underflow tanh [[1; 0]%R] [[[1; 0]; [0; 1]]%R]
                     [[[1; 0]; [0; 1]]%R] 1 2 (Some [[true; false]]) None
               = Ok (o, [[w0; w1]])).
    { do 3 eexists.
      cbv - [Rplus Rmult Rminus Rdiv Ropp Rinv sqrt INR IZR exp tanh exp_underflow
             Rmax neg_1e9]. reflexivity. }
    destruct E as (o & w0 & w1 & E). exists o, w0, w1. split; [exact E|].
    destruct (Hb None _ _ _ _ _ _ _ _ E 0 [1; 0]%R [[1; 0]; [0; 1]]%R [true; false] _
                 eq_refl eq_refl eq_refl eq_refl) as (ls & Hls & _ & Hz).
    cbv - [Rplus Rmult Rminus Rdiv Ropp Rinv sqrt INR IZR neg_1e9] in Hls.
    injection Hls as <-.
    assert (H1 : nth_error [w0; w1] 0 = Some 0%R); [|cbn in H1; injection H1 as H1; exact H1].
    apply (Hz 0 eq_refl). constructor; [|constructor].
    eexists 1, _. split; [reflexivity|]. split; [reflexivity|].
    unfold neg_1e9, Rdiv.
    replace ((1 * 0 + (0 * 1 + 0)) * / sqrt (INR 2))%R with 0%R by ring. lra.
Defined.

(** A row whose positions are all masked: all logits are -1e9, the softmax
    is uniform, and the single masked position gets weight 1. *)
Lemma myMHA_all_masked :
  myMHA exp_underflow tanh [[1]%R] [[[1]]%R] [[[1]]%R] 1 1 (Some [[true]]) None
  = Ok ([[1 * 1 + 0]%R], [[1%R]]).
Proof.
  cbv - [Rplus Rmult Rminus Rdiv Ropp Rinv sqrt INR IZR exp tanh exp_underflow
         Rmax neg_1e9].
  assert (E : (exp_underflow (neg_1e9 - Rmax neg_1e9 neg_1e9)
               / (exp_underflow (neg_1e9 - Rmax neg_1e9 neg_1e9) + 0))%R = 1%R).
  { rewrite Rmax_left by lra.
    replace (neg_1e9 - neg_1e9)%R with 0%R by ring.
    rewrite exp_underflow_0. field. }
  rewrite E. reflexivity.
Qed.

(** C5 as stated fails in two ways.  On a row whose positions are all
    masked the single masked position gets weight 1.  Without clip, on a
    row whose unmasked position has the logit -1e9 itself (query 1, key
    -1e9), the masked position gets half of the weight: the mask needs an
    unmasked logit well above -1e9, which only the clip guarantees. *)
Lemma myMHA_masked_weight_not_zero :
  myMHA exp_underflow tanh [[1]%R] [[[1]]%R] [[[1]]%R] 1 1 (Some [[true]]) None
  = Ok ([[1 * 1 + 0]%R], [[1%R]]) /\
  exists attn_output w0 w1,
    myMHA exp_underflow tanh [[1]%R] [[[0]; [neg_1e9]]%R] [[[1]; [1]]%R] 1 1
          (Some [[true; false]]) None
    = Ok (attn_output, [[w0; w1]]) /\
    w0 = (1 / 2)%R /\ w1 = (1 / 2)%R.
Proof.
  split; [exact myMHA_all_masked|].
  assert (E : exists o w0 w1,
             myMHA exp_underflow tanh [[1]%R] [[[0]; [neg_1e9]]%R] [[[1]; [1]]%R] 1 1
                   (Some [[true; false]]) None
             = Ok (o, [[w0; w1]]) /\
             w0 = (exp_underflow (neg_1e9 - Rmax neg_1e9
                                    (Rmax ((1 * neg_1e9 + 0) / sqrt (INR 1)) neg_1e9))
                   / (exp_underflow (neg_1e9 - Rmax neg_1e9
                                       (Rmax ((1 * neg_1e9 + 0) / sqrt (INR 1)) neg_1e9))
                      + (exp_underflow ((1 * neg_1e9 + 0) / sqrt (INR 1)
                                        - Rmax neg_1e9
                                            (Rmax ((1 * neg_1e9 + 0) / sqrt (INR 1))
                                                  neg_1e9)) + 0)))%R /\
             w1 = (exp_underflow ((1 * neg_1e9 + 0) / sqrt (INR 1)
                                  - Rmax neg_1e9
                                      (Rmax ((1 * neg_1e9 + 0) / sqrt (INR 1)) neg_1e9))
                   / (exp_underflow (neg_1e9 - Rmax neg_1e9
                                       (Rmax ((1 * neg_1e9 + 0) / sqrt (INR 1)) neg_1e9))
                      + (exp_underflow ((1 * neg_1e9 + 0) / sqrt (INR 1)
                                        - Rmax neg_1e9
                                            (Rmax ((1 * neg_1e9 + 0) / sqrt (INR 1))
                                                  neg_1e9)) + 0)))%R).
  { do 3 eexists. split; [|split].
    - cbv - [Rplus Rmult Rminus Rdiv Ropp Rinv sqrt INR IZR exp tanh exp_underflow
             Rmax neg_1e9]. reflexivity.
    - reflexivity.
    - reflexivity. }
  destruct E as (o & w0 & w1 & E & E0 & E1). exists o, w0, w1. split; [exact E|].
  assert (Hx : ((1 * neg_1e9 + 0) / sqrt (INR 1))%R = neg_1e9).
  { cbn [INR]. rewrite sqrt_1. field. }
  rewrite Hx in E0, E1. rewrite !(Rmax_left neg_1e9 neg_1e9) in E0, E1 by lra.
  replace (neg_1e9 - neg_1e9)%R with 0%R in E0, E1 by ring.
  rewrite exp_underflow_0 in E0, E1. split; [rewrite E0|rewrite E1]; field.
Qed.

Import Torch TSPNet.

(* ================================================================== *)
(** * TSP_net.forward *)

(** ** Loops, strict zips and indexed assignment *)

Lemma loop_trace_step {S : Type} (body : nat -> S -> result S) (ts : list nat) :
  forall (s : S) (tr : list S),
    loop_trace body ts s = Ok tr ->
    length tr = length ts /\
    forall t a a',
      nth_error (s :: tr) t = Some a -> nth_error tr t = Some a' ->
      exists tt, nth_error ts t = Some tt /\ body tt a = Ok a'.
Proof.
  induction ts as [|t0 ts IH]; intros s tr H; simpl in H.
  - injection H as <-. split; [reflexivity|]. intros [|t] a a' _ H; discriminate.
  - apply bind_Ok in H as (s' & Hs' & H).
    apply bind_Ok in H as (rest & Hrest & H). injection H as <-.
    destruct (IH _ _ Hrest) as [Hlen Hstep]. split; [simpl; lia|].
    intros [|t] a a' Ha Ha'; simpl in Ha, Ha'.
    + injection Ha as <-. injection Ha' as <-. exists t0. auto.
    + simpl. eapply Hstep; eauto.
Qed.

Lemma mapM_Ok_nth {A B : Type} (f : A -> result B) (l : list A) (r : list B) :
  mapM f l = Ok r ->
  length r = length l /\
  forall b y, nth_error r b = Some y ->
    exists a, nth_error l b = Some a /\ f a = Ok y.
Proof.
  revert r; induction l as [|a l IH]; intros r H; simpl in H.
  - injection H as <-. split; [reflexivity|]. intros [|b] y Hy; discriminate.
  - apply bind_Ok in H as (c & Hc & H).
    apply bind_Ok in H as (rest & Hrest & H). injection H as <-.
    destruct (IH _ Hrest) as [Hlen Hn]. split; [simpl; lia|].
    intros [|b] y Hy; simpl in Hy.
    + injection Hy as <-. exists a. auto.
    + apply Hn in Hy as (a' & ? & ?). exists a'. auto.
Qed.

Lemma mapM2_Ok_inv {A B C : Type} (f : A -> B -> result C)
  (l : list A) (m : list B) (r : list C) :
  mapM2 f l m = Ok r ->
  length l = length r /\ length m = length r /\
  forall b y, nth_error r b = Some y ->
    exists a c, nth_error l b = Some a /\ nth_error m b = Some c /\ f a c = Ok y.
Proof.
  revert m r; induction l as [|a l IH]; intros [|c m] r H; simpl in H;
    try discriminate.
  - injection H as <-. repeat split. intros [|b] y Hy; discriminate.
  - apply bind_Ok in H as (y0 & Hy0 & H).
    apply bind_Ok in H as (rest & Hrest & H). injection H as <-.
    destruct (IH _ _ Hrest) as (Hl & Hm & Hn). repeat split; simpl; try lia.
    intros [|b] y Hy; simpl in Hy.
    + injection Hy as <-. exists a, c. auto.
    + apply Hn in Hy as (a' & c' & ? & ? & ?). exists a', c'. auto.
Qed.

Lemma mapM2_ok {A B C : Type} (f : A -> B -> result C) (l : list A) (m : list B) :
  length l = length m ->
  (forall b a c, nth_error l b = Some a -> nth_error m b = Some c ->
                 exists y, f a c = Ok y) ->
  exists r, mapM2 f l m = Ok r.
Proof.
  revert m; induction l as [|a l IH]; intros [|c m] Hlen Hf; simpl in *;
    try discriminate.
  - eauto.
  - destruct (Hf 0 a c eq_refl eq_refl) as [y Hy]. rewrite Hy. simpl.
    destruct (IH m) as [r Hr]; [lia | | ].
    + intros b a' c' Ha' Hc'. apply (Hf (S b)); assumption.
    + rewrite Hr. simpl. eauto.
Qed.

Lemma mapM_exists {A B : Type} (f : A -> result B) (l : list A) :
  (forall a, In a l -> exists y, f a = Ok y) -> exists r, mapM f l = Ok r.
Proof.
  induction l as [|a l IH]; intros Hf; simpl.
  - eauto.
  - destruct (Hf a (or_introl eq_refl)) as [y Hy]. rewrite Hy. simpl.
    destruct IH as [r Hr]; [intros; apply Hf; right; assumption|].
    rewrite Hr. simpl. eauto.
Qed.

Lemma set_nth_Ok {A : Type} (i : nat) (a : A) (l l' : list A) :
  set_nth i a l = Ok l' ->
  i < length l /\ length l' = length l /\ nth_error l' i = Some a /\
  forall j, j <> i -> nth_error l' j = nth_error l j.
Proof.
  unfold set_nth. destruct (Nat.ltb_spec i (length l)) as [Hi|Hi]; [|discriminate].
  remember (skipn (S i) l) as tl eqn:Etl.
  intros H. assert (E : l' = firstn i l ++ a :: tl) by congruence. clear H. subst l'.
  split; [assumption|].
  assert (Hf : length (firstn i l) = i) by (rewrite length_firstn; lia).
  assert (Ht : length tl = length l - S i) by (subst tl; apply length_skipn).
  repeat split.
  - rewrite length_app, Hf, length_cons. lia.
  - rewrite nth_error_app2 by lia. rewrite Hf, Nat.sub_diag. reflexivity.
  - intros j Hj. destruct (Nat.lt_ge_cases j i) as [Hlt|Hge].
    + rewrite nth_error_app1 by lia. rewrite nth_error_firstn.
      destruct (Nat.ltb_spec j i); [reflexivity|lia].
    + rewrite nth_error_app2 by lia. rewrite Hf.
      destruct (j - i) as [|k] eqn:Ek; [lia|]. cbn [nth_error].
      subst tl. rewrite nth_error_skipn. f_equal. lia.
Qed.

Lemma set_nth_ok {A : Type} (i : nat) (a : A) (l : list A) :
  i < length l -> exists l', set_nth i a l = Ok l'.
Proof.
  intros Hi. unfold set_nth. destruct (Nat.ltb_spec i (length l)); [eauto|lia].
Qed.

(** An entry that is set stays set under [l[i] = True]. *)
Lemma set_nth_true (i : nat) (l l' : list bool) (j : nat) :
  set_nth i true l = Ok l' -> nth_error l j = Some true -> nth_error l' j = Some true.
Proof.
  intros H Hj. apply set_nth_Ok in H as (_ & _ & Hi & Ho).
  destruct (Nat.eq_dec j i) as [->|Hne]; [assumption|]. rewrite Ho; assumption.
Qed.

Lemma gather_beams_nth {A : Type} (tmp : list A) (idx : list nat) (r : list A) :
  DecoderLayer.gather_beams tmp idx = Ok r ->
  length r = length idx /\
  forall i y, nth_error r i = Some y ->
    exists p, nth_error idx i = Some p /\ nth_error tmp p = Some y.
Proof.
  unfold DecoderLayer.gather_beams. intros H.
  apply mapM_Ok_nth in H as [Hlen Hn]. split; [assumption|].
  intros i y Hy. apply Hn in Hy as (p & Hp & Hy). exists p. split; [assumption|].
  destruct (nth_error tmp p); [injection Hy as <-; reflexivity | discriminate].
Qed.

Lemma mapM2_Ok_fwd {A B C : Type} (f : A -> B -> result C)
  (l : list A) (m : list B) (r : list C) (b : nat) (a : A) :
  mapM2 f l m = Ok r -> nth_error l b = Some a ->
  exists c y, nth_error m b = Some c /\ nth_error r b = Some y /\ f a c = Ok y.
Proof.
  intros H Ha. destruct (mapM2_Ok_inv _ _ _ _ H) as (Hl & Hm & Hn).
  assert (Hb : b < length r).
  { rewrite <- Hl. apply nth_error_Some. congruence. }
  destruct (nth_error r b) as [y|] eqn:Hy; [|apply nth_error_None in Hy; lia].
  destruct (Hn _ _ Hy) as (a' & c & Ha' & Hc & Hf).
  exists c, y. repeat split; congruence.
Qed.

Lemma mapM2_Ok_snd {A B C : Type} (f : A -> B -> result C)
  (l : list A) (m : list B) (r : list C) (b : nat) (c : B) :
  mapM2 f l m = Ok r -> nth_error m b = Some c ->
  exists a y, nth_error l b = Some a /\ nth_error r b = Some y /\ f a c = Ok y.
Proof.
  intros H Hc. destruct (mapM2_Ok_inv _ _ _ _ H) as (Hl & Hm & Hn).
  assert (Hb : b < length r).
  { rewrite <- Hm. apply nth_error_Some. congruence. }
  destruct (nth_error r b) as [y|] eqn:Hy; [|apply nth_error_None in Hy; lia].
  destruct (Hn _ _ Hy) as (a & c' & Ha & Hc' & Hf).
  exists a, y. repeat split; congruence.
Qed.

Ltac bind_inv H :=
  let x := fresh "x" in
  let Hx := fresh "Hx" in
  apply bind_Ok in H as (x & Hx & H).

(** ** The visited mask along a decode *)

(** The loop body with [topk], in terms of the two steps with [topk]. *)
Lemma beam_body_unfold {coord vec att prob score : Type}
  {float_ops : FloatOps prob score}
  (net : tsp_net coord vec att prob) (h_encoder : list (list vec))
  (K_att_decoder V_att_decoder : list att) (bsz nb_nodes B : nat)
  (dec : DecoderNet.decoder_net vec att prob)
  (t : nat) (s : option (beam_state vec att prob score)) :
  beam_body net h_encoder K_att_decoder V_att_decoder bsz nb_nodes B dec t s
  = if t =? 0 then
      s' <- beam_step0 net h_encoder K_att_decoder V_att_decoder bsz nb_nodes B dec ;;
      Ok (Some s')
    else
      match s with
      | None => Raise UnboundLocalError
      | Some s =>
          let B_prev := if t =? 1 then Nat.min B nb_nodes else B in
          s' <- beam_step net h_encoder K_att_decoder V_att_decoder bsz nb_nodes B
                  t B_prev s ;;
          Ok (Some s')
      end.
Proof. reflexivity. Qed.

Lemma beam_trace_unfold {coord vec att prob score : Type}
  {float_ops : FloatOps prob score}
  (net : tsp_net coord vec att prob) (h_encoder : list (list vec))
  (K_att_decoder V_att_decoder : list att) (bsz nb_nodes B : nat)
  (dec : DecoderNet.decoder_net vec att prob) :
  beam_trace net h_encoder K_att_decoder V_att_decoder bsz nb_nodes B dec
  = (dec <- DecoderNet.reset_selfatt_keys_values dec ;;
     loop_trace (beam_body net h_encoder K_att_decoder V_att_decoder bsz nb_nodes B dec)
                (seq 0 nb_nodes) None).
Proof. reflexivity. Qed.

Lemma beam_search_unfold {coord vec att prob score : Type}
  {float_ops : FloatOps prob score}
  (net : tsp_net coord vec att prob) (h_encoder : list (list vec))
  (K_att_decoder V_att_decoder : list att) (bsz nb_nodes B : nat)
  (dec : DecoderNet.decoder_net vec att prob) :
  beam_search net h_encoder K_att_decoder V_att_decoder bsz nb_nodes B dec
  = (trace <- beam_trace net h_encoder K_att_decoder V_att_decoder bsz nb_nodes B dec ;;
     match last trace None with
     | None => Raise UnboundLocalError
     | Some s =>
         sum_scores <- mapM (fun r => py_index r 0) (b_sum_scores s) ;;
         Ok (b_tours s, sum_scores)
     end).
Proof. reflexivity. Qed.

(** [forward] in terms of the two decodes, the beam search with [topk]. *)
Lemma forward_unfold {coord vec att prob score : Type}
  {float_ops : FloatOps prob score}
  (sample : nat -> list (list prob) -> list nat)
  (net : tsp_net coord vec att prob) (x : tensor2 coord) (B : nat)
  (greedy beamsearch : bool) :
  forward sample net x B greedy beamsearch
  = (let bsz := shape0 x in
     let nb_nodes := shape1 x in
     let h_encoder := h_encoder_of net x in
     let K_att_decoder := map (WK_att_decoder net) h_encoder in
     let V_att_decoder := map (WV_att_decoder net) h_encoder in
     let tours_greedy := FloatTensor (zeros2 2 nb_nodes) in
     let tours_beamsearch := FloatTensor (zeros2 2 nb_nodes) in
     let scores_greedy := zeros1 2 in
     let scores_beamsearch := zeros1 2 in
     '(tours_greedy, scores_greedy, dec) <-
        (if greedy then
           let deterministic := true in
           '(tours, sumLogProbOfActions, dec) <-
              greedy_search sample net deterministic h_encoder K_att_decoder
                            V_att_decoder bsz nb_nodes ;;
           Ok (LongTensor2 tours, sumLogProbOfActions, dec)
         else Ok (tours_greedy, scores_greedy, decoder net)) ;;
     '(tours_beamsearch, scores_beamsearch) <-
        (if beamsearch then
           '(tours, sum_scores) <-
              beam_search net h_encoder K_att_decoder V_att_decoder bsz nb_nodes B dec ;;
           Ok (LongTensor3 tours, sum_scores)
         else Ok (tours_beamsearch, scores_beamsearch)) ;;
     Ok (tours_greedy, tours_beamsearch, scores_greedy, scores_beamsearch)).
Proof. reflexivity. Qed.

Section MaskFacts.
Context {coord vec att prob score : Type} {float_ops : FloatOps prob score}.

Lemma mark_visited_keeps (mask mask' : list (list bool)) (idx : list nat) (b j : nat) :
  mapM2 (fun m i => set_nth i true m) mask idx = Ok mask' ->
  mask2_true mask b j -> mask2_true mask' b j.
Proof.
  intros H (row & Hrow & Hj).
  destruct (mapM2_Ok_fwd _ _ _ _ _ _ H Hrow) as (i & row' & _ & Hrow' & Hset).
  exists row'. split; [assumption|]. eapply set_nth_true; eauto.
Qed.

Lemma greedy_body_mask (sample : nat -> list (list prob) -> list nat)
  (net : tsp_net coord vec att prob) (deterministic : bool)
  (h_encoder : list (list vec)) (K_att V_att : list att) (t : nat)
  (s s' : greedy_state vec att prob score) (b j : nat) :
  greedy_body sample net deterministic h_encoder K_att V_att t s = Ok s' ->
  mask2_true (g_mask_visited_nodes s) b j -> mask2_true (g_mask_visited_nodes s') b j.
Proof.
  unfold greedy_body. intros H.
  bind_inv H. destruct x as [prob_next_node dec].
  bind_inv H. bind_inv H. bind_inv H. bind_inv H. bind_inv H.
  injection H as <-. cbn [g_mask_visited_nodes].
  eapply mark_visited_keeps; eassumption.
Qed.

Lemma loop_trace_later {St : Type} (body : nat -> St -> result St) (P : St -> Prop)
  (ts : list nat) (s0 : St) (tr : list St) :
  (forall t a a', body t a = Ok a' -> P a -> P a') ->
  loop_trace body ts s0 = Ok tr ->
  forall k t s s',
    nth_error (s0 :: tr) t = Some s -> nth_error (s0 :: tr) (t + k) = Some s' ->
    P s -> P s'.
Proof.
  intros Hbody Htr. destruct (loop_trace_step _ _ _ _ Htr) as [_ Hstep].
  induction k as [|k IH]; intros t s s' Hs Hs' HP.
  - rewrite Nat.add_0_r in Hs'. congruence.
  - replace (t + S k) with (S (t + k)) in Hs' by lia. cbn [nth_error] in Hs'.
    destruct (nth_error (s0 :: tr) (t + k)) as [a|] eqn:Ha.
    + destruct (Hstep _ _ _ Ha Hs') as (tt & _ & Hb).
      eapply Hbody; [exact Hb|]. exact (IH t s a Hs Ha HP).
    + apply nth_error_None in Ha. cbn [length] in Ha.
      assert (nth_error tr (t + k) <> None) by congruence.
      apply nth_error_Some in H. lia.
Qed.

Lemma beam_step_mask (net : tsp_net coord vec att prob) (h_encoder : list (list vec))
  (K_tmp V_tmp : list att) (bsz nb_nodes B t B_prev : nat)
  (s s' : beam_state vec att prob score) (b i p j : nat) (row : list nat) :
  beam_step net h_encoder K_tmp V_tmp bsz nb_nodes B t B_prev s = Ok s' ->
  nth_error (b_idx_top_beams s') b = Some row -> nth_error row i = Some p ->
  mask3_true (b_mask_visited_nodes s) b p j ->
  mask3_true (b_mask_visited_nodes s') b i j.
Proof.
  unfold beam_step, beam_step_with. intros H.
  bind_inv H. destruct x as [prob_next_node dec].
  bind_inv H. bind_inv H. bind_inv H.
  bind_inv H. rename x2 into mask_g, Hx3 into Hgather.
  bind_inv H. rename x2 into mask_new, Hx3 into Hset.
  bind_inv H. bind_inv H. bind_inv H. bind_inv H. bind_inv H.
  injection H as <-. cbn [b_idx_top_beams b_mask_visited_nodes].
  intros Hrow Hp (beams & mrow & Hbeams & Hmrow & Hj).
  unfold gather_rows in Hgather. unfold set_rows in Hset.
  destruct (mapM2_Ok_fwd _ _ _ _ _ _ Hgather Hbeams) as (row0 & gb & Hrow0 & Hgb & Hg).
  assert (row0 = row) by congruence. subst row0.
  apply gather_beams_nth in Hg as [Hglen Hgn].
  assert (Hi : i < length gb).
  { rewrite Hglen. apply nth_error_Some. congruence. }
  destruct (nth_error gb i) as [y|] eqn:Hy; [|apply nth_error_None in Hy; lia].
  destruct (Hgn _ _ Hy) as (p' & Hp' & Hy').
  assert (p' = p) by congruence. subst p'.
  assert (y = mrow) by congruence. subst y.
  destruct (mapM2_Ok_fwd _ _ _ _ _ _ Hset Hgb) as (irow & beams' & _ & Hbeams' & Hs2).
  destruct (mapM2_Ok_fwd _ _ _ _ _ _ Hs2 Hy) as (i' & mrow' & _ & Hmrow' & Hs3).
  exists beams', mrow'. repeat split; try assumption.
  eapply set_nth_true; eauto.
Qed.

End MaskFacts.

(** ** The selection rule of the greedy decode *)

(** The sampling rule C7 documents is never the one used: no invocation
    of [forward] on the small network, with any input, width and flags,
    tells two sampling oracles apart, although the step itself would
    follow the oracle were [deterministic] false. *)
Lemma forward_never_samples :
  ~ (exists (sample1 sample2 : nat -> list (list Q) -> list nat)
            (segm : option Z) (max_len_PE : nat) (x : tensor2 (list Q)) (B : nat)
            (greedy beamsearch : bool),
        forward sample1 (toy_net segm max_len_PE) x B greedy beamsearch
        <> forward sample2 (toy_net segm max_len_PE) x B greedy beamsearch).
Proof.
  intros (s1 & s2 & segm & n & x & B & g & b & H). apply H. reflexivity.
Qed.

(** ** Mask monotonicity *)

(** C8 (amended).  In the greedy decode the mask only grows: an entry of
    a batch row that is set after some step is set after every later step.
    In the beam search the mask of beam slot [i] after a step contains the
    mask that its source beam [idx_top_beams[b, i]] had before the step;
    the slot itself is overwritten. *)
Theorem mask_grows_along_tour {coord vec att prob score : Type}
  {float_ops : FloatOps prob score}
  (net : tsp_net coord vec att prob) (h_encoder : list (list vec))
  (K_att V_att : list att) (bsz nb_nodes : nat) :
  (forall (sample : nat -> list (list prob) -> list nat) (deterministic : bool)
          s0 trace t t' s s' b j,
      greedy_trace sample net deterministic h_encoder K_att V_att bsz nb_nodes
      = Ok (s0, trace) ->
      t <= t' ->
      nth_error (s0 :: trace) t = Some s -> nth_error (s0 :: trace) t' = Some s' ->
      mask2_true (g_mask_visited_nodes s) b j ->
      mask2_true (g_mask_visited_nodes s') b j) /\
  (forall B dec trace t (s s' : beam_state vec att prob score) b i p row j,
      beam_trace net h_encoder K_att V_att bsz nb_nodes B dec = Ok trace ->
      nth_error trace t = Some (Some s) -> nth_error trace (S t) = Some (Some s') ->
      nth_error (b_idx_top_beams s') b = Some row -> nth_error row i = Some p ->
      mask3_true (b_mask_visited_nodes s) b p j ->
      mask3_true (b_mask_visited_nodes s') b i j).
Proof.
  split.
  - intros sample det s0 trace t t' s s' b j H Hle Hs Hs'.
    unfold greedy_trace in H. bind_inv H. destruct x as [h_start mask0].
    bind_inv H. bind_inv H. injection H as <- <-.
    replace t' with (t + (t' - t)) in Hs' by lia.
    eapply (loop_trace_later _ (fun s => mask2_true (g_mask_visited_nodes s) b j));
      [|eassumption|eassumption|eassumption].
    intros tt a a' Hb. eapply greedy_body_mask; eassumption.
  - intros B dec trace t s s' b i p row j H Hs Hs'.
    rewrite beam_trace_unfold in H. bind_inv H.
    destruct (loop_trace_step _ _ _ _ H) as [Hlen Hstep].
    destruct (Hstep (S t) (Some s) (Some s')) as (tt & Htt & Hb); [assumption..|].
    assert (Ett : tt = S t).
    { assert (Hlt : S t < length (seq 0 nb_nodes))
        by (apply nth_error_Some; congruence).
      rewrite length_seq in Hlt.
      assert (E := nth_error_nth _ _ 0 Htt). rewrite seq_nth in E; lia. }
    subst tt. rewrite beam_body_unfold in Hb. cbn [Nat.eqb] in Hb.
    bind_inv Hb. injection Hb as <-.
    eapply beam_step_mask; eassumption.
Qed.

Lemma mask_grows_along_tour_witness :
  exists g0 g1 g2 g3 b0 b1 b2,
    forward_greedy_trace draw_first (toy_net None 8) three_cities
    = Ok (g0, [g1; g2; g3]) /\
    forward_beam_trace (toy_net None 8) three_cities 2
    = Ok [Some b0; Some b1; Some b2] /\
    mask2_true (g_mask_visited_nodes g3) 0 0 /\
    mask3_true (b_mask_visited_nodes b1) 0 1 0.
Proof.
  do 7 eexists. split; [vm_compute; reflexivity|]. split; [vm_compute; reflexivity|].
  pose proof (mask_grows_along_tour (toy_net None 8)
                (h_encoder_of (toy_net None 8) three_cities)
                (map (WK_att_decoder (toy_net None 8))
                     (h_encoder_of (toy_net None 8) three_cities))
                (map (WV_att_decoder (toy_net None 8))
                     (h_encoder_of (toy_net None 8) three_cities)) 1 3)
    as [Hgreedy Hbeam].
  split.
  - eapply (Hgreedy draw_first true _ _ 1 3 _ _ 0 0).
    + vm_compute. reflexivity.
    + lia.
    + reflexivity.
    + reflexivity.
    + eexists. split; reflexivity.
  - eapply (Hbeam 2 (toy_decoder None) _ 0 _ _ 0 1 0 [0; 0] 0).
    + vm_compute. reflexivity.
    + reflexivity.
    + reflexivity.
    + reflexivity.
    + reflexivity.
    + do 2 eexists. repeat split; reflexivity.
Defined.

(** C8 as stated fails in the beam search: with three cities of weights
    8, 2, 1 and two beams, beam slot 1 of the only batch row has visited
    node 1 after step 0; both beams kept at step 1 continue beam 0, and
    the mask of slot 1 no longer has node 1 set. *)
Lemma beam_slot_mask_loses_node :
  exists b0 b1 b2,
    forward_beam_trace (toy_net None 8) three_cities 2
    = Ok [Some b0; Some b1; Some b2] /\
    b_idx_top_beams b1 = [[0; 0]] /\
    mask3_true (b_mask_visited_nodes b0) 0 1 1 /\
    ~ mask3_true (b_mask_visited_nodes b1) 0 1 1.
Proof.
  do 3 eexists. split; [vm_compute; reflexivity|]. split; [reflexivity|]. split.
  - do 2 eexists. repeat split; reflexivity.
  - intros (beams & row & Hb & Hr & Hj).
    cbn in Hb. injection Hb as <-. cbn in Hr. injection Hr as <-.
    cbn in Hj. discriminate.
Qed.

(** ** Placeholders *)

(** C9: the tours and scores of a decoding mode that is switched off are
    the zero tensors of shape (2, nb_nodes) and (2,), whatever the batch
    size [shape0 x].  With both modes off [forward] returns the four
    placeholders. *)
Theorem placeholders_have_two_rows {coord vec att prob score : Type}
  {float_ops : FloatOps prob score}
  (sample : nat -> list (list prob) -> list nat)
  (net : tsp_net coord vec att prob) (x : tensor2 coord) (B : nat) :
  let nb_nodes := shape1 x in
  let zeros_2_nb_nodes := FloatTensor [repeat szero nb_nodes; repeat szero nb_nodes] in
  let zeros_2 := [szero; szero] in
  forward sample net x B false false
  = Ok (zeros_2_nb_nodes, zeros_2_nb_nodes, zeros_2, zeros_2) /\
  (forall tours_greedy tours_beamsearch scores_greedy scores_beamsearch,
      forward sample net x B false true
      = Ok (tours_greedy, tours_beamsearch, scores_greedy, scores_beamsearch) ->
      tours_greedy = zeros_2_nb_nodes /\ scores_greedy = zeros_2) /\
  (forall tours_greedy tours_beamsearch scores_greedy scores_beamsearch,
      forward sample net x B true false
      = Ok (tours_greedy, tours_beamsearch, scores_greedy, scores_beamsearch) ->
      tours_beamsearch = zeros_2_nb_nodes /\ scores_beamsearch = zeros_2).
Proof.
  intros nb_nodes Z2 z2. split; [reflexivity|]. split.
  - intros tg tb sg sb H. rewrite forward_unfold in H. cbn [bind] in H.
    bind_inv H. destruct x0 as [tours scores].
    injection H as <- _ <- _. split; reflexivity.
  - intros tg tb sg sb H. rewrite forward_unfold in H.
    bind_inv H. destruct x0 as [[tours scores] dec]. cbn [bind] in H.
    injection H as _ <- _ <-. split; reflexivity.
Qed.

Lemma placeholders_have_two_rows_witness :
  exists tours_beamsearch scores_beamsearch tours_greedy scores_greedy,
    shape0 three_batches = 3 /\
    forward draw_first (toy_net (Some 1%Z) 8) three_batches 3 false true
    = Ok (FloatTensor [[LogOf 1; LogOf 1; LogOf 1]; [LogOf 1; LogOf 1; LogOf 1]],
          LongTensor3 tours_beamsearch, [LogOf 1; LogOf 1], scores_beamsearch) /\
    forward draw_first (toy_net (Some 1%Z) 8) three_batches 3 true false
    = Ok (LongTensor2 tours_greedy,
          FloatTensor [[LogOf 1; LogOf 1; LogOf 1]; [LogOf 1; LogOf 1; LogOf 1]],
          scores_greedy, [LogOf 1; LogOf 1]).
Proof.
  pose proof (placeholders_have_two_rows draw_first (toy_net (Some 1%Z) 8)
                three_batches 3) as (_ & Hbeam & Hgreedy).
  assert (E1 : exists tg tb sg sb,
             forward draw_first (toy_net (Some 1%Z) 8) three_batches 3 false true
             = Ok (tg, LongTensor3 tb, sg, sb))
    by (do 4 eexists; vm_compute; reflexivity).
  assert (E2 : exists tg tb sg sb,
             forward draw_first (toy_net (Some 1%Z) 8) three_batches 3 true false
             = Ok (LongTensor2 tg, tb, sg, sb))
    by (do 4 eexists; vm_compute; reflexivity).
  destruct E1 as (tg & tb & sg & sb & E1).
  destruct E2 as (tg' & tb' & sg' & sb' & E2).
  destruct (Hbeam _ _ _ _ E1) as [Htg Hsg].
  destruct (Hgreedy _ _ _ _ E2) as [Htb Hsb].
  rewrite Htg, Hsg in E1. rewrite Htb, Hsb in E2.
  exists tb, sb, tg', sg'. split; [reflexivity|]. split; assumption.
Defined.

(** ** Tours of the beam search *)

(** With the greedy decode off, [forward] returns the tours and the first
    score of the last state of [forward_beam_trace]. *)
Lemma forward_runs_beam_trace {coord vec att prob score : Type}
  {float_ops : FloatOps prob score}
  (sample : nat -> list (list prob) -> list nat)
  (net : tsp_net coord vec att prob) (x : tensor2 coord) (B : nat) :
  forward sample net x B false true
  = (trace <- forward_beam_trace net x B ;;
     match last trace None with
     | None => Raise UnboundLocalError
     | Some s =>
         sum_scores <- mapM (fun r => py_index r 0) (b_sum_scores s) ;;
         Ok (FloatTensor (zeros2 2 (shape1 x)), LongTensor3 (b_tours s),
             zeros1 2, sum_scores)
     end).
Proof.
  rewrite forward_unfold. cbv zeta. unfold forward_beam_trace. cbn [bind].
  rewrite beam_search_unfold.
  destruct (beam_trace _ _ _ _ _ _ _ _) as [trace|e]; [|reflexivity]. cbn [bind].
  destruct (last trace None) as [s|]; [|reflexivity].
  destruct (mapM _ _); reflexivity.
Qed.

Import Torch TSPNet.

(* ================================================================== *)
(** * Shapes along the beam search *)

(** ** One decoder layer *)

Section LayerShapes.
Context {vec att : Type}.

(** The cache of a layer after [n] calls of [forward] on [rows] rows. *)
Definition cache_shape (ly : DecoderLayer.layer vec att) (rows n : nat) : Prop :=
  match n with
  | 0 => DecoderLayer.K_sa ly = None
  | S _ =>
      exists K V,
        DecoderLayer.K_sa ly = Some K /\ DecoderLayer.V_sa ly = Some V /\
        length K = rows /\ length V = rows /\
        Forall (fun r => length r = DecoderLayer.window (DecoderLayer.segm_len ly) n) K /\
        Forall (fun r => length r = DecoderLayer.window (DecoderLayer.segm_len ly) n) V
  end.

Lemma length_repeat_interleave {A : Type} (c : list A) (B : nat) :
  length (DecoderLayer.repeat_interleave c B) = length c * B.
Proof.
  unfold DecoderLayer.repeat_interleave. induction c as [|a c IH]; simpl; [reflexivity|].
  rewrite length_app, repeat_length, IH. reflexivity.
Qed.

Lemma read_rows_ok (f : vec -> list vec -> list vec -> att -> att -> list bool -> vec)
  (h : list vec) :
  forall (K V : DecoderLayer.cache vec) (K_att V_att : list att) (mask : list (list bool)),
    length K = length h -> length V = length h -> length K_att = length h ->
    length V_att = length h -> length mask = length h ->
    exists h', DecoderLayer.read_rows f h K V K_att V_att mask = Ok h' /\
               length h' = length h.
Proof.
  induction h as [|h0 h IH]; intros [|k K] [|v V] [|ka Ka] [|va Va] [|m M];
    simpl; intros; try discriminate.
  - eauto.
  - destruct (IH K V Ka Va M) as (h' & -> & Hl); try lia.
    simpl. eexists. split; [reflexivity|]. simpl. lia.
Qed.

Lemma truncate_length (ly : DecoderLayer.layer vec att) (c : DecoderLayer.cache vec) :
  length (DecoderLayer.truncate ly c) = length c.
Proof.
  unfold DecoderLayer.truncate. destruct (DecoderLayer.segm_len ly);
    [apply length_map | reflexivity].
Qed.

Lemma layer_forward_ok (ly : DecoderLayer.layer vec att) (rows n : nat)
  (h : list vec) (K_att V_att : list att) (mask : list (list bool)) :
  window_ok ly -> cache_shape ly rows n ->
  length h = rows -> length K_att = rows -> length V_att = rows -> length mask = rows ->
  exists h' ly',
    DecoderLayer.forward ly h K_att V_att mask = Ok (h', ly') /\
    length h' = rows /\ cache_shape ly' rows (S n) /\
    DecoderLayer.segm_len ly' = DecoderLayer.segm_len ly.
Proof.
  intros Hw Hc Hh HK HV Hm. unfold DecoderLayer.forward.
  assert (Happ : exists K V,
             DecoderLayer.append_cache (DecoderLayer.K_sa ly) (DecoderLayer.V_sa ly)
               (map (DecoderLayer.Wk_selfatt ly) h) (map (DecoderLayer.Wv_selfatt ly) h)
             = Ok (K, V) /\
             length K = rows /\ length V = rows /\
             exists L, DecoderLayer.window (DecoderLayer.segm_len ly) L
                       = DecoderLayer.window (DecoderLayer.segm_len ly) (S n) /\
                       Forall (fun r => length r = L) K /\
                       Forall (fun r => length r = L) V).
  { destruct n as [|n]; simpl in Hc.
    - rewrite Hc. simpl. do 2 eexists. split; [reflexivity|].
      rewrite !length_map. repeat split; try assumption.
      exists 1. repeat split; apply singletons_len.
    - destruct Hc as (K & V & -> & -> & HlK & HlV & HfK & HfV). simpl.
      unfold DecoderLayer.cat1. rewrite !length_map, HlK, HlV, Hh, Nat.eqb_refl. simpl.
      do 2 eexists. split; [reflexivity|].
      rewrite !length_map2, !length_map, HlK, HlV, Hh, Nat.min_id.
      repeat split.
      exists (DecoderLayer.window (DecoderLayer.segm_len ly) (S n) + 1).
      split; [replace (S (S n)) with (S n + 1) by lia; apply window_step; exact Hw|].
      split.
      + destruct (cat1_len K (map (DecoderLayer.Wk_selfatt ly) h) _ _
                    ltac:(unfold DecoderLayer.cat1;
                          rewrite length_map, HlK, Hh, Nat.eqb_refl; reflexivity) HfK)
          as [HF _]. exact HF.
      + destruct (cat1_len V (map (DecoderLayer.Wv_selfatt ly) h) _ _
                    ltac:(unfold DecoderLayer.cat1;
                          rewrite length_map, HlV, Hh, Nat.eqb_refl; reflexivity) HfV)
          as [HF _]. exact HF. }
  destruct Happ as (K & V & -> & HlK & HlV & L & HL & HfK & HfV). cbn [bind].
  destruct (read_rows_ok (DecoderLayer.read_out ly) h
              (DecoderLayer.truncate ly K) (DecoderLayer.truncate ly V) K_att V_att mask)
    as (h' & -> & Hl'); rewrite ?truncate_length; try lia.
  cbn [bind]. do 2 eexists. split; [reflexivity|]. split; [lia|]. split; [|reflexivity].
  cbn [cache_shape DecoderLayer.set_cache DecoderLayer.K_sa DecoderLayer.V_sa
       DecoderLayer.segm_len].
  do 2 eexists. split; [reflexivity|]. split; [reflexivity|].
  rewrite !truncate_length. repeat split; try assumption.
  - rewrite <- HL. apply truncate_len; assumption.
  - rewrite <- HL. apply truncate_len; assumption.
Qed.

Lemma layer_repeat_ok (ly : DecoderLayer.layer vec att) (rows n B : nat) :
  cache_shape ly rows (S n) ->
  exists ly',
    DecoderLayer.repeat_selfatt_keys_values B ly = Ok ly' /\
    cache_shape ly' (rows * B) (S n) /\
    DecoderLayer.segm_len ly' = DecoderLayer.segm_len ly.
Proof.
  intros (K & V & HK & HV & HlK & HlV & HfK & HfV).
  unfold DecoderLayer.repeat_selfatt_keys_values. rewrite HK, HV.
  eexists. split; [reflexivity|]. split; [|reflexivity].
  cbn [cache_shape DecoderLayer.set_cache DecoderLayer.K_sa DecoderLayer.V_sa
       DecoderLayer.segm_len].
  do 2 eexists. split; [reflexivity|]. split; [reflexivity|].
  rewrite !length_repeat_interleave, HlK, HlV.
  repeat split; apply repeat_interleave_Forall; assumption.
Qed.

Lemma key_len_nonneg (ly : DecoderLayer.layer vec att) (t : nat) :
  window_ok ly -> (0 <= DecoderLayer.key_len ly t)%Z.
Proof.
  unfold window_ok, DecoderLayer.key_len.
  destruct (DecoderLayer.segm_len ly); lia.
Qed.

Lemma layer_reorder_ok (ly : DecoderLayer.layer vec att) (bsz B2 n : nat)
  (idx : tensor2 nat) :
  window_ok ly -> cache_shape ly (bsz * B2) (S n) ->
  1 <= bsz -> wf2 idx -> shape0 idx = bsz ->
  Forall (Forall (fun i => i < B2)) (rows idx) ->
  exists ly',
    DecoderLayer.reorder_selfatt_keys_values n idx ly = Ok ly' /\
    cache_shape ly' (bsz * shape1 idx) (S n) /\
    DecoderLayer.segm_len ly' = DecoderLayer.segm_len ly.
Proof.
  intros Hw (K & V & HK & HV & HlK & HlV & HfK & HfV) Hb Hwf H0 Hidx.
  unfold DecoderLayer.reorder_selfatt_keys_values. rewrite HK, HV, H0.
  destruct (Nat.eqb_spec bsz 0) as [E|_]; [lia|].
  assert (HB2 : length K / bsz = B2).
  { rewrite HlK, Nat.mul_comm. apply Nat.div_mul. lia. }
  rewrite HB2.
  assert (Hkl : Z.to_nat (DecoderLayer.key_len ly n)
                = DecoderLayer.window (DecoderLayer.segm_len ly) (S n)).
  { replace n with (S n - 1) at 1 by lia. apply key_len_window; [assumption|lia]. }
  pose proof (key_len_nonneg ly n Hw) as Hnn.
  destruct (reorder_cache_spec (DecoderLayer.key_len ly n) idx B2 K) as (K' & EK & HlK' & _);
    try assumption; [rewrite H0; assumption | rewrite Hkl; assumption |].
  destruct (reorder_cache_spec (DecoderLayer.key_len ly n) idx B2 V) as (V' & EV & HlV' & _);
    try assumption; [rewrite H0; assumption | rewrite Hkl; assumption |].
  rewrite EK. cbn [bind]. rewrite EV. cbn [bind].
  eexists. split; [reflexivity|]. split; [|reflexivity].
  cbn [cache_shape DecoderLayer.set_cache DecoderLayer.K_sa DecoderLayer.V_sa
       DecoderLayer.segm_len].
  do 2 eexists. split; [reflexivity|]. split; [reflexivity|].
  rewrite HlK', HlV', H0. repeat split.
  - rewrite <- Hkl. eapply reorder_cache_len; eassumption.
  - rewrite <- Hkl. eapply reorder_cache_len; eassumption.
Qed.

End LayerShapes.

(** ** The decoder *)

Section DecoderShapes.
Context {vec att prob : Type}.

(** A decoder as [__init__] builds it: at least the final layer,
    [nb_layers_decoder - 1] intermediate layers with windows of at least one
    entry, and a final attention that gives one weight per mask entry. *)
Definition dec_wf (d : DecoderNet.decoder_net vec att prob) : Prop :=
  1 <= DecoderNet.nb_layers_decoder d /\
  length (DecoderNet.decoder_layers d) = DecoderNet.nb_layers_decoder d - 1 /\
  Forall window_ok (DecoderNet.decoder_layers d) /\
  (forall q K V m, length (DecoderNet.attn_final d q K V m) = length m).

(** ... after [n] calls of [forward] on [rows] rows. *)
Definition dec_shape (d : DecoderNet.decoder_net vec att prob) (rows n : nat) : Prop :=
  dec_wf d /\
  Forall (fun ly => cache_shape ly rows n) (DecoderNet.decoder_layers d).

Lemma for_layers_ok (P Q : DecoderLayer.layer vec att -> Prop)
  (f : DecoderLayer.layer vec att -> result (DecoderLayer.layer vec att))
  (ls : list (DecoderLayer.layer vec att)) :
  (forall ly, P ly -> exists ly', f ly = Ok ly' /\ Q ly') ->
  Forall P ls ->
  exists ls', DecoderNet.for_layers f (length ls) ls = Ok ls' /\
              Forall Q ls' /\ length ls' = length ls.
Proof.
  intros Hf. induction 1 as [|ly ls Hly _ IH]; simpl.
  - exists []. auto.
  - destruct (Hf ly Hly) as (ly' & -> & HQ). cbn [bind].
    destruct IH as (ls' & -> & HQs & Hl). cbn [bind].
    eexists. split; [reflexivity|]. split; [constructor; assumption | simpl; lia].
Qed.

Lemma Forall_and_inv {A : Type} (P Q : A -> Prop) (l : list A) :
  Forall P l -> Forall Q l -> Forall (fun a => P a /\ Q a) l.
Proof. intros HP HQ. rewrite Forall_forall in *. auto. Qed.

Lemma dec_reset_ok (d : DecoderNet.decoder_net vec att prob) (rows : nat) :
  dec_wf d ->
  exists d', DecoderNet.reset_selfatt_keys_values d = Ok d' /\ dec_shape d' rows 0.
Proof.
  intros (HL & Hlen & Hw & Hatt). unfold DecoderNet.reset_selfatt_keys_values.
  rewrite <- Hlen.
  destruct (for_layers_ok window_ok (fun ly => window_ok ly /\ cache_shape ly rows 0)
              (fun ly => Ok (DecoderLayer.reset_selfatt_keys_values ly))
              (DecoderNet.decoder_layers d)) as (ls' & -> & HQ & Hl); [|assumption|].
  { intros ly Hly. eexists. split; [reflexivity|]. split; [exact Hly|reflexivity]. }
  cbn [bind]. eexists. split; [reflexivity|].
  split; [repeat split|]; cbn [DecoderNet.set_layers DecoderNet.nb_layers_decoder
                                DecoderNet.decoder_layers DecoderNet.attn_final];
    try assumption; try lia.
  - eapply Forall_impl; [|exact HQ]. intros ly [H _]; exact H.
  - eapply Forall_impl; [|exact HQ]. intros ly [_ H]; exact H.
Qed.

Lemma dec_repeat_ok (d : DecoderNet.decoder_net vec att prob) (rows n B : nat) :
  dec_shape d rows (S n) ->
  exists d', DecoderNet.repeat_selfatt_keys_values B d = Ok d' /\
             dec_shape d' (rows * B) (S n).
Proof.
  intros [(HL & Hlen & Hw & Hatt) Hc]. unfold DecoderNet.repeat_selfatt_keys_values.
  rewrite <- Hlen.
  destruct (for_layers_ok (fun ly => window_ok ly /\ cache_shape ly rows (S n))
              (fun ly => window_ok ly /\ cache_shape ly (rows * B) (S n))
              (DecoderLayer.repeat_selfatt_keys_values B)
              (DecoderNet.decoder_layers d)) as (ls' & -> & HQ & Hl).
  { intros ly [Hly Hs]. destruct (layer_repeat_ok ly rows n B Hs) as (ly' & E & Hs' & Hsg).
    exists ly'. split; [exact E|]. split; [|exact Hs'].
    unfold window_ok in *. rewrite Hsg. exact Hly. }
  { apply Forall_and_inv; assumption. }
  cbn [bind]. eexists. split; [reflexivity|].
  split; [repeat split|]; cbn [DecoderNet.set_layers DecoderNet.nb_layers_decoder
                                DecoderNet.decoder_layers DecoderNet.attn_final];
    try assumption; try lia.
  - eapply Forall_impl; [|exact HQ]. intros ly [H _]; exact H.
  - eapply Forall_impl; [|exact HQ]. intros ly [_ H]; exact H.
Qed.

Lemma dec_reorder_ok (d : DecoderNet.decoder_net vec att prob) (bsz B2 n : nat)
  (idx : tensor2 nat) :
  dec_shape d (bsz * B2) (S n) ->
  1 <= bsz -> wf2 idx -> shape0 idx = bsz ->
  Forall (Forall (fun i => i < B2)) (rows idx) ->
  exists d', DecoderNet.reorder_selfatt_keys_values n idx d = Ok d' /\
             dec_shape d' (bsz * shape1 idx) (S n).
Proof.
  intros [(HL & Hlen & Hw & Hatt) Hc] Hb Hwf H0 Hidx.
  unfold DecoderNet.reorder_selfatt_keys_values. rewrite <- Hlen.
  destruct (for_layers_ok (fun ly => window_ok ly /\ cache_shape ly (bsz * B2) (S n))
              (fun ly => window_ok ly /\ cache_shape ly (bsz * shape1 idx) (S n))
              (DecoderLayer.reorder_selfatt_keys_values n idx)
              (DecoderNet.decoder_layers d)) as (ls' & -> & HQ & Hl).
  { intros ly [Hly Hs].
    destruct (layer_reorder_ok ly bsz B2 n idx Hly Hs Hb Hwf H0 Hidx)
      as (ly' & E & Hs' & Hsg).
    exists ly'. split; [exact E|]. split; [|exact Hs'].
    unfold window_ok in *. rewrite Hsg. exact Hly. }
  { apply Forall_and_inv; assumption. }
  cbn [bind]. eexists. split; [reflexivity|].
  split; [repeat split|]; cbn [DecoderNet.set_layers DecoderNet.nb_layers_decoder
                                DecoderNet.decoder_layers DecoderNet.attn_final];
    try assumption; try lia.
  - eapply Forall_impl; [|exact HQ]. intros ly [H _]; exact H.
  - eapply Forall_impl; [|exact HQ]. intros ly [_ H]; exact H.
Qed.

Lemma forward_layers_ok (d : DecoderNet.decoder_net vec att prob) (rows n : nat)
  (K_att V_att : list att) (mask : list (list bool)) :
  length K_att = rows -> length V_att = rows -> length mask = rows ->
  forall (ls : list (DecoderLayer.layer vec att)) (l : nat) (h : list vec),
    Forall (fun ly => window_ok ly /\ cache_shape ly rows n) ls ->
    length h = rows ->
    exists h' ls',
      DecoderNet.forward_layers d l (length ls) ls h K_att V_att mask = Ok (h', ls') /\
      length h' = rows /\ length ls' = length ls /\
      Forall (fun ly => window_ok ly /\ cache_shape ly rows (S n)) ls'.
Proof.
  intros HK HV Hm. induction ls as [|ly ls IH]; intros l h Hls Hh; simpl.
  - exists h, []. auto.
  - apply Forall_cons_iff in Hls as [[Hw Hc] Hls].
    destruct (layer_forward_ok ly rows n h (map (DecoderNet.slice_att d l) K_att)
                (map (DecoderNet.slice_att d l) V_att) mask Hw Hc Hh)
      as (h1 & ly' & -> & Hh1 & Hc' & Hsg); rewrite ?length_map; try assumption.
    cbn [bind].
    destruct (IH (S l) h1 Hls Hh1) as (h' & ls' & -> & Hh' & Hl' & HF). cbn [bind].
    do 2 eexists. split; [reflexivity|]. split; [assumption|]. split; [simpl; lia|].
    constructor; [|assumption]. split; [|assumption].
    unfold window_ok in *. rewrite Hsg. exact Hw.
Qed.

Lemma final_rows_ok (f : vec -> att -> att -> list bool -> list prob) (q : list vec) :
  forall (K V : list att) (mask : list (list bool)),
    length K = length q -> length V = length q -> length mask = length q ->
    (forall q0 k v m, length (f q0 k v m) = length m) ->
    exists p, DecoderNet.final_rows f q K V mask = Ok p /\
              length p = length q /\
              Forall2 (fun pr m => length pr = length m) p mask.
Proof.
  induction q as [|q0 q IH]; intros [|k K] [|v V] [|m M]; simpl; intros;
    try discriminate.
  - exists []. auto.
  - destruct (IH K V M) as (p & -> & Hl & HF); try lia; [assumption|].
    cbn [bind]. eexists. split; [reflexivity|]. split; [simpl; lia|].
    constructor; auto.
Qed.

Lemma dec_forward_ok (d : DecoderNet.decoder_net vec att prob) (rows n : nat)
  (h : list vec) (K_att V_att : list att) (mask : list (list bool)) :
  dec_shape d rows n ->
  length h = rows -> length K_att = rows -> length V_att = rows -> length mask = rows ->
  exists p d',
    DecoderNet.forward d h K_att V_att mask = Ok (p, d') /\
    length p = rows /\ Forall2 (fun pr m => length pr = length m) p mask /\
    dec_shape d' rows (S n).
Proof.
  intros [(HL & Hlen & Hw & Hatt) Hc] Hh HK HV Hm. unfold DecoderNet.forward.
  rewrite <- Hlen.
  destruct (forward_layers_ok d rows n K_att V_att mask HK HV Hm
              (DecoderNet.decoder_layers d) 0 h) as (h' & ls' & -> & Hh' & Hl' & HF);
    [apply Forall_and_inv; assumption | assumption |].
  cbn [bind]. destruct (DecoderNet.nb_layers_decoder d) as [|l] eqn:EL; [lia|].
  destruct (final_rows_ok (DecoderNet.attn_final d) (map (DecoderNet.Wq_final d) h')
              (map (DecoderNet.slice_att d l) K_att)
              (map (DecoderNet.slice_att d l) V_att) mask)
    as (p & -> & Hp & HF2); rewrite ?length_map; try lia; [exact Hatt|].
  cbn [bind]. do 2 eexists. split; [reflexivity|].
  rewrite length_map in Hp. split; [lia|]. split; [assumption|].
  split; [repeat split|]; cbn [DecoderNet.set_layers DecoderNet.nb_layers_decoder
                                DecoderNet.decoder_layers DecoderNet.attn_final];
    try assumption; try lia.
  - eapply Forall_impl; [|exact HF]. intros ly [H _]; exact H.
  - eapply Forall_impl; [|exact HF]. intros ly [_ H]; exact H.
Qed.

End DecoderShapes.

(** ** Lists of rows *)

Lemma mapM_ok_Forall {A B : Type} (P : A -> Prop) (Q : B -> Prop)
  (f : A -> result B) (l : list A) :
  (forall a, P a -> exists b, f a = Ok b /\ Q b) ->
  Forall P l ->
  exists r, mapM f l = Ok r /\ length r = length l /\ Forall Q r.
Proof.
  intros Hf. induction 1 as [|a l Ha _ IH]; simpl.
  - exists []. auto.
  - destruct (Hf a Ha) as (b & -> & Hb). cbn [bind].
    destruct IH as (r & -> & Hl & HQ). cbn [bind].
    eexists. split; [reflexivity|]. split; [simpl; lia | constructor; assumption].
Qed.

Lemma mapM2_ok_Forall {A B C : Type} (R : A -> B -> Prop) (Q : C -> Prop)
  (f : A -> B -> result C) (l : list A) (m : list B) :
  (forall a c, R a c -> exists y, f a c = Ok y /\ Q y) ->
  Forall2 R l m ->
  exists r, mapM2 f l m = Ok r /\ length r = length l /\ Forall Q r.
Proof.
  intros Hf. induction 1 as [|a c l m Hac _ IH]; simpl.
  - exists []. auto.
  - destruct (Hf a c Hac) as (y & -> & Hy). cbn [bind].
    destruct IH as (r & -> & Hl & HQ). cbn [bind].
    eexists. split; [reflexivity|]. split; [simpl; lia | constructor; assumption].
Qed.

Lemma Forall2_of_Forall {A B : Type} (P : A -> Prop) (Q : B -> Prop)
  (l : list A) (m : list B) :
  length l = length m -> Forall P l -> Forall Q m ->
  Forall2 (fun a c => P a /\ Q c) l m.
Proof.
  revert m. induction l as [|a l IH]; intros [|c m] Hl HP HQ; simpl in Hl;
    try discriminate; constructor.
  - split; [eapply Forall_inv; eassumption | eapply Forall_inv; eassumption].
  - apply IH; [lia | eapply Forall_inv_tail; eassumption
               | eapply Forall_inv_tail; eassumption].
Qed.

Lemma Forall_map2 {A B C : Type} (P : A -> Prop) (Q : B -> Prop) (S : C -> Prop)
  (f : A -> B -> C) (l : list A) (m : list B) :
  (forall a c, P a -> Q c -> S (f a c)) ->
  Forall P l -> Forall Q m -> Forall S (map2 f l m).
Proof.
  intros Hf HP. revert m. induction HP as [|a l Ha _ IH]; intros [|c m] HQ; simpl;
    try constructor.
  - apply Hf; [assumption | eapply Forall_inv; eassumption].
  - apply IH. eapply Forall_inv_tail; eassumption.
Qed.

Lemma gather_beams_ok_Forall {A : Type} (P : A -> Prop) (tmp : list A) (idx : list nat) :
  Forall (fun i => i < length tmp) idx -> Forall P tmp ->
  exists r, DecoderLayer.gather_beams tmp idx = Ok r /\
            length r = length idx /\ Forall P r.
Proof.
  intros Hidx HP. unfold DecoderLayer.gather_beams.
  apply (mapM_ok_Forall (fun i => i < length tmp) P); [|assumption].
  intros i Hi. destruct (nth_error tmp i) as [a|] eqn:E.
  - exists a. split; [reflexivity|].
    rewrite Forall_forall in HP. apply HP. eapply nth_error_In; eassumption.
  - apply nth_error_None in E. lia.
Qed.

Lemma set_nth_ok_len {A : Type} (i : nat) (a : A) (l : list A) :
  i < length l -> exists l', set_nth i a l = Ok l' /\ length l' = length l.
Proof.
  intros Hi. destruct (set_nth_ok i a l Hi) as [l' E]. exists l'. split; [exact E|].
  apply set_nth_Ok in E. tauto.
Qed.

(** ** topk *)

Section TopK.
Context {prob score : Type} {float_ops : FloatOps prob score}.

Lemma insert_desc_length (x : nat * score) (l : list (nat * score)) :
  length (insert_desc x l) = S (length l).
Proof.
  induction l as [|y l IH]; simpl; [reflexivity|].
  destruct (sleb (snd y) (snd x)); simpl; [reflexivity | rewrite IH; reflexivity].
Qed.

Lemma insert_desc_In (x y : nat * score) (l : list (nat * score)) :
  In y (insert_desc x l) -> y = x \/ In y l.
Proof.
  induction l as [|z l IH]; simpl.
  - intros [H|[]]; auto.
  - destruct (sleb (snd z) (snd x)); simpl.
    + intros [H|[H|H]]; auto.
    + intros [H|H]; auto. destruct (IH H); auto.
Qed.

Lemma fold_insert_length (l : list (nat * score)) :
  length (fold_right insert_desc [] l) = length l.
Proof.
  induction l as [|x l IH]; simpl; [reflexivity|].
  rewrite insert_desc_length, IH. reflexivity.
Qed.

Lemma fold_insert_In (y : nat * score) (l : list (nat * score)) :
  In y (fold_right insert_desc [] l) -> In y l.
Proof.
  induction l as [|x l IH]; simpl; [auto|].
  intros H. apply insert_desc_In in H as [H|H]; auto.
Qed.

Lemma sort_desc_length (l : list score) : length (sort_desc l) = length l.
Proof.
  unfold sort_desc. rewrite fold_insert_length, length_combine, length_seq.
  apply Nat.min_id.
Qed.

Lemma sort_desc_index (l : list score) :
  Forall (fun p => fst p < length l) (sort_desc l).
Proof.
  apply Forall_forall. intros [i s] H. unfold sort_desc in H.
  apply fold_insert_In, in_combine_l, in_seq in H. simpl. lia.
Qed.

Lemma topk_ok (k : nat) (l : list score) :
  k <= length l ->
  exists r, topk k l = Ok r /\ length r = k /\
            Forall (fun p => fst p < length l) r.
Proof.
  intros Hk. unfold topk. destruct (Nat.leb_spec k (length l)); [|lia].
  eexists. split; [reflexivity|]. split.
  - rewrite length_firstn, sort_desc_length. lia.
  - apply Forall_forall. intros p Hp.
    pose proof (sort_desc_index l) as HF. rewrite Forall_forall in HF.
    apply HF. eapply incl_firstn; eassumption.
Qed.

End TopK.

(** ** Tensors with two leading dimensions *)

(** [t] has [n] rows of [m] entries, each entry satisfying [P]. *)
Definition shape2 {A : Type} (P : A -> Prop) (n m : nat) (t : list (list A)) : Prop :=
  length t = n /\ Forall (fun r => length r = m /\ Forall P r) t.

Lemma shape2_impl {A : Type} (P Q : A -> Prop) (n m : nat) (t : list (list A)) :
  (forall a, P a -> Q a) -> shape2 P n m t -> shape2 Q n m t.
Proof.
  intros H [Hl HF]. split; [assumption|].
  eapply Forall_impl; [|exact HF]. intros r [Hr HP]. split; [assumption|].
  eapply Forall_impl; [|exact HP]. exact H.
Qed.

Lemma shape2_map {A B : Type} (P : A -> Prop) (Q : B -> Prop) (f : A -> B)
  (n m : nat) (t : list (list A)) :
  (forall a, P a -> Q (f a)) -> shape2 P n m t -> shape2 Q n m (map (map f) t).
Proof.
  intros H [Hl HF]. split; [rewrite length_map; assumption|].
  apply Forall_map. eapply Forall_impl; [|exact HF]. intros r [Hr HP].
  split; [rewrite length_map; assumption|].
  apply Forall_map. eapply Forall_impl; [|exact HP]. exact H.
Qed.

Lemma shape2_Forall2 {A B : Type} (P : A -> Prop) (Q : B -> Prop) (n m m' : nat)
  (t : list (list A)) (u : list (list B)) :
  shape2 P n m t -> shape2 Q n m' u ->
  Forall2 (fun r s => (length r = m /\ Forall P r) /\ (length s = m' /\ Forall Q s)) t u.
Proof.
  intros [Hl HF] [Hl' HF']. apply Forall2_of_Forall; [lia | assumption | assumption].
Qed.

Lemma gather_rows_ok {A : Type} (P : A -> Prop) (n m m' : nat)
  (tmp : list (list A)) (idx : list (list nat)) :
  shape2 P n m tmp -> shape2 (fun i => i < m) n m' idx ->
  exists r, gather_rows tmp idx = Ok r /\ shape2 P n m' r.
Proof.
  intros Ht Hi. unfold gather_rows.
  pose proof (shape2_Forall2 _ _ _ _ _ _ _ Ht Hi) as H2.
  apply (mapM2_ok_Forall _ (fun r => length r = m' /\ Forall P r)
           DecoderLayer.gather_beams) in H2.
  - destruct H2 as (r & E & Hl & HF).
    exists r. split; [assumption|]. split; [|assumption]. destruct Ht. lia.
  - intros a c [[Ha HPa] [Hc Hic]].
    destruct (gather_beams_ok_Forall P a c) as (y & Ey & Hly & HPy);
      [rewrite Ha; assumption | assumption |].
    exists y. split; [assumption|]. split; [lia | assumption].
Qed.

Lemma set_rows_ok {A : Type} (a : A) (k n m : nat)
  (t : list (list (list A))) (idx : list (list nat)) :
  shape2 (fun e => length e = k) n m t -> shape2 (fun i => i < k) n m idx ->
  exists t', set_rows a t idx = Ok t' /\ shape2 (fun e => length e = k) n m t'.
Proof.
  intros Ht Hi. unfold set_rows.
  pose proof (shape2_Forall2 _ _ _ _ _ _ _ Ht Hi) as H2.
  apply (mapM2_ok_Forall _ (fun r => length r = m /\ Forall (fun e => length e = k) r)
           (mapM2 (fun r i => set_nth i a r))) in H2.
  - destruct H2 as (r & E & Hl & HF).
    exists r. split; [assumption|]. split; [|assumption]. destruct Ht. lia.
  - intros beams irow [[Hb HPb] [Hc Hic]].
    destruct (mapM2_ok_Forall (fun e i => length e = k /\ i < k)
                (fun e => length e = k) (fun r i => set_nth i a r) beams irow)
      as (y & Ey & Hly & HPy).
    + intros e i [He Hik]. destruct (set_nth_ok_len i a e) as (e' & Ee & Hle); [lia|].
      exists e'. split; [assumption | lia].
    + apply Forall2_of_Forall; [lia | assumption | assumption].
    + exists y. split; [assumption|]. split; [lia | assumption].
Qed.

Lemma set_column_ok (Q : nat -> Prop) (c k n m : nat)
  (tours : list (list (list nat))) (idx : list (list nat)) :
  c < k ->
  shape2 (fun e => length e = k) n m tours -> shape2 Q n m idx ->
  exists t', set_column c tours idx = Ok t' /\ shape2 (fun e => length e = k) n m t'.
Proof.
  intros Hc Ht Hi. unfold set_column.
  pose proof (shape2_Forall2 _ _ _ _ _ _ _ Ht Hi) as H2.
  apply (mapM2_ok_Forall _ (fun r => length r = m /\ Forall (fun e => length e = k) r)
           (mapM2 (fun r i => set_nth c i r))) in H2.
  - destruct H2 as (r & E & Hl & HF).
    exists r. split; [assumption|]. split; [|assumption]. destruct Ht. lia.
  - intros beams irow [[Hb HPb] [Hlc Hic]].
    destruct (mapM2_ok_Forall (fun e i => length e = k /\ Q i)
                (fun e => length e = k) (fun r i => set_nth c i r) beams irow)
      as (y & Ey & Hly & HPy).
    + intros e i [He _]. destruct (set_nth_ok_len c i e) as (e' & Ee & Hle); [lia|].
      exists e'. split; [assumption | lia].
    + apply Forall2_of_Forall; [lia | assumption | assumption].
    + exists y. split; [assumption|]. split; [lia | assumption].
Qed.

Lemma topk_rows_ok {prob score : Type} {float_ops : FloatOps prob score}
  (k n L : nat) (flat : list (list score)) :
  k <= L -> length flat = n -> Forall (fun r => length r = L) flat ->
  exists top, mapM (topk k) flat = Ok top /\
              shape2 (fun i => i < L) n k (map (map fst) top) /\
              shape2 (fun _ => True) n k (map (map snd) top).
Proof.
  intros Hk Hn HF.
  destruct (mapM_ok_Forall (fun r => length r = L)
              (fun r : list (nat * score) => length r = k /\ Forall (fun p => fst p < L) r)
              (topk k) flat) as (top & E & Hl & HT); [|assumption|].
  - intros r Hr. destruct (topk_ok k r) as (y & Ey & Hy & HI); [lia|].
    exists y. split; [assumption|]. split; [assumption|]. rewrite <- Hr. exact HI.
  - exists top. split; [assumption|]. split; split; rewrite ?length_map; try lia.
    + apply Forall_map. eapply Forall_impl; [|exact HT]. intros r [Hr HI].
      split; [rewrite length_map; assumption|]. apply Forall_map. exact HI.
    + apply Forall_map. eapply Forall_impl; [|exact HT]. intros r [Hr HI].
      split; [rewrite length_map; assumption|]. apply Forall_map.
      apply Forall_forall. auto.
Qed.

Lemma Forall2_length_rows {A B : Type} (k : nat) (p : list (list A)) (m : list (list B)) :
  Forall2 (fun pr mr => length pr = length mr) p m ->
  Forall (fun r => length r = k) m -> Forall (fun r => length r = k) p.
Proof.
  induction 1 as [|pr mr p m H _ IH]; intros HF; constructor;
    apply Forall_cons_iff in HF as [Ha Ht].
  - rewrite H. exact Ha.
  - apply IH. exact Ht.
Qed.

Lemma shape2_repeat {A : Type} (P : A -> Prop) (n m : nat) (a : A) :
  P a -> shape2 P n m (repeat (repeat a m) n).
Proof.
  intros Ha. split; [apply repeat_length|].
  apply Forall_forall. intros r Hr. apply repeat_spec in Hr. subst r.
  split; [apply repeat_length|]. apply Forall_forall. intros x Hx.
  apply repeat_spec in Hx. subst x. exact Ha.
Qed.

Lemma shape2_rows {A : Type} (P : A -> Prop) (n m : nat) (t : list (list A)) :
  shape2 P n m t -> Forall (fun r => length r = m) t.
Proof. intros [_ HF]. eapply Forall_impl; [|exact HF]. intros r [H _]; exact H. Qed.

(** ** The steps of the beam search *)

Section BeamShapes.
Context {coord vec att prob score : Type} {float_ops : FloatOps prob score}.
Variable net : tsp_net coord vec att prob.
Variable h_encoder : list (list vec).
Variables K_tmp V_tmp : list att.
Variables bsz nb_nodes B : nat.
Hypothesis Hbsz : 1 <= bsz.
Hypothesis Hh : shape2 (fun _ : vec => True) bsz (nb_nodes + 1) h_encoder.
Hypothesis HK : length K_tmp = bsz.
Hypothesis HV : length V_tmp = bsz.
Hypothesis HPE : nb_nodes < length (PE net).

(** The locals after step [t], with [nb] beams per batch row. *)
Definition beam_shape (s : beam_state vec att prob score) (nb t : nat) : Prop :=
  shape2 (fun _ => True) bsz nb (b_h_t s) /\
  shape2 (fun m => length m = nb_nodes + 1) bsz nb (b_mask_visited_nodes s) /\
  shape2 (fun r => length r = nb_nodes) bsz nb (b_tours s) /\
  shape2 (fun _ => True) bsz nb (b_sum_scores s) /\
  length (b_K_att_decoder s) = bsz * nb /\
  length (b_V_att_decoder s) = bsz * nb /\
  dec_shape (b_decoder s) (bsz * nb) (S t).

Lemma start_query_ok :
  exists h mask,
    start_query net h_encoder bsz nb_nodes = Ok (h, mask) /\
    length h = bsz /\ length mask = bsz /\
    Forall (fun m => length m = nb_nodes + 1) mask.
Proof.
  unfold start_query. destruct Hh as [Hlh HFh].
  destruct (index_rows_ok h_encoder (map Z.of_nat (repeat nb_nodes bsz)) (nb_nodes + 1))
    as (h & -> & Hh'); [rewrite length_map, repeat_length; lia | | |].
  { eapply Forall_impl; [|exact HFh]. intros r [H _]; exact H. }
  { apply Forall_map, Forall_forall. intros i Hi. apply repeat_spec in Hi. subst i.
    unfold valid_index. lia. }
  cbn [bind]. destruct (py_index_ok (PE net) 0) as (pe0 & ->); [unfold valid_index; lia|].
  cbn [bind].
  destruct (mapM2_ok_Forall (fun (m : list bool) i => length m = nb_nodes + 1 /\ i = nb_nodes)
              (fun m => length m = nb_nodes + 1) (fun m i => set_nth i true m)
              (repeat (repeat false (nb_nodes + 1)) bsz) (repeat nb_nodes bsz))
    as (mask & -> & Hlm & Hm).
  - intros m i [Hm ->]. destruct (set_nth_ok_len nb_nodes true m) as (m' & E & Hl); [lia|].
    exists m'. split; [assumption | lia].
  - apply Forall2_of_Forall; [rewrite !repeat_length; reflexivity | |].
    + apply Forall_forall. intros r Hr. apply repeat_spec in Hr. subst r.
      apply repeat_length.
    + apply Forall_forall. intros i Hi. apply repeat_spec in Hi. exact Hi.
  - cbn [bind]. do 2 eexists. split; [reflexivity|].
    rewrite length_map, Hlm, repeat_length. repeat split; [lia | assumption].
Qed.

Lemma beam_step0_ok (dec : DecoderNet.decoder_net vec att prob) :
  1 <= nb_nodes -> dec_shape dec bsz 0 ->
  exists s,
    beam_step0 net h_encoder K_tmp V_tmp bsz nb_nodes B dec = Ok s /\
    beam_shape s (Nat.min B nb_nodes) 0.
Proof.
  intros HN Hd. unfold beam_step0, beam_step0_with.
  destruct start_query_ok as (h & mask & -> & Hlh & Hlm & Hm). cbn [bind].
  destruct (dec_forward_ok dec bsz 0 h K_tmp V_tmp mask Hd Hlh HK HV Hlm)
    as (p & d1 & -> & Hlp & Hpm & Hd1). cbn [bind].
  pose proof (Forall2_length_rows _ _ _ Hpm Hm) as HpN.
  destruct (topk_rows_ok (Nat.min B nb_nodes) bsz (nb_nodes + 1) (map (map log) p))
    as (top & -> & Hidx & Hval);
    [lia | rewrite length_map; assumption | |].
  { apply Forall_map. eapply Forall_impl; [|exact HpN]. intros r Hr.
    rewrite length_map. exact Hr. }
  cbn [bind].
  destruct (set_rows_ok true (nb_nodes + 1) bsz (Nat.min B nb_nodes)
              (map (fun m => repeat m (Nat.min B nb_nodes)) mask) (map (map fst) top))
    as (mask' & -> & Hmask'); [|exact Hidx|].
  { split; [rewrite length_map; assumption|]. apply Forall_map.
    eapply Forall_impl; [|exact Hm]. intros m Hlen. split; [apply repeat_length|].
    apply Forall_forall. intros x Hx. apply repeat_spec in Hx. subst x. exact Hlen. }
  cbn [bind].
  destruct (set_column_ok (fun i => i < nb_nodes + 1) 0 nb_nodes bsz (Nat.min B nb_nodes)
              (repeat (repeat (repeat 0 nb_nodes) (Nat.min B nb_nodes)) bsz)
              (map (map fst) top)) as (tours & -> & Htours);
    [lia | apply shape2_repeat, repeat_length | exact Hidx |].
  cbn [bind].
  destruct (gather_rows_ok (fun _ => True) bsz (nb_nodes + 1) (Nat.min B nb_nodes)
              h_encoder (map (map fst) top) Hh Hidx) as (hg & -> & Hhg).
  cbn [bind].
  destruct (py_index_ok (PE net) (Z.of_nat 0 + 1)) as (pe & ->);
    [unfold valid_index; lia|].
  cbn [bind].
  destruct (dec_repeat_ok d1 bsz 0 (Nat.min B nb_nodes) Hd1) as (d2 & -> & Hd2).
  cbn [bind]. eexists. split; [reflexivity|].
  unfold beam_shape.
  cbn [b_h_t b_mask_visited_nodes b_tours b_sum_scores b_K_att_decoder
       b_V_att_decoder b_decoder].
  split; [eapply shape2_map; [|exact Hhg]; auto|].
  split; [exact Hmask'|]. split; [exact Htours|]. split; [exact Hval|].
  rewrite !length_repeat_interleave, HK, HV.
  split; [reflexivity|]. split; [reflexivity|]. exact Hd2.
Qed.

Lemma view3_ok {A : Type} (n m k : nat) (p : list (list A)) :
  length p = n * m -> Forall (fun r => length r = k) p ->
  exists p3, view3 p n m k = Ok p3 /\ shape2 (fun r => length r = k) n m p3.
Proof.
  intros Hl HF. unfold view3.
  rewrite (length_concat_uniform k p HF), Hl, Nat.eqb_refl.
  eexists. split; [reflexivity|].
  rewrite <- Hl, (chunk_concat k p HF).
  split; [apply length_chunk|].
  pose proof (chunk_Forall_length n m p ltac:(lia)) as Hc.
  apply Forall_forall. intros r Hr. split.
  - rewrite Forall_forall in Hc. apply Hc. exact Hr.
  - apply Forall_forall. intros e He. rewrite Forall_forall in HF. apply HF.
    eapply In_chunk; eassumption.
Qed.

Lemma flatten_scores_shape {S1 S2 : Type} (g : S2 -> S1 -> S1) (n m k : nat)
  (a : list (list (list S1))) (b : list (list S2)) :
  shape2 (fun r => length r = k) n m a -> shape2 (fun _ => True) n m b ->
  let ss := map2 (map2 (fun sc s0 => map (g s0) sc)) a b in
  length (map (@concat S1) ss) = n /\
  Forall (fun r => length r = m * k) (map (@concat S1) ss).
Proof.
  intros [Hla HFa] [Hlb HFb] ss. subst ss. split.
  - rewrite length_map, length_map2. lia.
  - apply Forall_map.
    apply (Forall_map2 (fun r => length r = m /\ Forall (fun e => length e = k) r)
             (fun r : list S2 => length r = m /\ Forall (fun _ => True) r));
      [|assumption|assumption].
    intros ra rb [Hra HPa] [Hrb _].
    rewrite (length_concat_uniform k).
    + rewrite length_map2. lia.
    + apply (Forall_map2 (fun e => length e = k) (fun _ => True));
        [|assumption|apply Forall_forall; auto].
      intros e s0 He _. rewrite length_map. exact He.
Qed.

Lemma beam_step_ok (t nb_prev : nat) (s : beam_state vec att prob score) :
  1 <= t -> t < nb_nodes -> B <= nb_prev * (nb_nodes + 1) ->
  (t = 1 \/ nb_prev = B) ->
  beam_shape s nb_prev (t - 1) ->
  exists s',
    beam_step net h_encoder K_tmp V_tmp bsz nb_nodes B t nb_prev s = Ok s' /\
    beam_shape s' B t.
Proof.
  intros Ht1 HtN HB Hcase (Hh_t & Hmask & Htours & Hss & HlK & HlV & Hdec).
  replace (S (t - 1)) with t in Hdec by lia.
  unfold beam_step, beam_step_with.
  assert (Hlh : length (concat (b_h_t s)) = bsz * nb_prev).
  { rewrite (length_concat_uniform nb_prev); [destruct Hh_t as [-> _]; reflexivity|].
    eapply shape2_rows; eassumption. }
  assert (Hlm : length (concat (b_mask_visited_nodes s)) = bsz * nb_prev).
  { rewrite (length_concat_uniform nb_prev); [destruct Hmask as [-> _]; reflexivity|].
    eapply shape2_rows; eassumption. }
  assert (Hmw : Forall (fun m => length m = nb_nodes + 1)
                       (concat (b_mask_visited_nodes s))).
  { apply Forall_concat. destruct Hmask as [_ HF].
    eapply Forall_impl; [|exact HF]. intros r [_ H]; exact H. }
  destruct (dec_forward_ok (b_decoder s) (bsz * nb_prev) t (concat (b_h_t s))
              (b_K_att_decoder s) (b_V_att_decoder s) (concat (b_mask_visited_nodes s))
              Hdec Hlh HlK HlV Hlm) as (p & d1 & -> & Hlp & Hpm & Hd1).
  cbn [bind]. pose proof (Forall2_length_rows _ _ _ Hpm Hmw) as HpN.
  destruct (view3_ok bsz nb_prev (nb_nodes + 1) p Hlp HpN) as (p3 & -> & Hp3).
  cbn [bind].
  destruct (Nat.eqb_spec bsz 0) as [E|_]; [lia|]. cbn [bind].
  destruct (flatten_scores_shape (fun s0 x => sadd x s0) bsz nb_prev (nb_nodes + 1)
              (map (map (map log)) p3) (b_sum_scores s)) as [Hlf HFf];
    [|exact Hss|].
  { eapply shape2_map; [|exact Hp3]. intros r Hr. rewrite length_map. exact Hr. }
  destruct (topk_rows_ok B bsz (nb_prev * (nb_nodes + 1)) _ HB Hlf HFf)
    as (top & -> & Hidx & Hval).
  cbn [bind].
  assert (Htop : shape2 (fun i => i < nb_prev) bsz B
                   (map (map (fun i => i / (nb_nodes + 1))) (map (map fst) top))).
  { eapply shape2_map; [|exact Hidx]. intros i Hi.
    apply Nat.Div0.div_lt_upper_bound. rewrite Nat.mul_comm. exact Hi. }
  assert (Hin : shape2 (fun i => i < nb_nodes + 1) bsz B
                  (map (map (fun i => i - i / (nb_nodes + 1) * (nb_nodes + 1)))
                       (map (map fst) top))).
  { eapply shape2_map; [|exact Hidx]. intros i _.
    pose proof (Nat.Div0.div_mod i (nb_nodes + 1)) as Hd.
    pose proof (Nat.mod_upper_bound i (nb_nodes + 1) ltac:(lia)) as Hu.
    rewrite (Nat.mul_comm (nb_nodes + 1)) in Hd. lia. }
  destruct (gather_rows_ok _ bsz nb_prev B _ _ Hmask Htop) as (mg & -> & Hmg).
  cbn [bind].
  destruct (set_rows_ok true (nb_nodes + 1) bsz B mg _ Hmg Hin) as (mask' & -> & Hmask').
  cbn [bind].
  destruct (gather_rows_ok _ bsz nb_prev B _ _ Htours Htop) as (tg & -> & Htg).
  cbn [bind].
  destruct (set_column_ok _ t nb_nodes bsz B tg _ HtN Htg Hin) as (tours' & -> & Htours').
  cbn [bind].
  destruct (gather_rows_ok _ bsz (nb_nodes + 1) B _ _ Hh Hin) as (hg & -> & Hhg).
  cbn [bind].
  destruct (py_index_ok (PE net) (Z.of_nat t + 1)) as (pe & ->);
    [unfold valid_index; lia|].
  cbn [bind].
  destruct (dec_reorder_ok d1 bsz nb_prev t
              (Tensor2 (length (map (map (fun i => i / (nb_nodes + 1)))
                                    (map (map fst) top))) B
                 (map (map (fun i => i / (nb_nodes + 1))) (map (map fst) top)))
              Hd1 Hbsz) as (d2 & -> & Hd2).
  { split; [reflexivity|]. cbn [rows shape1]. eapply shape2_rows; exact Htop. }
  { cbn [shape0]. destruct Htop; assumption. }
  { cbn [rows]. destruct Htop as [_ HF]. eapply Forall_impl; [|exact HF].
    intros r [_ H]; exact H. }
  cbn [bind shape1] in *. eexists. split; [reflexivity|].
  unfold beam_shape.
  cbn [b_h_t b_mask_visited_nodes b_tours b_sum_scores b_K_att_decoder
       b_V_att_decoder b_decoder].
  split; [eapply shape2_map; [|exact Hhg]; auto|].
  split; [exact Hmask'|]. split; [exact Htours'|]. split; [exact Hval|].
  split; [|split; [|exact Hd2]].
  - destruct (Nat.eqb_spec t 1).
    + rewrite length_repeat_interleave, HK. reflexivity.
    + destruct Hcase as [?|<-]; [lia | exact HlK].
  - destruct (Nat.eqb_spec t 1).
    + rewrite length_repeat_interleave, HV. reflexivity.
    + destruct Hcase as [?|<-]; [lia | exact HlV].
Qed.

(** The number of beams the loop holds after step [t]. *)
Definition beams_at (t : nat) : nat := if t =? 0 then Nat.min B nb_nodes else B.

Lemma beam_loop_ok (dec0 : DecoderNet.decoder_net vec att prob) :
  B <= Nat.min B nb_nodes * (nb_nodes + 1) ->
  forall k t s,
    1 <= t -> t + k = nb_nodes -> beam_shape s (beams_at (t - 1)) (t - 1) ->
    exists tr,
      loop_trace (beam_body net h_encoder K_tmp V_tmp bsz nb_nodes B dec0)
                 (seq t k) (Some s) = Ok tr /\
      length tr = k /\
      forall i, i < k ->
        exists s', nth_error tr i = Some (Some s') /\
                   beam_shape s' (beams_at (t + i)) (t + i).
Proof.
  intros HB0. induction k as [|k IH]; intros t s Ht Hk Hs; cbn [seq loop_trace].
  - exists []. repeat split. intros i Hi. lia.
  - rewrite beam_body_unfold. cbv zeta. destruct (Nat.eqb_spec t 0) as [E|_]; [lia|].
    assert (Hprev : (if t =? 1 then Nat.min B nb_nodes else B) = beams_at (t - 1)).
    { unfold beams_at. destruct (Nat.eqb_spec t 1), (Nat.eqb_spec (t - 1) 0);
        try reflexivity; lia. }
    rewrite Hprev.
    destruct (beam_step_ok t (beams_at (t - 1)) s) as (s' & -> & Hs'); try assumption;
      [lia | | |].
    { unfold beams_at. destruct (Nat.eqb_spec (t - 1) 0); [assumption|nia]. }
    { unfold beams_at. destruct (Nat.eqb_spec (t - 1) 0); [left; lia | right; reflexivity]. }
    cbn [bind].
    assert (Hat : beams_at t = B).
    { unfold beams_at. destruct (Nat.eqb_spec t 0); [lia|reflexivity]. }
    destruct (IH (S t) s') as (tr & -> & Hl & Hn); [lia | lia | |].
    { replace (S t - 1) with t by lia. rewrite Hat. exact Hs'. }
    cbn [bind]. eexists. split; [reflexivity|]. split; [simpl; lia|].
    intros [|i] Hi; cbn [nth_error].
    + exists s'. split; [reflexivity|]. rewrite Nat.add_0_r, Hat. exact Hs'.
    + destruct (Hn i) as (s2 & E2 & H2); [lia|]. exists s2. split; [assumption|].
      replace (t + S i) with (S t + i) by lia. exact H2.
Qed.

Lemma beam_trace_ok (dec : DecoderNet.decoder_net vec att prob) :
  dec_wf dec -> B <= Nat.min B nb_nodes * (nb_nodes + 1) ->
  exists tr,
    beam_trace net h_encoder K_tmp V_tmp bsz nb_nodes B dec = Ok tr /\
    length tr = nb_nodes /\
    forall t, t < nb_nodes ->
      exists s, nth_error tr t = Some (Some s) /\ beam_shape s (beams_at t) t.
Proof.
  intros Hwf HB0. rewrite beam_trace_unfold.
  destruct (dec_reset_ok dec bsz Hwf) as (d0 & -> & Hd0). cbn [bind].
  destruct (Nat.eq_dec nb_nodes 0) as [EN|EN].
  - rewrite EN. exists []. repeat split. intros t Ht. lia.
  - assert (Hseq : seq 0 nb_nodes = 0 :: seq 1 (nb_nodes - 1)).
    { replace nb_nodes with (S (nb_nodes - 1)) at 1 by lia. reflexivity. }
    rewrite Hseq. cbn [loop_trace]. rewrite beam_body_unfold. cbv zeta. cbn [Nat.eqb].
    destruct (beam_step0_ok d0) as (s0 & -> & Hs0); [lia | assumption |].
    cbn [bind].
    destruct (beam_loop_ok d0 HB0 (nb_nodes - 1) 1 s0) as (tr & -> & Hl & Hn);
      [lia | lia | exact Hs0 |].
    cbn [bind]. eexists. split; [reflexivity|]. split; [simpl; lia|].
    intros [|t] Ht; cbn [nth_error].
    + exists s0. split; [reflexivity|]. exact Hs0.
    + destruct (Hn t) as (s2 & E2 & H2); [lia|]. exists s2. split; assumption.
Qed.

End BeamShapes.

Lemma last_nth_error {A : Type} (l : list A) (a d : A) :
  nth_error l (length l - 1) = Some a -> last l d = a.
Proof.
  induction l as [|x l IH]; [discriminate|]. destruct l as [|y l].
  - simpl. congruence.
  - intros H. change (last (x :: y :: l) d) with (last (y :: l) d). apply IH.
    simpl in H. simpl. rewrite Nat.sub_0_r. exact H.
Qed.

(* ================================================================== *)
(** * The beam width schedule *)

(** C4: in beam-search mode with [B <= nb_nodes * (nb_nodes - 1)], on a
    batch of at least one row, with an encoder output of shape
    (bsz, nb_nodes + 1, .), at least [nb_nodes + 1] positional encodings and
    a decoder as [__init__] builds it, every step of the beam search runs
    without error; step 0 leaves [min(B, nb_nodes)] beams in every batch
    row and every later step exactly [B].  For [B >= 1] the call returns
    [B] tours per batch row. *)
Theorem beam_width_schedule {coord vec att prob score : Type}
  {float_ops : FloatOps prob score}
  (sample : nat -> list (list prob) -> list nat)
  (net : tsp_net coord vec att prob) (x : tensor2 coord) (B : nat) :
  1 <= shape0 x ->
  shape2 (fun _ => True) (shape0 x) (shape1 x + 1) (h_encoder_of net x) ->
  shape1 x < length (PE net) ->
  dec_wf (decoder net) ->
  B <= shape1 x * (shape1 x - 1) ->
  (exists trace,
      forward_beam_trace net x B = Ok trace /\ length trace = shape1 x /\
      forall t, t < shape1 x ->
        exists s, nth_error trace t = Some (Some s) /\
                  nb_beams s (if t =? 0 then Nat.min B (shape1 x) else B)) /\
  (1 <= B ->
   exists tours scores,
     forward sample net x B false true
     = Ok (FloatTensor (zeros2 2 (shape1 x)), LongTensor3 tours, zeros1 2, scores) /\
     length tours = shape0 x /\ Forall (fun beams => length beams = B) tours).
Proof.
  intros Hbsz Hh HPE Hwf HB.
  assert (HB0 : B <= Nat.min B (shape1 x) * (shape1 x + 1)).
  { destruct (Nat.min_spec B (shape1 x)) as [[_ ->]|[_ ->]]; nia. }
  destruct Hh as [Hlh HFh].
  destruct (beam_trace_ok net (h_encoder_of net x)
              (map (WK_att_decoder net) (h_encoder_of net x))
              (map (WV_att_decoder net) (h_encoder_of net x))
              (shape0 x) (shape1 x) B Hbsz (conj Hlh HFh)
              ltac:(rewrite length_map; exact Hlh) ltac:(rewrite length_map; exact Hlh)
              HPE (decoder net) Hwf HB0) as (tr & Etr & Hl & Hn).
  split.
  - exists tr. split; [exact Etr|]. split; [exact Hl|].
    intros t Ht. destruct (Hn t Ht) as (s & Es & Hs). exists s. split; [exact Es|].
    destruct Hs as (_ & _ & Htours & _). unfold nb_beams, beams_at in *.
    eapply shape2_rows; exact Htours.
  - intros HB1. rewrite forward_runs_beam_trace.
    unfold forward_beam_trace. cbn zeta. rewrite Etr. cbn [bind].
    assert (HN : 2 <= shape1 x) by nia.
    destruct (Hn (shape1 x - 1)) as (s & Es & Hs); [lia|].
    rewrite (last_nth_error tr (Some s) None) by (rewrite Hl; exact Es).
    destruct Hs as (_ & _ & Htours & Hss & _). unfold beams_at in *.
    destruct (Nat.eqb_spec (shape1 x - 1) 0) as [E|_]; [lia|].
    destruct (mapM_ok_Forall (fun r : list score => length r = B) (fun _ => True)
                (fun r => py_index r 0) (b_sum_scores s)) as (sc & -> & _ & _).
    + intros r Hr. destruct (py_index_ok r 0) as (a & Ea); [unfold valid_index; lia|].
      exists a. auto.
    + eapply shape2_rows; exact Hss.
    + cbn [bind]. do 2 eexists. split; [reflexivity|].
      split; [destruct Htours; assumption | eapply shape2_rows; exact Htours].
Qed.

Lemma toy_decoder_wf (segm : Z) : (1 <= segm)%Z -> dec_wf (toy_decoder (Some segm)).
Proof.
  intros Hs. unfold dec_wf, toy_decoder. cbn. repeat split; try lia.
  - constructor; [|constructor]. unfold window_ok. cbn. exact Hs.
  - intros q K V m. unfold toy_attn.
    rewrite !length_map, length_combine, length_seq. apply Nat.min_id.
Qed.

Lemma beam_width_schedule_witness :
  (exists trace,
      forward_beam_trace (toy_net (Some 2%Z) 8) three_batches 5 = Ok trace /\
      length trace = 3 /\
      forall t, t < 3 ->
        exists s, nth_error trace t = Some (Some s) /\
                  nb_beams s (if t =? 0 then 3 else 5)) /\
  (1 <= 5 ->
   exists tours scores,
     forward draw_first (toy_net (Some 2%Z) 8) three_batches 5 false true
     = Ok (FloatTensor (zeros2 2 3), LongTensor3 tours, zeros1 2, scores) /\
     length tours = 3 /\ Forall (fun beams => length beams = 5) tours).
Proof.
  apply (beam_width_schedule draw_first (toy_net (Some 2%Z) 8) three_batches 5).
  - simpl. lia.
  - split; [reflexivity|]. cbn. repeat constructor.
  - simpl. lia.
  - apply toy_decoder_wf. lia.
  - simpl. lia.
Defined.

Import Torch.

(* ================================================================== *)
(** * Further properties of compute_tour_length *)

Section TourLengthMore.
Import TourLength.

Lemma euclid_nonneg (p q : city) : (0 <= euclid p q)%R.
Proof. apply sqrt_pos. Qed.

Lemma path_length_nonneg (cs : list city) : (0 <= path_length cs)%R.
Proof.
  induction cs as [|a [|b tl] IH]; simpl; try lra.
  pose proof (euclid_nonneg a b). simpl in IH. lra.
Qed.

Lemma cycle_length_nonneg (cs : list city) : (0 <= cycle_length cs)%R.
Proof.
  unfold cycle_length.
  pose proof (path_length_nonneg cs).
  pose proof (euclid_nonneg (last cs []) (hd [] cs)). lra.
Qed.

Lemma combine_map_r {A B C : Type} (g : B -> C) (l : list A) (m : list B) :
  combine l (map g m) = map (fun p => (fst p, g (snd p))) (combine l m).
Proof.
  revert m; induction l as [|a l IH]; intros [|b m]; simpl; auto.
  now rewrite IH.
Qed.

(** A rewriting of every tour that keeps the row length and the validity of
    the indices, and the cycle of every row, keeps the result. *)
Lemma tour_length_row_transform (g : list Z -> list Z)
  (x : tensor2 city) (tour : tensor2 Z) :
  (forall r, length (g r) = length r) ->
  (forall r, length r = shape1 x -> Forall (valid_index (shape1 x)) r ->
             Forall (valid_index (shape1 x)) (g r)) ->
  (forall xr tr, length xr = shape1 x -> length tr = shape1 x ->
                 Forall (valid_index (shape1 x)) tr ->
                 cycle_length (visit xr (g tr)) = cycle_length (visit xr tr)) ->
  well_shaped x tour -> 2 <= shape1 x ->
  compute_tour_length x (Tensor2 (shape0 tour) (shape1 tour) (map g (rows tour)))
  = compute_tour_length x tour.
Proof.
  intros Hlen Hval Hcyc Hws HN.
  destruct (well_shaped_rows _ _ Hws) as (Hl & Hx & Ht).
  assert (Hws' : well_shaped x (Tensor2 (shape0 tour) (shape1 tour) (map g (rows tour)))).
  { destruct Hws as (Hxw & [Htl Htr] & H0 & H1 & Hv).
    unfold well_shaped, wf2. cbn [rows shape0 shape1]. rewrite length_map.
    split; [assumption|]. split; [split; [assumption|]|].
    - apply Forall_map. rewrite Forall_forall in *. intros r Hr.
      rewrite Hlen. now apply Htr.
    - split; [assumption|]. split; [assumption|].
      apply Forall_map. rewrite Forall_forall in *. intros r Hr.
      destruct (Ht r Hr). now apply Hval. }
  rewrite !compute_tour_length_cycle by assumption.
  cbn [rows]. rewrite combine_map_r, map_map. f_equal.
  apply map_ext_in. intros [xr tr] Hin. cbn [fst snd].
  rewrite Forall_forall in Hx, Ht.
  destruct (Ht tr (in_combine_r _ _ _ _ Hin)).
  apply Hcyc; auto. apply Hx. eapply in_combine_l; eauto.
Qed.

Lemma visit_map (xr : list city) (tr : list Z) :
  visit xr tr = map (get xr) tr.
Proof. reflexivity. Qed.

(** [i] for a non-negative index, [nb_nodes + i] for a negative one. *)
Definition wrap_index (n : nat) (i : Z) : Z :=
  if (i <? 0)%Z then (Z.of_nat n + i)%Z else i.

Lemma py_index_wrap {A : Type} (l : list A) (i : Z) :
  valid_index (length l) i -> py_index l (wrap_index (length l) i) = py_index l i.
Proof.
  unfold valid_index, wrap_index. intros H.
  destruct (Z.ltb_spec i 0) as [Hn|Hp]; [|reflexivity].
  unfold py_index. cbv zeta.
  destruct (Z.ltb_spec i 0); [|lia].
  destruct (Z.ltb_spec (Z.of_nat (length l) + i) 0); [lia|]. reflexivity.
Qed.

Lemma py_index_invalid {A : Type} (l : list A) (i : Z) :
  ~ valid_index (length l) i -> py_index l i = Raise IndexError.
Proof.
  unfold valid_index, py_index. cbv zeta. intros H.
  destruct (Z.ltb_spec i 0);
    repeat match goal with
           | |- context [(?a <=? ?b)%Z] => destruct (Z.leb_spec a b)
           | |- context [(?a <? ?b)%Z] => destruct (Z.ltb_spec a b)
           end; cbn [andb]; try reflexivity; lia.
Qed.

Lemma py_index_cases {A : Type} (l : list A) (i : Z) :
  (exists a, py_index l i = Ok a) \/ py_index l i = Raise IndexError.
Proof.
  unfold py_index.
  destruct (_ && _)%bool; [|now right].
  destruct (nth_error _ _); [left; eauto | now right].
Qed.

Lemma index_rows_invalid {A : Type} (n : nat) (xs : list (list A)) (idx : list Z) :
  length idx = length xs ->
  Forall (fun r => length r = n) xs ->
  Exists (fun i => ~ valid_index n i) idx ->
  index_rows xs idx = Raise IndexError.
Proof.
  revert idx; induction xs as [|r xs IH]; intros [|i idx] Hl Hx Hi;
    simpl in *; try discriminate.
  - inversion Hi.
  - apply Forall_cons_iff in Hx as [Hr Hxs].
    apply Exists_cons in Hi as [Hi|Hi].
    + rewrite py_index_invalid; [reflexivity | now rewrite Hr].
    + destruct (py_index_cases r i) as [(a & ->)| ->]; [|reflexivity].
      cbn [bind]. rewrite IH; auto.
Qed.

Lemma index_rows_cases {A : Type} (xs : list (list A)) (idx : list Z) :
  (exists cs, index_rows xs idx = Ok cs) \/ index_rows xs idx = Raise IndexError.
Proof.
  revert idx; induction xs as [|r xs IH]; intros [|i idx]; simpl; eauto.
  destruct (py_index_cases r i) as [(a & ->)| ->]; [|now right].
  cbn [bind]. destruct (IH idx) as [(cs & ->)| ->]; cbn [bind]; eauto.
Qed.

Lemma cities_at_cases (x : tensor2 city) (tour : tensor2 Z) (i : nat) :
  wf2 tour ->
  (exists cs, cities_at x tour i = Ok cs) \/ cities_at x tour i = Raise IndexError.
Proof.
  intros Ht. unfold cities_at.
  destruct (Nat.ltb_spec i (shape1 tour)) as [Hi|Hi].
  - rewrite (column_nth tour i Ht Hi). cbn [bind]. apply index_rows_cases.
  - right. unfold column. apply Nat.ltb_ge in Hi. rewrite Hi. reflexivity.
Qed.

Lemma cities_at_invalid (x : tensor2 city) (tour : tensor2 Z) (i : nat) :
  wf2 x -> wf2 tour -> shape0 tour = shape0 x -> i < shape1 tour ->
  Exists (fun r => ~ valid_index (shape1 x) (nth i r 0%Z)) (rows tour) ->
  cities_at x tour i = Raise IndexError.
Proof.
  intros [Hxl Hxr] Ht H0 Hi Hex. unfold cities_at.
  rewrite (column_nth tour i Ht Hi). cbn [bind].
  apply index_rows_invalid with (n := shape1 x); auto.
  - rewrite length_map. destruct Ht. lia.
  - apply Exists_exists in Hex as (r & Hr & Hbad).
    apply Exists_exists. exists (nth i r 0%Z). split; [|assumption].
    now apply in_map with (f := fun r => nth i r 0%Z).
Qed.

Lemma tour_loop_invalid (x : tensor2 city) (tour : tensor2 Z) (i : nat) :
  wf2 tour -> cities_at x tour i = Raise IndexError ->
  forall steps L prev cur, In i steps ->
    tour_loop x tour steps L prev cur = Raise IndexError.
Proof.
  intros Ht Hi. induction steps as [|j steps IH]; intros L prev cur Hin; [easy|].
  cbn [tour_loop].
  destruct (cities_at_cases x tour j Ht) as [(cs & E)|E]; rewrite E; [|reflexivity].
  cbn [bind]. destruct Hin as [->|Hin]; [congruence|]. now apply IH.
Qed.

End TourLengthMore.

Import TourLength.

(** X1 ([compute_tour_length]): for inputs of the documented shapes with at
    least two nodes, entry [b] of the result is the length of the closed
    cycle through the cities of row [b] in tour order (the consecutive
    distances plus the way back to the first city), and it is not
    negative. *)
Theorem tour_length_is_closed_cycle (x : tensor2 city) (tour : tensor2 Z) :
  well_shaped x tour -> 2 <= shape1 x ->
  exists L,
    compute_tour_length x tour = Ok L /\
    L = map (fun p => cycle_length (visit (fst p) (snd p)))
            (combine (rows x) (rows tour)) /\
    Forall (fun l => (0 <= l)%R) L.
Proof.
  intros Hws HN. eexists. split; [now apply compute_tour_length_cycle|].
  split; [reflexivity|].
  apply Forall_map, Forall_forall. intros p _. apply cycle_length_nonneg.
Qed.

Lemma tour_length_is_closed_cycle_witness :
  exists L,
    compute_tour_length square square_tour = Ok L /\
    L = map (fun p => cycle_length (visit (fst p) (snd p)))
            (combine (rows square) (rows square_tour)) /\
    Forall (fun l => (0 <= l)%R) L.
Proof.
  apply (tour_length_is_closed_cycle square square_tour);
    [wf_tensor | simpl; lia].
Defined.

(** X4 ([compute_tour_length]): tour entries follow Python indexing: a
    negative entry [i >= -nb_nodes] names city [nb_nodes + i], so replacing
    every negative entry by its non-negative equivalent keeps the result. *)
Theorem tour_length_negative_indices (x : tensor2 city) (tour : tensor2 Z) :
  well_shaped x tour -> 2 <= shape1 x ->
  compute_tour_length x
    (Tensor2 (shape0 tour) (shape1 tour)
             (map (map (wrap_index (shape1 x))) (rows tour)))
  = compute_tour_length x tour.
Proof.
  apply (tour_length_row_transform (map (wrap_index (shape1 x)))).
  - intros r. apply length_map.
  - intros r _ H. apply Forall_map. revert H. apply Forall_impl.
    unfold valid_index, wrap_index. intros i Hi.
    destruct (Z.ltb_spec i 0); lia.
  - intros xr tr Hxr _ Hv. rewrite !visit_map, map_map. f_equal.
    apply map_ext_in. intros i Hi. unfold get.
    rewrite <- Hxr, py_index_wrap; [reflexivity|].
    rewrite Forall_forall in Hv. rewrite Hxr. now apply Hv.
Qed.

Lemma tour_length_negative_indices_witness :
  compute_tour_length square (Tensor2 1 4 [[0; 1; 2; 3]]%Z)
  = compute_tour_length square (Tensor2 1 4 [[0; -3; 2; -1]]%Z).
Proof.
  apply (tour_length_negative_indices square (Tensor2 1 4 [[0; -3; 2; -1]]%Z));
    [wf_tensor | simpl; lia].
Defined.

(** X5 ([compute_tour_length]): a tour entry outside
    [-nb_nodes, nb_nodes) makes the call raise IndexError, wherever the
    entry stands and whatever the other entries are. *)
Theorem tour_length_index_out_of_range (x : tensor2 city) (tour : tensor2 Z) :
  wf2 x -> wf2 tour ->
  shape0 tour = shape0 x -> shape1 tour = shape1 x ->
  Exists (Exists (fun i => ~ valid_index (shape1 x) i)) (rows tour) ->
  compute_tour_length x tour = Raise IndexError.
Proof.
  intros Hx Ht H0 H1 Hex.
  apply Exists_exists in Hex as (r & Hr & Hex).
  apply Exists_exists in Hex as (i & Hi & Hbad).
  destruct (In_nth _ _ 0%Z Hi) as (c & Hc & Hnth).
  assert (Hlen : length r = shape1 tour).
  { destruct Ht as [_ Ht]. rewrite Forall_forall in Ht. now apply Ht. }
  assert (Hcol : cities_at x tour c = Raise IndexError).
  { apply cities_at_invalid; auto; [lia|].
    apply Exists_exists. exists r. split; [assumption|]. now rewrite Hnth. }
  unfold compute_tour_length.
  destruct (Nat.eq_dec c 0) as [->|Hc0]; [now rewrite Hcol|].
  destruct (cities_at_cases x tour 0 Ht) as [(cs & ->)| ->]; [|reflexivity].
  cbn [bind]. rewrite (tour_loop_invalid x tour c Ht Hcol); [reflexivity|].
  apply in_seq. lia.
Qed.

Lemma tour_length_index_out_of_range_witness :
  compute_tour_length square (Tensor2 1 4 [[0; 1; 2; 4]]%Z) = Raise IndexError.
Proof.
  apply (tour_length_index_out_of_range square (Tensor2 1 4 [[0; 1; 2; 4]]%Z));
    [wf_tensor | wf_tensor | reflexivity | reflexivity |].
  apply Exists_cons_hd. do 3 apply Exists_cons_tl. apply Exists_cons_hd.
  unfold valid_index. simpl. lia.
Defined.

(* ================================================================== *)
(** * Further properties of the self-attention cache *)

Section CacheContent.
Import DecoderLayer.
Context {vec att : Type}.

Lemma nth_error_repeat_interleave {A : Type} (c : list A) (B b i : nat) :
  i < B -> nth_error (repeat_interleave c B) (b * B + i) = nth_error c b.
Proof.
  unfold repeat_interleave. revert b; induction c as [|a c IH]; intros b Hi.
  - simpl. destruct b; destruct (_ + _); reflexivity.
  - simpl flat_map. destruct b as [|b].
    + simpl. rewrite nth_error_app1 by (rewrite repeat_length; lia).
      now apply nth_error_repeat.
    + rewrite nth_error_app2 by (rewrite repeat_length; simpl; lia).
      rewrite repeat_length.
      replace (S b * B + i - B) with (b * B + i) by (simpl; lia).
      now apply IH.
Qed.

Lemma reorder_cache_identity (kl : Z) (idx : tensor2 nat) (c : cache vec) :
  wf2 idx -> (0 <= kl)%Z ->
  length c = shape0 idx * shape1 idx ->
  Forall (fun r => length r = Z.to_nat kl) c ->
  Forall (fun r => r = seq 0 (shape1 idx)) (rows idx) ->
  reorder_cache kl idx (shape1 idx) c = Ok c.
Proof.
  intros Hwf Hkl Hlen Hrows Hid.
  destruct (reorder_cache_spec kl idx (shape1 idx) c) as (c' & -> & Hl & Hnth); auto.
  { rewrite Forall_forall in *. intros r Hr. rewrite (Hid r Hr).
    apply Forall_forall. intros i Hi. apply in_seq in Hi. lia. }
  f_equal. apply nth_error_ext. intros j.
  destruct (Nat.lt_ge_cases j (length c)) as [Hj|Hj].
  - assert (HB : shape1 idx <> 0) by (intros E; rewrite E in Hlen; lia).
    pose proof (Nat.div_mod_eq j (shape1 idx)) as Ej.
    pose proof (Nat.mod_upper_bound j (shape1 idx) HB) as Hi.
    assert (Hb : j / shape1 idx < shape0 idx).
    { apply Nat.Div0.div_lt_upper_bound. rewrite Nat.mul_comm. lia. }
    destruct (Hnth _ _ Hb Hi) as [E _].
    assert (Hrow : nth (j / shape1 idx) (rows idx) [] = seq 0 (shape1 idx)).
    { rewrite Forall_forall in Hid. apply Hid, nth_In. destruct Hwf. lia. }
    rewrite Hrow, seq_nth in E by assumption.
    replace (j / shape1 idx * shape1 idx + (0 + j mod shape1 idx)) with j in E by lia.
    replace (j / shape1 idx * shape1 idx + j mod shape1 idx) with j in E by lia.
    exact E.
  - transitivity (@None (list vec)); [|symmetry];
      apply nth_error_None; lia.
Qed.

(** The window on one cache row. *)
Definition recent (segm : option Z) (l : list vec) : list vec :=
  match segm with
  | Some s => slice_last s l
  | None => l
  end.

Lemma slice_last_snoc (s : Z) (l : list vec) (a : vec) :
  (1 <= s)%Z ->
  slice_last s (slice_last s l ++ [a]) = slice_last s (l ++ [a]).
Proof.
  intros Hs. unfold slice_last. destruct (Z.ltb_spec 0 s) as [_|]; [|lia].
  rewrite !length_app, length_skipn. cbn [length].
  destruct (Z.le_gt_cases (Z.of_nat (length l)) s) as [Hle|Hgt].
  - rewrite (Z.max_r (Z.of_nat (length l) - s) 0) by lia.
    change (Z.to_nat 0) with 0. cbn [skipn].
    rewrite Nat.sub_0_r. reflexivity.
  - rewrite (Z.max_l (Z.of_nat (length l) - s) 0) by lia.
    set (k := Z.to_nat (Z.of_nat (length l) - s)).
    assert (Hk : k + Z.to_nat s = length l) by lia.
    replace (Z.to_nat (Z.max (Z.of_nat (length l - k + 1) - s) 0)) with 1 by lia.
    replace (Z.to_nat (Z.max (Z.of_nat (length l + 1) - s) 0)) with (1 + k) by lia.
    rewrite !skipn_app, skipn_skipn, length_skipn.
    replace (1 - (length l - k)) with 0 by lia.
    replace (1 + k - length l) with 0 by lia. reflexivity.
Qed.

Lemma recent_snoc (segm : option Z) (l : list vec) (a : vec) :
  match segm with Some s => (1 <= s)%Z | None => True end ->
  recent segm (recent segm l ++ [a]) = recent segm (l ++ [a]).
Proof. destruct segm; intros H; [now apply slice_last_snoc|reflexivity]. Qed.

Lemma nth_error_truncate (ly : layer vec att) (c : cache vec) (b : nat) :
  nth_error (truncate ly c) b = option_map (recent (segm_len ly)) (nth_error c b).
Proof.
  unfold truncate, recent. destruct (segm_len ly).
  - apply nth_error_map.
  - now destruct (nth_error c b).
Qed.

Lemma length_truncate (ly : layer vec att) (c : cache vec) :
  length (truncate ly c) = length c.
Proof. unfold truncate. destruct (segm_len ly); [apply length_map|reflexivity]. Qed.

(** The queries of a call of [forward]. *)
Definition op_query (o : op vec att) : list vec :=
  match o with
  | OpForward h_t _ _ _ => h_t
  | _ => []
  end.

(** Both caches of [ly] have [n] rows, and row [b] holds the window on the
    projections of the queries [hist] of that row, oldest first; the
    projections and the window are those of [ly0]. *)
Definition holds_history (ly0 ly : layer vec att) (n : nat) (hist : list (list vec))
  : Prop :=
  segm_len ly = segm_len ly0 /\ Wk_selfatt ly = Wk_selfatt ly0 /\
  Wv_selfatt ly = Wv_selfatt ly0 /\
  exists K V,
    K_sa ly = Some K /\ V_sa ly = Some V /\ length K = n /\ length V = n /\
    forall b d, b < n ->
      nth_error K b
      = Some (recent (segm_len ly0) (map (fun h => Wk_selfatt ly0 (nth b h d)) hist)) /\
      nth_error V b
      = Some (recent (segm_len ly0) (map (fun h => Wv_selfatt ly0 (nth b h d)) hist)).

Lemma forward_first_history (ly ly' : layer vec att) h_t K_att V_att mask h' :
  K_sa ly = None ->
  forward ly h_t K_att V_att mask = Ok (h', ly') ->
  holds_history ly ly' (length h_t) [h_t].
Proof.
  intros HK H. unfold forward in H. rewrite HK in H. cbn [append_cache bind] in H.
  destruct (read_rows _ _ _ _ _ _ _) as [h|e]; [|discriminate].
  cbn [bind] in H. injection H as _ <-.
  repeat split.
  eexists _, _. split; [reflexivity|]. split; [reflexivity|].
  rewrite !length_truncate, !length_map. split; [reflexivity|]. split; [reflexivity|].
  intros b d Hb. rewrite !nth_error_truncate, !nth_error_map.
  rewrite (nth_error_nth' h_t d Hb). split; reflexivity.
Qed.

Lemma forward_step_history (ly0 ly ly' : layer vec att) n hist
  h_t K_att V_att mask h' :
  window_ok ly0 -> holds_history ly0 ly n hist ->
  forward ly h_t K_att V_att mask = Ok (h', ly') ->
  holds_history ly0 ly' n (hist ++ [h_t]).
Proof.
  intros Hw (Es & Ek & Ev & K & V & HK & HV & HKl & HVl & Hrows) H.
  unfold forward in H. rewrite HK, HV in H. cbn [append_cache] in H.
  unfold cat1 in H. rewrite !length_map, HKl, HVl in H.
  destruct (Nat.eqb_spec n (length h_t)) as [En|]; [|discriminate].
  cbn [bind] in H.
  destruct (read_rows _ _ _ _ _ _ _) as [h|e]; [|discriminate].
  cbn [bind] in H. injection H as _ <-.
  split; [exact Es|]. split; [exact Ek|]. split; [exact Ev|].
  eexists _, _. split; [reflexivity|]. split; [reflexivity|].
  rewrite !length_truncate, !length_map2, !length_map, HKl, HVl.
  split; [lia|]. split; [lia|].
  intros b d Hb. destruct (Hrows b d Hb) as [EK EV].
  rewrite !nth_error_truncate, !nth_error_map2, !nth_error_map, EK, EV.
  rewrite (nth_error_nth' h_t d) by lia. cbn [option_map].
  rewrite Es, !map_app. cbn [map].
  rewrite Ek, Ev, !recent_snoc by exact Hw. split; reflexivity.
Qed.

Lemma run_forwards_history (ly0 : layer vec att) (ops : list (op vec att)) :
  window_ok ly0 ->
  Forall (fun o => is_forward _ _ o = true) ops ->
  forall ly ly' n hist k,
    holds_history ly0 ly n hist ->
    run_ops ly k ops = Ok ly' ->
    holds_history ly0 ly' n (hist ++ map op_query ops).
Proof.
  intros Hw Hf. induction Hf as [|o ops Ho _ IH]; intros ly ly' n hist k Hh H.
  - cbn in H. injection H as <-. cbn [map]. now rewrite app_nil_r.
  - destruct o as [h_t K_att V_att mask| |]; try discriminate.
    cbn [run_ops] in H.
    destruct (forward ly h_t K_att V_att mask) as [[h' ly1]|e] eqn:E; [|discriminate].
    cbn [bind] in H.
    cbn [map op_query].
    replace (hist ++ h_t :: map op_query ops)
      with ((hist ++ [h_t]) ++ map op_query ops) by now rewrite <- app_assoc.
    eapply IH; [|exact H]. eapply forward_step_history; eauto.
Qed.

Lemma run_first_forward_history (ly ly' : layer vec att)
  h0 K_att0 V_att0 mask0 (rest : list (op vec att)) :
  window_ok ly ->
  Forall (fun o => is_forward _ _ o = true) rest ->
  run_ops (reset_selfatt_keys_values ly) 0 (OpForward h0 K_att0 V_att0 mask0 :: rest)
  = Ok ly' ->
  holds_history ly ly' (length h0) (h0 :: map op_query rest).
Proof.
  intros Hw Hf H. cbn [run_ops] in H.
  destruct (forward _ h0 K_att0 V_att0 mask0) as [[h' ly1]|e] eqn:E; [|discriminate].
  cbn [bind] in H.
  apply forward_first_history in E; [|reflexivity].
  change (h0 :: map op_query rest) with ([h0] ++ map op_query rest).
  eapply (run_forwards_history ly rest Hw Hf); [|exact H].
  destruct E as (Es & Ek & Ev & HKV). repeat split; assumption.
Qed.

(** The number of cache rows, without any assumption on the window. *)
Definition cache_rows (ly : layer vec att) (n : nat) : Prop :=
  exists K, K_sa ly = Some K /\ length K = n.

Lemma forward_cache_rows (ly ly' : layer vec att) h_t K_att V_att mask h' :
  (K_sa ly = None \/ cache_rows ly (length h_t)) ->
  forward ly h_t K_att V_att mask = Ok (h', ly') ->
  cache_rows ly' (length h_t).
Proof.
  intros HK H. unfold forward in H.
  destruct (append_cache _ _ _ _) as [[K V]|e] eqn:EA; [|discriminate].
  cbn [bind] in H.
  destruct (read_rows _ _ _ _ _ _ _) as [h|e]; [|discriminate].
  cbn [bind] in H. injection H as _ <-.
  exists (truncate ly K). split; [reflexivity|]. rewrite length_truncate.
  unfold append_cache in EA. destruct HK as [HK|(K0 & HK & Hl)]; rewrite HK in EA.
  - injection EA as <- _. now rewrite !length_map.
  - unfold cat1 in EA. rewrite !length_map, Hl, Nat.eqb_refl in EA.
    cbn [bind] in EA. destruct (V_sa ly) as [V0|]; [|discriminate].
    destruct (length V0 =? length h_t); [|discriminate].
    cbn [bind] in EA. injection EA as <- _.
    rewrite length_map2, length_map. lia.
Qed.

Lemma forward_rows_mismatch (ly : layer vec att) n h_t K_att V_att mask :
  cache_rows ly n -> length h_t <> n ->
  forward ly h_t K_att V_att mask = Raise RuntimeError.
Proof.
  intros (K & HK & Hl) Hne. unfold forward. rewrite HK. cbn [append_cache].
  unfold cat1. rewrite length_map, Hl.
  destruct (Nat.eqb_spec n (length h_t)); [congruence|reflexivity].
Qed.

Lemma forward_rows_agree (ly ly' : layer vec att) n h_t K_att V_att mask h' :
  cache_rows ly n ->
  forward ly h_t K_att V_att mask = Ok (h', ly') -> length h_t = n.
Proof.
  intros Hc H. destruct (Nat.eq_dec (length h_t) n) as [|Hne]; [assumption|].
  rewrite (forward_rows_mismatch ly n) in H by assumption. discriminate.
Qed.

Lemma run_forwards_rows (ops : list (op vec att)) :
  Forall (fun o => is_forward _ _ o = true) ops ->
  forall ly ly' n k,
    cache_rows ly n -> run_ops ly k ops = Ok ly' -> cache_rows ly' n.
Proof.
  induction 1 as [|o ops Ho _ IH]; intros ly ly' n k Hc H.
  - cbn in H. now injection H as <-.
  - destruct o as [h_t K_att V_att mask| |]; try discriminate.
    cbn [run_ops] in H.
    destruct (forward ly h_t K_att V_att mask) as [[h' ly1]|e] eqn:E; [|discriminate].
    cbn [bind] in H. eapply IH; [|exact H].
    pose proof (forward_rows_agree _ _ _ _ _ _ _ _ Hc E) as <-.
    eapply forward_cache_rows; [|exact E]. now right.
Qed.

End CacheContent.

Import DecoderLayer.

(** X6 ([repeat_selfatt_keys_values]): widening to [B] beams copies the
    cache of batch row [b] to the [B] beam rows [b*B .. b*B+B-1], for the
    keys and for the values. *)
Theorem repeat_copies_row_to_its_beams {vec att : Type}
  (ly : layer vec att) (B : nat) (K V : cache vec) :
  K_sa ly = Some K -> V_sa ly = Some V ->
  exists K' V',
    repeat_selfatt_keys_values B ly = Ok (set_cache ly (Some K') (Some V')) /\
    length K' = length K * B /\ length V' = length V * B /\
    forall b i, i < B ->
      nth_error K' (b * B + i) = nth_error K b /\
      nth_error V' (b * B + i) = nth_error V b.
Proof.
  intros HK HV. unfold repeat_selfatt_keys_values. rewrite HK, HV.
  eexists _, _. split; [reflexivity|].
  rewrite !length_repeat_interleave. split; [reflexivity|]. split; [reflexivity|].
  intros b i Hi. split; now apply nth_error_repeat_interleave.
Qed.

Lemma repeat_copies_row_to_its_beams_witness :
  exists K' V',
    repeat_selfatt_keys_values 2
      (set_cache (toy_layer None) (Some [[1]; [2]]) (Some [[101]; [102]]))
    = Ok (set_cache (set_cache (toy_layer None) (Some [[1]; [2]]) (Some [[101]; [102]]))
                    (Some K') (Some V')) /\
    length K' = 2 * 2 /\ length V' = 2 * 2 /\
    forall b i, i < 2 ->
      nth_error K' (b * 2 + i) = nth_error [[1]; [2]] b /\
      nth_error V' (b * 2 + i) = nth_error [[101]; [102]] b.
Proof.
  apply (repeat_copies_row_to_its_beams
           (set_cache (toy_layer None) (Some [[1]; [2]]) (Some [[101]; [102]])) 2
           [[1]; [2]] [[101]; [102]]);
    reflexivity.
Defined.

(** X7 ([reorder_selfatt_keys_values]): a reorder in which every beam keeps
    its own slot ([idx_top_beams[b] = [0, .., B-1]]) returns the layer
    unchanged. *)
Theorem reorder_identity_keeps_layer {vec att : Type}
  (ly : layer vec att) (t : nat) (idx_top_beams : tensor2 nat) (K V : cache vec) :
  wf2 idx_top_beams -> 1 <= shape0 idx_top_beams ->
  Forall (fun r => r = seq 0 (shape1 idx_top_beams)) (rows idx_top_beams) ->
  K_sa ly = Some K -> V_sa ly = Some V ->
  length K = shape0 idx_top_beams * shape1 idx_top_beams ->
  length V = shape0 idx_top_beams * shape1 idx_top_beams ->
  (0 <= key_len ly t)%Z ->
  Forall (fun r => length r = Z.to_nat (key_len ly t)) K ->
  Forall (fun r => length r = Z.to_nat (key_len ly t)) V ->
  reorder_selfatt_keys_values t idx_top_beams ly = Ok ly.
Proof.
  intros Hwf Hb Hid HK HV HKl HVl Hkl HKr HVr.
  unfold reorder_selfatt_keys_values. rewrite HK, HV.
  destruct (Nat.eqb_spec (shape0 idx_top_beams) 0) as [|_]; [lia|].
  rewrite HKl, Nat.mul_comm, Nat.div_mul by lia.
  rewrite !reorder_cache_identity by assumption. cbn [bind].
  destruct ly as [s wk wv ro K0 V0]. cbn in HK, HV. subst K0 V0. reflexivity.
Qed.

Lemma reorder_identity_keeps_layer_witness :
  let ly := set_cache (toy_layer None)
              (Some [[1; 2]; [3; 4]; [5; 6]; [7; 8]])
              (Some [[11; 12]; [13; 14]; [15; 16]; [17; 18]]) in
  reorder_selfatt_keys_values 1 (Tensor2 2 2 [[0; 1]; [0; 1]]) ly = Ok ly.
Proof.
  cbv zeta.
  apply (reorder_identity_keeps_layer _ 1 (Tensor2 2 2 [[0; 1]; [0; 1]])
           [[1; 2]; [3; 4]; [5; 6]; [7; 8]]
           [[11; 12]; [13; 14]; [15; 16]; [17; 18]]);
    try reflexivity; try (cbn; lia); repeat constructor.
Defined.

(** X8 ([AutoRegressiveDecoderLayer.forward]): after a reset and a sequence
    of [forward] calls, row [b] of the key cache holds the key projections
    of the queries that row received, oldest first, cut to the most recent
    [segm_len] of them when a window of at least one entry is configured;
    the value cache likewise. *)
Theorem cache_keeps_recent_queries {vec att : Type}
  (ly ly' : layer vec att) (h0 : list vec) (K_att0 V_att0 : list att)
  (mask0 : list (list bool)) (rest : list (op vec att)) :
  window_ok ly ->
  Forall (fun o => is_forward _ _ o = true) rest ->
  run_ops (reset_selfatt_keys_values ly) 0 (OpForward h0 K_att0 V_att0 mask0 :: rest)
  = Ok ly' ->
  exists K V,
    K_sa ly' = Some K /\ V_sa ly' = Some V /\
    length K = length h0 /\ length V = length h0 /\
    forall b d, b < length h0 ->
      nth_error K b
      = Some (recent (segm_len ly)
                (map (fun h => Wk_selfatt ly (nth b h d)) (h0 :: map op_query rest))) /\
      nth_error V b
      = Some (recent (segm_len ly)
                (map (fun h => Wv_selfatt ly (nth b h d)) (h0 :: map op_query rest))).
Proof.
  intros Hw Hf H.
  destruct (run_first_forward_history ly ly' h0 K_att0 V_att0 mask0 rest Hw Hf H)
    as (_ & _ & _ & K & V & HKV).
  exists K, V. exact HKV.
Qed.

Lemma cache_keeps_recent_queries_witness :
  exists K V,
    K_sa (set_cache (toy_layer (Some 2%Z)) (Some [[3; 5]; [4; 6]])
                    (Some [[103; 105]; [104; 106]])) = Some K /\
    V_sa (set_cache (toy_layer (Some 2%Z)) (Some [[3; 5]; [4; 6]])
                    (Some [[103; 105]; [104; 106]])) = Some V /\
    length K = 2 /\ length V = 2 /\
    forall b d, b < 2 ->
      nth_error K b
      = Some (recent (Some 2%Z)
                (map (fun h => nth b h d) [[1; 2]; [3; 4]; [5; 6]])) /\
      nth_error V b
      = Some (recent (Some 2%Z)
                (map (fun h => nth b h d + 100) [[1; 2]; [3; 4]; [5; 6]])).
Proof.
  apply (cache_keeps_recent_queries (toy_layer (Some 2%Z)) _
           [1; 2] [tt; tt] [tt; tt] [[false]; [false]]
           [OpForward [3; 4] [tt; tt] [tt; tt] [[false]; [false]];
            OpForward [5; 6] [tt; tt] [tt; tt] [[false]; [false]]]).
  - cbn. lia.
  - repeat constructor.
  - vm_compute. reflexivity.
Defined.

(** X9 ([AutoRegressiveDecoderLayer.forward]): without a reset the cache
    keeps the batch size of the first call: after a decode of [forward]
    calls that started on [length h0] rows, a call on a different number of
    rows raises RuntimeError (the concatenation with the cache fails). *)
Theorem forward_after_batch_size_change {vec att : Type}
  (ly ly' : layer vec att) (h0 : list vec) (K_att0 V_att0 : list att)
  (mask0 : list (list bool)) (rest : list (op vec att))
  (h_t : list vec) (K_att V_att : list att) (mask : list (list bool)) :
  Forall (fun o => is_forward _ _ o = true) rest ->
  run_ops (reset_selfatt_keys_values ly) 0 (OpForward h0 K_att0 V_att0 mask0 :: rest)
  = Ok ly' ->
  length h_t <> length h0 ->
  forward ly' h_t K_att V_att mask = Raise RuntimeError.
Proof.
  intros Hf H Hne. cbn [run_ops] in H.
  destruct (forward _ h0 K_att0 V_att0 mask0) as [[h' ly1]|e] eqn:E; [|discriminate].
  cbn [bind] in H.
  apply forward_cache_rows in E; [|now left].
  apply (forward_rows_mismatch ly' (length h0)); [|assumption].
  eapply run_forwards_rows; eauto.
Qed.

Lemma forward_after_batch_size_change_witness :
  forward (set_cache (toy_layer None) (Some [[1; 3]; [2; 4]])
                     (Some [[101; 103]; [102; 104]]))
          [5; 6; 7] [tt; tt; tt] [tt; tt; tt] [[false]; [false]; [false]]
  = Raise RuntimeError.
Proof.
  apply (forward_after_batch_size_change (toy_layer None) _
           [1; 2] [tt; tt] [tt; tt] [[false]; [false]]
           [OpForward [3; 4] [tt; tt] [tt; tt] [[false]; [false]]]).
  - repeat constructor.
  - vm_compute. reflexivity.
  - cbn. lia.
Defined.

Import Torch.

(* ================================================================== *)
(** * Further properties of myMHA: the attention weights *)

Section AttentionWeights.
Import DecoderLayer TourLength MHA.

Variable expf : R -> R.
Variable tanhf : R -> R.
Hypothesis expf_nonneg : forall x, (0 <= expf x)%R.
Hypothesis expf_0 : expf 0 = 1%R.

Lemma fold_Rmax_In (d : R) (l : list R) : In (fold_right Rmax d l) (d :: l).
Proof.
  induction l as [|a l IH]; [now left|]. cbn [fold_right].
  pattern (Rmax a (fold_right Rmax d l)). apply Rmax_case.
  - right. now left.
  - destruct IH as [IH|IH]; [now left | right; now right].
Qed.

Lemma row_max_In (l : list R) : l <> [] -> In (row_max l) l.
Proof.
  destruct l as [|a l]; [congruence|]. intros _. unfold row_max. cbn [hd].
  destruct (fold_Rmax_In a (a :: l)) as [H|H]; [|exact H].
  rewrite <- H. now left.
Qed.

Lemma Rsum_nonneg (l : list R) : Forall (fun y => (0 <= y)%R) l -> (0 <= Rsum l)%R.
Proof.
  induction 1 as [|a l Ha _ IH]; [cbn; lra|].
  change (Rsum (a :: l)) with (a + Rsum l)%R. lra.
Qed.

Lemma Rsum_ge_In (l : list R) (x : R) :
  Forall (fun y => (0 <= y)%R) l -> In x l -> (x <= Rsum l)%R.
Proof.
  induction 1 as [|a l Ha Hl IH]; intros Hin; [destruct Hin|].
  pose proof (Rsum_nonneg l Hl) as Hs. change (Rsum (a :: l)) with (a + Rsum l)%R.
  destruct Hin as [->|Hin]; [lra|]. specialize (IH Hin). lra.
Qed.

Lemma Rsum_map_div (c : R) (l : list R) :
  Rsum (map (fun y => (y / c)%R) l) = (Rsum l / c)%R.
Proof.
  induction l as [|a l IH]; [cbn; unfold Rdiv; ring|].
  cbn [map]. change (Rsum (?u :: ?v)) with (u + Rsum v)%R.
  rewrite IH. unfold Rdiv. ring.
Qed.

(** The softmax of a non-empty row is a probability distribution. *)
Lemma softmax_distribution (l : list R) :
  l <> [] ->
  Forall (fun y => (0 <= y)%R) (softmax expf l) /\
  Rsum (softmax expf l) = 1%R /\
  length (softmax expf l) = length l.
Proof.
  intros Hne. unfold softmax.
  set (m := row_max l). set (e := map (fun x => expf (x - m)) l).
  assert (He : Forall (fun y => (0 <= y)%R) e).
  { apply Forall_map, Forall_forall. intros x _. apply expf_nonneg. }
  assert (H1 : In 1%R e).
  { rewrite <- expf_0. replace 0%R with (m - m)%R by ring.
    apply (in_map (fun x => expf (x - m))). now apply row_max_In. }
  pose proof (Rsum_ge_In e 1 He H1) as HS.
  split; [|split].
  - apply Forall_map. revert He. apply Forall_impl. intros y Hy.
    apply Rmult_le_pos; [exact Hy|]. left. apply Rinv_0_lt_compat. lra.
  - rewrite Rsum_map_div. field. lra.
  - unfold e. now rewrite !length_map.
Qed.

Lemma logits_row_length (clip_value : option R) (mrow : option (list bool))
  (q : list R) (Ks : list (list R)) (l : list R) :
  logits_row tanhf clip_value mrow q Ks = Ok l -> length l = length Ks.
Proof.
  unfold logits_row, masked_fill. destruct (forallb _ Ks); [|discriminate].
  destruct clip_value, mrow as [m|]; rewrite ?length_map;
    try destruct (Nat.eqb_spec (length Ks) (length m)); intros H;
    try discriminate; injection H as <-;
    rewrite ?length_map2, ?length_map; lia.
Qed.

(** What is shown of one row of weights against [n] keys. *)
Definition distribution (n : nat) (w : list R) : Prop :=
  Forall (fun y => (0 <= y)%R) w /\ Rsum w = 1%R /\ length w = n.

Lemma attend_row_distribution (clip_value : option R) (mrow : option (list bool))
  (dh : nat) (q : list R) (Ks Vs : list (list R)) (o w : list R) :
  attend_row expf tanhf clip_value mrow dh q Ks Vs = Ok (o, w) ->
  Ks <> [] -> distribution (length Ks) w.
Proof.
  unfold attend_row. intros H Hne.
  apply bind_Ok in H as (l & Hl & H).
  destruct (_ =? _); [|discriminate]. injection H as _ <-.
  apply logits_row_length in Hl.
  destruct (softmax_distribution l) as (Hp & Hs & Hlen).
  { intros ->. destruct Ks; [congruence|discriminate]. }
  repeat split; auto. lia.
Qed.

Lemma Rsum_map2_plus (a b : list R) :
  length a = length b -> Rsum (map2 Rplus a b) = (Rsum a + Rsum b)%R.
Proof.
  revert b; induction a as [|x a IH]; intros [|y b] H; try discriminate.
  - simpl. ring.
  - injection H as H. cbn [map2]. change (Rsum (?u :: ?v)) with (u + Rsum v)%R.
    rewrite IH by assumption. ring.
Qed.

Lemma Rsum_zeros (n : nat) : Rsum (repeat 0%R n) = 0%R.
Proof.
  induction n as [|n IH]; [reflexivity|].
  cbn [repeat]. change (Rsum (?u :: ?v)) with (u + Rsum v)%R. rewrite IH. ring.
Qed.

Lemma map2_plus_nonneg (a b : list R) :
  Forall (fun y => (0 <= y)%R) a -> Forall (fun y => (0 <= y)%R) b ->
  Forall (fun y => (0 <= y)%R) (map2 Rplus a b).
Proof.
  intros Ha; revert b; induction Ha as [|x a Hx _ IH]; intros b Hb; [constructor|].
  destruct Hb as [|y b Hy Hb]; [constructor|]. cbn [map2].
  constructor; [lra|]. now apply IH.
Qed.

Lemma sum_rows_distributions (n : nat) (ws : list (list R)) :
  Forall (distribution n) ws ->
  Forall (fun y => (0 <= y)%R) (sum_rows n ws) /\
  Rsum (sum_rows n ws) = INR (length ws) /\
  length (sum_rows n ws) = n.
Proof.
  unfold sum_rows. induction 1 as [|w ws (Hp & Hs & Hl) _ (IHp & IHs & IHl)].
  - cbn [fold_right length INR]. rewrite Rsum_zeros, repeat_length.
    repeat split. clear. induction n; simpl; constructor; [lra|assumption].
  - cbn [fold_right length]. rewrite S_INR.
    split; [now apply map2_plus_nonneg|]. split.
    + rewrite Rsum_map2_plus by lia. rewrite Hs, IHs. ring.
    + rewrite length_map2. lia.
Qed.

Lemma myMHA_row_distribution (nb_heads emd_dim : nat) (clip_value : option R)
  (mrow : option (list bool)) (q : list R) (Ks Vs : list (list R)) (o w : list R) :
  myMHA_row expf tanhf nb_heads emd_dim clip_value mrow q Ks Vs = Ok (o, w) ->
  Ks <> [] -> distribution (length Ks) w.
Proof.
  unfold myMHA_row. intros H Hne.
  destruct (Nat.ltb_spec 1 nb_heads) as [HH|_].
  2:{ eapply attend_row_distribution; eauto. }
  apply bind_Ok in H as (qh & Hqh & H).
  apply bind_Ok in H as (Kb & HKb & H).
  apply bind_Ok in H as (Vb & _ & H).
  apply bind_Ok in H as (per_head & Hph & H). injection H as _ <-.
  assert (HKl : length Kb = length Ks).
  { apply mapM_Ok_inv in HKb. symmetry. eapply Forall2_length; eauto. }
  assert (Hqhl : length qh = nb_heads).
  { unfold split_heads in Hqh. destruct (_ && _); [|discriminate].
    injection Hqh as <-. apply length_chunk. }
  apply mapM_Ok_inv in Hph.
  assert (Hpl : length per_head = nb_heads).
  { rewrite <- (Forall2_length Hph), !length_combine. unfold heads_of.
    rewrite !length_map, !length_seq. lia. }
  assert (Hall : Forall (distribution (length Ks)) (map snd per_head)).
  { assert (Hin : forall p, In p (combine (combine qh (heads_of nb_heads Kb))
                                          (heads_of nb_heads Vb)) ->
                            length (snd (fst p)) = length Ks).
    { intros [[qq kk] vv] Hp. cbn [fst snd].
      apply in_combine_l, in_combine_r in Hp. unfold heads_of in Hp.
      apply in_map_iff in Hp as (h & <- & _). now rewrite length_map. }
    clear Hpl. induction Hph as [|p r ps rs Hp _ IH]; cbn [map]; constructor.
    - destruct r as [o' w']. cbn [snd].
      rewrite <- (Hin p (or_introl eq_refl)).
      eapply attend_row_distribution; [exact Hp|].
      intros E. specialize (Hin p (or_introl eq_refl)). rewrite E in Hin.
      destruct Ks; [congruence|discriminate].
    - apply IH. intros p' Hp'. apply Hin. now right. }
  destruct (sum_rows_distributions _ _ Hall) as (Hp & Hs & Hl).
  rewrite length_map, Hpl in Hs.
  assert (HH0 : (0 < INR nb_heads)%R) by (apply lt_0_INR; lia).
  split; [|split].
  - apply Forall_map. revert Hp. apply Forall_impl. intros y Hy.
    apply Rmult_le_pos; [exact Hy|]. left. now apply Rinv_0_lt_compat.
  - rewrite Rsum_map_div, Hs. field. lra.
  - now rewrite length_map.
Qed.

Lemma mha_rows_distribution (nb_heads emd_dim : nat) (clip_value : option R)
  (Q : list (list R)) (K V : list (list (list R))) (mask : option (list (list bool)))
  (rs : list (list R * list R)) :
  mha_rows expf tanhf nb_heads emd_dim clip_value Q K V mask = Ok rs ->
  length rs = length Q /\
  forall b Ks wrow,
    nth_error K b = Some Ks -> nth_error (map snd rs) b = Some wrow ->
    Ks <> [] -> distribution (length Ks) wrow.
Proof.
  revert K V mask rs. induction Q as [|q Q IH]; intros K V mask rs H.
  - destruct K, V; try discriminate. destruct mask as [[|]|]; try discriminate;
      injection H as <-; (split; [reflexivity|]); intros [|b] ? ? ?; discriminate.
  - destruct K as [|Ks K], V as [|Vs V]; try discriminate.
    cbn [mha_rows] in H.
    assert (exists m' o w rest,
               myMHA_row expf tanhf nb_heads emd_dim clip_value m' q Ks Vs = Ok (o, w) /\
               (exists mask', mha_rows expf tanhf nb_heads emd_dim clip_value Q K V mask'
                              = Ok rest) /\
               rs = (o, w) :: rest) as (m' & o & w & rest & Hr & (mask' & Hrest) & ->).
    { destruct mask as [[|m mask]|]; try discriminate;
        apply bind_Ok in H as ([o w] & Hr & H);
        apply bind_Ok in H as (rest & Hrest & H); injection H as <-;
        eexists _, o, w, rest; eauto. }
    destruct (IH _ _ _ _ Hrest) as (Hlen & Hrows).
    split; [cbn [length]; lia|].
    intros [|b] Ks' wrow; cbn [nth_error map snd].
    + intros HK Hw. injection HK as <-. injection Hw as <-.
      eapply myMHA_row_distribution; eauto.
    + apply Hrows.
Qed.

(** ** A row whose positions are all masked *)

Lemma map2_fill_all (s : list R) (m : list bool) (v : R) :
  length s = length m -> Forall (fun b => b = true) m ->
  map2 (fun x (b : bool) => if b then v else x) s m = repeat v (length m).
Proof.
  revert m; induction s as [|x s IH]; intros [|b m] Hl Hm; try discriminate;
    [reflexivity|].
  apply Forall_cons_iff in Hm as [-> Hm]. injection Hl as Hl. cbn [map2 length repeat].
  f_equal. now apply IH.
Qed.

Lemma map_repeat {A B : Type} (f : A -> B) (a : A) (n : nat) :
  map f (repeat a n) = repeat (f a) n.
Proof. induction n; simpl; congruence. Qed.

Lemma Rsum_repeat (x : R) (n : nat) : Rsum (repeat x n) = (INR n * x)%R.
Proof.
  induction n as [|n IH]; [simpl; ring|].
  cbn [repeat]. change (Rsum (?u :: ?v)) with (u + Rsum v)%R.
  rewrite IH, S_INR. ring.
Qed.

Lemma row_max_repeat (x : R) (n : nat) : row_max (repeat x n) = match n with 0 => 0%R | _ => x end.
Proof.
  destruct n as [|n]; [reflexivity|]. unfold row_max.
  change (hd 0%R (repeat x (S n))) with x.
  generalize (S n). intros k. induction k as [|k IH]; [reflexivity|].
  cbn [repeat fold_right]. rewrite IH. apply Rmax_left. lra.
Qed.

Lemma softmax_constant (x : R) (n : nat) :
  1 <= n -> softmax expf (repeat x n) = repeat (1 / INR n)%R n.
Proof.
  intros Hn. unfold softmax. rewrite row_max_repeat.
  destruct n as [|n]; [lia|].
  rewrite !map_repeat. cbv beta.
  replace (x - x)%R with 0%R by ring.
  rewrite expf_0, Rsum_repeat.
  f_equal. rewrite Rmult_1_r. reflexivity.
Qed.

Lemma attend_row_all_masked (clip_value : option R) (m : list bool) (dh : nat)
  (q : list R) (Ks Vs : list (list R)) (o w : list R) :
  attend_row expf tanhf clip_value (Some m) dh q Ks Vs = Ok (o, w) ->
  Forall (fun b => b = true) m -> m <> [] ->
  w = repeat (1 / INR (length m))%R (length m) /\ length Ks = length m.
Proof.
  unfold attend_row. intros H Hm Hne.
  apply bind_Ok in H as (l & Hl & H).
  destruct (_ =? _); [|discriminate]. injection H as _ <-.
  pose proof (logits_row_length _ _ _ _ _ Hl) as Hlen.
  unfold logits_row, masked_fill in Hl. destruct (forallb _ Ks); [|discriminate].
  assert (l = repeat neg_1e9 (length m) /\ length Ks = length m) as [-> HK].
  { destruct clip_value; rewrite ?length_map in Hl;
      destruct (Nat.eqb_spec (length Ks) (length m)) as [E|]; try discriminate;
      injection Hl as <-; (split; [|exact E]);
      apply map2_fill_all; rewrite ?length_map; auto. }
  split; [|exact HK]. apply softmax_constant.
  destruct m; [congruence|simpl; lia].
Qed.

Lemma sum_rows_constant (n : nat) (u : R) (ws : list (list R)) :
  Forall (fun w => w = repeat u n) ws ->
  sum_rows n ws = repeat (INR (length ws) * u)%R n.
Proof.
  unfold sum_rows. induction 1 as [|w ws -> _ IH].
  - cbn [fold_right length INR]. f_equal. ring.
  - cbn [fold_right length]. rewrite IH, S_INR.
    clear. induction n as [|n IHn]; [reflexivity|].
    cbn [repeat map2]. rewrite IHn. f_equal. ring.
Qed.

Lemma myMHA_row_all_masked (nb_heads emd_dim : nat) (clip_value : option R)
  (m : list bool) (q : list R) (Ks Vs : list (list R)) (o w : list R) :
  myMHA_row expf tanhf nb_heads emd_dim clip_value (Some m) q Ks Vs = Ok (o, w) ->
  Forall (fun b => b = true) m -> m <> [] ->
  w = repeat (1 / INR (length m))%R (length m).
Proof.
  unfold myMHA_row. intros H Hm Hne.
  destruct (Nat.ltb_spec 1 nb_heads) as [HH|_].
  2:{ eapply attend_row_all_masked; eauto. }
  apply bind_Ok in H as (qh & Hqh & H).
  apply bind_Ok in H as (Kb & HKb & H).
  apply bind_Ok in H as (Vb & _ & H).
  apply bind_Ok in H as (per_head & Hph & H). injection H as _ <-.
  assert (HKl : length Kb = length Ks).
  { apply mapM_Ok_inv in HKb. symmetry. eapply Forall2_length; eauto. }
  assert (Hqhl : length qh = nb_heads).
  { unfold split_heads in Hqh. destruct (_ && _); [|discriminate].
    injection Hqh as <-. apply length_chunk. }
  apply mapM_Ok_inv in Hph.
  assert (Hpl : length per_head = nb_heads).
  { rewrite <- (Forall2_length Hph), !length_combine. unfold heads_of.
    rewrite !length_map, !length_seq. lia. }
  assert (Hin : forall p, In p (combine (combine qh (heads_of nb_heads Kb))
                                        (heads_of nb_heads Vb)) ->
                          length (snd (fst p)) = length Ks).
  { intros [[qq kk] vv] Hp. cbn [fst snd].
    apply in_combine_l, in_combine_r in Hp. unfold heads_of in Hp.
    apply in_map_iff in Hp as (h & <- & _). now rewrite length_map. }
  assert (Hall : Forall (fun r : list R * list R =>
                           snd r = repeat (1 / INR (length m))%R (length m) /\
                           length Ks = length m) per_head).
  { clear Hpl. induction Hph as [|p r ps rs Hp _ IH]; constructor.
    - destruct r as [o' w']. cbn [snd].
      rewrite <- (Hin p (or_introl eq_refl)).
      eapply attend_row_all_masked; eauto.
    - apply IH. intros p' Hp'. apply Hin. now right. }
  assert (HK : length Ks = length m).
  { destruct per_head as [|r rs]; [simpl in Hpl; lia|].
    apply Forall_cons_iff in Hall as [[_ E] _]. exact E. }
  rewrite HK, (sum_rows_constant (length m) (1 / INR (length m))%R).
  2:{ apply Forall_map. revert Hall. apply Forall_impl. now intros r [E _]. }
  rewrite length_map, Hpl, map_repeat. f_equal.
  assert (HH0 : (0 < INR nb_heads)%R) by (apply lt_0_INR; lia).
  assert (Hm0 : (0 < INR (length m))%R).
  { apply lt_0_INR. destruct m; [congruence|simpl; lia]. }
  field. split; lra.
Qed.

Lemma mha_rows_all_masked (nb_heads emd_dim : nat) (clip_value : option R)
  (Q : list (list R)) (K V : list (list (list R))) (mask : list (list bool))
  (rs : list (list R * list R)) :
  mha_rows expf tanhf nb_heads emd_dim clip_value Q K V (Some mask) = Ok rs ->
  forall b mrow,
    nth_error mask b = Some mrow ->
    Forall (fun x => x = true) mrow -> mrow <> [] ->
    nth_error (map snd rs) b = Some (repeat (1 / INR (length mrow))%R (length mrow)).
Proof.
  revert K V mask rs. induction Q as [|q Q IH]; intros K V mask rs H b mrow.
  - destruct K, V; try discriminate. destruct mask; [|discriminate].
    destruct b; discriminate.
  - destruct K as [|Ks K], V as [|Vs V]; try discriminate.
    destruct mask as [|m mask]; [discriminate|]. cbn [mha_rows] in H.
    apply bind_Ok in H as ([o w] & Hr & H).
    apply bind_Ok in H as (rest & Hrest & H). injection H as <-.
    destruct b as [|b]; cbn [nth_error map snd].
    + intros Hm Hall Hne. injection Hm as <-. f_equal.
      eapply myMHA_row_all_masked; eauto.
    + eapply IH; eauto.
Qed.

End AttentionWeights.

Import DecoderLayer TourLength MHA.

(** X10 ([myMHA]): in exact arithmetic, with an exponential that is never
    negative and is 1 at 0, every row of the returned attention weights is
    a probability distribution over the keys of that row: one weight per
    key, none negative, summing to 1 -- for any number of heads, with or
    without mask and clipping, as long as the row has a key. *)
Theorem attention_weights_are_distributions (expf tanhf : R -> R) :
  (forall x, (0 <= expf x)%R) -> expf 0%R = 1%R ->
  forall Q K V nb_heads emd_dim mask clip_value attn_output attn_weights,
    myMHA expf tanhf Q K V nb_heads emd_dim mask clip_value
    = Ok (attn_output, attn_weights) ->
    length attn_weights = length Q /\
    forall b Ks wrow,
      nth_error K b = Some Ks -> nth_error attn_weights b = Some wrow ->
      Ks <> [] ->
      Forall (fun y => (0 <= y)%R) wrow /\ Rsum wrow = 1%R /\
      length wrow = length Ks.
Proof.
  intros Hpos H0 Q K V nb_heads emd_dim mask clip_value o w H.
  unfold myMHA in H. apply bind_Ok in H as (rs & Hrs & H). injection H as _ <-.
  destruct (mha_rows_distribution expf tanhf Hpos H0 _ _ _ _ _ _ _ _ Hrs) as (Hl & Hrows).
  split; [now rewrite length_map|]. exact Hrows.
Qed.

Lemma exp_nonneg (x : R) : (0 <= exp x)%R.
Proof. left. apply exp_pos. Qed.

Lemma attention_weights_are_distributions_witness :
  exists attn_output w0 w1,
    myMHA exp tanh [[1; 0]%R] [[[1; 0]; [0; 1]]%R] [[[1; 0]; [0; 1]]%R]
          1 2 None None
    = Ok (attn_output, [[w0; w1]]) /\
    (0 <= w0)%R /\ (0 <= w1)%R /\ (w0 + w1 = 1)%R.
Proof.
  assert (E : exists attn_output w0 w1,
             myMHA exp tanh [[1; 0]%R] [[[1; 0]; [0; 1]]%R] [[[1; 0]; [0; 1]]%R]
                   1 2 None None
             = Ok (attn_output, [[w0; w1]])).
  { do 3 eexists.
    cbv - [Rplus Rmult Rminus Rdiv Ropp Rinv sqrt INR IZR exp tanh Rmax].
    reflexivity. }
  destruct E as (o & w0 & w1 & E). exists o, w0, w1. split; [exact E|].
  destruct (attention_weights_are_distributions exp tanh exp_nonneg exp_0
              _ _ _ _ _ _ _ _ _ E) as [_ H].
  destruct (H 0 [[1; 0]; [0; 1]]%R [w0; w1] eq_refl eq_refl) as (Hp & Hs & _);
    [discriminate|].
  apply Forall_cons_iff in Hp as [Hp0 Hp]. apply Forall_cons_iff in Hp as [Hp1 _].
  cbn [Rsum fold_right] in Hs. rewrite Rplus_0_r in Hs.
  repeat split; assumption.
Defined.

(** X11 ([myMHA]): a mask row that masks every position does not remove
    anything: all logits of the row are -1e9, and the row of attention
    weights is uniform, [1/n] on each of its [n] positions. *)
Theorem fully_masked_row_is_uniform (expf tanhf : R -> R) :
  expf 0%R = 1%R ->
  forall Q K V nb_heads emd_dim mask clip_value attn_output attn_weights,
    myMHA expf tanhf Q K V nb_heads emd_dim (Some mask) clip_value
    = Ok (attn_output, attn_weights) ->
    forall b mrow,
      nth_error mask b = Some mrow ->
      Forall (fun x => x = true) mrow -> mrow <> [] ->
      nth_error attn_weights b
      = Some (repeat (1 / INR (length mrow))%R (length mrow)).
Proof.
  intros H0 Q K V nb_heads emd_dim mask clip_value o w H.
  unfold myMHA in H. apply bind_Ok in H as (rs & Hrs & H). injection H as _ <-.
  eapply mha_rows_all_masked; eauto.
Qed.

Lemma fully_masked_row_is_uniform_witness :
  exists attn_output w,
    myMHA exp tanh [[1; 0]%R] [[[1; 0]; [0; 1]]%R] [[[1; 0]; [0; 1]]%R]
          1 2 (Some [[true; true]]) None
    = Ok (attn_output, w) /\
    nth_error w 0 = Some [1 / INR 2; 1 / INR 2]%R.
Proof.
  assert (E : exists attn_output w,
             myMHA exp tanh [[1; 0]%R] [[[1; 0]; [0; 1]]%R] [[[1; 0]; [0; 1]]%R]
                   1 2 (Some [[true; true]]) None
             = Ok (attn_output, w)).
  { do 2 eexists.
    cbv - [Rplus Rmult Rminus Rdiv Ropp Rinv sqrt INR IZR exp tanh Rmax neg_1e9].
    reflexivity. }
  destruct E as (o & w & E). exists o, w. split; [exact E|].
  apply (fully_masked_row_is_uniform exp tanh exp_0 _ _ _ _ _ _ _ _ _ E
           0 [true; true] eq_refl).
  - repeat constructor.
  - discriminate.
Defined.

Import Torch TSPNet.

(* ================================================================== *)
(** * Further properties of the decoder and of TSP_net.forward *)

(** ** The reset at the head of each decode *)

Section ResetFacts.
Context {vec att prob : Type}.

(** The function [reset_selfatt_keys_values] of the decoder applies to
    each intermediate layer. *)
Definition layer_reset (ly : DecoderLayer.layer vec att)
  : result (DecoderLayer.layer vec att) :=
  Ok (DecoderLayer.reset_selfatt_keys_values ly).

Lemma layer_forward_reset (ly ly' : DecoderLayer.layer vec att) h K_att V_att mask h' :
  DecoderLayer.forward ly h K_att V_att mask = Ok (h', ly') ->
  DecoderLayer.reset_selfatt_keys_values ly' = DecoderLayer.reset_selfatt_keys_values ly.
Proof.
  unfold DecoderLayer.forward. intros H.
  destruct (DecoderLayer.append_cache _ _ _ _) as [[K V]|e]; [|discriminate].
  cbn [bind] in H.
  destruct (DecoderLayer.read_rows _ _ _ _ _ _ _) as [h1|e]; [|discriminate].
  cbn [bind] in H. injection H as _ <-. reflexivity.
Qed.

Lemma forward_layers_reset (d : DecoderNet.decoder_net vec att prob)
  (K_att V_att : list att) (mask : list (list bool)) :
  forall n l ls h h' ls',
    DecoderNet.forward_layers d l n ls h K_att V_att mask = Ok (h', ls') ->
    DecoderNet.for_layers layer_reset n ls' = DecoderNet.for_layers layer_reset n ls.
Proof.
  induction n as [|n IH]; intros l ls h h' ls' H.
  - cbn in H. injection H as _ <-. reflexivity.
  - destruct ls as [|ly ls]; [discriminate|]. cbn [DecoderNet.forward_layers] in H.
    destruct (DecoderLayer.forward ly h _ _ mask) as [[h1 ly1]|e] eqn:E1; [|discriminate].
    cbn [bind] in H.
    destruct (DecoderNet.forward_layers d (S l) n ls h1 K_att V_att mask)
      as [[h2 ls2]|e] eqn:E2; [|discriminate].
    cbn [bind] in H. injection H as _ <-.
    cbn [DecoderNet.for_layers]. unfold layer_reset at 1 3. cbn [bind].
    rewrite (layer_forward_reset _ _ _ _ _ _ _ E1), (IH _ _ _ _ _ E2). reflexivity.
Qed.

Lemma decoder_forward_reset (d d' : DecoderNet.decoder_net vec att prob)
  (h : list vec) (K_att V_att : list att) (mask : list (list bool)) p :
  DecoderNet.forward d h K_att V_att mask = Ok (p, d') ->
  DecoderNet.reset_selfatt_keys_values d' = DecoderNet.reset_selfatt_keys_values d.
Proof.
  unfold DecoderNet.forward. intros H.
  destruct (DecoderNet.forward_layers d 0 _ _ h K_att V_att mask)
    as [[h1 ls1]|e] eqn:E; [|discriminate].
  cbn [bind] in H.
  destruct (DecoderNet.nb_layers_decoder d) as [|L] eqn:EL; [discriminate|].
  destruct (DecoderNet.final_rows _ _ _ _ _) as [w|e]; [|discriminate].
  cbn [bind] in H. injection H as _ <-.
  unfold DecoderNet.reset_selfatt_keys_values.
  cbn [DecoderNet.nb_layers_decoder DecoderNet.decoder_layers DecoderNet.set_layers].
  rewrite EL. fold layer_reset.
  rewrite (forward_layers_reset _ _ _ _ _ _ _ _ _ _ E).
  destruct (DecoderNet.for_layers layer_reset _ _); reflexivity.
Qed.

Lemma for_layers_reset_idem :
  forall n (ls ls0 : list (DecoderLayer.layer vec att)),
    DecoderNet.for_layers layer_reset n ls = Ok ls0 ->
    DecoderNet.for_layers layer_reset n ls0 = Ok ls0.
Proof.
  induction n as [|n IH]; intros ls ls0 H.
  - cbn in H. injection H as <-. reflexivity.
  - destruct ls as [|ly ls]; [discriminate|]. cbn [DecoderNet.for_layers] in H.
    unfold layer_reset at 1 in H. cbn [bind] in H.
    destruct (DecoderNet.for_layers layer_reset n ls) as [r|e] eqn:E; [|discriminate].
    cbn [bind] in H. injection H as <-.
    cbn [DecoderNet.for_layers]. unfold layer_reset at 1. cbn [bind].
    rewrite (IH _ _ E). reflexivity.
Qed.

Lemma decoder_reset_idem (d d0 : DecoderNet.decoder_net vec att prob) :
  DecoderNet.reset_selfatt_keys_values d = Ok d0 ->
  DecoderNet.reset_selfatt_keys_values d0 = DecoderNet.reset_selfatt_keys_values d.
Proof.
  intros H. rewrite H. unfold DecoderNet.reset_selfatt_keys_values in *.
  fold layer_reset in *.
  destruct (DecoderNet.for_layers layer_reset _ (DecoderNet.decoder_layers d))
    as [ls0|e] eqn:E; [|discriminate].
  cbn [bind] in H. injection H as <-.
  cbn [DecoderNet.nb_layers_decoder DecoderNet.decoder_layers DecoderNet.set_layers].
  rewrite (for_layers_reset_idem _ _ _ E). reflexivity.
Qed.

End ResetFacts.

Section ResetInForward.
Context {coord vec att prob score : Type} {float_ops : FloatOps prob score}.
Variable sample : nat -> list (list prob) -> list nat.
Variable net : tsp_net coord vec att prob.

Lemma greedy_body_reset deterministic h_encoder K V t
  (s s' : greedy_state vec att prob score) :
  greedy_body sample net deterministic h_encoder K V t s = Ok s' ->
  DecoderNet.reset_selfatt_keys_values (g_decoder s')
  = DecoderNet.reset_selfatt_keys_values (g_decoder s).
Proof.
  unfold greedy_body. intros H.
  destruct (DecoderNet.forward _ _ _ _ _) as [[p d1]|e] eqn:E; [|discriminate].
  cbn [bind] in H.
  repeat (bind_inv H). injection H as <-. cbn [g_decoder].
  eapply decoder_forward_reset; eassumption.
Qed.

Lemma loop_trace_last {St : Type} (body : nat -> St -> result St) (P : St -> Prop) :
  (forall t a a', body t a = Ok a' -> P a -> P a') ->
  forall ts s tr, loop_trace body ts s = Ok tr -> P s -> P (last tr s).
Proof.
  intros Hbody. induction ts as [|t ts IH]; intros s tr H Hs.
  - cbn in H. injection H as <-. exact Hs.
  - cbn [loop_trace] in H. bind_inv H. bind_inv H. injection H as <-.
    rewrite last_cons. eapply IH; eauto.
Qed.

Lemma greedy_search_reset deterministic h_encoder K V bsz nb_nodes tours scores dec :
  greedy_search sample net deterministic h_encoder K V bsz nb_nodes
  = Ok (tours, scores, dec) ->
  DecoderNet.reset_selfatt_keys_values dec
  = DecoderNet.reset_selfatt_keys_values (decoder net).
Proof.
  unfold greedy_search, greedy_trace. intros H.
  destruct (start_query net h_encoder bsz nb_nodes) as [[h0 m0]|e]; [|discriminate].
  cbn [bind] in H.
  destruct (DecoderNet.reset_selfatt_keys_values (decoder net)) as [d0|e] eqn:E0;
    [|discriminate].
  cbn [bind] in H.
  destruct (loop_trace _ _ _) as [tr|e] eqn:Etr; [|discriminate].
  cbn [bind] in H. bind_inv H. bind_inv H. injection H as _ _ <-.
  rewrite <- E0, <- (decoder_reset_idem _ _ E0).
  apply (loop_trace_last _
           (fun s => DecoderNet.reset_selfatt_keys_values (g_decoder s)
                     = DecoderNet.reset_selfatt_keys_values d0) ) with (3 := eq_refl)
    in Etr; [exact Etr|].
  intros t a a' Hb Ha. rewrite <- Ha. eapply greedy_body_reset; eassumption.
Qed.

Lemma beam_search_reset_eq h_encoder K V bsz nb_nodes B
  (dec dec' : DecoderNet.decoder_net vec att prob) :
  DecoderNet.reset_selfatt_keys_values dec' = DecoderNet.reset_selfatt_keys_values dec ->
  beam_search (score := score) net h_encoder K V bsz nb_nodes B dec'
  = beam_search net h_encoder K V bsz nb_nodes B dec.
Proof. intros H. rewrite !beam_search_unfold, !beam_trace_unfold. now rewrite H. Qed.

End ResetInForward.

(** X12 ([TSP_net.forward], [Transformer_decoder_net.reset_selfatt_keys_values]):
    the beam search does not depend on the greedy decode that ran before it
    in the same call: the reset at its head discards the caches the greedy
    decode left, so a call with both decodes returns the beam-search tours
    and scores of the call with the beam search alone. *)
Theorem beam_search_ignores_greedy_decode {coord vec att prob score : Type}
  {float_ops : FloatOps prob score}
  (sample : nat -> list (list prob) -> list nat)
  (net : tsp_net coord vec att prob) (x : tensor2 coord) (B : nat)
  tours_greedy tours_beamsearch scores_greedy scores_beamsearch :
  forward sample net x B true true
  = Ok (tours_greedy, tours_beamsearch, scores_greedy, scores_beamsearch) ->
  forward sample net x B false true
  = Ok (FloatTensor (zeros2 2 (shape1 x)), tours_beamsearch,
        zeros1 2, scores_beamsearch).
Proof.
  rewrite !forward_unfold. cbn zeta. intros H.
  destruct (greedy_search _ _ _ _ _ _ _ _) as [[[t s] d]|e] eqn:EG; [|discriminate].
  cbn [bind] in H |- *.
  rewrite (beam_search_reset_eq net _ _ _ _ _ _ (decoder net) d
             (greedy_search_reset _ _ _ _ _ _ _ _ _ _ _ EG)) in H.
  destruct (beam_search _ _ _ _ _ _ _ _) as [[tb sb]|e]; [|discriminate].
  cbn [bind] in H |- *. injection H as _ <- _ <-. reflexivity.
Qed.

Lemma beam_search_ignores_greedy_decode_witness :
  exists tours_greedy tours_beamsearch scores_greedy scores_beamsearch,
    forward draw_first (toy_net (Some 2%Z) 8) three_cities 2 true true
    = Ok (tours_greedy, tours_beamsearch, scores_greedy, scores_beamsearch) /\
    forward draw_first (toy_net (Some 2%Z) 8) three_cities 2 false true
    = Ok (FloatTensor (zeros2 2 3), tours_beamsearch, zeros1 2, scores_beamsearch).
Proof.
  assert (E : exists tg tb sg sb,
             forward draw_first (toy_net (Some 2%Z) 8) three_cities 2 true true
             = Ok (tg, tb, sg, sb)) by (do 4 eexists; vm_compute; reflexivity).
  destruct E as (tg & tb & sg & sb & E). exists tg, tb, sg, sb. split; [exact E|].
  exact (beam_search_ignores_greedy_decode _ _ _ _ _ _ _ _ E).
Defined.

(** ** Beam widths beyond the number of candidates *)

Section WideBeam.
Context {coord vec att prob score : Type} {float_ops : FloatOps prob score}.
Variable net : tsp_net coord vec att prob.
Variable h_encoder : list (list vec).
Variables K_tmp V_tmp : list att.
Variables bsz nb_nodes B : nat.
Hypothesis Hbsz : 1 <= bsz.
Hypothesis Hh : shape2 (fun _ : vec => True) bsz (nb_nodes + 1) h_encoder.
Hypothesis HK : length K_tmp = bsz.
Hypothesis HV : length V_tmp = bsz.
Hypothesis HPE : nb_nodes < length (PE net).

Lemma topk_rows_too_wide (k L : nat) (flat : list (list score)) :
  L < k -> 1 <= length flat -> Forall (fun r => length r = L) flat ->
  mapM (topk k) flat = Raise RuntimeError.
Proof.
  intros Hk Hl HF. destruct flat as [|r flat]; [simpl in Hl; lia|].
  apply Forall_cons_iff in HF as [Hr _]. cbn [mapM]. unfold topk.
  destruct (Nat.leb_spec k (length r)); [lia|reflexivity].
Qed.

Lemma beam_step_too_wide (t nb_prev : nat) (s : beam_state vec att prob score) :
  1 <= t -> nb_prev * (nb_nodes + 1) < B ->
  beam_shape bsz nb_nodes s nb_prev (t - 1) ->
  beam_step net h_encoder K_tmp V_tmp bsz nb_nodes B t nb_prev s = Raise RuntimeError.
Proof.
  intros Ht1 HB (Hh_t & Hmask & Htours & Hss & HlK & HlV & Hdec).
  replace (S (t - 1)) with t in Hdec by lia.
  unfold beam_step, beam_step_with.
  assert (Hlh : length (concat (b_h_t s)) = bsz * nb_prev).
  { rewrite (length_concat_uniform nb_prev); [destruct Hh_t as [-> _]; reflexivity|].
    eapply shape2_rows; eassumption. }
  assert (Hlm : length (concat (b_mask_visited_nodes s)) = bsz * nb_prev).
  { rewrite (length_concat_uniform nb_prev); [destruct Hmask as [-> _]; reflexivity|].
    eapply shape2_rows; eassumption. }
  assert (Hmw : Forall (fun m => length m = nb_nodes + 1)
                       (concat (b_mask_visited_nodes s))).
  { apply Forall_concat. destruct Hmask as [_ HF].
    eapply Forall_impl; [|exact HF]. intros r [_ H]; exact H. }
  destruct (dec_forward_ok (b_decoder s) (bsz * nb_prev) t (concat (b_h_t s))
              (b_K_att_decoder s) (b_V_att_decoder s) (concat (b_mask_visited_nodes s))
              Hdec Hlh HlK HlV Hlm) as (p & d1 & -> & Hlp & Hpm & Hd1).
  cbn [bind]. pose proof (Forall2_length_rows _ _ _ Hpm Hmw) as HpN.
  destruct (view3_ok net K_tmp V_tmp bsz nb_nodes Hbsz HK HV HPE
              bsz nb_prev (nb_nodes + 1) p Hlp HpN) as (p3 & -> & Hp3).
  cbn [bind].
  destruct (Nat.eqb_spec bsz 0) as [E|_]; [lia|]. cbn [bind].
  destruct (flatten_scores_shape net K_tmp V_tmp bsz nb_nodes Hbsz HK HV HPE
              (fun s0 x => sadd x s0) bsz nb_prev (nb_nodes + 1)
              (map (map (map log)) p3) (b_sum_scores s)) as [Hlf HFf];
    [|exact Hss|].
  { eapply shape2_map; [|exact Hp3]. intros r Hr. rewrite length_map. exact Hr. }
  rewrite (topk_rows_too_wide B (nb_prev * (nb_nodes + 1))); auto.
  rewrite Hlf. exact Hbsz.
Qed.

Lemma beam_trace_too_wide (dec : DecoderNet.decoder_net vec att prob) :
  dec_wf dec -> 2 <= nb_nodes -> nb_nodes * (nb_nodes + 1) < B ->
  beam_trace (score := score) net h_encoder K_tmp V_tmp bsz nb_nodes B dec
  = Raise RuntimeError.
Proof.
  intros Hwf HN HB. rewrite beam_trace_unfold.
  destruct (dec_reset_ok dec bsz Hwf) as (d0 & -> & Hd0). cbn [bind].
  assert (Hseq : seq 0 nb_nodes = 0 :: 1 :: seq 2 (nb_nodes - 2)).
  { replace nb_nodes with (S (S (nb_nodes - 2))) at 1 by lia. reflexivity. }
  rewrite Hseq. cbn [loop_trace]. rewrite beam_body_unfold. cbv zeta. cbn [Nat.eqb].
  destruct (beam_step0_ok net h_encoder K_tmp V_tmp bsz nb_nodes B Hbsz Hh HK HV HPE d0)
    as (s0 & -> & Hs0); [lia | assumption |].
  cbn [bind]. rewrite beam_body_unfold. cbv zeta. cbn [Nat.eqb].
  rewrite beam_step_too_wide; [reflexivity | lia | | exact Hs0].
  rewrite Nat.min_r by nia. exact HB.
Qed.

End WideBeam.

(** X13 ([TSP_net.forward], beam search): a beam width above
    [nb_nodes * (nb_nodes + 1)] cannot be served: at step 1 only
    [nb_nodes * (nb_nodes + 1)] candidates exist, [torch.topk] is asked for
    [B] of them, and the call raises RuntimeError (for at least two nodes,
    on inputs of the expected shapes). *)
Theorem beam_width_above_candidates {coord vec att prob score : Type}
  {float_ops : FloatOps prob score}
  (sample : nat -> list (list prob) -> list nat)
  (net : tsp_net coord vec att prob) (x : tensor2 coord) (B : nat) :
  1 <= shape0 x -> 2 <= shape1 x ->
  shape2 (fun _ => True) (shape0 x) (shape1 x + 1) (h_encoder_of net x) ->
  shape1 x < length (PE net) ->
  dec_wf (decoder net) ->
  shape1 x * (shape1 x + 1) < B ->
  forward sample net x B false true = Raise RuntimeError.
Proof.
  intros Hbsz HN Hh HPE Hwf HB.
  rewrite forward_runs_beam_trace. unfold forward_beam_trace. cbn zeta.
  rewrite (beam_trace_too_wide net (h_encoder_of net x) _ _ (shape0 x) (shape1 x) B);
    auto; rewrite length_map; apply Hh.
Qed.

Lemma beam_width_above_candidates_witness :
  forward draw_first (toy_net (Some 2%Z) 8) three_cities 13 false true
  = Raise RuntimeError.
Proof.
  apply (beam_width_above_candidates draw_first (toy_net (Some 2%Z) 8) three_cities 13).
  - simpl; lia.
  - simpl; lia.
  - split; [reflexivity|]. repeat constructor.
  - simpl; lia.
  - apply toy_decoder_wf. lia.
  - simpl; lia.
Defined.

(** X14 ([TSP_net.forward]): an instance without nodes is not decoded: the
    loops do not run, the greedy decode then stacks an empty list
    (RuntimeError) and the beam search reads [sum_scores] before any
    assignment (UnboundLocalError). *)
Theorem forward_without_nodes {coord vec att prob score : Type}
  {float_ops : FloatOps prob score}
  (sample : nat -> list (list prob) -> list nat)
  (net : tsp_net coord vec att prob) (x : tensor2 coord) (B : nat) :
  shape1 x = 0 -> 1 <= shape0 x ->
  shape2 (fun _ => True) (shape0 x) 1 (h_encoder_of net x) ->
  0 < length (PE net) ->
  dec_wf (decoder net) ->
  (forall beamsearch, forward sample net x B true beamsearch = Raise RuntimeError) /\
  forward sample net x B false true = Raise UnboundLocalError.
Proof.
  intros HN Hbsz Hh HPE Hwf. split.
  - intros beamsearch. rewrite forward_unfold. unfold greedy_search, greedy_trace. cbn zeta.
    rewrite HN.
    destruct (start_query_ok net (h_encoder_of net x)
                (map (WK_att_decoder net) (h_encoder_of net x))
                (map (WV_att_decoder net) (h_encoder_of net x)) (shape0 x) 0)
      as (h0 & m0 & -> & _); auto; try (rewrite length_map; apply Hh).
    cbn [bind].
    destruct (dec_reset_ok (decoder net) (shape0 x) Hwf) as (d0 & -> & _).
    reflexivity.
  - rewrite forward_runs_beam_trace. unfold forward_beam_trace. rewrite beam_trace_unfold. cbn zeta.
    rewrite HN.
    destruct (dec_reset_ok (decoder net) (shape0 x) Hwf) as (d0 & -> & _).
    reflexivity.
Qed.

Lemma forward_without_nodes_witness :
  (forall beamsearch,
      forward draw_first (toy_net (Some 2%Z) 8) (Tensor2 1 0 [[]]) 2 true beamsearch
      = Raise RuntimeError) /\
  forward draw_first (toy_net (Some 2%Z) 8) (Tensor2 1 0 [[]]) 2 false true
  = Raise UnboundLocalError.
Proof.
  apply (forward_without_nodes draw_first (toy_net (Some 2%Z) 8) (Tensor2 1 0 [[]]) 2).
  - reflexivity.
  - simpl; lia.
  - split; [reflexivity|]. repeat constructor.
  - simpl; lia.
  - apply toy_decoder_wf. lia.
Defined.

Import Torch TSPNet.

(* ================================================================== *)
(** * The greedy decode visits every node once *)

Section Argmax.
Context {prob score : Type} {float_ops : FloatOps prob score}.

(** The order of the probabilities is a total preorder. *)
Hypothesis pleb_total : forall a b : prob, pleb a b = true \/ pleb b a = true.
Hypothesis pleb_trans :
  forall a b c : prob, pleb a b = true -> pleb b c = true -> pleb a c = true.

Lemma argmax_from_spec (l : list prob) :
  forall i best bi,
    (argmax_from l i best bi = bi /\ Forall (fun p => pleb p best = true) l) \/
    (exists k p, nth_error l k = Some p /\ argmax_from l i best bi = i + k /\
                 pleb best p = true /\ Forall (fun p' => pleb p' p = true) l).
Proof.
  induction l as [|p l IH]; intros i best bi; cbn [argmax_from].
  - left. split; [reflexivity | constructor].
  - destruct (pleb p best) eqn:E.
    + destruct (IH (S i) best bi) as [[Hr HF]|(k & p' & Hk & Hr & Hb & HF)].
      * left. split; [exact Hr | constructor; assumption].
      * right. exists (S k), p'. split; [exact Hk|]. split; [rewrite Hr; lia|].
        split; [exact Hb|]. constructor; [eapply pleb_trans; eauto | assumption].
    + assert (Hbp : pleb best p = true) by (destruct (pleb_total best p); congruence).
      assert (Hpp : pleb p p = true) by (destruct (pleb_total p p); assumption).
      destruct (IH (S i) p i) as [[Hr HF]|(k & p' & Hk & Hr & Hb & HF)].
      * right. exists 0, p. split; [reflexivity|]. split; [rewrite Hr; lia|].
        split; [exact Hbp|]. constructor; assumption.
      * right. exists (S k), p'. split; [exact Hk|]. split; [rewrite Hr; lia|].
        split; [eapply pleb_trans; eauto|]. constructor; assumption.
Qed.

(** [argmax] returns the position of an entry no other entry exceeds. *)
Lemma argmax_spec (l : list prob) (r : nat) :
  argmax l = Ok r ->
  exists pr, nth_error l r = Some pr /\ Forall (fun p => pleb p pr = true) l.
Proof.
  destruct l as [|p l]; [discriminate|]. cbn [argmax]. intros H. injection H as <-.
  assert (Hpp : pleb p p = true) by (destruct (pleb_total p p); assumption).
  destruct (argmax_from_spec l 1 p 0) as [[-> HF]|(k & p' & Hk & -> & Hb & HF)].
  - exists p. split; [reflexivity | constructor; assumption].
  - exists p'. split; [exact Hk | constructor; assumption].
Qed.

End Argmax.

Lemma argmax_ok {prob score : Type} {float_ops : FloatOps prob score} (l : list prob) :
  l <> [] -> exists r, argmax l = Ok r.
Proof. destruct l; [congruence|]. intros _. eexists. reflexivity. Qed.

(** Fewer than [N] visited nodes leave one of the [N] nodes unvisited. *)
Lemma unvisited_exists (N : nat) (l : list nat) :
  length l < N -> exists j, j < N /\ ~ In j l.
Proof.
  intros Hl.
  destruct (Forall_Exists_dec (fun j => In j l) (fun j => in_dec Nat.eq_dec j l) (seq 0 N))
    as [HF|HE].
  - exfalso. assert (Hi : incl (seq 0 N) l).
    { intros j Hj. rewrite Forall_forall in HF. auto. }
    apply NoDup_incl_length in Hi; [rewrite length_seq in Hi; lia | apply seq_NoDup].
  - apply Exists_exists in HE as (j & Hj & Hn). exists j.
    split; [apply in_seq in Hj; lia | exact Hn].
Qed.

Lemma NoDup_snoc {A : Type} (l : list A) (a : A) :
  NoDup l -> ~ In a l -> NoDup (l ++ [a]).
Proof.
  intros Hl Ha. apply (Permutation_NoDup (Permutation_cons_append l a)).
  now constructor.
Qed.

Section DecoderRows.
Context {vec att prob : Type}.

Lemma final_rows_nth (f : vec -> att -> att -> list bool -> list prob) :
  forall q K V mask p,
    DecoderNet.final_rows f q K V mask = Ok p ->
    forall b mrow, nth_error mask b = Some mrow ->
      exists q0 k v, In k K /\ nth_error p b = Some (f q0 k v mrow).
Proof.
  induction q as [|q0 q IH]; intros [|k K] [|v V] [|m mask] p H; try discriminate.
  - intros [|b] mrow Hb; discriminate.
  - cbn [DecoderNet.final_rows] in H.
    destruct (DecoderNet.final_rows f q K V mask) as [rest|e] eqn:E; [|discriminate].
    cbn [bind] in H. injection H as <-.
    intros [|b] mrow Hb; cbn [nth_error] in *.
    + injection Hb as <-. exists q0, k, v. split; [now left | reflexivity].
    + destruct (IH _ _ _ _ E b mrow Hb) as (q1 & k1 & v1 & Hin & Hp).
      exists q1, k1, v1. split; [now right | exact Hp].
Qed.

(** The parameters of a decoder, as opposed to its caches. *)
Definition same_params (d d' : DecoderNet.decoder_net vec att prob) : Prop :=
  DecoderNet.nb_layers_decoder d' = DecoderNet.nb_layers_decoder d /\
  DecoderNet.slice_att d' = DecoderNet.slice_att d /\
  DecoderNet.attn_final d' = DecoderNet.attn_final d.

Lemma decoder_forward_rows (d d' : DecoderNet.decoder_net vec att prob)
  (h : list vec) (K_att V_att : list att) (mask : list (list bool)) p :
  DecoderNet.forward d h K_att V_att mask = Ok (p, d') ->
  same_params d d' /\
  forall b mrow, nth_error mask b = Some mrow ->
    exists q k v,
      In k (map (DecoderNet.slice_att d (DecoderNet.nb_layers_decoder d - 1)) K_att) /\
      nth_error p b = Some (DecoderNet.attn_final d q k v mrow).
Proof.
  unfold DecoderNet.forward. intros H.
  destruct (DecoderNet.forward_layers d 0 _ _ h K_att V_att mask)
    as [[h1 ls1]|e]; [|discriminate].
  cbn [bind] in H.
  destruct (DecoderNet.nb_layers_decoder d) as [|L] eqn:EL; [discriminate|].
  destruct (DecoderNet.final_rows _ _ _ _ _) as [w|e] eqn:EF; [|discriminate].
  cbn [bind] in H. injection H as <- <-. split.
  - repeat split.
  - replace (S L - 1) with L by lia. eapply final_rows_nth; eassumption.
Qed.

Lemma decoder_reset_params (d d' : DecoderNet.decoder_net vec att prob) :
  DecoderNet.reset_selfatt_keys_values d = Ok d' -> same_params d d'.
Proof.
  unfold DecoderNet.reset_selfatt_keys_values. intros H.
  destruct (DecoderNet.for_layers _ _ _) as [ls|e]; [|discriminate].
  cbn [bind] in H. injection H as <-. repeat split.
Qed.

End DecoderRows.

(** [mask[zero_to_bsz, idx] = True], row by row. *)
Lemma mark_rows (mask mask' : list (list bool)) (idx : list nat) :
  mapM2 (fun m i => set_nth i true m) mask idx = Ok mask' ->
  length mask' = length mask /\
  forall b mrow', nth_error mask' b = Some mrow' ->
    exists mrow i,
      nth_error mask b = Some mrow /\ nth_error idx b = Some i /\
      i < length mrow /\ length mrow' = length mrow /\
      forall j, nth_error mrow' j = Some true <->
                (nth_error mrow j = Some true \/ j = i).
Proof.
  intros H. destruct (mapM2_Ok_inv _ _ _ _ H) as (Hl & _ & Hn).
  split; [lia|]. intros b mrow' Hb.
  destruct (Hn b mrow' Hb) as (mrow & i & Hm & Hi & Hs).
  destruct (set_nth_Ok _ _ _ _ Hs) as (Hlt & Hlen & Hat & Hother).
  exists mrow, i. repeat split; auto.
  - intros Hj. destruct (Nat.eq_dec j i) as [->|Hne]; [now right|].
    left. now rewrite <- Hother.
  - intros [Hj| ->]; [|exact Hat].
    destruct (Nat.eq_dec j i) as [->|Hne]; [exact Hat|]. now rewrite Hother.
Qed.

(** [torch.stack(cols, dim=1)] of vectors of equal length: row [b] holds
    entry [b] of every vector, in order. *)
Lemma stack1_rows {A : Type} (d : A) (n : nat) (cols : list (list A)) :
  cols <> [] -> Forall (fun c => length c = n) cols ->
  exists rows,
    stack1 cols = Ok rows /\ length rows = n /\
    forall b, b < n -> nth_error rows b = Some (map (fun c => nth b c d) cols).
Proof.
  induction cols as [|c cols IH]; [congruence|]. intros _ HF.
  apply Forall_cons_iff in HF as [Hc HF]. destruct cols as [|c' cols'].
  - exists (map (fun a => [a]) c). split; [reflexivity|].
    split; [now rewrite length_map|]. intros b Hb.
    rewrite nth_error_map, (nth_error_nth' c d) by lia. reflexivity.
  - destruct (IH ltac:(discriminate) HF) as (rest & E & Hl & Hn).
    change (stack1 (c :: c' :: cols'))
      with (rest <- stack1 (c' :: cols') ;;
            if length c =? length rest then Ok (map2 cons c rest)
            else Raise RuntimeError).
    rewrite E. cbn [bind]. rewrite Hc, Hl, Nat.eqb_refl.
    eexists. split; [reflexivity|]. split; [rewrite length_map2; lia|].
    intros b Hb. rewrite nth_error_map2, (nth_error_nth' c d), (Hn b Hb) by lia.
    reflexivity.
Qed.

(** What the decode needs of the final attention layer: on a mask row of
    [n] positions and the keys of this call, a position that is not masked
    gets a strictly larger probability than a masked one (the masked
    positions get weight 0 and the others do not). *)
Definition masks_visited {vec att prob score : Type} {float_ops : FloatOps prob score}
  (d : DecoderNet.decoder_net vec att prob) (K_att : list att) (n : nat) : Prop :=
  forall q k v m i j pi pj,
    In k (map (DecoderNet.slice_att d (DecoderNet.nb_layers_decoder d - 1)) K_att) ->
    length m = n ->
    nth_error m i = Some false -> nth_error m j = Some true ->
    nth_error (DecoderNet.attn_final d q k v m) i = Some pi ->
    nth_error (DecoderNet.attn_final d q k v m) j = Some pj ->
    pleb pi pj = false.

Section GreedyTours.
Context {coord vec att prob score : Type} {float_ops : FloatOps prob score}.
Variable sample : nat -> list (list prob) -> list nat.
Variable net : tsp_net coord vec att prob.
Variable h_encoder : list (list vec).
Variables K_att V_att : list att.
Variables bsz nb_nodes : nat.
Hypothesis Hbsz : 1 <= bsz.
Hypothesis Hh : shape2 (fun _ : vec => True) bsz (nb_nodes + 1) h_encoder.
Hypothesis HK : length K_att = bsz.
Hypothesis HV : length V_att = bsz.
Hypothesis Hwf : dec_wf (decoder net).
Hypothesis pleb_total : forall a b : prob, pleb a b = true \/ pleb b a = true.
Hypothesis pleb_trans :
  forall a b c : prob, pleb a b = true -> pleb b c = true -> pleb a c = true.
Hypothesis Hcontract : masks_visited (decoder net) K_att (nb_nodes + 1).

(** The nodes batch row [b] has visited, in order. *)
Definition visited (tours : list (list nat)) (b : nat) : list nat :=
  map (fun col => nth b col 0) tours.

(** The state of the greedy decode after [t] steps. *)
Definition ginv (t : nat) (s : greedy_state vec att prob score) : Prop :=
  length (g_h_t s) = bsz /\
  length (g_tours s) = t /\ Forall (fun c => length c = bsz) (g_tours s) /\
  length (g_sumLogProbOfActions s) = t /\
  Forall (fun c => length c = bsz) (g_sumLogProbOfActions s) /\
  dec_shape (g_decoder s) bsz t /\ same_params (decoder net) (g_decoder s) /\
  length (g_mask_visited_nodes s) = bsz /\
  forall b mrow, nth_error (g_mask_visited_nodes s) b = Some mrow ->
    length mrow = nb_nodes + 1 /\
    NoDup (visited (g_tours s) b) /\
    Forall (fun i => i < nb_nodes) (visited (g_tours s) b) /\
    forall j, nth_error mrow j = Some true <->
              (j = nb_nodes \/ In j (visited (g_tours s) b)).

(** One step: it succeeds when [PE] has a row [t+1], and raises IndexError
    at [self.PE[t+1]] otherwise. *)
Lemma greedy_body_cases (t : nat) (s : greedy_state vec att prob score) :
  t < nb_nodes -> ginv t s ->
  (t + 1 < length (PE net) ->
   exists s',
     greedy_body sample net true h_encoder K_att V_att t s = Ok s' /\ ginv (S t) s') /\
  (length (PE net) <= t + 1 ->
   greedy_body sample net true h_encoder K_att V_att t s = Raise IndexError).
Proof.
  intros Ht (Hlh & Hlt & HFt & Hls & HFs & Hdec & Hpar & Hlm & Hrows).
  unfold greedy_body.
  assert (Hmw : Forall (fun m => length m = nb_nodes + 1) (g_mask_visited_nodes s)).
  { apply Forall_forall. intros m Hm. apply In_nth_error in Hm as (b & Hb).
    now destruct (Hrows b m Hb). }
  destruct (dec_forward_ok (g_decoder s) bsz t (g_h_t s) K_att V_att
              (g_mask_visited_nodes s) Hdec Hlh HK HV Hlm)
    as (p & d1 & E & Hlp & Hpm & Hd1).
  destruct (decoder_forward_rows _ _ _ _ _ _ _ E) as [Hpar1 Hprow].
  rewrite E. cbn [bind].
  pose proof (Forall2_length_rows _ _ _ Hpm Hmw) as HpN.
  destruct (mapM_ok_Forall (fun r : list prob => length r = nb_nodes + 1)
              (fun _ : nat => True) argmax p) as (idx & Eidx & Hlidx & _).
  { intros a Ha. destruct (argmax_ok a) as (r & Er).
    - destruct a; [simpl in Ha; lia | discriminate].
    - exists r. auto. }
  { exact HpN. }
  rewrite Eidx. cbn [bind].
  destruct (mapM_Ok_nth _ _ _ Eidx) as [_ Hidx].
  assert (Hsel : forall b i, nth_error idx b = Some i ->
            exists mrow a,
              nth_error (g_mask_visited_nodes s) b = Some mrow /\
              nth_error p b = Some a /\ length a = nb_nodes + 1 /\
              nth_error mrow i = Some false).
  { intros b i Hb. destruct (Hidx b i Hb) as (a & Hpa & Harg).
    assert (Hbb : b < bsz) by (rewrite <- Hlp; apply nth_error_Some; congruence).
    destruct (nth_error (g_mask_visited_nodes s) b) as [mrow|] eqn:Em;
      [|apply nth_error_None in Em; lia].
    exists mrow, a.
    destruct (Hrows b mrow Em) as (Hlen & Hnd & Hlt' & Hiff).
    assert (Hla : length a = nb_nodes + 1).
    { rewrite Forall_forall in HpN. apply HpN. eapply nth_error_In; eauto. }
    split; [reflexivity|]. split; [exact Hpa|]. split; [exact Hla|].
    destruct (Hprow b mrow Em) as (q & k & v & Hk & Hp').
    rewrite Hpa in Hp'. injection Hp' as ->.
    destruct Hpar as (EL & ES & EA). rewrite EL, ES in Hk. rewrite EA in *.
    destruct (argmax_spec pleb_total pleb_trans _ _ Harg) as (pr & Hpr & Hmax).
    assert (Hi : i < nb_nodes + 1).
    { rewrite <- Hla. apply nth_error_Some. congruence. }
    destruct (nth_error mrow i) as [[|]|] eqn:Ei;
      [exfalso | reflexivity | apply nth_error_None in Ei; lia].
    destruct (unvisited_exists nb_nodes (visited (g_tours s) b)) as (j0 & Hj0 & Hnin).
    { unfold visited. rewrite length_map. lia. }
    assert (Ej0 : nth_error mrow j0 = Some false).
    { destruct (nth_error mrow j0) as [[|]|] eqn:Ej;
        [|reflexivity|apply nth_error_None in Ej; lia].
      apply Hiff in Ej. destruct Ej; [lia|contradiction]. }
    destruct (nth_error (DecoderNet.attn_final (decoder net) q k v mrow) j0)
      as [pj0|] eqn:Ep0; [|apply nth_error_None in Ep0; lia].
    assert (Hle : pleb pj0 pr = true).
    { rewrite Forall_forall in Hmax. apply Hmax. eapply nth_error_In; eauto. }
    rewrite (Hcontract q k v mrow j0 i pj0 pr) in Hle; auto. discriminate. }
  assert (Hidx_lt : Forall (fun i => i < nb_nodes + 1) idx).
  { apply Forall_forall. intros i Hi. apply In_nth_error in Hi as (b & Hb).
    destruct (Hsel b i Hb) as (mrow & a & Em & _ & _ & Ei).
    destruct (Hrows b mrow Em) as (Hlen & _). rewrite <- Hlen.
    apply nth_error_Some. congruence. }
  destruct (mapM2_ok get_nth p idx) as (pc & Epc).
  { lia. }
  { intros b a c Ha Hc. destruct (Hsel b c Hc) as (mrow & a' & Em & Ha' & Hla & Ei).
    rewrite Ha in Ha'. injection Ha' as <-. unfold get_nth.
    destruct (nth_error a c) eqn:Eac; [eauto|]. apply nth_error_None in Eac.
    rewrite Forall_forall in Hidx_lt.
    specialize (Hidx_lt c (nth_error_In _ _ Hc)). lia. }
  rewrite Epc. cbn [bind].
  destruct (mapM2_Ok_inv _ _ _ _ Epc) as (Hlpc & _ & _).
  destruct (index_rows_ok h_encoder (map Z.of_nat idx) (nb_nodes + 1))
    as (hs & Ehs & Hlhs).
  { rewrite length_map. destruct Hh. lia. }
  { destruct Hh as [_ HF]. eapply Forall_impl; [|exact HF]. intros r [H _]; exact H. }
  { apply Forall_map. eapply Forall_impl; [|exact Hidx_lt].
    intros i Hi. cbv beta in Hi. unfold valid_index. lia. }
  rewrite Ehs. cbn [bind]. split.
  2:{ intros HPE. rewrite py_index_invalid; [reflexivity|]. unfold valid_index. lia. }
  intros HPE.
  destruct (py_index_ok (PE net) (Z.of_nat t + 1)) as (pe & ->);
    [unfold valid_index; lia|].
  cbn [bind].
  destruct (mapM2_ok (fun m i => set_nth i true m) (g_mask_visited_nodes s) idx)
    as (mask' & Emask).
  { lia. }
  { intros b m i Hm Hi. apply set_nth_ok.
    destruct (Hsel b i Hi) as (mrow & a & Em & _ & _ & Ei).
    rewrite Hm in Em. injection Em as <-. apply nth_error_Some. congruence. }
  rewrite Emask. cbn [bind].
  destruct (mark_rows _ _ _ Emask) as (Hlmask & Hmark).
  eexists. split; [reflexivity|].
  unfold ginv. cbn [g_h_t g_tours g_sumLogProbOfActions g_decoder g_mask_visited_nodes].
  split; [rewrite length_map; destruct Hh; lia|].
  split; [rewrite length_app; simpl; lia|].
  split; [apply Forall_app; split; [assumption|constructor; [lia|constructor]]|].
  split; [rewrite length_app; simpl; lia|].
  split; [apply Forall_app; split;
          [assumption|constructor; [rewrite length_map; lia|constructor]]|].
  split; [exact Hd1|].
  split.
  { destruct Hpar as (EL & ES & EA), Hpar1 as (EL1 & ES1 & EA1).
    repeat split; congruence. }
  split; [lia|].
  intros b mrow' Hb.
  destruct (Hmark b mrow' Hb) as (mrow & i & Em & Hi & Hilt & Hlen' & Hiff').
  destruct (Hrows b mrow Em) as (Hlen & Hnd & Hvlt & Hiff).
  destruct (Hsel b i Hi) as (mrow2 & a & Em2 & _ & _ & Ei).
  rewrite Em in Em2. injection Em2 as <-.
  assert (Hv : visited (g_tours s ++ [idx]) b = visited (g_tours s) b ++ [i]).
  { unfold visited. rewrite map_app. cbn [map]. now rewrite (nth_error_nth _ _ _ Hi). }
  rewrite Hv.
  assert (Hnot : ~ (i = nb_nodes \/ In i (visited (g_tours s) b))).
  { intros H. apply Hiff in H. congruence. }
  assert (HiN : i < nb_nodes) by lia.
  split; [lia|]. split; [apply NoDup_snoc; tauto|].
  split; [apply Forall_app; split; [assumption|constructor; [lia|constructor]]|].
  intros j. rewrite Hiff', Hiff, in_app_iff. cbn [In].
  split; intros H; intuition auto.
Qed.

Lemma greedy_loop_ok :
  nb_nodes < length (PE net) ->
  forall k t (s : greedy_state vec att prob score),
    t + k = nb_nodes -> ginv t s ->
    exists tr,
      loop_trace (greedy_body sample net true h_encoder K_att V_att) (seq t k) s = Ok tr /\
      ginv nb_nodes (last tr s).
Proof.
  intros HPE. induction k as [|k IH]; intros t s Hk Hs.
  - exists []. split; [reflexivity|]. cbn [last]. replace nb_nodes with t by lia. exact Hs.
  - cbn [seq loop_trace].
    destruct (proj1 (greedy_body_cases t s ltac:(lia) Hs)) as (s' & -> & Hs'); [lia|].
    cbn [bind].
    destruct (IH (S t) s') as (tr & -> & Hl); [lia|assumption|]. cbn [bind].
    eexists. split; [reflexivity|]. rewrite last_cons. exact Hl.
Qed.

(** With too few positional encodings the loop stops at the first step
    that needs a missing one. *)
Lemma greedy_loop_fails :
  length (PE net) <= nb_nodes ->
  forall k t (s : greedy_state vec att prob score),
    t + k = nb_nodes -> ginv t s -> t + 1 <= length (PE net) ->
    loop_trace (greedy_body sample net true h_encoder K_att V_att) (seq t k) s
    = Raise IndexError.
Proof.
  intros HPE. induction k as [|k IH]; intros t s Hk Hs Ht; [lia|].
  cbn [seq loop_trace].
  destruct (greedy_body_cases t s ltac:(lia) Hs) as [Hok Hfail].
  destruct (Nat.eq_dec (t + 1) (length (PE net))) as [E|E].
  - rewrite Hfail by lia. reflexivity.
  - destruct Hok as (s' & -> & Hs'); [lia|]. cbn [bind].
    rewrite (IH (S t) s'); [reflexivity | lia | assumption | lia].
Qed.

Lemma start_query_first_PE :
  0 < length (PE net) ->
  exists h mask,
    start_query net h_encoder bsz nb_nodes = Ok (h, mask) /\
    length h = bsz /\ length mask = bsz /\
    Forall (fun m => length m = nb_nodes + 1) mask.
Proof.
  intros HPE. unfold start_query. destruct Hh as [Hlh HFh].
  destruct (index_rows_ok h_encoder (map Z.of_nat (repeat nb_nodes bsz)) (nb_nodes + 1))
    as (h & -> & Hh'); [rewrite length_map, repeat_length; lia | | |].
  { eapply Forall_impl; [|exact HFh]. intros r [H _]; exact H. }
  { apply Forall_map, Forall_forall. intros i Hi. apply repeat_spec in Hi. subst i.
    unfold valid_index. lia. }
  cbn [bind]. destruct (py_index_ok (PE net) 0) as (pe0 & ->); [unfold valid_index; lia|].
  cbn [bind].
  destruct (mapM2_ok_Forall (fun (m : list bool) i => length m = nb_nodes + 1 /\ i = nb_nodes)
              (fun m => length m = nb_nodes + 1) (fun m i => set_nth i true m)
              (repeat (repeat false (nb_nodes + 1)) bsz) (repeat nb_nodes bsz))
    as (mask & -> & Hlm & Hm).
  - intros m i [Hm ->]. destruct (set_nth_ok_len nb_nodes true m) as (m' & E & Hl); [lia|].
    exists m'. split; [assumption | lia].
  - apply Forall2_of_Forall; [rewrite !repeat_length; reflexivity | |].
    + apply Forall_forall. intros r Hr. apply repeat_spec in Hr. subst r.
      apply repeat_length.
    + apply Forall_forall. intros i Hi. apply repeat_spec in Hi. exact Hi.
  - cbn [bind]. do 2 eexists. split; [reflexivity|].
    rewrite length_map, Hlm, repeat_length. repeat split; [lia | assumption].
Qed.

Lemma start_query_no_PE :
  length (PE net) = 0 -> start_query net h_encoder bsz nb_nodes = Raise IndexError.
Proof.
  intros HPE. unfold start_query. destruct Hh as [Hlh HFh].
  destruct (index_rows_ok h_encoder (map Z.of_nat (repeat nb_nodes bsz)) (nb_nodes + 1))
    as (h & -> & Hh'); [rewrite length_map, repeat_length; lia | | |].
  { eapply Forall_impl; [|exact HFh]. intros r [H _]; exact H. }
  { apply Forall_map, Forall_forall. intros i Hi. apply repeat_spec in Hi. subst i.
    unfold valid_index. lia. }
  cbn [bind]. rewrite py_index_invalid; [reflexivity|]. unfold valid_index. lia.
Qed.

Lemma greedy_start_ok :
  0 < length (PE net) ->
  exists h mask d0,
    start_query net h_encoder bsz nb_nodes = Ok (h, mask) /\
    DecoderNet.reset_selfatt_keys_values (decoder net) = Ok d0 /\
    ginv 0 (GreedyState h mask [] [] d0).
Proof.
  intros HPE.
  destruct (start_query_first_PE HPE) as (h & mask & E & Hlh & Hlm & Hmw).
  destruct (dec_reset_ok (decoder net) bsz Hwf) as (d0 & Ed & Hd0).
  exists h, mask, d0. split; [exact E|]. split; [exact Ed|].
  unfold ginv. cbn [g_h_t g_tours g_sumLogProbOfActions g_decoder g_mask_visited_nodes].
  split; [exact Hlh|]. split; [reflexivity|]. split; [constructor|].
  split; [reflexivity|]. split; [constructor|]. split; [exact Hd0|].
  split; [now apply decoder_reset_params|]. split; [exact Hlm|].
  intros b mrow' Hb. unfold start_query in E.
  destruct (index_rows _ _) as [h1|e]; [|discriminate]. cbn [bind] in E.
  destruct (py_index (PE net) 0) as [pe0|e]; [|discriminate]. cbn [bind] in E.
  destruct (mapM2 _ _ _) as [mask1|e] eqn:Em; [|discriminate]. cbn [bind] in E.
  injection E as _ <-.
  destruct (mark_rows _ _ _ Em) as (_ & Hmark).
  destruct (Hmark b mrow' Hb) as (mrow & i & Hm & Hi & Hilt & Hlen & Hiff).
  apply nth_error_In, repeat_spec in Hm. apply nth_error_In, repeat_spec in Hi.
  subst mrow i. rewrite repeat_length in Hlen.
  split; [exact Hlen|]. split; [constructor|]. split; [constructor|].
  intros j. rewrite Hiff. cbn [visited map In]. split.
  - intros [H|H]; [|now left].
    apply nth_error_In, repeat_spec in H. discriminate.
  - intros [H|[]]. now right.
Qed.

Lemma greedy_search_short_PE :
  length (PE net) <= nb_nodes ->
  greedy_search sample net true h_encoder K_att V_att bsz nb_nodes = Raise IndexError.
Proof.
  intros HPE. unfold greedy_search, greedy_trace.
  destruct (Nat.eq_dec (length (PE net)) 0) as [E0|E0].
  - rewrite (start_query_no_PE E0). reflexivity.
  - destruct (greedy_start_ok ltac:(lia)) as (h & mask & d0 & -> & -> & Hs0). cbn [bind].
    rewrite (greedy_loop_fails HPE nb_nodes 0 _ eq_refl Hs0); [reflexivity|lia].
Qed.

Lemma greedy_search_ok :
  nb_nodes < length (PE net) -> 1 <= nb_nodes ->
  exists tours scores dec,
    greedy_search sample net true h_encoder K_att V_att bsz nb_nodes
    = Ok (tours, scores, dec) /\
    length tours = bsz /\ length scores = bsz /\
    Forall (fun tour => Permutation tour (seq 0 nb_nodes)) tours.
Proof.
  intros HPE HN. unfold greedy_search, greedy_trace.
  destruct (greedy_start_ok ltac:(lia)) as (h & mask & d0 & -> & -> & Hs0). cbn [bind].
  destruct (greedy_loop_ok HPE nb_nodes 0 _ eq_refl Hs0) as (tr & -> & Hs). cbn [bind].
  set (s := last tr (GreedyState h mask [] [] d0)) in *.
  destruct Hs as (_ & Hlt & HFt & Hls & HFs & _ & _ & Hlm & Hrows).
  destruct (stack1_rows szero bsz (g_sumLogProbOfActions s)) as (sl & -> & Hlsl & _);
    [intros E; rewrite E in Hls; simpl in Hls; lia | exact HFs |].
  cbn [bind].
  destruct (stack1_rows 0 bsz (g_tours s)) as (tours & -> & Hltours & Hn);
    [intros E; rewrite E in Hlt; simpl in Hlt; lia | exact HFt |].
  cbn [bind]. do 3 eexists. split; [reflexivity|].
  split; [exact Hltours|]. split; [rewrite length_map; exact Hlsl|].
  apply Forall_forall. intros tour Hin. apply In_nth_error in Hin as (b & Hb).
  assert (Hbb : b < bsz) by (rewrite <- Hltours; apply nth_error_Some; congruence).
  rewrite (Hn b Hbb) in Hb. injection Hb as <-.
  destruct (nth_error (g_mask_visited_nodes s) b) as [mrow|] eqn:Em;
    [|apply nth_error_None in Em; lia].
  destruct (Hrows b mrow Em) as (_ & Hnd & Hvlt & _). fold (visited (g_tours s) b).
  apply NoDup_Permutation_bis; [exact Hnd | |].
  - unfold visited. rewrite length_seq, length_map. lia.
  - intros j Hj. rewrite Forall_forall in Hvlt. apply in_seq. specialize (Hvlt j Hj). lia.
Qed.

End GreedyTours.

(** X15 ([TSP_net.forward], greedy decode): when the final attention layer
    gives every position that is not masked a strictly larger probability
    than any masked one, the greedy decode returns, for every batch row, a
    tour that is a permutation of the nodes [0 .. nb_nodes-1]: each node
    once, the start placeholder never.  Assumed besides: a total order on
    the probabilities, at least one batch row and one node, an encoder
    output of shape (bsz, nb_nodes+1, .), [max_len_PE > nb_nodes] and a
    decoder as [__init__] builds it. *)
Theorem greedy_tours_visit_every_node_once {coord vec att prob score : Type}
  {float_ops : FloatOps prob score}
  (sample : nat -> list (list prob) -> list nat)
  (net : tsp_net coord vec att prob) (x : tensor2 coord) (B : nat) :
  (forall a b : prob, pleb a b = true \/ pleb b a = true) ->
  (forall a b c : prob, pleb a b = true -> pleb b c = true -> pleb a c = true) ->
  1 <= shape0 x -> 1 <= shape1 x ->
  shape2 (fun _ => True) (shape0 x) (shape1 x + 1) (h_encoder_of net x) ->
  shape1 x < length (PE net) ->
  dec_wf (decoder net) ->
  masks_visited (decoder net) (map (WK_att_decoder net) (h_encoder_of net x))
                (shape1 x + 1) ->
  exists tours scores,
    forward sample net x B true false
    = Ok (LongTensor2 tours, FloatTensor (zeros2 2 (shape1 x)), scores, zeros1 2) /\
    length tours = shape0 x /\ length scores = shape0 x /\
    Forall (fun tour => Permutation tour (seq 0 (shape1 x))) tours.
Proof.
  intros Htot Htrans Hbsz HN Hh HPE Hwf Hc.
  destruct (greedy_search_ok sample net (h_encoder_of net x)
              (map (WK_att_decoder net) (h_encoder_of net x))
              (map (WV_att_decoder net) (h_encoder_of net x))
              (shape0 x) (shape1 x) Hbsz Hh
              ltac:(rewrite length_map; apply Hh) ltac:(rewrite length_map; apply Hh)
              Hwf Htot Htrans Hc HPE HN)
    as (tours & scores & dec & E & Hlt & Hls & Hperm).
  exists tours, scores. split; [|auto].
  rewrite !forward_unfold. cbn zeta. rewrite E. reflexivity.
Qed.

(** The small network satisfies the assumption on the final layer. *)
Lemma nth_error_combine_seq {A : Type} (m : list A) (i : nat) (a : A) :
  forall s, nth_error m i = Some a ->
            nth_error (combine (seq s (length m)) m) i = Some (s + i, a).
Proof.
  revert i; induction m as [|x m IH]; intros [|i] s H; try discriminate.
  - injection H as <-. cbn. now rewrite Nat.add_0_r.
  - cbn [length seq combine nth_error] in *. rewrite (IH i (S s) H).
    f_equal. f_equal. lia.
Qed.

Lemma Qsum_nonneg (w : list Q) :
  Forall (fun y => (0 <= y)%Q) w -> (0 <= fold_right Qplus 0%Q w)%Q.
Proof.
  induction 1 as [|a w Ha _ IH]; cbn [fold_right]; [apply Qle_refl|].
  exact (Qplus_le_compat 0 a 0 _ Ha IH).
Qed.

Lemma Qsum_ge_In (w : list Q) (y : Q) :
  Forall (fun y => (0 <= y)%Q) w -> In y w -> (y <= fold_right Qplus 0%Q w)%Q.
Proof.
  induction 1 as [|a w Ha Hw IH]; intros Hin; [destruct Hin|]. cbn [fold_right].
  destruct Hin as [->|Hin].
  - apply Qle_trans with (y + 0)%Q; [rewrite Qplus_0_r; apply Qle_refl|].
    apply Qplus_le_compat; [apply Qle_refl | now apply Qsum_nonneg].
  - apply Qle_trans with (0 + y)%Q; [rewrite Qplus_0_l; apply Qle_refl|].
    apply Qplus_le_compat; [exact Ha | now apply IH].
Qed.

Lemma toy_attn_masks_visited (q : Q) (k v : list Q) (m : list bool) (i j : nat) (pi pj : Q) :
  Forall (fun y => (0 < y)%Q) k -> length m = length k ->
  nth_error m i = Some false -> nth_error m j = Some true ->
  nth_error (toy_attn q k v m) i = Some pi ->
  nth_error (toy_attn q k v m) j = Some pj ->
  Qle_bool pi pj = false.
Proof.
  intros Hk Hl Hi Hj Hpi Hpj. unfold toy_attn in *.
  set (f := fun p : nat * bool => if snd p then 0%Q else nth (fst p) k 0%Q) in *.
  set (w := map f (combine (seq 0 (length m)) m)) in *.
  set (total := fold_right Qplus 0%Q w) in *.
  assert (Hw : Forall (fun y => (0 <= y)%Q) w).
  { apply Forall_map, Forall_forall. intros [n [|]] _; unfold f; cbn [fst snd].
    - apply Qle_refl.
    - destruct (nth_in_or_default n k 0%Q) as [Hin| ->]; [|apply Qle_refl].
      rewrite Forall_forall in Hk. apply Qlt_le_weak. now apply Hk. }
  assert (Ewi : nth_error w i = Some (nth i k 0%Q)).
  { unfold w. rewrite nth_error_map, (nth_error_combine_seq m i false 0 Hi).
    reflexivity. }
  assert (Ewj : nth_error w j = Some 0%Q).
  { unfold w. rewrite nth_error_map, (nth_error_combine_seq m j true 0 Hj).
    reflexivity. }
  rewrite nth_error_map, Ewi in Hpi. rewrite nth_error_map, Ewj in Hpj.
  cbn [option_map] in Hpi, Hpj. injection Hpi as <-. injection Hpj as <-.
  assert (Hpos : (0 < nth i k 0)%Q).
  { rewrite Forall_forall in Hk. apply Hk, nth_In. rewrite <- Hl.
    apply nth_error_Some. congruence. }
  assert (Htot : (0 < total)%Q).
  { eapply Qlt_le_trans; [exact Hpos|]. apply Qsum_ge_In; [exact Hw|].
    eapply nth_error_In; exact Ewi. }
  destruct (Qle_bool _ _) eqn:E; [|reflexivity]. exfalso.
  apply Qle_bool_iff in E.
  assert (H0 : (0 / total == 0)%Q) by (unfold Qdiv; apply Qmult_0_l).
  rewrite H0 in E.
  assert (H1 : (0 < nth i k 0 / total)%Q).
  { apply Qlt_shift_div_l; [exact Htot|]. now rewrite Qmult_0_l. }
  exact (Qlt_not_le _ _ H1 E).
Qed.

Lemma Qle_bool_total (a b : Q) : Qle_bool a b = true \/ Qle_bool b a = true.
Proof.
  destruct (Qlt_le_dec a b) as [H|H].
  - left. apply Qle_bool_iff. now apply Qlt_le_weak.
  - right. now apply Qle_bool_iff.
Qed.

Lemma Qle_bool_trans (a b c : Q) :
  Qle_bool a b = true -> Qle_bool b c = true -> Qle_bool a c = true.
Proof. rewrite !Qle_bool_iff. apply Qle_trans. Qed.

Lemma greedy_tours_visit_every_node_once_witness :
  exists tours scores,
    forward draw_first (toy_net (Some 2%Z) 8) three_batches 1 true false
    = Ok (LongTensor2 tours, FloatTensor (zeros2 2 3), scores, zeros1 2) /\
    length tours = 3 /\ length scores = 3 /\
    Forall (fun tour => Permutation tour (seq 0 3)) tours.
Proof.
  apply (greedy_tours_visit_every_node_once (float_ops := rational_floats)
           draw_first (toy_net (Some 2%Z) 8)
           three_batches 1 Qle_bool_total Qle_bool_trans).
  - simpl; lia.
  - simpl; lia.
  - split; [reflexivity|]. repeat constructor.
  - simpl; lia.
  - apply toy_decoder_wf. lia.
  - intros q k v m i j pi pj Hk Hm.
    apply toy_attn_masks_visited.
    + cbn in Hk. destruct Hk as [<-|[<-|[<-|[]]]]; repeat constructor.
    + cbn in Hk. destruct Hk as [<-|[<-|[<-|[]]]]; exact Hm.
Defined.

(** X16 ([TSP_net.forward], greedy decode): the decode reads
    [self.PE[t+1]] at every step, so an instance with
    [nb_nodes >= max_len_PE] is not decoded: under the assumptions of X15
    on the network, the greedy decode raises IndexError. *)
Theorem greedy_needs_positional_encodings {coord vec att prob score : Type}
  {float_ops : FloatOps prob score}
  (sample : nat -> list (list prob) -> list nat)
  (net : tsp_net coord vec att prob) (x : tensor2 coord) (B : nat)
  (beamsearch : bool) :
  (forall a b : prob, pleb a b = true \/ pleb b a = true) ->
  (forall a b c : prob, pleb a b = true -> pleb b c = true -> pleb a c = true) ->
  1 <= shape0 x ->
  shape2 (fun _ => True) (shape0 x) (shape1 x + 1) (h_encoder_of net x) ->
  dec_wf (decoder net) ->
  masks_visited (decoder net) (map (WK_att_decoder net) (h_encoder_of net x))
                (shape1 x + 1) ->
  length (PE net) <= shape1 x ->
  forward sample net x B true beamsearch = Raise IndexError.
Proof.
  intros Htot Htrans Hbsz Hh Hwf Hc HPE.
  rewrite !forward_unfold. cbn zeta.
  rewrite (greedy_search_short_PE sample net (h_encoder_of net x)
             (map (WK_att_decoder net) (h_encoder_of net x))
             (map (WV_att_decoder net) (h_encoder_of net x))
             (shape0 x) (shape1 x) Hbsz Hh
             ltac:(rewrite length_map; apply Hh) ltac:(rewrite length_map; apply Hh)
             Hwf Htot Htrans Hc HPE).
  reflexivity.
Qed.

Lemma greedy_needs_positional_encodings_witness :
  forward draw_first (toy_net (Some 2%Z) 3) three_batches 1 true false
  = Raise IndexError.
Proof.
  apply (greedy_needs_positional_encodings (float_ops := rational_floats)
           draw_first (toy_net (Some 2%Z) 3)
           three_batches 1 false Qle_bool_total Qle_bool_trans).
  - simpl; lia.
  - split; [reflexivity|]. repeat constructor.
  - apply toy_decoder_wf. lia.
  - intros q k v m i j pi pj Hk Hm.
    apply toy_attn_masks_visited.
    + cbn in Hk. destruct Hk as [<-|[<-|[<-|[]]]]; repeat constructor.
    + cbn in Hk. destruct Hk as [<-|[<-|[<-|[]]]]; exact Hm.
  - simpl; lia.
Defined.

Import Torch TSPNet.

(* ================================================================== *)
(** * The beams are kept best first *)

(** Inversion of a chain of [bind]s that returned. *)
Ltac bind_all H :=
  repeat match type of H with
         | bind _ _ = Ok _ =>
             let x := fresh "x" in
             let Hx := fresh "Hx" in
             apply bind_Ok in H as (x & Hx & H)
         | match ?x with pair _ _ => _ end = Ok _ => destruct x
         end.

Section SortedScores.
Context {coord vec att prob score : Type} {float_ops : FloatOps prob score}.

(** The order of the scores is a total preorder. *)
Hypothesis sleb_total : forall a b : score, sleb a b = true \/ sleb b a = true.
Hypothesis sleb_trans :
  forall a b c : score, sleb a b = true -> sleb b c = true -> sleb a c = true.

Lemma insert_desc_best_first (x : nat * score) (l : list (nat * score)) :
  best_first (map snd l) -> best_first (map snd (insert_desc x l)).
Proof.
  induction l as [|y l IH]; intros H; cbn [insert_desc].
  - cbn. split; constructor.
  - destruct (sleb (snd y) (snd x)) eqn:E; cbn [map best_first] in *;
      destruct H as [HF Hb].
    + split; [|split; assumption]. constructor; [exact E|].
      eapply Forall_impl; [|exact HF]. intros b Hb'. cbv beta in *.
      eapply sleb_trans; eauto.
    + split; [|now apply IH].
      apply Forall_forall. intros b Hin. apply in_map_iff in Hin as (p & <- & Hp).
      apply insert_desc_In in Hp as [->|Hp].
      * destruct (sleb_total (snd x) (snd y)); congruence.
      * rewrite Forall_forall in HF. apply HF. now apply in_map.
Qed.

Lemma sort_desc_best_first (l : list score) : best_first (map snd (sort_desc l)).
Proof.
  unfold sort_desc. generalize (combine (seq 0 (length l)) l) as ps.
  induction ps as [|p ps IH]; cbn [fold_right]; [exact I|].
  now apply insert_desc_best_first.
Qed.

Lemma best_first_firstn (k : nat) (l : list score) :
  best_first l -> best_first (firstn k l).
Proof.
  revert k; induction l as [|a l IH]; intros [|k] H; cbn [firstn best_first]; auto.
  destruct H as [HF Hb]. split; [|now apply IH].
  apply Forall_forall. intros b Hin. rewrite Forall_forall in HF.
  apply HF. eapply incl_firstn; eassumption.
Qed.

Lemma topk_best_first (k : nat) (l : list score) (r : list (nat * score)) :
  topk k l = Ok r -> best_first (map snd r).
Proof.
  unfold topk. destruct (k <=? length l); [|discriminate]. intros H.
  injection H as <-. rewrite <- firstn_map.
  apply best_first_firstn, sort_desc_best_first.
Qed.

Lemma topk_rows_best_first (k : nat) (flat : list (list score)) top :
  mapM (topk k) flat = Ok top -> Forall best_first (map (map snd) top).
Proof.
  intros H. apply mapM_Ok_inv in H. apply Forall_map.
  induction H as [|l r flat top Hr _ IH]; constructor; [|exact IH].
  eapply topk_best_first; eassumption.
Qed.

Lemma beam_step0_best_first (net : tsp_net coord vec att prob) h_encoder K_tmp V_tmp
  bsz nb_nodes B dec (s : beam_state vec att prob score) :
  beam_step0 net h_encoder K_tmp V_tmp bsz nb_nodes B dec = Ok s ->
  Forall best_first (b_sum_scores s).
Proof.
  unfold beam_step0, beam_step0_with. intros H. bind_all H. injection H as <-. cbn [b_sum_scores].
  eapply topk_rows_best_first; eassumption.
Qed.

Lemma beam_step_best_first (net : tsp_net coord vec att prob) h_encoder K_tmp V_tmp
  bsz nb_nodes B t B_prev (s s' : beam_state vec att prob score) :
  beam_step net h_encoder K_tmp V_tmp bsz nb_nodes B t B_prev s = Ok s' ->
  Forall best_first (b_sum_scores s').
Proof.
  unfold beam_step, beam_step_with. intros H. bind_all H. injection H as <-. cbn [b_sum_scores].
  eapply topk_rows_best_first; eassumption.
Qed.

Lemma beam_body_best_first (net : tsp_net coord vec att prob) h_encoder K_tmp V_tmp
  bsz nb_nodes B dec t a (s : beam_state vec att prob score) :
  beam_body net h_encoder K_tmp V_tmp bsz nb_nodes B dec t a = Ok (Some s) ->
  Forall best_first (b_sum_scores s).
Proof.
  rewrite beam_body_unfold. cbv zeta. intros H. destruct (t =? 0).
  - bind_all H. injection H as <-. eapply beam_step0_best_first; eassumption.
  - destruct a as [s0|]; [|discriminate]. bind_all H. injection H as <-.
    eapply beam_step_best_first; eassumption.
Qed.

Lemma beam_trace_best_first (net : tsp_net coord vec att prob) h_encoder K_tmp V_tmp
  bsz nb_nodes B dec trace t (s : beam_state vec att prob score) :
  beam_trace net h_encoder K_tmp V_tmp bsz nb_nodes B dec = Ok trace ->
  nth_error trace t = Some (Some s) ->
  Forall best_first (b_sum_scores s).
Proof.
  rewrite beam_trace_unfold. intros H Hs. bind_all H.
  destruct (loop_trace_step _ _ _ _ H) as [Hlen Hstep].
  assert (Ht : t < length trace) by (apply nth_error_Some; congruence).
  destruct (nth_error (None :: trace) t) as [a|] eqn:Ea;
    [|apply nth_error_None in Ea; simpl in Ea; lia].
  destruct (Hstep t a (Some s) Ea Hs) as (tt & _ & Hb).
  eapply beam_body_best_first; eassumption.
Qed.

End SortedScores.

Lemma last_Some_nth_error {A : Type} (l : list (option A)) (a : A) :
  last l None = Some a -> nth_error l (length l - 1) = Some (Some a).
Proof.
  induction l as [|x l IH]; [discriminate|]. destruct l as [|y l].
  - cbn. congruence.
  - intros H. change (last (x :: y :: l) None) with (last (y :: l) None) in H.
    specialize (IH H).
    replace (length (x :: y :: l) - 1) with (S (length (y :: l) - 1))
      by (cbn [length]; lia).
    exact IH.
Qed.

(** X17 ([TSP_net.forward], beam search): whenever the beam search runs, the
    beam scores of every batch row are in non-increasing order after every
    step (they are the values [torch.topk] returns); so the score the call
    returns for a batch row, [sum_scores[:, 0]], is the largest score among
    the beams of that row in the last state, whose tours are the tours
    returned.  Assumed: the order of the scores is total and transitive. *)
Theorem beam_scores_best_first {coord vec att prob score : Type}
  {float_ops : FloatOps prob score}
  (sample : nat -> list (list prob) -> list nat)
  (net : tsp_net coord vec att prob) (x : tensor2 coord) (B : nat) :
  (forall a b : score, sleb a b = true \/ sleb b a = true) ->
  (forall a b c : score, sleb a b = true -> sleb b c = true -> sleb a c = true) ->
  (forall trace t s,
      forward_beam_trace net x B = Ok trace ->
      nth_error trace t = Some (Some s) ->
      Forall best_first (b_sum_scores s)) /\
  (forall tours_greedy tours scores_greedy scores,
      forward sample net x B false true
      = Ok (tours_greedy, LongTensor3 tours, scores_greedy, scores) ->
      exists trace s,
        forward_beam_trace net x B = Ok trace /\ last trace None = Some s /\
        b_tours s = tours /\
        Forall2 (fun row sc =>
                   exists rest, row = sc :: rest /\
                                Forall (fun b => sleb b sc = true) rest)
                (b_sum_scores s) scores).
Proof.
  intros Htot Htrans. split.
  - intros trace t s H Hs. unfold forward_beam_trace in H.
    eapply beam_trace_best_first; eassumption.
  - intros tg tours sg scores H. rewrite forward_runs_beam_trace in H.
    bind_all H. rename x0 into trace.
    destruct (last trace None) as [s|] eqn:El; [|discriminate].
    bind_all H. injection H as _ <- _ <-.
    exists trace, s. split; [assumption|]. split; [exact El|]. split; [reflexivity|].
    pose proof (beam_trace_best_first Htot Htrans _ _ _ _ _ _ _ _ _ _ _ Hx
                  (last_Some_nth_error _ _ El)) as Hsorted.
    match goal with Hm : mapM _ (b_sum_scores s) = Ok _ |- _ =>
      apply mapM_Ok_inv in Hm; induction Hm as [|row sc rows scs Hr _ IH]
    end; [constructor|].
    apply Forall_cons_iff in Hsorted as [Hrow Hrows].
    constructor; [|now apply IH].
    destruct row as [|a rest]; [discriminate|].
    cbn in Hr. injection Hr as <-. exists rest. split; [reflexivity|]. apply Hrow.
Qed.

Lemma logprob_leb_total (a b : logprob) : logprob_leb a b = true \/ logprob_leb b a = true.
Proof. destruct a, b. apply Qle_bool_total. Qed.

Lemma logprob_leb_trans (a b c : logprob) :
  logprob_leb a b = true -> logprob_leb b c = true -> logprob_leb a c = true.
Proof. destruct a, b, c. apply Qle_bool_trans. Qed.

Lemma beam_scores_best_first_witness :
  exists trace s,
    forward_beam_trace (toy_net (Some 2%Z) 8) three_cities 2 = Ok trace /\
    nth_error trace 2 = Some (Some s) /\
    Forall best_first (b_sum_scores s).
Proof.
  assert (E : exists b0 b1 b2,
             forward_beam_trace (toy_net (Some 2%Z) 8) three_cities 2
             = Ok [Some b0; Some b1; Some b2])
    by (do 3 eexists; vm_compute; reflexivity).
  destruct E as (b0 & b1 & b2 & E).
  exists [Some b0; Some b1; Some b2], b2. split; [exact E|]. split; [reflexivity|].
  exact (proj1 (beam_scores_best_first (float_ops := rational_floats) draw_first
                  (toy_net (Some 2%Z) 8) three_cities 2
                  logprob_leb_total logprob_leb_trans)
               _ 2 b2 E eq_refl).
Defined.

Import Torch.

(* ================================================================== *)
(** * Properties of generate_positional_encoding *)

Section PositionalEncodingFacts.
Import PositionalEncoding.

Lemma nth_error_seq0 (n c : nat) : c < n -> nth_error (seq 0 n) c = Some c.
Proof.
  intros H. rewrite (nth_error_nth' _ 0) by (rewrite length_seq; exact H).
  now rewrite seq_nth.
Qed.

Lemma length_assign_slice2 (start : nat) (row vals : list R) :
  length (assign_slice2 start row vals) = length row.
Proof. unfold assign_slice2. now rewrite length_map, length_seq. Qed.

Lemma nth_error_assign_slice2 (start : nat) (row vals : list R) (c : nat) :
  c < length row ->
  nth_error (assign_slice2 start row vals) c
  = Some (if (start <=? c) && Nat.even (c - start)
          then nth (if length vals =? 1 then 0 else (c - start) / 2) vals 0%R
          else nth c row 0%R).
Proof.
  intros H. unfold assign_slice2. now rewrite nth_error_map, nth_error_seq0.
Qed.

Lemma assign_slice2_Forall (P : R -> Prop) (start : nat) (row vals : list R) :
  P 0%R -> Forall P row -> Forall P vals -> Forall P (assign_slice2 start row vals).
Proof.
  intros H0 Hr Hv. unfold assign_slice2. apply Forall_map, Forall_forall.
  intros c _. rewrite Forall_forall in Hr, Hv.
  destruct (_ && _);
    match goal with |- P (nth ?n ?l _) =>
      destruct (nth_in_or_default n l 0%R) as [Hin| ->]; auto
    end.
Qed.

Lemma even_double (i : nat) : Nat.even (2 * i) = true.
Proof. apply Nat.even_spec. now exists i. Qed.

Lemma even_double_pred (i : nat) : 1 <= i -> Nat.even (2 * i - 1) = false.
Proof.
  intros H. rewrite <- Nat.negb_odd.
  replace (Nat.odd (2 * i - 1)) with true; [reflexivity|].
  symmetry. apply Nat.odd_spec. exists (i - 1). lia.
Qed.

Lemma half_double (k : nat) : 2 * k / 2 = k.
Proof. rewrite Nat.mul_comm. apply Nat.div_mul. lia. Qed.

Lemma half_double_succ (k : nat) : (2 * k + 1) / 2 = k.
Proof. symmetry. apply (Nat.div_unique _ _ _ 1); lia. Qed.

Lemma length_arange2_even (k : nat) : length (arange2 (2 * k)) = k.
Proof. unfold arange2. now rewrite length_map, length_seq, half_double_succ. Qed.

Lemma nth_arange2 (d i : nat) : i < (d + 1) / 2 -> nth i (arange2 d) 0 = 2 * i.
Proof.
  intros H. unfold arange2.
  rewrite (nth_indep _ 0 ((fun k => 2 * k) 0)) by (rewrite length_map, length_seq; exact H).
  rewrite map_nth, seq_nth by exact H. reflexivity.
Qed.

(** The table for an even [d_model]: every row has [d_model] entries, and
    the pair of columns [2i], [2i+1] of row [p] holds the sine and the
    cosine of [p * frequency(2i)]. *)
Lemma positional_encoding_entries (k max_len : nat) :
  exists pe,
    generate_positional_encoding (2 * k) max_len = Ok pe /\
    length pe = max_len /\
    forall p, p < max_len ->
      exists row,
        nth_error pe p = Some row /\ length row = 2 * k /\
        forall i, i < k ->
          nth_error row (2 * i) = Some (sin (INR p * frequency (2 * k) (2 * i))) /\
          nth_error row (2 * i + 1) = Some (cos (INR p * frequency (2 * k) (2 * i))).
Proof.
  unfold generate_positional_encoding, set_slice2.
  rewrite !length_map, length_arange2_even.
  assert (E0 : slice2_len 0 (2 * k) = k).
  { unfold slice2_len. rewrite Nat.sub_0_r. apply half_double_succ. }
  assert (E1 : slice2_len 1 (2 * k) = k).
  { unfold slice2_len. destruct k as [|k]; [reflexivity|].
    replace (2 * S k - 1 + 1) with (2 * S k) by lia. apply half_double. }
  rewrite E0, E1, Nat.eqb_refl. cbn [orb bind].
  eexists. split; [reflexivity|].
  split; [rewrite !length_map2, repeat_length, !length_map, length_seq; lia|].
  intros p Hp.
  rewrite !nth_error_map2, (nth_error_repeat _ Hp), !nth_error_map,
    (nth_error_seq0 _ _ Hp).
  cbn [option_map]. eexists. split; [reflexivity|].
  split; [now rewrite !length_assign_slice2, repeat_length|].
  intros i Hi.
  set (div_term := map (frequency (2 * k)) (arange2 (2 * k))).
  assert (Hld : length div_term = k).
  { unfold div_term. now rewrite length_map, length_arange2_even. }
  assert (Hw : nth i div_term 0%R = frequency (2 * k) (2 * i)).
  { rewrite (nth_indep _ 0%R (frequency (2 * k) 0)) by (rewrite Hld; exact Hi).
    unfold div_term.
    rewrite map_nth, nth_arange2; [reflexivity|]. rewrite half_double_succ. exact Hi. }
  assert (Hidx : (if k =? 1 then 0 else i) = i).
  { destruct (Nat.eqb_spec k 1); lia. }
  split.
  - rewrite nth_error_assign_slice2
      by (rewrite length_assign_slice2, repeat_length; lia).
    replace ((1 <=? 2 * i) && Nat.even (2 * i - 1)) with false.
    2:{ destruct i as [|i]; [reflexivity|].
        rewrite even_double_pred by lia. now rewrite andb_false_r. }
    rewrite (nth_error_nth _ _ _
               (nth_error_assign_slice2 0 (repeat 0%R (2 * k)) _ (2 * i)
                  ltac:(rewrite repeat_length; lia))).
    cbn [Nat.leb andb]. rewrite Nat.sub_0_r, even_double, half_double.
    rewrite !length_map, Hld, Hidx.
    rewrite (nth_indep _ 0%R (sin 0)) by (rewrite !length_map, Hld; exact Hi).
    rewrite map_nth.
    rewrite (nth_indep _ 0%R (INR p * 0)%R) by (rewrite !length_map, Hld; exact Hi).
    rewrite (map_nth (fun w => (INR p * w)%R)), Hw. reflexivity.
  - rewrite nth_error_assign_slice2
      by (rewrite length_assign_slice2, repeat_length; lia).
    replace (2 * i + 1 - 1) with (2 * i) by lia.
    replace (1 <=? 2 * i + 1) with true by (symmetry; apply Nat.leb_le; lia).
    rewrite even_double, half_double. cbn [andb].
    rewrite !length_map, Hld, Hidx.
    rewrite (nth_indep _ 0%R (cos 0)) by (rewrite !length_map, Hld; exact Hi).
    rewrite map_nth.
    rewrite (nth_indep _ 0%R (INR p * 0)%R) by (rewrite !length_map, Hld; exact Hi).
    rewrite (map_nth (fun w => (INR p * w)%R)), Hw. reflexivity.
Qed.

End PositionalEncodingFacts.

Import PositionalEncoding.

(** X18 ([generate_positional_encoding]): for an even [d_model] the call
    returns a table of [max_len] rows of [d_model] entries, the standard
    encoding: row [p] holds [sin(p * w)] in column [2i] and [cos(p * w)] in
    column [2i+1], with [w = exp(2i * (-ln 10000 / d_model))]. *)
Theorem positional_encoding_even (d_model max_len : nat) :
  Nat.even d_model = true ->
  exists pe,
    generate_positional_encoding d_model max_len = Ok pe /\
    length pe = max_len /\
    forall p, p < max_len ->
      exists row,
        nth_error pe p = Some row /\ length row = d_model /\
        forall i, 2 * i + 1 < d_model ->
          nth_error row (2 * i) = Some (sin (INR p * frequency d_model (2 * i))) /\
          nth_error row (2 * i + 1) = Some (cos (INR p * frequency d_model (2 * i))).
Proof.
  intros He. apply Nat.even_spec in He as [k ->].
  destruct (positional_encoding_entries k max_len) as (pe & E & Hl & Hrows).
  exists pe. split; [exact E|]. split; [exact Hl|].
  intros p Hp. destruct (Hrows p Hp) as (row & Hr & Hlr & Hent).
  exists row. split; [exact Hr|]. split; [exact Hlr|].
  intros i Hi. apply Hent. lia.
Qed.

Lemma positional_encoding_even_witness :
  exists pe,
    generate_positional_encoding 4 3 = Ok pe /\
    length pe = 3 /\
    forall p, p < 3 ->
      exists row,
        nth_error pe p = Some row /\ length row = 4 /\
        forall i, 2 * i + 1 < 4 ->
          nth_error row (2 * i) = Some (sin (INR p * frequency 4 (2 * i))) /\
          nth_error row (2 * i + 1) = Some (cos (INR p * frequency 4 (2 * i))).
Proof. apply (positional_encoding_even 4 3). reflexivity. Defined.

(** X19 ([generate_positional_encoding]): whenever the call returns, every
    entry of the table lies in [-1, 1]; for an even [d_model] row 0, the
    encoding added to the start placeholder, is [0, 1, 0, 1, ...]. *)
Theorem positional_encoding_bounded (d_model max_len : nat) (pe : list (list R)) :
  generate_positional_encoding d_model max_len = Ok pe ->
  Forall (Forall (fun y => (-1 <= y <= 1)%R)) pe /\
  (Nat.even d_model = true -> 1 <= max_len ->
   exists row,
     nth_error pe 0 = Some row /\ length row = d_model /\
     forall i, 2 * i + 1 < d_model ->
       nth_error row (2 * i) = Some 0%R /\ nth_error row (2 * i + 1) = Some 1%R).
Proof.
  intros H. split.
  - unfold generate_positional_encoding, set_slice2 in H.
    destruct (_ || _); [|discriminate]. cbn [bind] in H.
    destruct (_ || _); [|discriminate]. cbn [bind] in H. injection H as <-.
    assert (H0 : (-1 <= 0 <= 1)%R) by lra.
    apply (Forall_map2 (Forall (fun y => (-1 <= y <= 1)%R))
                       (Forall (fun y => (-1 <= y <= 1)%R))).
    + intros a c Ha Hc. now apply assign_slice2_Forall.
    + apply (Forall_map2 (Forall (fun y => (-1 <= y <= 1)%R))
                         (Forall (fun y => (-1 <= y <= 1)%R))).
      * intros a c Ha Hc. now apply assign_slice2_Forall.
      * apply Forall_forall. intros r Hr. apply repeat_spec in Hr. subst r.
        apply Forall_forall. intros y Hy. apply repeat_spec in Hy. subst y. exact H0.
      * apply Forall_map, Forall_forall. intros r _.
        apply Forall_map, Forall_forall. intros y _. apply SIN_bound.
    + apply Forall_map, Forall_forall. intros r _.
      apply Forall_map, Forall_forall. intros y _. apply COS_bound.
  - intros He Hm. apply Nat.even_spec in He as [k ->].
    destruct (positional_encoding_entries k max_len) as (pe' & E & _ & Hrows).
    rewrite H in E. injection E as <-.
    destruct (Hrows 0 ltac:(lia)) as (row & Hr & Hlr & Hent).
    exists row. split; [exact Hr|]. split; [exact Hlr|].
    intros i Hi. destruct (Hent i ltac:(lia)) as [Hs Hc].
    rewrite Hs, Hc. cbn [INR]. rewrite Rmult_0_l, sin_0, cos_0. split; reflexivity.
Qed.

Lemma positional_encoding_bounded_witness :
  exists pe,
    generate_positional_encoding 2 2 = Ok pe /\
    Forall (Forall (fun y => (-1 <= y <= 1)%R)) pe /\
    exists row,
      nth_error pe 0 = Some row /\ length row = 2 /\
      forall i, 2 * i + 1 < 2 ->
        nth_error row (2 * i) = Some 0%R /\ nth_error row (2 * i + 1) = Some 1%R.
Proof.
  destruct (positional_encoding_entries 1 2) as (pe & E & _).
  exists pe. split; [exact E|].
  destruct (positional_encoding_bounded 2 2 pe E) as [Hb Hrow].
  split; [exact Hb|]. apply Hrow; [reflexivity|lia].
Defined.

(** X20 ([generate_positional_encoding]): an odd [d_model >= 3] is
    rejected: the cosine columns [1::2] are one fewer than the frequencies,
    the assignment [pe[:, 1::2] = cos(...)] fails and the call raises
    RuntimeError, whatever [max_len]. *)
Theorem positional_encoding_odd (d_model max_len : nat) :
  Nat.odd d_model = true -> 3 <= d_model ->
  generate_positional_encoding d_model max_len = Raise RuntimeError.
Proof.
  intros Ho Hd. apply Nat.odd_spec in Ho as [k ->].
  unfold generate_positional_encoding, set_slice2.
  rewrite !length_map. unfold arange2. rewrite length_map, length_seq.
  assert (E : (2 * k + 1 + 1) / 2 = k + 1).
  { symmetry. apply (Nat.div_unique _ _ _ 0); lia. }
  unfold slice2_len. rewrite Nat.sub_0_r, E, Nat.eqb_refl. cbn [orb bind].
  replace (2 * k + 1 - 1 + 1) with (2 * k + 1) by lia.
  rewrite half_double_succ.
  destruct (Nat.eqb_spec (k + 1) k) as [|_]; [lia|].
  destruct (Nat.eqb_spec (k + 1) 1) as [|_]; [lia|]. reflexivity.
Qed.

Lemma positional_encoding_odd_witness :
  generate_positional_encoding 5 10 = Raise RuntimeError.
Proof. apply (positional_encoding_odd 5 10); [reflexivity | lia]. Defined.

Import Torch TSPNet.

(* ================================================================== *)
(** * Properties of ConvEmbeddingXY._sort_by_xy and _sort_by_yx *)

Lemma mapM_of_Forall2 {A B : Type} (f : A -> result B) (l : list A) (r : list B) :
  Forall2 (fun a b => f a = Ok b) l r -> mapM f l = Ok r.
Proof.
  induction 1 as [|a b l r Hab _ IH]; [reflexivity|].
  cbn [mapM]. rewrite Hab. cbn [bind]. rewrite IH. reflexivity.
Qed.

Lemma Forall2_nth_error {A B : Type} (R : A -> B -> Prop) (l : list A) (m : list B) :
  Forall2 R l m ->
  forall i a, nth_error l i = Some a -> exists b, nth_error m i = Some b /\ R a b.
Proof.
  induction 1 as [|x y l m Hxy _ IH]; intros [|i] a H; try discriminate.
  - injection H as <-. exists y. auto.
  - apply IH. exact H.
Qed.

Lemma map_nth_seq {A : Type} (d : A) (l : list A) :
  map (fun i => nth i l d) (seq 0 (length l)) = l.
Proof.
  induction l as [|a l IH]; [reflexivity|].
  cbn [length seq map nth]. f_equal.
  rewrite <- seq_shift, map_map. exact IH.
Qed.

Section SortFacts.
Import ConvXY.

Context {float : Type}.
(** The order of the floats, and [torch.argsort]. *)
Variable leb : float -> float -> bool.
Variable argsort : list float -> list nat.

(** No entry is below an earlier one. *)
Fixpoint ascending (l : list float) : Prop :=
  match l with
  | [] => True
  | a :: tl => Forall (fun b => leb a b = true) tl /\ ascending tl
  end.

(** What [argsort] returns on one row: a permutation of the positions
    that lists the entries in ascending order. *)
Definition argsort_spec (keys : list float) : Prop :=
  Permutation (argsort keys) (seq 0 (length keys)) /\
  forall sorted, mapM (get_nth keys) (argsort keys) = Ok sorted -> ascending sorted.

(** Every point has a coordinate [c]. *)
Definition has_coordinate (c : nat) (coord : list (list (list float))) : Prop :=
  Forall (Forall (fun point : list float => c < length point)) coord.

Definition argsort_sorts (c : nat) (coord : list (list (list float))) : Prop :=
  forall row keys, In row coord -> coordinate c row = Ok keys -> argsort_spec keys.

(** Every row of [out] holds the points of the row of [coord], each once,
    by ascending coordinate [c]. *)
Definition sorted_rows (c : nat) (coord out : list (list (list float))) : Prop :=
  Forall2 (fun row orow =>
             Permutation orow row /\
             exists okeys, coordinate c orow = Ok okeys /\ ascending okeys)
          coord out.

Lemma coordinate_ok (c : nat) (row : list (list float)) :
  Forall (fun point => c < length point) row ->
  exists keys, coordinate c row = Ok keys /\
               Forall2 (fun point k => nth_error point c = Some k) row keys.
Proof.
  induction 1 as [|pt row Hpt _ (keys & E & HF)].
  - exists []. split; [reflexivity | constructor].
  - destruct (nth_error pt c) as [k|] eqn:Ek; [|apply nth_error_None in Ek; lia].
    exists (k :: keys). split; [|now constructor].
    unfold coordinate in *. cbn [mapM]. unfold get_nth at 1. rewrite Ek. cbn [bind].
    rewrite E. reflexivity.
Qed.

Lemma gather_points_ok (row : list (list float)) (idx : list nat) :
  Forall (fun i => i < length row) idx ->
  exists orow, gather_points row idx = Ok orow /\
               Forall2 (fun i point => nth_error row i = Some point) idx orow.
Proof.
  induction 1 as [|i idx Hi _ (orow & E & HF)].
  - exists []. split; [reflexivity | constructor].
  - destruct (nth_error row i) as [pt|] eqn:Ei; [|apply nth_error_None in Ei; lia].
    exists (pt :: orow). split; [|now constructor].
    unfold gather_points in *. cbn [mapM]. unfold get_nth at 1. rewrite Ei. cbn [bind].
    rewrite E. reflexivity.
Qed.

Lemma gathered_permutation {A : Type} (row orow : list A) (idx : list nat) :
  Forall2 (fun i a => nth_error row i = Some a) idx orow ->
  Permutation idx (seq 0 (length row)) -> Permutation orow row.
Proof.
  intros HF HP. destruct row as [|d row'] eqn:Erow.
  - apply Permutation_sym, Permutation_nil in HP. subst idx.
    inversion HF. constructor.
  - rewrite <- Erow in *. clear Erow.
    assert (E : orow = map (fun i => nth i row d) idx).
    { clear HP. induction HF as [|i a idx orow Hi _ IH]; [reflexivity|].
      cbn [map]. rewrite (nth_error_nth _ _ d Hi). now f_equal. }
    rewrite E.
    apply Permutation_trans with (map (fun i => nth i row d) (seq 0 (length row)));
      [now apply Permutation_map | rewrite map_nth_seq; apply Permutation_refl].
Qed.

Lemma sort_row_ok (c : nat) (row : list (list float)) (keys : list float) :
  Forall (fun point => c < length point) row ->
  coordinate c row = Ok keys -> argsort_spec keys ->
  exists orow,
    gather_points row (argsort keys) = Ok orow /\
    Permutation orow row /\
    exists okeys, coordinate c orow = Ok okeys /\ ascending okeys.
Proof.
  intros Hpt Hk [Hperm Hasc].
  destruct (coordinate_ok c row Hpt) as (keys' & E & Hkeys).
  rewrite Hk in E. injection E as <-.
  assert (Hlen : length keys = length row) by (symmetry; eapply Forall2_length; eauto).
  destruct (gather_points_ok row (argsort keys)) as (orow & Eo & Hgather).
  { apply Forall_forall. intros i Hi.
    apply (Permutation_in _ Hperm), in_seq in Hi. lia. }
  exists orow. split; [exact Eo|]. split.
  { eapply gathered_permutation; [exact Hgather|]. now rewrite <- Hlen. }
  assert (Hopt : Forall (fun point => c < length point) orow).
  { apply Forall_forall. intros pt Hin. apply In_nth_error in Hin as (j & Hj).
    apply Forall2_flip in Hgather.
    destruct (Forall2_nth_error _ _ _ Hgather j pt Hj) as (i & _ & Hi).
    rewrite Forall_forall in Hpt. apply Hpt. eapply nth_error_In; exact Hi. }
  destruct (coordinate_ok c orow Hopt) as (okeys & Eok & Hokeys).
  exists okeys. split; [exact Eok|]. apply Hasc. apply mapM_of_Forall2.
  clear - Hgather Hokeys Hkeys.
  revert okeys Hokeys. induction Hgather as [|i pt idx orow Hi _ IH];
    intros okeys Hokeys; inversion Hokeys as [|? k ? okeys' Hk Hrest]; subst;
    constructor; [|now apply IH].
  destruct (Forall2_nth_error _ _ _ Hkeys i pt Hi) as (k' & Hk' & Hc).
  unfold get_nth. rewrite Hk'. congruence.
Qed.

Lemma sort_by_ok (c : nat) (coord : list (list (list float))) :
  has_coordinate c coord -> argsort_sorts c coord ->
  exists out, sort_by argsort c coord = Ok out /\ sorted_rows c coord out.
Proof.
  unfold has_coordinate, argsort_sorts, sort_by, sorted_rows.
  induction coord as [|row coord IH]; intros Hpt Hsort.
  - exists []. split; [reflexivity | constructor].
  - apply Forall_cons_iff in Hpt as [Hrow Hpt].
    destruct (coordinate_ok c row Hrow) as (keys & Ek & _).
    destruct (sort_row_ok c row keys Hrow Ek) as (orow & Eo & Hperm & Hkeys).
    { apply (Hsort row); [now left | exact Ek]. }
    destruct IH as (out & E & Hout); [exact Hpt | |].
    { intros r k Hin. apply Hsort. now right. }
    cbn [mapM]. rewrite Ek. cbn [bind].
    destruct (mapM (coordinate c) coord) as [ks|e]; [|discriminate].
    cbn [bind map mapM2] in *. rewrite Eo. cbn [bind]. rewrite E.
    eexists. split; [reflexivity|]. constructor; [split; assumption | exact Hout].
Qed.

End SortFacts.

Import ConvXY.

(** X21 ([ConvEmbeddingXY._sort_by_xy], [_sort_by_yx]): when [argsort]
    returns, for the x (resp. y) coordinates of each batch row, a
    permutation of the positions that lists them in ascending order, the
    function returns for each batch row the same points, each once, by
    ascending x (resp. y) coordinate; it needs every point to have the
    coordinate. *)
Theorem sort_by_coordinate_sorts_each_row {float : Type}
  (leb : float -> float -> bool) (argsort : list float -> list nat)
  (coord : list (list (list float))) :
  (has_coordinate 0 coord -> argsort_sorts leb argsort 0 coord ->
   exists out, _sort_by_xy argsort coord = Ok out /\ sorted_rows leb 0 coord out) /\
  (has_coordinate 1 coord -> argsort_sorts leb argsort 1 coord ->
   exists out, _sort_by_yx argsort coord = Ok out /\ sorted_rows leb 1 coord out).
Proof. split; apply sort_by_ok. Qed.

Lemma sort_by_coordinate_sorts_each_row_witness :
  exists out,
    _sort_by_xy (fun _ : list Z => [1; 2; 0]) [[ [3; 10]; [1; 20]; [2; 30] ]]%Z = Ok out /\
    sorted_rows Z.leb 0 [[ [3; 10]; [1; 20]; [2; 30] ]]%Z out.
Proof.
  apply (proj1 (sort_by_coordinate_sorts_each_row Z.leb (fun _ : list Z => [1; 2; 0])
                  [[ [3; 10]; [1; 20]; [2; 30] ]]%Z)).
  - repeat constructor.
  - intros row keys [<-|[]] Hk. cbn in Hk. injection Hk as <-. split.
    + apply Permutation_sym. apply (Permutation_cons_append [1; 2] 0).
    + intros sorted Hs. cbn in Hs. injection Hs as <-. cbn. repeat constructor.
Defined.

Import Torch TSPNet.

(* ================================================================== *)
(** * The beam-search calls of the decoder on empty caches *)

Section EmptyCaches.
Context {vec att prob : Type}.

Lemma for_layers_reset_head (n : nat) (ls ls0 : list (DecoderLayer.layer vec att)) :
  DecoderNet.for_layers layer_reset (S n) ls = Ok ls0 ->
  exists ly rest, ls0 = DecoderLayer.reset_selfatt_keys_values ly :: rest.
Proof.
  destruct ls as [|ly ls]; [discriminate|]. cbn [DecoderNet.for_layers].
  unfold layer_reset at 1. cbn [bind].
  destruct (DecoderNet.for_layers layer_reset n ls) as [rest|e]; [|discriminate].
  cbn [bind]. intros H. injection H as <-. eauto.
Qed.

End EmptyCaches.

(** X22 ([Transformer_decoder_net.repeat_selfatt_keys_values],
    [reorder_selfatt_keys_values]): the two beam-search calls need a
    [forward] since the last reset.  Right after a reset, on a decoder
    with an intermediate layer ([nb_layers_decoder >= 2]), the repeat
    raises TypeError and the reorder AttributeError, since the caches are
    [None]; a decoder without intermediate layer has no cache and both
    calls return it unchanged. *)
Theorem decoder_beam_calls_after_reset {vec att prob : Type}
  (d d0 : DecoderNet.decoder_net vec att prob) (B t : nat) (idx_top_beams : tensor2 nat) :
  DecoderNet.reset_selfatt_keys_values d = Ok d0 ->
  (2 <= DecoderNet.nb_layers_decoder d ->
   DecoderNet.repeat_selfatt_keys_values B d0 = Raise TypeError /\
   DecoderNet.reorder_selfatt_keys_values t idx_top_beams d0 = Raise AttributeError) /\
  (DecoderNet.nb_layers_decoder d <= 1 ->
   DecoderNet.repeat_selfatt_keys_values B d0 = Ok d0 /\
   DecoderNet.reorder_selfatt_keys_values t idx_top_beams d0 = Ok d0).
Proof.
  unfold DecoderNet.reset_selfatt_keys_values. fold (@layer_reset vec att). intros H.
  destruct (DecoderNet.for_layers layer_reset _ _) as [ls0|e] eqn:E; [|discriminate].
  cbn [bind] in H. injection H as <-.
  unfold DecoderNet.repeat_selfatt_keys_values, DecoderNet.reorder_selfatt_keys_values.
  cbn [DecoderNet.nb_layers_decoder DecoderNet.decoder_layers DecoderNet.set_layers].
  split; intros HL.
  - destruct (DecoderNet.nb_layers_decoder d - 1) as [|n] eqn:En; [lia|].
    destruct (for_layers_reset_head _ _ _ E) as (ly & rest & ->).
    cbn [DecoderNet.for_layers]. split; reflexivity.
  - replace (DecoderNet.nb_layers_decoder d - 1) with 0 in * by lia.
    cbn in E. injection E as <-. split; reflexivity.
Qed.

Lemma decoder_beam_calls_after_reset_witness :
  exists d0,
    DecoderNet.reset_selfatt_keys_values (toy_decoder (Some 2%Z)) = Ok d0 /\
    DecoderNet.repeat_selfatt_keys_values 3 d0 = Raise TypeError /\
    DecoderNet.reorder_selfatt_keys_values 0 (Tensor2 1 3 [[0; 0; 0]]) d0
    = Raise AttributeError.
Proof.
  eexists. split; [reflexivity|].
  apply (proj1 (decoder_beam_calls_after_reset (toy_decoder (Some 2%Z)) _ 3 0
                  (Tensor2 1 3 [[0; 0; 0]]) eq_refl)).
  simpl. lia.
Defined.

Import Torch TSPNet.

(* ================================================================== *)
(** * The selection rule of the greedy decode *)

(** [torch.stack(cols, dim=1)] read backwards: entry [t] of row [b] is entry
    [b] of the vector appended at step [t]. *)
Lemma stack1_Ok_nth {A : Type} (cols : list (list A)) :
  forall rows, stack1 cols = Ok rows ->
    forall b row t i,
      nth_error rows b = Some row -> nth_error row t = Some i ->
      exists col, nth_error cols t = Some col /\ nth_error col b = Some i.
Proof.
  induction cols as [|c cols IH]; intros rows H b row t i Hb Ht; [discriminate|].
  destruct cols as [|c' cols'].
  - cbn [stack1] in H. injection H as <-.
    rewrite nth_error_map in Hb. destruct (nth_error c b) as [a|] eqn:Ea; [|discriminate].
    cbn [option_map] in Hb. injection Hb as <-.
    destruct t as [|t]; [|destruct t; discriminate].
    cbn in Ht. injection Ht as <-. exists c. split; [reflexivity|exact Ea].
  - change (stack1 (c :: c' :: cols'))
      with (rest <- stack1 (c' :: cols') ;;
            if length c =? length rest then Ok (map2 cons c rest)
            else Raise RuntimeError) in H.
    apply bind_Ok in H as (rest & Hrest & H).
    destruct (length c =? length rest); [|discriminate]. injection H as <-.
    rewrite nth_error_map2 in Hb.
    destruct (nth_error c b) as [a|] eqn:Ea; [|discriminate].
    destruct (nth_error rest b) as [r|] eqn:Er; [|discriminate].
    injection Hb as <-. destruct t as [|t].
    + cbn in Ht. injection Ht as <-. exists c. split; [reflexivity|exact Ea].
    + cbn [nth_error] in Ht.
      destruct (IH rest Hrest b r t i Er Ht) as (col & Hc & Hi).
      exists col. split; [exact Hc|exact Hi].
Qed.

Lemma last_cons_default {A : Type} (l : list A) :
  forall a d, last (a :: l) d = last l a.
Proof.
  induction l as [|b l IH]; intros a d; [reflexivity|].
  change (last (a :: b :: l) d) with (last (b :: l) d).
  now rewrite (IH b d), (IH b a).
Qed.

Section GreedySelection.
Context {coord vec att prob score : Type} {float_ops : FloatOps prob score}.
Variable sample : nat -> list (list prob) -> list nat.
Variable net : tsp_net coord vec att prob.
Variable h_encoder : list (list vec).
Variables K_att_decoder V_att_decoder : list att.

(** What step [t] appends to [tours] with [deterministic = True]: the
    arg-max of every row of the [prob_next_node] the decoder returns for
    the state [s] the step starts from. *)
Definition argmax_column (s : greedy_state vec att prob score) (col : list nat) : Prop :=
  exists prob_next_node dec,
    DecoderNet.forward (g_decoder s) (g_h_t s) K_att_decoder V_att_decoder
                       (g_mask_visited_nodes s) = Ok (prob_next_node, dec) /\
    mapM argmax prob_next_node = Ok col.

Lemma greedy_body_column (t : nat) (s s' : greedy_state vec att prob score) :
  greedy_body sample net true h_encoder K_att_decoder V_att_decoder t s = Ok s' ->
  exists col, g_tours s' = g_tours s ++ [col] /\ argmax_column s col.
Proof.
  unfold greedy_body. intros H.
  apply bind_Ok in H as ([p dec] & Hd & H).
  apply bind_Ok in H as (idx & Hidx & H).
  apply bind_Ok in H as (ProbOfChoices & _ & H).
  apply bind_Ok in H as (h_t & _ & H).
  apply bind_Ok in H as (pe & _ & H).
  apply bind_Ok in H as (m & _ & H). injection H as <-.
  exists idx. split; [reflexivity|]. exists p, dec. split; assumption.
Qed.

(** The columns the loop appends, in order, each the arg-max column of the
    state its step starts from. *)
Lemma greedy_loop_columns (ts : list nat) :
  forall (s0 : greedy_state vec att prob score) trace,
    loop_trace (greedy_body sample net true h_encoder K_att_decoder V_att_decoder)
               ts s0 = Ok trace ->
    exists cols,
      g_tours (last trace s0) = g_tours s0 ++ cols /\
      forall t col, nth_error cols t = Some col ->
        exists s, nth_error (s0 :: trace) t = Some s /\ argmax_column s col.
Proof.
  induction ts as [|t0 ts IH]; intros s0 trace H; cbn [loop_trace] in H.
  - injection H as <-. exists []. split; [cbn; now rewrite app_nil_r|].
    intros [|t] col Hc; discriminate.
  - apply bind_Ok in H as (s1 & Hs1 & H).
    apply bind_Ok in H as (rest & Hrest & H). injection H as <-.
    destruct (greedy_body_column _ _ _ Hs1) as (col0 & E0 & Hcol0).
    destruct (IH _ _ Hrest) as (cols & E & Hcols).
    exists (col0 :: cols). split.
    + rewrite last_cons_default, E, E0, <- app_assoc. reflexivity.
    + intros [|t] col Hc; cbn [nth_error] in Hc |- *.
      * injection Hc as <-. exists s0. split; [reflexivity|exact Hcol0].
      * apply Hcols in Hc. exact Hc.
Qed.

End GreedySelection.

(** C7: [forward] assigns [deterministic = True] at the head of the greedy
    branch and has no parameter to change it, so the sampling rule its
    docstring documents is never used.  (a) The result of [forward] does
    not depend on the sampling oracle, whatever the flags.  (b) Whenever a
    call with the greedy decode returns, entry [tours_greedy[b][t]] is the
    arg-max of row [b] of the [prob_next_node] that the decoder returned at
    step [t], for the state that step started from; under a total and
    transitive order on the probabilities, no entry of that row exceeds the
    chosen one. *)
Theorem forward_selects_by_argmax {coord vec att prob score : Type}
  {float_ops : FloatOps prob score}
  (sample : nat -> list (list prob) -> list nat)
  (net : tsp_net coord vec att prob) (x : tensor2 coord) (B : nat)
  (beamsearch : bool) :
  (forall sample' greedy,
      forward sample net x B greedy beamsearch
      = forward sample' net x B greedy beamsearch) /\
  forall tours_greedy tours_beamsearch scores_greedy scores_beamsearch,
    forward sample net x B true beamsearch
    = Ok (tours_greedy, tours_beamsearch, scores_greedy, scores_beamsearch) ->
    exists s0 trace tours,
      forward_greedy_trace sample net x = Ok (s0, trace) /\
      tours_greedy = LongTensor2 tours /\
      forall b t i row,
        nth_error tours b = Some row -> nth_error row t = Some i ->
        exists s prob_next_node dec p,
          nth_error (s0 :: trace) t = Some s /\
          DecoderNet.forward (g_decoder s) (g_h_t s)
            (map (WK_att_decoder net) (h_encoder_of net x))
            (map (WV_att_decoder net) (h_encoder_of net x))
            (g_mask_visited_nodes s) = Ok (prob_next_node, dec) /\
          nth_error prob_next_node b = Some p /\
          argmax p = Ok i /\
          ((forall a c : prob, pleb a c = true \/ pleb c a = true) ->
           (forall a c d : prob, pleb a c = true -> pleb c d = true -> pleb a d = true) ->
           exists pi, nth_error p i = Some pi /\ Forall (fun q => pleb q pi = true) p).
Proof.
  split; [reflexivity|].
  intros tg tb sg sb H. rewrite forward_unfold in H. cbv zeta in H.
  apply bind_Ok in H as ([[tg' sg'] dec'] & Hg & H).
  apply bind_Ok in H as ([tb' sb'] & _ & H). injection H as <- _ _ _.
  apply bind_Ok in Hg as ([[tours sl] dec''] & Hs & Hg). injection Hg as <- _ _.
  unfold greedy_search in Hs.
  apply bind_Ok in Hs as ([s0 trace] & Htr & Hs).
  apply bind_Ok in Hs as (sums & _ & Hs).
  apply bind_Ok in Hs as (tours' & Hst & Hs). injection Hs as -> _ _.
  exists s0, trace, tours. split; [exact Htr|]. split; [reflexivity|].
  intros b t i row Hb Ht.
  destruct (stack1_Ok_nth _ _ Hst b row t i Hb Ht) as (col & Hcol & Hi).
  unfold greedy_trace in Htr.
  apply bind_Ok in Htr as ([h_start m0] & _ & Htr).
  apply bind_Ok in Htr as (dec0 & _ & Htr).
  apply bind_Ok in Htr as (tr & Hloop & Htr). injection Htr as <- <-.
  destruct (greedy_loop_columns _ _ _ _ _ _ _ _ Hloop) as (cols & E & Hcols).
  cbn [g_tours app] in E. rewrite E in Hcol.
  destruct (Hcols t col Hcol) as (s & Hs & pnn & dec & Hd & Ha).
  destruct (mapM_Ok_nth _ _ _ Ha) as [_ Hn].
  destruct (Hn b i Hi) as (p & Hp & Hpi).
  exists s, pnn, dec, p. repeat (split; [assumption|]).
  intros Htot Htrans. eapply argmax_spec; eassumption.
Qed.

Lemma forward_selects_by_argmax_witness :
  exists tours_beamsearch scores_greedy scores_beamsearch p,
    forward draw_last (toy_net None 8) three_cities 1 true false
    = Ok (LongTensor2 [[0; 1; 2]], tours_beamsearch, scores_greedy,
          scores_beamsearch) /\
    argmax p = Ok 1 /\
    exists pi, nth_error p 1 = Some pi /\ Forall (fun q => Qle_bool q pi = true) p.
Proof.
  assert (E : exists tb sg sb,
             forward draw_last (toy_net None 8) three_cities 1 true false
             = Ok (LongTensor2 [[0; 1; 2]], tb, sg, sb))
    by (do 3 eexists; vm_compute; reflexivity).
  destruct E as (tb & sg & sb & E).
  destruct (proj2 (forward_selects_by_argmax draw_last (toy_net None 8)
                     three_cities 1 false) _ _ _ _ E)
    as (s0 & trace & tours & _ & Et & H).
  injection Et as <-.
  destruct (H 0 1 1 [0; 1; 2] eq_refl eq_refl)
    as (s & pnn & dec & p & _ & _ & _ & Ha & Hmax).
  exists tb, sg, sb, p. split; [exact E|]. split; [exact Ha|].
  exact (Hmax Qle_bool_total Qle_bool_trans).
Defined.

(* ================================================================== *)
(** * Beam search under any order among equal scores *)

Section TopkCandidates.
Context {prob score : Type} {float_ops : FloatOps prob score}.

(** All lists of [k] entries of [xs]. *)
Fixpoint tuples {A : Type} (k : nat) (xs : list A) : list (list A) :=
  match k with
  | 0 => [[]]
  | S k' => flat_map (fun x => map (cons x) (tuples k' xs)) xs
  end.

Lemma tuples_In {A : Type} (xs r : list A) :
  Forall (fun x => In x xs) r -> In r (tuples (length r) xs).
Proof.
  induction 1 as [|x r Hx _ IH]; cbn [length tuples]; [now left|].
  apply in_flat_map. exists x. split; [exact Hx|]. now apply in_map.
Qed.

Fixpoint nodupb (l : list nat) : bool :=
  match l with
  | [] => true
  | a :: tl => negb (existsb (Nat.eqb a) tl) && nodupb tl
  end.

Lemma existsb_eqb_In (a : nat) (l : list nat) :
  existsb (Nat.eqb a) l = true <-> In a l.
Proof.
  rewrite existsb_exists. split.
  - intros (x & Hx & E). apply Nat.eqb_eq in E. now subst.
  - intros H. exists a. split; [exact H|apply Nat.eqb_refl].
Qed.

Lemma NoDup_nodupb (l : list nat) : NoDup l -> nodupb l = true.
Proof.
  induction 1 as [|a l Ha _ IH]; [reflexivity|]. cbn [nodupb].
  rewrite IH, andb_true_r. apply negb_true_iff.
  destruct (existsb (Nat.eqb a) l) eqn:E; [|reflexivity].
  apply existsb_eqb_In in E. contradiction.
Qed.

Fixpoint best_firstb (l : list score) : bool :=
  match l with
  | [] => true
  | a :: tl => forallb (fun b => sleb b a) tl && best_firstb tl
  end.

Lemma best_first_best_firstb (l : list score) : best_first l -> best_firstb l = true.
Proof.
  induction l as [|a l IH]; [reflexivity|]. cbn [best_first best_firstb].
  intros [HF Hb]. rewrite (IH Hb), andb_true_r.
  apply forallb_forall. rewrite Forall_forall in HF. exact HF.
Qed.

Lemma best_first_app (a b : list score) :
  best_first (a ++ b) ->
  best_first a /\ forall x y, In x a -> In y b -> sleb y x = true.
Proof.
  induction a as [|x0 a IH]; cbn [app best_first].
  - intros _. split; [exact I|]. intros x y [].
  - intros [HF Hb]. destruct (IH Hb) as [Ha Hab].
    apply Forall_app in HF as [HFa HFb]. split; [split; assumption|].
    intros x y [<-|Hx] Hy.
    + rewrite Forall_forall in HFb. now apply HFb.
    + now apply Hab.
Qed.

(** What can be checked of a selection [r] from the indexed row [ps]:
    distinct indices, values best first, and no entry left out above one
    taken. *)
Definition admissible (ps r : list (nat * score)) : bool :=
  nodupb (map fst r) && best_firstb (map snd r) &&
  forallb (fun p => existsb (Nat.eqb (fst p)) (map fst r)
                    || forallb (fun q => sleb (snd p) (snd q)) r) ps.

Lemma map_fst_combine_seq (l : list score) :
  map fst (combine (seq 0 (length l)) l) = seq 0 (length l).
Proof.
  generalize 0. induction l as [|a l IH]; intros n; cbn; [reflexivity|].
  now rewrite IH.
Qed.

(** Whatever [torch_topk] returns on a row is among the admissible
    selections of [k] of its indexed entries. *)
Lemma is_topk_candidates
  (torch_topk : nat -> list score -> result (list (nat * score)))
  (k : nat) (l : list score) (r : list (nat * score)) :
  is_topk torch_topk -> torch_topk k l = Ok r ->
  In r (filter (admissible (combine (seq 0 (length l)) l))
               (tuples k (combine (seq 0 (length l)) l))).
Proof.
  intros Hsel E. destruct (Hsel k l) as [_ H].
  destruct (H r E) as (Hlen & rest & HP & Hbf).
  set (ps := combine (seq 0 (length l)) l) in *.
  apply filter_In. split.
  - rewrite <- Hlen. apply tuples_In. apply Forall_forall. intros x Hx.
    eapply Permutation_in; [exact HP|]. apply in_or_app. now left.
  - unfold admissible. rewrite map_app in Hbf.
    destruct (best_first_app _ _ Hbf) as [Hr Htop].
    assert (HND : NoDup (map fst (r ++ rest))).
    { eapply Permutation_NoDup; [apply Permutation_sym, Permutation_map; exact HP|].
      unfold ps. rewrite map_fst_combine_seq. apply seq_NoDup. }
    rewrite map_app in HND. apply NoDup_app_remove_r in HND.
    rewrite (NoDup_nodupb _ HND), (best_first_best_firstb _ Hr). cbn [andb].
    apply forallb_forall. intros p Hp.
    destruct (existsb (Nat.eqb (fst p)) (map fst r)) eqn:Ex; [reflexivity|].
    cbn [orb]. apply forallb_forall. intros q Hq.
    apply Htop; [now apply in_map|].
    assert (Hin : In p (r ++ rest)).
    { eapply Permutation_in; [apply Permutation_sym; exact HP|exact Hp]. }
    apply in_app_or in Hin as [Hin|Hin]; [|now apply in_map].
    exfalso. assert (Ht : existsb (Nat.eqb (fst p)) (map fst r) = true).
    { apply existsb_eqb_In. now apply in_map. }
    congruence.
Qed.

(** ** [topk] is one of the selections [is_topk] admits *)

Hypothesis sleb_total : forall a b : score, sleb a b = true \/ sleb b a = true.
Hypothesis sleb_trans :
  forall a b c : score, sleb a b = true -> sleb b c = true -> sleb a c = true.

Lemma insert_desc_perm (x : nat * score) (l : list (nat * score)) :
  Permutation (insert_desc x l) (x :: l).
Proof.
  induction l as [|y l IH]; cbn [insert_desc]; [reflexivity|].
  destruct (sleb (snd y) (snd x)); [reflexivity|].
  eapply Permutation_trans; [apply perm_skip; exact IH|apply perm_swap].
Qed.

Lemma sort_desc_perm (l : list score) :
  Permutation (sort_desc l) (combine (seq 0 (length l)) l).
Proof.
  unfold sort_desc. generalize (combine (seq 0 (length l)) l) as ps.
  induction ps as [|p ps IH]; cbn [fold_right]; [reflexivity|].
  eapply Permutation_trans; [apply insert_desc_perm|now apply perm_skip].
Qed.

Lemma topk_is_topk : is_topk topk.
Proof.
  intros k l. split.
  - intros Hk. destruct (topk_ok k l Hk) as (r & E & _). exists r. exact E.
  - intros r E. unfold topk in E.
    destruct (Nat.leb_spec k (length l)) as [Hk|]; [|discriminate].
    injection E as <-. split; [rewrite length_firstn, sort_desc_length; lia|].
    exists (skipn k (sort_desc l)). rewrite firstn_skipn.
    split; [apply sort_desc_perm|].
    apply sort_desc_best_first; assumption.
Qed.

End TopkCandidates.

(** C1 fails in the beam search when the width exceeds the number of
    tours: on two cities with three beams, whatever [torch.topk] does with
    equal scores.  Step 0 keeps the two nodes; at step 1 each of the two
    beams has one candidate that is not masked, so the third beam is a
    candidate of score [log 0]: a beam with its own node again or with the
    start placeholder 2.  The call returns the tours [0; 1], [1; 0] and a
    third one that is not a permutation of the nodes. *)
Theorem beam_search_repeats_a_node
  (torch_topk : nat -> list logprob -> result (list (nat * logprob))) :
  is_topk torch_topk ->
  exists third scores_beamsearch,
    forward_with draw_first torch_topk (toy_net None 8) two_cities 3 false true
    = Ok (FloatTensor (zeros2 2 2), LongTensor3 [[[0; 1]; [1; 0]; third]],
          zeros1 2, scores_beamsearch) /\
    (third = [0; 0] \/ third = [0; 2] \/ third = [1; 1] \/ third = [1; 2]) /\
    ~ Permutation third (seq 0 2).
Proof.
  intros Hsel.
  remember (forward_with draw_first torch_topk (toy_net None 8) two_cities 3
              false true) as res eqn:E.
  vm_compute in E.
  match type of E with
  | context [torch_topk ?k ?l] =>
      destruct (proj1 (Hsel k l) ltac:(vm_compute; lia)) as [r0 E0];
      pose proof (is_topk_candidates torch_topk k l r0 Hsel E0) as C0;
      vm_compute in C0; rewrite E0 in E
  end.
  destruct C0 as [<-|[]]. vm_compute in E.
  match type of E with
  | context [torch_topk ?k ?l] =>
      destruct (proj1 (Hsel k l) ltac:(vm_compute; lia)) as [r1 E1];
      pose proof (is_topk_candidates torch_topk k l r1 Hsel E1) as C1;
      vm_compute in C1; rewrite E1 in E
  end.
  assert (Hnp : forall a, ~ Permutation [a; a] (seq 0 2)).
  { intros a P. apply Permutation_sym in P.
    assert (HN : NoDup [a; a]) by (eapply Permutation_NoDup; [exact P|apply seq_NoDup]).
    inversion HN as [|x l Hx _]. apply Hx. now left. }
  assert (Hn2 : forall a, ~ Permutation [a; 2] (seq 0 2)).
  { intros a P. assert (H : In 2 (seq 0 2)).
    { eapply Permutation_in; [exact P|]. right. now left. }
    cbn in H. intuition discriminate. }
  destruct C1 as [<-|[<-|[<-|[<-|[]]]]]; vm_compute in E; subst res;
    do 2 eexists; (split; [reflexivity|]); split; auto 6.
Qed.

Lemma beam_search_repeats_a_node_witness :
  exists third scores_beamsearch,
    forward draw_first (toy_net None 8) two_cities 3 false true
    = Ok (FloatTensor (zeros2 2 2), LongTensor3 [[[0; 1]; [1; 0]; third]],
          zeros1 2, scores_beamsearch) /\
    (third = [0; 0] \/ third = [0; 2] \/ third = [1; 1] \/ third = [1; 2]) /\
    ~ Permutation third (seq 0 2).
Proof.
  exact (beam_search_repeats_a_node topk
           (topk_is_topk logprob_leb_total logprob_leb_trans)).
Defined.

(** The whole decode on a network whose decoder layer has a window of
    length 0: the greedy decode returns, its cache never cut; the beam
    search raises RuntimeError, the reorder of step 1 asking for a view of
    key length 0. *)
Lemma forward_window_zero :
  (exists tours_greedy tours_beamsearch scores_greedy scores_beamsearch,
      forward draw_first (toy_net (Some 0%Z) 8) three_batches 2 true false
      = Ok (tours_greedy, tours_beamsearch, scores_greedy, scores_beamsearch)) /\
  forward draw_first (toy_net (Some 0%Z) 8) three_batches 2 false true
  = Raise RuntimeError.
Proof.
  split; [do 4 eexists|]; vm_compute; reflexivity.
Qed.
